(** * A deployer of Splunk apps, in Rocq

    The Python program [splunk_app_deployer.py] copies apps from a source
    directory into the apps directory of a Splunk installation.  For each
    selected app it checks the layout of the source, archives what is
    deployed already, stamps the version into the descriptor
    [default/app.conf] and replaces the deployed directory.

    This file holds a model of the program and of the parts of Python it
    relies on (strings, [re], [configparser], the file system), followed
    by theorems about the model. *)

From Stdlib Require Import String Ascii DecimalString.
From Stdlib Require DecimalNat.
From Stdlib Require Import List Bool Arith Lia Permutation Sorted.
Import ListNotations.
Open Scope char_scope.
Open Scope list_scope.

(** * Text: Python [str] values

    A Python string is modelled as the list of its characters.  A character
    is an [ascii], read as a code point below 256, so the character classes
    below are the ones Python uses on that range. *)

Definition text := list ascii.

Definition txt (s : string) : text := list_ascii_of_string s.
Arguments txt s%_string.

Definition text_eqb (a b : text) : bool :=
  if list_eq_dec ascii_dec a b then true else false.

Definition code (c : ascii) : nat := nat_of_ascii c.

Definition in_range (lo hi : nat) (c : ascii) : bool :=
  Nat.leb lo (code c) && Nat.leb (code c) hi.

(** [str.isspace] on one character; [\s] of [re] and the argument-less
    [str.strip] use the same class: TAB..CR, FS..US, SPACE, NEL, NBSP. *)
Definition is_space (c : ascii) : bool :=
  in_range 9 13 c || in_range 28 32 c || Nat.eqb (code c) 133 || Nat.eqb (code c) 160.

(** [\d] of [re]: the decimal digits. *)
Definition is_digit (c : ascii) : bool := in_range 48 57 c.

Definition is_nl (c : ascii) : bool := Ascii.eqb c "010".

(** [.] of [re] without DOTALL: anything but a line feed. *)
Definition not_nl (c : ascii) : bool := negb (is_nl c).

Definition is_chr (a : ascii) (c : ascii) : bool := Ascii.eqb c a.

Definition not_chr (a : ascii) (c : ascii) : bool := negb (Ascii.eqb c a).

(** [str.lower] on one character: A-Z and the accented capitals
    (0xC0-0xDE without the multiplication sign) move up by 32. *)
Definition lower_chr (c : ascii) : ascii :=
  if in_range 65 90 c || (in_range 192 222 c && negb (Nat.eqb (code c) 215))
  then ascii_of_nat (code c + 32) else c.

Definition lower (s : text) : text := map lower_chr s.

Fixpoint drop_while (p : ascii -> bool) (s : text) : text :=
  match s with
  | [] => []
  | c :: s' => if p c then drop_while p s' else s
  end.

Fixpoint take_while (p : ascii -> bool) (s : text) : text :=
  match s with
  | [] => []
  | c :: s' => if p c then c :: take_while p s' else []
  end.

Definition lstrip_by (p : ascii -> bool) (s : text) : text := drop_while p s.

Definition rstrip_by (p : ascii -> bool) (s : text) : text :=
  rev (drop_while p (rev s)).

Definition strip_by (p : ascii -> bool) (s : text) : text :=
  rstrip_by p (lstrip_by p s).

(** [s.lstrip()], [s.rstrip()], [s.strip()] *)
Definition lstrip : text -> text := lstrip_by is_space.
Definition rstrip : text -> text := rstrip_by is_space.
Definition strip : text -> text := strip_by is_space.

(** [s.strip] with the double quote as its argument *)
Definition strip_quotes : text -> text := strip_by (is_chr "034").

Definition is_empty (s : text) : bool :=
  match s with [] => true | _ => false end.

Definition starts_with_chr (a : ascii) (s : text) : bool :=
  match s with c :: _ => Ascii.eqb c a | [] => false end.

Fixpoint ends_with (suffix s : text) : bool :=
  text_eqb s suffix ||
  match s with
  | [] => false
  | _ :: s' => ends_with suffix s'
  end.

(** [sep.join(parts)] *)
Fixpoint join (sep : text) (parts : list text) : text :=
  match parts with
  | [] => []
  | [p] => p
  | p :: ps => p ++ sep ++ join sep ps
  end.

(** [s.split('\n')]-like split at every occurrence of one character; the
    result is never empty. *)
Fixpoint split_chr (a : ascii) (s : text) : list text :=
  match s with
  | [] => [[]]
  | c :: s' =>
      if Ascii.eqb c a then [] :: split_chr a s'
      else match split_chr a s' with
           | [] => [[c]]
           | l :: ls => (c :: l) :: ls
           end
  end.

(** * Regular expressions

    The patterns of the program use character classes, greedy [*] and [+]
    on a character class, and the end anchor.  [match_here] is the
    backtracking matcher of [re]: a greedy repetition takes as many
    characters as it can and gives them back one at a time while the rest
    of the pattern fails. *)

Inductive atom : Type :=
| One (p : ascii -> bool)      (* a character of the class *)
| Many (p : ascii -> bool)     (* class*  *)
| Many1 (p : ascii -> bool)    (* class+  *)
| Eos.                         (* $ *)

Definition regex := list atom.

(** [$] without MULTILINE: at the end, or before a line feed that ends the
    string. *)
Definition at_eos (s : text) : bool :=
  match s with
  | [] => true
  | [c] => is_nl c
  | _ => false
  end.

Fixpoint greedy (p : ascii -> bool) (k : text -> option text) (s : text)
  : option text :=
  match s with
  | [] => k []
  | c :: s' =>
      if p c then
        match greedy p k s' with
        | Some r => Some r
        | None => k s
        end
      else k s
  end.

(** [match_here r s] is the text left after the match of [r] at the start
    of [s], if there is one. *)
Fixpoint match_here (r : regex) : text -> option text :=
  match r with
  | [] => fun s => Some s
  | One p :: r' =>
      fun s => match s with
               | c :: s' => if p c then match_here r' s' else None
               | [] => None
               end
  | Many p :: r' => greedy p (match_here r')
  | Many1 p :: r' =>
      fun s => match s with
               | c :: s' => if p c then greedy p (match_here r') s' else None
               | [] => None
               end
  | Eos :: r' => fun s => if at_eos s then match_here r' s else None
  end.

Definition is_some {A} (o : option A) : bool :=
  match o with Some _ => true | None => false end.

(** [re.match(r, s)] as a truth value; a leading [^] adds nothing to it. *)
Definition re_match (r : regex) (s : text) : bool := is_some (match_here r s).

(** [re.sub] of [r] in [s] with the empty replacement: scan from the left,
    delete every match and resume after it.  [skip] counts the characters
    of the current match that are still to be deleted. *)
Fixpoint sub_scan (r : regex) (skip : nat) (s : text) : text :=
  match s with
  | [] => []
  | c :: s' =>
      match skip with
      | S k => sub_scan r k s'
      | O =>
          match match_here r s with
          | Some rest =>
              match length s - length rest with
              | S k => sub_scan r k s'
              | O => c :: sub_scan r 0 s'
              end
          | None => c :: sub_scan r 0 s'
          end
      end
  end.

Definition re_sub (r : regex) (s : text) : text := sub_scan r 0 s.

(** * Version strings and labels *)

(** [r'^\d+\.\d+\.\d+$'], used with [re.match] *)
Definition strict_version : regex :=
  [Many1 is_digit; One (is_chr "."); Many1 is_digit; One (is_chr ".");
   Many1 is_digit; Eos].

(** [r'\s+v\d+\.\d+\.\d+.*$'] *)
Definition version_suffix : regex :=
  [Many1 is_space; One (is_chr "v"); Many1 is_digit; One (is_chr ".");
   Many1 is_digit; One (is_chr "."); Many1 is_digit; Many not_nl; Eos].

(** [r'\s*\([^)]*\)$'] *)
Definition paren_suffix : regex :=
  [Many is_space; One (is_chr "("); Many (not_chr ")"); One (is_chr ")"); Eos].

(** The two [re.sub] calls and the [strip] of [update_app_version]. *)
Definition base_label (current_label : text) : text :=
  let base := re_sub version_suffix current_label in
  strip (re_sub paren_suffix base).

(** the f-string joining the base label, [ v] and the version *)
Definition rewrite_label (current_label version : text) : text :=
  base_label current_label ++ txt " v" ++ version.

(** * Dictionaries

    A Python [dict] with string keys, in insertion order. *)

Definition dict (V : Type) := list (text * V).

Fixpoint lookup {V} (k : text) (d : dict V) : option V :=
  match d with
  | [] => None
  | (k', v) :: d' => if text_eqb k' k then Some v else lookup k d'
  end.

Definition mem {V} (k : text) (d : dict V) : bool := is_some (lookup k d).

(** [d[k] = v]: an existing key keeps its place, a new one goes last. *)
Fixpoint assign {V} (k : text) (v : V) (d : dict V) : dict V :=
  match d with
  | [] => [(k, v)]
  | (k', v') :: d' =>
      if text_eqb k' k then (k, v) :: d' else (k', v') :: assign k v d'
  end.

(** [del d[k]] *)
Fixpoint remove_key {V} (k : text) (d : dict V) : dict V :=
  match d with
  | [] => []
  | (k', v') :: d' =>
      if text_eqb k' k then remove_key k d' else (k', v') :: remove_key k d'
  end.

(** * configparser.ConfigParser

    The object built by [configparser.ConfigParser()] with its defaults:
    delimiters [=] and [:], comment prefixes [#] and [;], no inline
    comments, strict, empty lines allowed in values, [DEFAULT] as the
    default section, option names lowered by [optionxform], basic
    interpolation.  A call that raises returns [None]. *)

Record config : Type := mkConfig {
  defaults : dict text;              (* the DEFAULT section *)
  sections : dict (dict text)        (* the other sections, in order *)
}.

Definition empty_config : config := mkConfig [] [].

Definition default_section : text := txt "DEFAULT".

Definition optionxform (optname : text) : text := lower optname.

Definition has_section (cfg : config) (section : text) : bool :=
  mem section (sections cfg).

Definition add_section (cfg : config) (section : text) : option config :=
  if text_eqb section default_section then None
  else if mem section (sections cfg) then None
  else Some (mkConfig (defaults cfg) (sections cfg ++ [(section, [])])).

Definition has_option (cfg : config) (section optname : text) : bool :=
  if is_empty section || text_eqb section default_section
  then mem (optionxform optname) (defaults cfg)
  else match lookup section (sections cfg) with
       | None => false
       | Some d =>
           mem (optionxform optname) d || mem (optionxform optname) (defaults cfg)
       end.

(** The chain of dictionaries a lookup in [section] goes through: the
    section first, then the defaults. *)
Definition unify_values (cfg : config) (section : text)
  : option (text -> option text) :=
  match lookup section (sections cfg) with
  | Some d =>
      Some (fun k => match lookup k d with
                     | Some v => Some v
                     | None => lookup k (defaults cfg)
                     end)
  | None =>
      if text_eqb section default_section
      then Some (fun k => lookup k (defaults cfg))
      else None
  end.

Definition has_percent (v : text) : bool := existsb (is_chr "%") v.

(** [BasicInterpolation._interpolate_some], one level: [ref] is [None]
    outside a reference and holds the name read so far (last character
    first) after [%(].  [deeper] expands a value that itself has a [%]. *)
Fixpoint interpolate_scan (deeper : text -> option text)
    (vars : text -> option text) (ref : option text) (rest : text)
  : option text :=
  match ref with
  | None =>
      match rest with
      | [] => Some []
      | c :: r =>
          if is_chr "%" c then
            match r with
            | [] => None
            | c2 :: r2 =>
                if is_chr "%" c2 then
                  option_map (cons "%") (interpolate_scan deeper vars None r2)
                else if is_chr "(" c2 then
                  interpolate_scan deeper vars (Some []) r2
                else None
            end
          else option_map (cons c) (interpolate_scan deeper vars None r)
      end
  | Some acc =>
      match rest with
      | [] => None
      | c :: r =>
          if is_chr ")" c then
            if is_empty acc then None
            else
              match r with
              | [] => None
              | c2 :: r2 =>
                  if is_chr "s" c2 then
                    match vars (optionxform (rev acc)) with
                    | None => None
                    | Some v =>
                        match (if has_percent v then deeper v else Some v) with
                        | None => None
                        | Some piece =>
                            option_map (app piece)
                              (interpolate_scan deeper vars None r2)
                        end
                    end
                  else None
              end
          else interpolate_scan deeper vars (Some (c :: acc)) r
      end
  end.

(** [depth_left] levels may still be entered; ten at the start, as
    [MAX_INTERPOLATION_DEPTH] allows. *)
Fixpoint interpolate (depth_left : nat) (vars : text -> option text)
    (value : text) : option text :=
  match depth_left with
  | O => None
  | S d => interpolate_scan (interpolate d vars) vars None value
  end.

Definition MAX_INTERPOLATION_DEPTH : nat := 10.

Definition before_get (vars : text -> option text) (value : text)
  : option text :=
  interpolate MAX_INTERPOLATION_DEPTH vars value.

(** [config.get(section, option)] *)
Definition get (cfg : config) (section optname : text) : option text :=
  match unify_values cfg section with
  | None => None
  | Some vars =>
      match vars (optionxform optname) with
      | None => None
      | Some value => before_get vars value
      end
  end.

(** [value.replace] of a doubled percent sign by the empty string *)
Fixpoint remove_escaped_percent (s : text) : text :=
  match s with
  | [] => []
  | c :: r =>
      if is_chr "%" c then
        match r with
        | [] => [c]
        | c2 :: r2 =>
            if is_chr "%" c2 then remove_escaped_percent r2
            else c :: remove_escaped_percent r
        end
      else c :: remove_escaped_percent r
  end.

(** [_KEYCRE]: a percent sign, a name in parentheses, the letter s *)
Definition KEYCRE : regex :=
  [One (is_chr "%"); One (is_chr "("); Many1 (not_chr ")"); One (is_chr ")");
   One (is_chr "s")].

(** [BasicInterpolation.before_set]: [false] when it raises [ValueError]. *)
Definition before_set (value : text) : bool :=
  negb (has_percent (re_sub KEYCRE (remove_escaped_percent value))).

(** [config.set(section, option, value)] *)
Definition set (cfg : config) (section optname value : text) : option config :=
  if negb (is_empty value) && negb (before_set value) then None
  else if is_empty section || text_eqb section default_section
  then Some (mkConfig (assign (optionxform optname) value (defaults cfg))
                      (sections cfg))
  else match lookup section (sections cfg) with
       | None => None
       | Some d =>
           Some (mkConfig (defaults cfg)
                   (assign section (assign (optionxform optname) value d)
                      (sections cfg)))
       end.

(** ** Writing: [config.write(f)]

    One element per call of [f.write]. *)

(** [str(value).replace]: a tab after every line feed *)
Fixpoint indent_continuations (v : text) : text :=
  match v with
  | [] => []
  | c :: r =>
      if is_nl c then c :: "009" :: indent_continuations r
      else c :: indent_continuations r
  end.

Definition nl : text := ["010"].

Definition option_line_out (kv : text * text) : text :=
  fst kv ++ txt " = " ++ indent_continuations (snd kv) ++ nl.

Definition write_section (name : text) (items : dict text) : list text :=
  (txt "[" ++ name ++ txt "]" ++ nl) :: map option_line_out items ++ [nl].

Definition write_chunks (cfg : config) : list text :=
  (match defaults cfg with
   | [] => []
   | _ => write_section default_section (defaults cfg)
   end)
  ++ flat_map (fun s => write_section (fst s) (snd s)) (sections cfg).

Definition render (cfg : config) : text := concat (write_chunks cfg).

(** ** Reading: [config.read(path)] on the text of the file *)

(** Text mode with universal newlines: CR LF and a lone CR arrive as LF. *)
Fixpoint universal_newlines (s : text) : text :=
  match s with
  | [] => []
  | c :: r =>
      if is_chr "013" c then
        "010" :: match r with
                 | [] => []
                 | c2 :: r2 =>
                     if is_nl c2 then universal_newlines r2
                     else universal_newlines r
                 end
      else c :: universal_newlines r
  end.

(** The lines a file object yields, without their line feed. *)
Fixpoint lines_of (s : text) : list text :=
  match s with
  | [] => []
  | c :: r =>
      if is_nl c then [] :: lines_of r
      else match lines_of r with
           | [] => [[c]]
           | l :: ls => (c :: l) :: ls
           end
  end.

(** [cursect]: nothing yet, the defaults, or the section added last. *)
Inductive cursor : Type := NoSection | InDefaults | InLast.

(** The state of [RawConfigParser._read] between two lines.  Values are
    kept as lists of lines until the end.  [p_opt] tells that [optname] is
    set; it then names the last option of the current section. *)
Record pstate : Type := mkPstate {
  p_defaults : dict (list text);
  p_sections : dict (dict (list text));
  p_cur : cursor;
  p_opt : bool;
  p_indent : nat
}.

Definition initial_pstate : pstate := mkPstate [] [] NoSection false 0.

Definition is_comment_prefix (c : ascii) : bool := is_chr "#" c || is_chr ";" c.

(** A full-line comment: the stripped line starts with a comment prefix. *)
Definition is_comment (line : text) : bool :=
  match strip line with
  | c :: _ => is_comment_prefix c
  | [] => false
  end.

(** [NONSPACECRE.search(line).start()] *)
Definition indent_of (line : text) : nat :=
  length (take_while is_space line).

(** [SECTCRE.match(value)], [\[(?P<header>.+)\]]: the header runs from the
    first character after the bracket to the last closing bracket. *)
Definition section_header (value : text) : option text :=
  match value with
  | c :: r =>
      if is_chr "[" c then
        match rev (drop_while (not_chr "]") (rev r)) with
        | [] => None
        | body => match removelast body with
                  | [] => None
                  | header => Some header
                  end
        end
      else None
  | [] => None
  end.

Definition is_delimiter (c : ascii) : bool := is_chr "=" c || is_chr ":" c.

Definition not_delimiter (c : ascii) : bool := negb (is_delimiter c).

(** [OPTCRE.match(value)]: the option name is the shortest prefix followed
    by optional space and a delimiter; the value is what follows the
    delimiter and the space after it. *)
Definition split_option (value : text) : option (text * text) :=
  match drop_while not_delimiter value with
  | [] => None
  | _ :: after =>
      Some (rstrip (take_while not_delimiter value), lstrip after)
  end.

(** [cursect[optname].append(piece)] on the last option of a section *)
Fixpoint append_last (piece : text) (d : dict (list text)) : dict (list text) :=
  match d with
  | [] => []
  | [(k, ls)] => [(k, ls ++ [piece])]
  | kv :: d' => kv :: append_last piece d'
  end.

Fixpoint on_last_section (f : dict (list text) -> dict (list text))
    (ss : dict (dict (list text))) : dict (dict (list text)) :=
  match ss with
  | [] => []
  | [(name, d)] => [(name, f d)]
  | s :: ss' => s :: on_last_section f ss'
  end.

Definition last_section (ss : dict (dict (list text))) : dict (list text) :=
  match rev ss with
  | (_, d) :: _ => d
  | [] => []
  end.

Definition current_options (st : pstate) : dict (list text) :=
  match p_cur st with
  | NoSection => []
  | InDefaults => p_defaults st
  | InLast => last_section (p_sections st)
  end.

Definition on_current (f : dict (list text) -> dict (list text)) (st : pstate)
  : pstate :=
  match p_cur st with
  | NoSection => st
  | InDefaults =>
      mkPstate (f (p_defaults st)) (p_sections st) (p_cur st) (p_opt st)
        (p_indent st)
  | InLast =>
      mkPstate (p_defaults st) (on_last_section f (p_sections st)) (p_cur st)
        (p_opt st) (p_indent st)
  end.

Definition has_cursor (st : pstate) : bool :=
  match p_cur st with NoSection => false | _ => true end.

(** One turn of the loop of [_read]; [None] when the line makes [read]
    raise (a duplicate, a line before any section, a line that is neither
    a header nor an option, an option without a name). *)
Definition parse_line (st : pstate) (line : text) : option pstate :=
  if is_comment line then Some st
  else
    let value := strip line in
    if is_empty value then
      Some (if has_cursor st && p_opt st
            then on_current (append_last []) st else st)
    else
      let cur_indent := indent_of line in
      if has_cursor st && p_opt st && (p_indent st <? cur_indent)%nat then
        Some (on_current (append_last value) st)
      else
        match section_header value with
        | Some sectname =>
            if mem sectname (p_sections st) then None
            else if text_eqb sectname default_section then
              Some (mkPstate (p_defaults st) (p_sections st) InDefaults false
                      cur_indent)
            else
              Some (mkPstate (p_defaults st)
                      (p_sections st ++ [(sectname, [])]) InLast false
                      cur_indent)
        | None =>
            if negb (has_cursor st) then None
            else
              match split_option value with
              | None => None
              | Some (optname, optval) =>
                  if is_empty optname then None
                  else
                    let optname := optionxform (rstrip optname) in
                    if mem optname (current_options st) then None
                    else
                      let st' :=
                        on_current (fun d => d ++ [(optname, [strip optval])])
                          st in
                      Some (mkPstate (p_defaults st') (p_sections st')
                              (p_cur st') true cur_indent)
              end
        end.

Fixpoint parse_lines (st : pstate) (lines : list text) : option pstate :=
  match lines with
  | [] => Some st
  | line :: rest =>
      match parse_line st line with
      | Some st' => parse_lines st' rest
      | None => None
      end
  end.

(** [_join_multiline_values]: the lines joined by a line feed, then
    [rstrip]. *)
Definition join_value (ls : list text) : text := rstrip (join nl ls).

Definition join_options (d : dict (list text)) : dict text :=
  map (fun kv => (fst kv, join_value (snd kv))) d.

Definition finish (st : pstate) : config :=
  mkConfig (join_options (p_defaults st))
    (map (fun s => (fst s, join_options (snd s))) (p_sections st)).

(** The configuration read from the text of one file. *)
Definition parse (content : text) : option config :=
  option_map finish
    (parse_lines initial_pstate (lines_of (universal_newlines content))).

(** * The file system

    A tree of directories and files.  A path is the list of the names from
    the root to the entry.  Permission bits, links and the log file that
    the logger appends to are left out; the entries of the logger are kept
    in a list of their own.  An archive made by [tarfile] is a file whose
    content is the tree it holds. *)

Definition path := list text.

Inductive node : Type :=
| File (content : text)
| Tarball (arcname : text) (tree : node) (complete : bool)
| Dir (entries : dict node).

(** [a / b] *)
Definition join_path (a b : path) : path := a ++ b.

(** [p.parent]; the root is its own parent. *)
Definition parent (p : path) : path := removelast p.

(** [str(p)] *)
Definition render_path (p : path) : text :=
  txt "/" ++ join (txt "/") p.

Fixpoint lookup_path (n : node) (p : path) : option node :=
  match p with
  | [] => Some n
  | x :: p' =>
      match n with
      | Dir es =>
          match lookup x es with
          | Some child => lookup_path child p'
          | None => None
          end
      | _ => None
      end
  end.

(** [p.exists()] *)
Definition path_exists (fs : node) (p : path) : bool :=
  is_some (lookup_path fs p).

(** [p.is_dir()] *)
Definition is_dir (fs : node) (p : path) : bool :=
  match lookup_path fs p with
  | Some (Dir _) => true
  | _ => false
  end.

(** Put [new] at [p]; the directory that holds [p] has to exist. *)
Fixpoint store (n : node) (p : path) (new : node) : option node :=
  match p with
  | [] => None
  | x :: p' =>
      match n with
      | Dir es =>
          match p' with
          | [] => Some (Dir (assign x new es))
          | _ :: _ =>
              match lookup x es with
              | Some child =>
                  match store child p' new with
                  | Some child' => Some (Dir (assign x child' es))
                  | None => None
                  end
              | None => None
              end
          end
      | _ => None
      end
  end.

(** Take the entry at [p] away. *)
Fixpoint delete (n : node) (p : path) : option node :=
  match p with
  | [] => None
  | x :: p' =>
      match n with
      | Dir es =>
          match p' with
          | [] => if mem x es then Some (Dir (remove_key x es)) else None
          | _ :: _ =>
              match lookup x es with
              | Some child =>
                  match delete child p' with
                  | Some child' => Some (Dir (assign x child' es))
                  | None => None
                  end
              | None => None
              end
          end
      | _ => None
      end
  end.

(** [p.mkdir(parents=True, exist_ok=True)], [os.makedirs]: fails when a
    file is in the way. *)
Fixpoint makedirs (p : path) (n : node) {struct p} : option node :=
  match n with
  | Dir es =>
      match p with
      | [] => Some n
      | x :: p' =>
          match makedirs p' (match lookup x es with
                             | Some child => child
                             | None => Dir []
                             end) with
          | Some child' => Some (Dir (assign x child' es))
          | None => None
          end
      end
  | _ => None
  end.

(** [open(p, 'w')] followed by the writes and the close: the file is
    created or replaced; a directory at [p] or a missing parent makes
    [open] raise. *)
Definition write_file (fs : node) (p : path) (content : text) : option node :=
  if is_dir fs p then None else store fs p (File content).

(** [shutil.rmtree(p)]: [p] has to be a directory. *)
Definition rmtree (fs : node) (p : path) : option node :=
  if is_dir fs p then delete fs p else None.

(** [shutil.copytree(src, dst)]: [src] is a directory, [dst] does not
    exist yet and is made with its parents. *)
Definition copytree (fs : node) (src dst : path) : option node :=
  match lookup_path fs src with
  | Some (Dir es) =>
      if path_exists fs dst then None
      else match dst with
           | [] => None
           | _ :: _ =>
               match makedirs (parent dst) fs with
               | Some fs' => store fs' dst (Dir es)
               | None => None
               end
           end
  | _ => None
  end.

(** [p.iterdir()]: the names in the directory, in the order the system
    lists them; [None] when [p] is not a directory. *)
Definition iterdir (fs : node) (p : path) : option (list text) :=
  match lookup_path fs p with
  | Some (Dir es) => Some (map fst es)
  | _ => None
  end.

(** * The clock *)

Record datetime : Type := mkDatetime {
  year : nat; month : nat; day : nat;
  hour : nat; minute : nat; second : nat
}.

Definition decimal (n : nat) : text :=
  list_ascii_of_string (NilZero.string_of_uint (Nat.to_uint n)).

Definition two_digits (n : nat) : text :=
  if (n <? 10)%nat then "0" :: decimal n else decimal n.

(** [strftime('%Y%m%d%H%M')] *)
Definition build_stamp (t : datetime) : text :=
  decimal (year t) ++ two_digits (month t) ++ two_digits (day t)
  ++ two_digits (hour t) ++ two_digits (minute t).

(** [strftime('%Y%m%d_%H%M%S')] *)
Definition backup_stamp (t : datetime) : text :=
  decimal (year t) ++ two_digits (month t) ++ two_digits (day t) ++ txt "_"
  ++ two_digits (hour t) ++ two_digits (minute t) ++ two_digits (second t).

(** * Ordering names: [sorted] on a list of strings *)

Fixpoint text_leb (a b : text) : bool :=
  match a, b with
  | [], _ => true
  | _ :: _, [] => false
  | x :: a', y :: b' =>
      if (code x <? code y)%nat then true
      else if (code y <? code x)%nat then false
      else text_leb a' b'
  end.

Fixpoint insert_sorted (x : text) (l : list text) : list text :=
  match l with
  | [] => [x]
  | y :: l' => if text_leb x y then x :: l else y :: insert_sorted x l'
  end.

Fixpoint sorted (l : list text) : list text :=
  match l with
  | [] => []
  | x :: l' => insert_sorted x (sorted l')
  end.

(** * The world the program runs in *)

Inductive level : Type := LOG | SUCCESS | WARNING | ERROR | INFO.

(** The operations on the file system that were started, in the order of
    their start: an archive written by [tarfile], a file opened for
    writing, [shutil.rmtree] and [shutil.copytree]. *)
Inductive event : Type :=
| Archived (archive : path) (arcname : text) (tree : node) (complete : bool)
| Wrote (p : path)
| Rmtree (p : path)
| Copytree (src dst : path).

(** What the operator does at a prompt: a line, or Ctrl-C. *)
Inductive keyboard : Type := Typed (line : text) | Interrupt.

Record world : Type := mkWorld {
  fs : node;
  stdin : list keyboard;
  log : list (level * text);
  trace : list event
}.

(** How a call ends: with a value, by [sys.exit], or by an exception that
    nothing on the way catches. *)
Inductive outcome (A : Type) : Type :=
| Done (a : A)
| Exit (status : nat)
| Raised.
Arguments Done {A} a.
Arguments Exit {A} status.
Arguments Raised {A}.

Definition M (A : Type) : Type := world -> outcome A * world.

Definition ret {A} (a : A) : M A := fun w => (Done a, w).

Definition bind {A B} (m : M A) (k : A -> M B) : M B :=
  fun w =>
    match m w with
    | (Done a, w') => k a w'
    | (Exit c, w') => (Exit c, w')
    | (Raised, w') => (Raised, w')
    end.

Notation "x <- m ;; k" := (bind m (fun x => k))
  (at level 61, m at next level, right associativity).
Notation "m ;;; k" := (bind m (fun _ => k))
  (at level 61, right associativity).

Definition logm (l : level) (msg : text) : M unit :=
  fun w => (Done tt, mkWorld (fs w) (stdin w) (log w ++ [(l, msg)]) (trace w)).

Definition emit (e : event) : M unit :=
  fun w => (Done tt, mkWorld (fs w) (stdin w) (log w) (trace w ++ [e])).

Definition get_fs : M node := fun w => (Done (fs w), w).

Definition put_fs (n : node) : M unit :=
  fun w => (Done tt, mkWorld n (stdin w) (log w) (trace w)).

(** [input(...)]: the next line typed; the end of the input and Ctrl-C
    raise. *)
Definition input : M text :=
  fun w =>
    match stdin w with
    | [] => (Raised, w)
    | Typed line :: rest =>
        (Done line, mkWorld (fs w) rest (log w) (trace w))
    | Interrupt :: rest => (Raised, mkWorld (fs w) rest (log w) (trace w))
    end.

Definition sys_exit {A} (status : nat) : M A := fun w => (Exit status, w).

(** ** What the environment decides

    A failing operation fails before it changes anything, except the
    write of the descriptor and the making of the archive, which can stop
    half way. *)

Inductive tar_outcome : Type :=
| TarDone            (* the archive is written and closed *)
| TarOpenFails       (* [tarfile.open] raises *)
| TarAddFails.       (* [tar.add] raises, an unfinished archive stays *)

Inductive write_outcome : Type :=
| WriteDone
| WriteOpenFails                 (* [open(path, 'w')] raises *)
| WriteFailsAfter (bytes : nat). (* an exception in the block, when that
                                    many bytes have reached the file *)

(** The clock readings and the faults met while one unit is handled. *)
Record unit_env : Type := mkEnv {
  probe_unreadable : bool;   (* [get_current_version] cannot open the file *)
  backup_time : datetime;
  tar_result : tar_outcome;
  read_unreadable : bool;    (* [update_app_version] cannot open the file *)
  build_time : datetime;
  write_result : write_outcome;
  rmtree_fails : bool;
  copytree_fails : bool
}.

Inductive os : Type := Linux | MacOS | Windows | Unknown.

(** What the operating system refuses to the process whatever the tree
    holds, for the length of the session: [stat_refused p] when
    [os.stat(p)] raises PermissionError, so that [p.exists()] and
    [p.is_dir()] raise it too; [list_refused p] when the directory [p]
    cannot be listed; [mkdir_refused p] when the directory [p] cannot be
    made.  The model asks it where [list_available_apps],
    [get_current_version], [prompt_for_splunk_home] and [restart_splunk]
    probe a path and where a directory is made with its parents; the
    probes made while a unit is deployed are taken to be answered. *)
Record access : Type := mkAccess {
  stat_refused : path -> bool;
  list_refused : path -> bool;
  mkdir_refused : path -> bool
}.

Definition open_access : access :=
  mkAccess (fun _ => false) (fun _ => false) (fun _ => false).

(** [p.mkdir(parents=True, exist_ok=True)] under [above]: the tree
    afterwards and whether the call returned.  The directories that are
    missing are made from the top; a file in the way, or a directory that
    the system refuses to make, stops the call with an exception, and what
    was made before stays. *)
Fixpoint mkdir_parents (refused : path -> bool) (above p : path) (n : node)
    {struct p} : node * bool :=
  match n with
  | Dir es =>
      match p with
      | [] => (n, true)
      | x :: p' =>
          match lookup x es with
          | Some child =>
              let (child', ok) :=
                mkdir_parents refused (above ++ [x]) p' child in
              (Dir (assign x child' es), ok)
          | None =>
              if refused (above ++ [x]) then (n, false)
              else
                let (child', ok) :=
                  mkdir_parents refused (above ++ [x]) p' (Dir []) in
                (Dir (assign x child' es), ok)
          end
      end
  | _ => (n, false)
  end.

(** * SplunkAppManager *)

Definition app_conf : path := [txt "default"; txt "app.conf"].
Definition default_meta : path := [txt "metadata"; txt "default.meta"].

(** [config.read(path)] on a new parser: a file that cannot be opened is
    skipped and leaves the parser empty, a file that cannot be decoded or
    parsed makes it raise. *)
Definition read_config (fs : node) (p : path) (unreadable : bool)
  : option config :=
  match lookup_path fs p with
  | Some (File content) => if unreadable then Some empty_config else parse content
  | Some (Tarball _ _ _) => if unreadable then Some empty_config else None
  | Some (Dir _) => Some empty_config
  | None => Some empty_config
  end.

Definition default_version : text := txt "1.0.0".

Fixpoint first_version (cfg : config) (candidates : list text) : text :=
  match candidates with
  | [] => default_version
  | section :: rest =>
      if has_section cfg section && has_option cfg section (txt "version")
      then match get cfg section (txt "version") with
           | Some v => strip_quotes v
           | None => default_version
           end
      else first_version cfg rest
  end.

(** [get_current_version]; [refused] tells that the system refuses the
    probe [app_conf_path.exists()], which is made before the [try]: the
    result is [None] when the exception leaves the function. *)
Definition get_current_version (fs : node) (apps_source_dir : path)
    (app_name : text) (unreadable refused : bool) : option text :=
  let app_conf_path := apps_source_dir ++ [app_name] ++ app_conf in
  if refused then None
  else if negb (path_exists fs app_conf_path) then Some default_version
  else
    match read_config fs app_conf_path unreadable with
    | None => Some default_version
    | Some cfg => Some (first_version cfg [txt "launcher"; txt "install"])
    end.

Fixpoint first_missing (fs : node) (base : path) (required : list path)
  : option path :=
  match required with
  | [] => None
  | r :: rest =>
      if path_exists fs (base ++ r) then first_missing fs base rest
      else Some (base ++ r)
  end.

Definition required_dirs : list path := [[txt "default"]; [txt "metadata"]].
Definition required_files : list path := [app_conf; default_meta].

Definition validate_app_structure (apps_source_dir : path) (app_name : text)
  : M bool :=
  let app_dir := apps_source_dir ++ [app_name] in
  logm LOG (txt "Validating " ++ app_name ++ txt " app structure...") ;;;
  fs <- get_fs ;;
  match first_missing fs app_dir required_dirs with
  | Some p =>
      logm ERROR (txt "Missing required directory: " ++ render_path p) ;;;
      ret false
  | None =>
      match first_missing fs app_dir required_files with
      | Some p =>
          logm ERROR (txt "Missing required file: " ++ render_path p) ;;;
          ret false
      | None =>
          logm SUCCESS (app_name ++ txt " app structure validation passed") ;;;
          ret true
      end
  end.

(** The configuration [update_app_version] writes back, from the one it
    read; [None] when a call on the way raises. *)
Definition updated_config (cfg : config) (version build_num : text)
  : option config :=
  match (if has_section cfg (txt "launcher") then Some cfg
         else add_section cfg (txt "launcher")) with
  | None => None
  | Some c1 =>
      match set c1 (txt "launcher") (txt "version") version with
      | None => None
      | Some c2 =>
          match (if has_section c2 (txt "install") then Some c2
                 else add_section c2 (txt "install")) with
          | None => None
          | Some c3 =>
              match set c3 (txt "install") (txt "build") build_num with
              | None => None
              | Some c4 =>
                  if has_option c4 (txt "launcher") (txt "label") then
                    match get c4 (txt "launcher") (txt "label") with
                    | None => None
                    | Some current_label =>
                        set c4 (txt "launcher") (txt "label")
                          (rewrite_label current_label version)
                    end
                  else Some c4
              end
          end
      end
  end.

(** [with open(app_conf_path, 'w') as f: config.write(f)]: what is in the
    file afterwards and whether the block ended without an exception. *)
Definition written (cfg : config) (result : write_outcome)
  : option (text * bool) :=
  match result with
  | WriteDone => Some (render cfg, true)
  | WriteOpenFails => None
  | WriteFailsAfter n => Some (firstn n (render cfg), false)
  end.

Definition update_app_version (apps_source_dir : path) (app_name version : text)
    (env : unit_env) : M bool :=
  let app_conf_path := apps_source_dir ++ [app_name] ++ app_conf in
  fs <- get_fs ;;
  if negb (path_exists fs app_conf_path) then
    logm ERROR (txt "App configuration file not found: "
                ++ render_path app_conf_path) ;;;
    ret false
  else
    logm LOG (txt "Updating " ++ app_name ++ txt " version to " ++ version
              ++ txt "...") ;;;
    let failed := logm ERROR (txt "Failed to update version") ;;; ret false in
    match read_config fs app_conf_path (read_unreadable env) with
    | None => failed
    | Some cfg =>
        match updated_config cfg version (build_stamp (build_time env)) with
        | None => failed
        | Some cfg' =>
            match written cfg' (write_result env) with
            | None => failed
            | Some (content, complete) =>
                match write_file fs app_conf_path content with
                | None => failed
                | Some fs' =>
                    put_fs fs' ;;;
                    emit (Wrote app_conf_path) ;;;
                    if complete then
                      logm SUCCESS (app_name ++ txt " version updated to "
                                    ++ version) ;;;
                      ret true
                    else failed
                end
            end
        end
    end.

(** The probes of [list_available_apps] for one name of the listing:
    [app_path.is_dir()] and, for a directory,
    [app_conf_path.exists()]. *)
Definition probe_refused (acc : access) (fs : node) (apps_source_dir : path)
    (name : text) : bool :=
  stat_refused acc (apps_source_dir ++ [name])
  || (is_dir fs (apps_source_dir ++ [name])
      && stat_refused acc (apps_source_dir ++ [name] ++ app_conf)).

(** [list_available_apps]; [None] when an exception leaves it: a probe
    that the system refuses, or [iterdir] on what is not a directory or
    cannot be listed. *)
Definition list_available_apps (fs : node) (apps_source_dir : path)
    (acc : access) : option (list text) :=
  if stat_refused acc apps_source_dir then None
  else if negb (path_exists fs apps_source_dir) then Some []
  else if list_refused acc apps_source_dir then None
  else
    match iterdir fs apps_source_dir with
    | None => None
    | Some names =>
        if existsb (probe_refused acc fs apps_source_dir) names then None
        else
          Some (sorted
                  (filter (fun name =>
                             is_dir fs (apps_source_dir ++ [name])
                             && path_exists fs
                                  (apps_source_dir ++ [name] ++ app_conf))
                     names))
    end.

(** * DeploymentManager *)

Record manager : Type := mkManager {
  apps_source_dir : path;
  backup_dir : path;
  os_type : os;
  manager_access : access   (* what the system refuses to the process *)
}.

(** The loops of [select_apps_interactive] and of [run] that print the
    current version of each app: what they print is not kept, but
    [get_current_version] may raise. *)
Fixpoint show_versions (m : manager) (apps : list text) : M unit :=
  match apps with
  | [] => ret tt
  | app :: rest =>
      fs <- get_fs ;;
      match get_current_version fs (apps_source_dir m) app false
              (stat_refused (manager_access m)
                 (apps_source_dir m ++ [app] ++ app_conf)) with
      | None => fun w => (Raised, w)
      | Some _ => show_versions m rest
      end
  end.

Definition backup_name (app_name : text) (t : datetime) : text :=
  app_name ++ txt "_backup_" ++ backup_stamp t ++ txt ".tar.gz".

Definition backup_existing_app (m : manager) (app_name : text)
    (splunk_apps_dir : path) (env : unit_env) : M bool :=
  let app_path := splunk_apps_dir ++ [app_name] in
  fs <- get_fs ;;
  match lookup_path fs app_path with
  | None =>
      logm LOG (txt "No existing " ++ app_name ++ txt " app found to backup") ;;;
      ret true
  | Some tree =>
      logm LOG (txt "Backing up existing " ++ app_name ++ txt " app...") ;;;
      let backup_path :=
        backup_dir m ++ [backup_name app_name (backup_time env)] in
      let failed := logm ERROR (txt "Failed to create backup") ;;; ret false in
      match tar_result env with
      | TarOpenFails => failed
      | TarAddFails =>
          match (if is_dir fs backup_path then None
                 else store fs backup_path (Tarball app_name tree false)) with
          | None => failed
          | Some fs' =>
              put_fs fs' ;;;
              emit (Archived backup_path app_name tree false) ;;;
              failed
          end
      | TarDone =>
          match (if is_dir fs backup_path then None
                 else store fs backup_path (Tarball app_name tree true)) with
          | None => failed
          | Some fs' =>
              put_fs fs' ;;;
              emit (Archived backup_path app_name tree true) ;;;
              logm SUCCESS (txt "Backup created: " ++ render_path backup_path) ;;;
              ret true
          end
      end
  end.

Definition deploy_app (m : manager) (app_name : text) (target_dir : path)
    (version : text) (env : unit_env) : M bool :=
  let source_dir := apps_source_dir m ++ [app_name] in
  logm LOG (txt "Deploying " ++ app_name ++ txt " app (v" ++ version
            ++ txt ")...") ;;;
  valid <- validate_app_structure (apps_source_dir m) app_name ;;
  if negb valid then
    logm ERROR (txt "App structure validation failed for " ++ app_name) ;;;
    ret false
  else
    backed_up <- backup_existing_app m app_name (parent target_dir) env ;;
    if negb backed_up then
      logm ERROR (txt "Backup failed for " ++ app_name) ;;;
      ret false
    else
      updated <- update_app_version (apps_source_dir m) app_name version env ;;
      if negb updated then
        logm ERROR (txt "Version update failed for " ++ app_name) ;;;
        ret false
      else
        let failed :=
          logm ERROR (txt "Failed to deploy " ++ app_name) ;;; ret false in
        fs0 <- get_fs ;;
        removed <-
          (if path_exists fs0 target_dir then
             logm LOG (txt "Removing existing " ++ app_name ++ txt " app...") ;;;
             emit (Rmtree target_dir) ;;;
             match (if rmtree_fails env then None else rmtree fs0 target_dir) with
             | None => ret false
             | Some fs1 => put_fs fs1 ;;; ret true
             end
           else ret true) ;;
        if negb removed then failed
        else
          logm LOG (txt "Copying " ++ app_name ++ txt " app to Splunk...") ;;;
          emit (Copytree source_dir target_dir) ;;;
          fs1 <- get_fs ;;
          match (if copytree_fails env then None
                 else copytree fs1 source_dir target_dir) with
          | None => failed
          | Some fs2 =>
              put_fs fs2 ;;;
              (match os_type m with
               | Windows => logm LOG (txt "Skipping permission setting on Windows")
               | _ => logm LOG (txt "Setting permissions for " ++ app_name
                                ++ txt " app...")
               end) ;;;
              logm SUCCESS (app_name ++ txt " app deployed successfully") ;;;
              ret true
          end.

Definition validate_deployment (app_name : text) (target_dir : path) : M bool :=
  logm LOG (txt "Validating " ++ app_name ++ txt " deployment...") ;;;
  fs <- get_fs ;;
  if negb (path_exists fs target_dir) then
    logm ERROR (app_name ++ txt " app not found at target location") ;;;
    ret false
  else
    match first_missing fs target_dir required_files with
    | Some p =>
        logm ERROR (txt "Key file missing: " ++ render_path p) ;;;
        ret false
    | None =>
        logm SUCCESS (app_name ++ txt " deployment validation passed") ;;;
        ret true
    end.

(** [prompt_for_version]: the prompt, then the resolution of what was
    typed. *)
Definition prompt_for_version (app_name current_version : text) : M text :=
  raw <- input ;;
  let new_version := strip raw in
  if is_empty new_version then ret current_version
  else if re_match strict_version new_version then ret new_version
  else
    logm WARNING (txt "Invalid version format. Using current version: "
                  ++ current_version) ;;;
    ret current_version.

(** The loop of [run] over the selected apps; [deployed] pairs
    [deployed_apps] with [app_versions]. *)
Fixpoint deploy_selected (m : manager) (splunk_apps_dir : path)
    (envs : nat -> unit_env) (i : nat) (selected : list text)
    (deployed : list (text * text)) : M (list (text * text)) :=
  match selected with
  | [] => ret deployed
  | app :: rest =>
      let env := envs i in
      fs <- get_fs ;;
      match get_current_version fs (apps_source_dir m) app
              (probe_unreadable env)
              (stat_refused (manager_access m)
                 (apps_source_dir m ++ [app] ++ app_conf)) with
      | None => fun w => (Raised, w)
      | Some current_version =>
          new_version <- prompt_for_version app current_version ;;
          let target_dir := splunk_apps_dir ++ [app] in
          ok <- deploy_app m app target_dir new_version env ;;
          deployed' <-
            (if ok then
               validated <- validate_deployment app target_dir ;;
               if validated then
                 logm SUCCESS (app ++ txt " v" ++ new_version
                               ++ txt " deployed and validated") ;;;
                 ret (deployed ++ [(app, new_version)])
               else
                 logm ERROR (app ++ txt " deployment validation failed") ;;;
                 ret deployed
             else
               logm ERROR (app ++ txt " deployment failed") ;;;
               ret deployed) ;;
          deploy_selected m splunk_apps_dir envs (S i) rest deployed'
      end
  end.

(** * The session: [run] and [main] *)

(** [s.split()] *)
Fixpoint words_from (cur : text) (s : text) : list text :=
  match s with
  | [] => match cur with [] => [] | _ => [rev cur] end
  | c :: r =>
      if is_space c then
        match cur with
        | [] => words_from [] r
        | _ => rev cur :: words_from [] r
        end
      else words_from (c :: cur) r
  end.

Definition words (s : text) : list text := words_from [] s.

Definition digit_value (c : ascii) : nat := code c - 48.

(** The digits of a decimal literal, single underscores allowed between
    them; [after_digit] tells whether the previous character was a
    digit. *)
Fixpoint decimal_digits (acc : nat) (after_digit : bool) (s : text)
  : option nat :=
  match s with
  | [] => if after_digit then Some acc else None
  | c :: r =>
      if is_digit c then decimal_digits (10 * acc + digit_value c) true r
      else if is_chr "_" c && after_digit then decimal_digits acc false r
      else None
  end.

(** [int(s)] on a string without spaces: the sign and the magnitude, or
    [None] for [ValueError]. *)
Definition py_int (s : text) : option (bool * nat) :=
  match s with
  | [] => None
  | c :: r =>
      if is_chr "-" c then option_map (pair true) (decimal_digits 0 false r)
      else if is_chr "+" c then option_map (pair false) (decimal_digits 0 false r)
      else option_map (pair false) (decimal_digits 0 false s)
  end.

Definition int_repr (n : bool * nat) : text :=
  match n with
  | (true, S k) => "-" :: decimal (S k)
  | (_, k) => decimal k
  end.

Definition is_yes (choice : text) : bool :=
  text_eqb choice (txt "y") || text_eqb choice (txt "yes").

Definition is_no (choice : text) : bool :=
  text_eqb choice (txt "n") || text_eqb choice (txt "no").

Definition is_info (choice : text) : bool :=
  text_eqb choice (txt "i") || text_eqb choice (txt "info").

(** What the processes started by the program do. *)
Inductive process_result : Type :=
| Returned (code : nat)
| TimedOut
| Failed.

(** The machine the program runs on.  What [git add], [git commit] and
    the restart of Splunk write is theirs to decide: the model takes the
    tree they leave from the tree they find. *)
Record host : Type := mkHost {
  script_dir : path;
  cwd : path;
  host_os : os;
  host_access : access;
  git_available : bool;      (* [git --version] runs and returns 0 *)
  git_add_ok : bool;
  git_add_writes : node -> node;
  git_has_changes : bool;
  git_commit_ok : bool;
  git_commit_writes : node -> node;
  restart_result : process_result;
  restart_writes : node -> node
}.

Record arguments : Type := mkArguments {
  arg_splunk_home : option path;
  arg_splunk_apps_dir : option path;
  arg_apps_source_dir : option path;
  arg_restart : bool;
  arg_help : bool
}.

(** [OSConfig] *)
Definition default_splunk_home (o : os) : path :=
  match o with
  | MacOS => [txt "Applications"; txt "Splunk"]
  | Windows => [txt "C:"; txt "Program Files"; txt "Splunk"]
  | _ => [txt "opt"; txt "splunk"]
  end.

Definition splunk_executable (o : os) : text :=
  match o with
  | Windows => txt "splunk.exe"
  | _ => txt "splunk"
  end.

Definition os_name (o : os) : text :=
  match o with
  | Linux => txt "Linux"
  | MacOS => txt "macOS"
  | Windows => txt "Windows"
  | Unknown => txt "Unknown"
  end.

Definition backslash : text := ["092"].

Definition double_quote : text := ["034"].

(** [str(p)] on Windows, where the first name is the drive. *)
Definition render_windows_path (p : path) : text :=
  match p with
  | [] => backslash
  | drive :: rest => drive ++ backslash ++ join backslash rest
  end.

(** The wrench of the reminder to restart by hand, U+1F527, as the bytes
    of its UTF-8 form. *)
Definition wrench : text := map ascii_of_nat [240; 159; 148; 167].

(** [Path(s)] for what the operator typed: the components between the
    slashes, from the root or from the working directory. *)
Fixpoint resolve (base : path) (components : list text) : path :=
  match components with
  | [] => base
  | c :: rest =>
      if is_empty c || text_eqb c (txt ".") then resolve base rest
      else if text_eqb c (txt "..") then resolve (removelast base) rest
      else resolve (base ++ [c]) rest
  end.

Definition parse_path (cwd : path) (s : text) : path :=
  if starts_with_chr "/" s then resolve [] (split_chr "/" s)
  else resolve cwd (split_chr "/" s).

(** [DeploymentManager.__init__] *)
Definition init_manager (h : host) (args : arguments) : M manager :=
  let src := match arg_apps_source_dir args with
             | Some p => p
             | None => cwd h ++ [txt "apps"]
             end in
  let log_dir := script_dir h ++ [txt "logs"] in
  let backups := script_dir h ++ [txt "backups"] in
  let refused := mkdir_refused (host_access h) in
  fs0 <- get_fs ;;
  let (fs1, made_logs) := mkdir_parents refused [] log_dir fs0 in
  put_fs fs1 ;;;
  if negb made_logs then fun w => (Raised, w)
  else
    let (fs2, made_backups) := mkdir_parents refused [] backups fs1 in
    put_fs fs2 ;;;
    if negb made_backups then fun w => (Raised, w)
    else
      logm LOG (txt "Detected operating system: " ++ os_name (host_os h)) ;;;
      ret (mkManager src backups (host_os h) (host_access h)).

Definition validate_environment (h : host) : M bool :=
  logm LOG (txt "Validating deployment environment...") ;;;
  (match host_os h with
   | Windows =>
       logm WARNING
         (txt "Windows detected - ensure you have proper permissions and tools")
   | _ => ret tt
   end) ;;;
  (if git_available h then ret tt
   else logm WARNING (txt "Git not found - git integration will be disabled")) ;;;
  logm SUCCESS (txt "Environment validation passed") ;;;
  ret true.

Definition prompt_for_splunk_home (h : host) : M path :=
  raw <- input ;;
  let splunk_input := strip raw in
  splunk_home <-
    (if is_empty splunk_input then
       logm INFO (txt "Using default Splunk home: "
                  ++ render_path (default_splunk_home (host_os h))) ;;;
       ret (default_splunk_home (host_os h))
     else ret (parse_path (cwd h) splunk_input)) ;;
  fs <- get_fs ;;
  if stat_refused (host_access h) splunk_home then fun w => (Raised, w)
  else if path_exists fs splunk_home then ret splunk_home
  else
    logm ERROR (txt "Splunk home directory does not exist: "
                ++ render_path splunk_home) ;;;
    sys_exit 1.

(** The loop of [select_apps_interactive] over the numbers typed. *)
Fixpoint select_numbers (available : list text) (nums : list text)
    (selected : list text) : M (list text) :=
  match nums with
  | [] => ret selected
  | num_str :: rest =>
      match py_int num_str with
      | Some (negative, n) =>
          if negb negative && (1 <=? n)%nat && (n <=? length available)%nat then
            let app_name := nth (n - 1) available [] in
            logm INFO (txt "Selected app: " ++ app_name) ;;;
            select_numbers available rest (selected ++ [app_name])
          else
            logm WARNING (txt "Invalid selection: " ++ int_repr (negative, n)
                          ++ txt " (skipping)") ;;;
            select_numbers available rest selected
      | None =>
          logm WARNING (txt "Invalid selection: " ++ num_str
                        ++ txt " (skipping)") ;;;
          select_numbers available rest selected
      end
  end.

Definition select_apps_interactive (m : manager) : M (list text) :=
  fs <- get_fs ;;
  match list_available_apps fs (apps_source_dir m) (manager_access m) with
  | None => fun w => (Raised, w)
  | Some available_apps =>
      if match available_apps with [] => true | _ => false end then
        logm ERROR (txt "No apps found in " ++ render_path (apps_source_dir m)) ;;;
        sys_exit 1
      else
        show_versions m available_apps ;;;
        raw <- input ;;
        let selection := strip raw in
        if is_empty selection then
          logm WARNING
            (txt "No input received. Please enter a valid selection.") ;;;
          sys_exit 1
        else
          logm LOG (txt "User selected: " ++ selection) ;;;
          selected_apps <-
            (if text_eqb (lower selection) (txt "all") then
               logm INFO (txt "Selected all apps for deployment") ;;;
               ret available_apps
             else select_numbers available_apps (words selection) []) ;;
          if match selected_apps with [] => true | _ => false end then
            logm ERROR
              (txt "No valid apps selected. Please run the script again and make a valid selection.") ;;;
            sys_exit 1
          else ret selected_apps
  end.

(** The search for the executable in [restart_splunk], inside its [try]:
    [None] when a probe is refused, else the executable if there is
    one. *)
Definition find_splunk_bin (h : host) (fs : node) (splunk_home : path)
  : option (option path) :=
  let refused := stat_refused (host_access h) in
  let bin := splunk_home ++ [txt "bin"] in
  let first_choice := bin ++ [splunk_executable (host_os h)] in
  let alternative := bin ++ [txt "splunk"] in
  if refused first_choice then None
  else if path_exists fs first_choice then Some (Some first_choice)
  else
    match host_os h with
    | Windows =>
        if refused alternative then None
        else if path_exists fs alternative then Some (Some alternative)
        else Some None
    | _ => Some None
    end.

Definition restart_splunk (h : host) (splunk_home : path) : M bool :=
  fs <- get_fs ;;
  if stat_refused (host_access h) splunk_home then fun w => (Raised, w)
  else if negb (path_exists fs splunk_home) then
    logm WARNING
      (txt "Splunk home not specified or invalid, skipping restart") ;;;
    ret false
  else
    logm LOG (txt "Restarting Splunk...") ;;;
    let bin := splunk_home ++ [txt "bin"] in
    match find_splunk_bin h fs splunk_home with
    | None => logm ERROR (txt "Failed to restart Splunk") ;;; ret false
    | Some None =>
        logm ERROR (txt "Splunk executable not found in " ++ render_path bin) ;;;
        ret false
    | Some (Some splunk_bin) =>
        logm LOG (txt "Using Splunk executable: " ++ render_path splunk_bin) ;;;
        put_fs (restart_writes h fs) ;;;
        match restart_result h with
        | Returned 0 =>
            logm SUCCESS (txt "Splunk restarted successfully") ;;; ret true
        | Returned _ => logm ERROR (txt "Splunk restart failed") ;;; ret false
        | TimedOut => logm ERROR (txt "Splunk restart timed out") ;;; ret false
        | Failed => logm ERROR (txt "Failed to restart Splunk") ;;; ret false
        end
    end.

(** The [while True] loop of [_interactive_restart_prompt]; every turn
    reads a line, so [turns], the number of lines left to read, bounds
    it. *)
Fixpoint restart_prompt_loop (turns : nat) (h : host) (splunk_home : path)
  : M unit :=
  raw <- input ;;
  let choice := lower (strip raw) in
  if is_yes choice then
    logm INFO (txt "Starting Splunk restart...") ;;;
    restart_splunk h splunk_home ;;;
    ret tt
  else if is_no choice then
    logm WARNING (txt "Splunk restart skipped.") ;;;
    logm INFO
      (wrench
       ++ txt " Remember to restart Splunk manually to load the new apps:") ;;;
    (match host_os h with
     | Windows =>
         logm INFO (txt "   " ++ double_quote
                    ++ render_windows_path splunk_home ++ backslash
                    ++ txt "bin" ++ backslash
                    ++ splunk_executable (host_os h) ++ double_quote
                    ++ txt " restart")
     | _ =>
         logm INFO (txt "   " ++ render_path splunk_home ++ txt "/bin/"
                    ++ splunk_executable (host_os h) ++ txt " restart")
     end) ;;;
    ret tt
  else
    match turns with
    | O => input ;;; ret tt
    | S turns' => restart_prompt_loop turns' h splunk_home
    end.

Definition interactive_restart_prompt (h : host) (splunk_home : path) : M unit :=
  fun w => restart_prompt_loop (length (stdin w)) h splunk_home w.

Definition handle_git_operations (h : host) (deployed_apps : list text)
  : M bool :=
  if negb (git_available h) then
    logm INFO (txt "Git not available - skipping git operations") ;;;
    ret false
  else
    raw <- input ;;
    let git_commit := lower (strip raw) in
    if is_yes git_commit then
      logm LOG (txt "Adding files to git...") ;;;
      fs0 <- get_fs ;;
      put_fs (git_add_writes h fs0) ;;;
      if negb (git_add_ok h) then
        logm ERROR (txt "Git operation failed") ;;; ret false
      else if git_has_changes h then
        fs1 <- get_fs ;;
        put_fs (git_commit_writes h fs1) ;;;
        if git_commit_ok h then
          logm SUCCESS (txt "Git commit created for deployed apps: "
                        ++ join (txt ", ") deployed_apps) ;;;
          ret true
        else logm ERROR (txt "Git operation failed") ;;; ret false
      else logm INFO (txt "No changes to commit") ;;; ret false
    else logm INFO (txt "Skipping git commit") ;;; ret false.

Definition show_deployment_summary : M unit :=
  logm SUCCESS (txt "Deployment completed successfully!").

Definition run (h : host) (m : manager) (args : arguments)
    (envs : nat -> unit_env) : M unit :=
  logm LOG (txt "Starting deployment process...") ;;;
  logm LOG (txt "Script dir: " ++ render_path (script_dir h)) ;;;
  logm LOG (txt "Apps source dir: " ++ render_path (apps_source_dir m)) ;;;
  valid <- validate_environment h ;;
  if negb valid then
    logm ERROR (txt "Environment validation failed") ;;; sys_exit 1
  else
    splunk_home <-
      (match arg_splunk_home args with
       | Some p => ret p
       | None => prompt_for_splunk_home h
       end) ;;
    let splunk_apps_dir :=
      match arg_splunk_apps_dir args with
      | Some p => p
      | None => splunk_home ++ [txt "etc"; txt "apps"]
      end in
    logm LOG (txt "Splunk home: " ++ render_path splunk_home) ;;;
    logm LOG (txt "Splunk apps dir: " ++ render_path splunk_apps_dir) ;;;
    fs0 <- get_fs ;;
    let (fs1, made) :=
      mkdir_parents (mkdir_refused (host_access h)) [] splunk_apps_dir fs0 in
    put_fs fs1 ;;;
    if negb made then fun w => (Raised, w)
    else
      selected_apps <- select_apps_interactive m ;;
      show_versions m selected_apps ;;;
      raw <- input ;;
      let proceed := lower (strip raw) in
      if negb (is_yes proceed) then
        logm INFO (txt "Deployment cancelled") ;;; ret tt
      else
        deployed <- deploy_selected m splunk_apps_dir envs 0 selected_apps [] ;;
        (if arg_restart args then restart_splunk h splunk_home ;;; ret tt
         else interactive_restart_prompt h splunk_home) ;;;
        (match deployed with
         | [] => ret tt
         | _ => handle_git_operations h (map fst deployed) ;;; ret tt
         end) ;;;
        show_deployment_summary.

(** The exit status of the process.  [command_line] is what
    [parser.parse_args()] makes of the command line: [None] when it
    rejects it, and the process ends with the status 2 before anything
    else is done.  Otherwise the status is 0 when [main] returns and the
    argument of [sys.exit] when that is called; [main] turns Ctrl-C and
    every other exception into [sys.exit(1)]. *)
Definition main (h : host) (command_line : option arguments)
    (envs : nat -> unit_env) (w : world) : nat * world :=
  match command_line with
  | None => (2, w)
  | Some args =>
      if arg_help args then (0, w)
      else
        match (m <- init_manager h args ;; run h m args envs) w with
        | (Done _, w') => (0, w')
        | (Exit status, w') => (status, w')
        | (Raised, w') => (1, w')
        end
  end.

(** * Notions used in the statements *)

Fixpoint ends_with_eos (r : regex) : bool :=
  match r with
  | [] => false
  | [Eos] => true
  | _ :: r' => ends_with_eos r'
  end.

Definition digits (a : text) : Prop :=
  a <> [] /\ forallb is_digit a = true.

(** MAJOR.MINOR.PATCH: three runs of digits with a dot between them. *)
Inductive Triple : text -> Prop :=
| Triple_intro (a b c : text) :
    digits a -> digits b -> digits c -> Triple (a ++ "." :: b ++ "." :: c).

Definition single_line (s : text) : Prop := forallb not_nl s = true.

(** [cut r s]: [s] up to the first place where [r] matches. *)
Fixpoint cut (r : regex) (s : text) : text :=
  match s with
  | [] => []
  | c :: s' => if is_some (match_here r s) then [] else c :: cut r s'
  end.

(** One stage of the version suffix read from left to right: the rest of a
    run of [p], the character [a], a first digit. *)
Definition stage (p : ascii -> bool) (a : ascii) (k : text -> bool) (s : text)
  : bool :=
  match drop_while p s with
  | x :: c :: s' => is_chr a x && is_digit c && k s'
  | _ => false
  end.

(** Space, [v], digits, a dot, digits, a dot, a digit: the part of the
    version suffix that decides a match on a one-line text. *)
Definition suffix_starts (s : text) : bool :=
  match s with
  | c :: s0 =>
      is_space c &&
      stage is_space "v" (stage is_digit "." (stage is_digit "." (fun _ => true)))
        s0
  | [] => false
  end.

(** No version suffix starts anywhere in the text. *)
Fixpoint suffix_free (s : text) : bool :=
  match s with
  | [] => true
  | _ :: s' => negb (suffix_starts s) && suffix_free s'
  end.

Definition option_of (cfg : config) (section optname : text) : option text :=
  match lookup section (sections cfg) with
  | Some d => lookup optname d
  | None => None
  end.

Definition launcher : text := txt "launcher".
Definition install : text := txt "install".

(** The options [update_app_version] may change. *)
Definition rewritten (section optname : text) : Prop :=
  (section = launcher /\ (optname = txt "version" \/ optname = txt "label"))
  \/ (section = install /\ optname = txt "build").

Definition text_le (a b : text) : Prop := text_leb a b = true.

(** [name] is the name of a directory right under [src] that holds
    [default/app.conf]. *)
Definition deployable (f : node) (src : path) (name : text) : Prop :=
  is_dir f (src ++ [name]) = true
  /\ path_exists f (src ++ [name] ++ app_conf) = true.

Definition evolve (w : world) (f : node) (entries : list (level * text))
    (ops : list event) : world :=
  mkWorld f (stdin w) (log w ++ entries) (trace w ++ ops).

Definition effect : Type :=
  (bool * node * list (level * text) * list event)%type.

Definition apply_effect (e : effect) (w : world) : outcome bool * world :=
  match e with
  | (b, f, entries, ops) => (Done b, evolve w f entries ops)
  end.

Definition validate_result (src : path) (app : text) (f : node) : effect :=
  let start := (LOG, txt "Validating " ++ app ++ txt " app structure...") in
  match first_missing f (src ++ [app]) required_dirs with
  | Some p =>
      (false, f,
       [start; (ERROR, txt "Missing required directory: " ++ render_path p)],
       [])
  | None =>
      match first_missing f (src ++ [app]) required_files with
      | Some p =>
          (false, f,
           [start; (ERROR, txt "Missing required file: " ++ render_path p)],
           [])
      | None =>
          (true, f,
           [start; (SUCCESS, app ++ txt " app structure validation passed")],
           [])
      end
  end.

Definition store_archive (f : node) (archive : path) (app : text) (tree : node)
    (complete : bool) : option node :=
  if is_dir f archive then None else store f archive (Tarball app tree complete).

Definition archive_path (m : manager) (app : text) (env : unit_env) : path :=
  backup_dir m ++ [backup_name app (backup_time env)].

Definition backup_result (m : manager) (app : text) (dir : path)
    (env : unit_env) (f : node) : effect :=
  match lookup_path f (dir ++ [app]) with
  | None =>
      (true, f,
       [(LOG, txt "No existing " ++ app ++ txt " app found to backup")], [])
  | Some tree =>
      let start := (LOG, txt "Backing up existing " ++ app ++ txt " app...") in
      let failure := (ERROR, txt "Failed to create backup") in
      let archive := archive_path m app env in
      match tar_result env with
      | TarOpenFails => (false, f, [start; failure], [])
      | TarAddFails =>
          match store_archive f archive app tree false with
          | None => (false, f, [start; failure], [])
          | Some f' =>
              (false, f', [start; failure], [Archived archive app tree false])
          end
      | TarDone =>
          match store_archive f archive app tree true with
          | None => (false, f, [start; failure], [])
          | Some f' =>
              (true, f',
               [start; (SUCCESS, txt "Backup created: " ++ render_path archive)],
               [Archived archive app tree true])
          end
      end
  end.

Definition update_result (src : path) (app version : text) (env : unit_env)
    (f : node) : effect :=
  let p := src ++ [app] ++ app_conf in
  if negb (path_exists f p) then
    (false, f,
     [(ERROR, txt "App configuration file not found: " ++ render_path p)], [])
  else
    let start := (LOG, txt "Updating " ++ app ++ txt " version to " ++ version
                       ++ txt "...") in
    let failure := (ERROR, txt "Failed to update version") in
    let failed : effect := (false, f, [start; failure], []) in
    match read_config f p (read_unreadable env) with
    | None => failed
    | Some cfg =>
        match updated_config cfg version (build_stamp (build_time env)) with
        | None => failed
        | Some cfg' =>
            match written cfg' (write_result env) with
            | None => failed
            | Some (content, complete) =>
                match write_file f p content with
                | None => failed
                | Some f' =>
                    if complete then
                      (true, f',
                       [start;
                        (SUCCESS, app ++ txt " version updated to " ++ version)],
                       [Wrote p])
                    else (false, f', [start; failure], [Wrote p])
                end
            end
        end
    end.

Definition validate_deployment_result (app : text) (target : path) (f : node)
  : effect :=
  let start := (LOG, txt "Validating " ++ app ++ txt " deployment...") in
  if negb (path_exists f target) then
    (false, f,
     [start; (ERROR, app ++ txt " app not found at target location")], [])
  else
    match first_missing f target required_files with
    | Some p =>
        (false, f,
         [start; (ERROR, txt "Key file missing: " ++ render_path p)], [])
    | None =>
        (true, f,
         [start; (SUCCESS, app ++ txt " deployment validation passed")], [])
    end.

(** The [try] block of [deploy_app]. *)
Definition replace_result (m : manager) (app : text) (target : path)
    (env : unit_env) (f : node) : effect :=
  let source := apps_source_dir m ++ [app] in
  let failure := (ERROR, txt "Failed to deploy " ++ app) in
  let removing := (LOG, txt "Removing existing " ++ app ++ txt " app...") in
  let copying := (LOG, txt "Copying " ++ app ++ txt " app to Splunk...") in
  let permissions :=
    match os_type m with
    | Windows => (LOG, txt "Skipping permission setting on Windows")
    | _ => (LOG, txt "Setting permissions for " ++ app ++ txt " app...")
    end in
  let copy (f1 : node) (lg : list (level * text)) (ops : list event) : effect :=
    match (if copytree_fails env then None else copytree f1 source target) with
    | None =>
        (false, f1, lg ++ [copying; failure], ops ++ [Copytree source target])
    | Some f2 =>
        (true, f2,
         lg ++ [copying; permissions;
                (SUCCESS, app ++ txt " app deployed successfully")],
         ops ++ [Copytree source target])
    end in
  if path_exists f target then
    match (if rmtree_fails env then None else rmtree f target) with
    | None => (false, f, [removing; failure], [Rmtree target])
    | Some f1 => copy f1 [removing] [Rmtree target]
    end
  else copy f [] [].

Definition deploying (app version : text) : level * text :=
  (LOG, txt "Deploying " ++ app ++ txt " app (v" ++ version ++ txt ")...").

Definition deploy_result (m : manager) (app : text) (target : path)
    (version : text) (env : unit_env) (f : node) : effect :=
  match validate_result (apps_source_dir m) app f with
  | (false, _, lg1, _) =>
      (false, f,
       deploying app version :: lg1
       ++ [(ERROR, txt "App structure validation failed for " ++ app)], [])
  | (true, _, lg1, _) =>
      match backup_result m app (parent target) env f with
      | (false, f1, lg2, ops2) =>
          (false, f1,
           deploying app version :: lg1 ++ lg2
           ++ [(ERROR, txt "Backup failed for " ++ app)], ops2)
      | (true, f1, lg2, ops2) =>
          match update_result (apps_source_dir m) app version env f1 with
          | (false, f2, lg3, ops3) =>
              (false, f2,
               deploying app version :: lg1 ++ lg2 ++ lg3
               ++ [(ERROR, txt "Version update failed for " ++ app)],
               ops2 ++ ops3)
          | (true, f2, lg3, ops3) =>
              match replace_result m app target env f2 with
              | (ok, f3, lg4, ops4) =>
                  (ok, f3, deploying app version :: lg1 ++ lg2 ++ lg3 ++ lg4,
                   ops2 ++ ops3 ++ ops4)
              end
          end
      end
  end.

Definition destructive (target : path) (e : event) : Prop :=
  e = Rmtree target \/ exists src, e = Copytree src target.

Definition is_archive (e : event) : Prop :=
  exists archive app tree complete, e = Archived archive app tree complete.

(** The section offers a version: the section exists and the option is in
    it or among the defaults. *)
Definition offers_version (cfg : config) (section : text) : bool :=
  has_section cfg section && has_option cfg section (txt "version").

Definition example_descriptor : text :=
  txt "[launcher]" ++ nl ++ txt "version = 1.0.0" ++ nl
  ++ txt "label = Foo v1.0.0" ++ nl.

Definition example_unit (descriptor : text) : node :=
  Dir [(txt "default", Dir [(txt "app.conf", File descriptor)]);
       (txt "metadata", Dir [(txt "default.meta", File [])])].

(** appA is complete, appB has no [metadata] directory; appA is already
    deployed. *)
Definition example_fs : node :=
  Dir [(txt "src",
        Dir [(txt "appB",
              Dir [(txt "default",
                    Dir [(txt "app.conf", File example_descriptor)])]);
             (txt "appA", example_unit example_descriptor)]);
       (txt "opt",
        Dir [(txt "splunk",
              Dir [(txt "etc", Dir [(txt "apps", Dir [(txt "appA", Dir [])])])])]);
       (txt "tool", Dir [(txt "backups", Dir [])])].

Definition example_time : datetime := mkDatetime 2024 3 7 9 5 1.

Definition example_env : unit_env :=
  mkEnv false example_time TarDone false example_time WriteDone false false.

Definition example_manager : manager :=
  mkManager [txt "src"] [txt "tool"; txt "backups"] Linux open_access.

Definition example_apps_dir : path :=
  [txt "opt"; txt "splunk"; txt "etc"; txt "apps"].

Definition example_world (keys : list keyboard) : world :=
  mkWorld example_fs keys [] [].

Definition example_host : host :=
  mkHost [txt "tool"] [] Linux open_access false true (fun f => f) true true
    (fun f => f) (Returned 0) (fun f => f).

Definition example_arguments : arguments :=
  mkArguments (Some [txt "opt"; txt "splunk"]) None (Some [txt "src"]) true
    false.


Definition example_source : path := [txt "src"].

Definition example_conf_path : path :=
  example_source ++ [txt "appA"] ++ app_conf.

Definition content_at (w : world) (p : path) : option text :=
  match lookup_path (fs w) p with
  | Some (File content) => Some content
  | _ => None
  end.

(** The world after [update_app_version] on appA with the write going as
    [result] says. *)
Definition example_update (result : write_outcome) : outcome bool * world :=
  update_app_version example_source (txt "appA") (txt "2.0.0")
    (mkEnv false example_time TarDone false example_time result false false)
    (example_world []).

Definition kept_verbatim (old new : text) : Prop :=
  forall line, In line (lines_of old) -> In line (lines_of new).

Definition commented_descriptor : text :=
  txt "# settings of the user interface" ++ nl
  ++ txt "[ui]" ++ nl ++ txt "Is_Visible = 1" ++ nl.

Definition commented_world : world :=
  mkWorld (Dir [(txt "src",
                 Dir [(txt "appC", example_unit commented_descriptor)])])
    [] [] [].

Definition commented_update : outcome bool * world :=
  update_app_version example_source (txt "appC") (txt "2.0.0") example_env
    commented_world.

(** ** Descriptors that survive a write and a read *)

Definition is_cr (c : ascii) : bool := is_chr "013" c.

(** A character of a line: neither a line feed nor a carriage return. *)
Definition line_chr (c : ascii) : bool := negb (is_nl c) && negb (is_cr c).

Definition clean_line (s : text) : Prop := forallb line_chr s = true.

Definition no_cr (s : text) : Prop :=
  forallb (fun c => negb (is_cr c)) s = true.

Definition key_chr (c : ascii) : bool := line_chr c && negb (is_delimiter c).

(** An option name as the parser stores it: not empty, on one line,
    without a delimiter, without space at its ends, not starting like a
    comment, in lower case. *)
Definition key_ok (k : text) : Prop :=
  k <> []
  /\ forallb key_chr k = true
  /\ (forall c t, k = c :: t ->
        is_space c = false /\ is_comment_prefix c = false)
  /\ (forall a c, k = a ++ [c] -> is_space c = false)
  /\ lower k = k.

Definition first_line (v : text) : text := take_while not_nl v.

(** The line written for the option is not taken for a section header. *)
Definition header_safe (k v : text) : Prop :=
  section_header (strip (k ++ txt " = " ++ first_line v)) = None.

Definition name_ok (n : text) : Prop :=
  n <> [] /\ clean_line n /\ n <> default_section.

Definition entry_ok (kv : text * text) : Prop :=
  key_ok (fst kv) /\ no_cr (snd kv) /\ header_safe (fst kv) (snd kv).

Definition options_ok (d : dict text) : Prop :=
  Forall entry_ok d /\ NoDup (map fst d).

Definition config_ok (cfg : config) : Prop :=
  options_ok (defaults cfg)
  /\ Forall (fun s => name_ok (fst s) /\ options_ok (snd s)) (sections cfg)
  /\ NoDup (map fst (sections cfg)).

(** The lines the parser keeps of a value written by [config.write]: the
    first line and the continuation lines that do not look like a comment,
    each stripped. *)
Definition norm_lines (v : text) : list text :=
  match split_chr "010" v with
  | [] => []
  | l0 :: ls =>
      strip l0
      :: flat_map (fun l => if is_comment ("009" :: l) then [] else [strip l]) ls
  end.

Definition norm_value (v : text) : text := join_value (norm_lines v).

Definition norm_options (d : dict text) : dict text :=
  map (fun kv => (fst kv, norm_value (snd kv))) d.

Definition normalise (cfg : config) : config :=
  mkConfig (norm_options (defaults cfg))
    (map (fun s => (fst s, norm_options (snd s))) (sections cfg)).

(** The lines of the file [config.write] makes. *)
Definition unlines (ls : list text) : text :=
  concat (map (fun l => l ++ nl) ls).

Definition entry_lines (kv : text * text) : list text :=
  match split_chr "010" (snd kv) with
  | [] => []
  | l0 :: ls => (fst kv ++ txt " = " ++ l0) :: map (cons "009") ls
  end.

Definition section_lines (s : text * dict text) : list text :=
  (txt "[" ++ fst s ++ txt "]") :: flat_map entry_lines (snd s) ++ [[]].

Definition render_lines (cfg : config) : list text :=
  match defaults cfg with
  | [] => []
  | _ => section_lines (default_section, defaults cfg)
  end ++ flat_map section_lines (sections cfg).

(** The state of the parser after the lines of a section. *)
Definition parsed_options (d : dict text) : dict (list text) :=
  map (fun kv => (fst kv, norm_lines (snd kv))) d.

Definition closed_options (d : dict text) : dict (list text) :=
  append_last [] (parsed_options d).

(** A text that does not start, or does not end, with a character of the
    class [p]. *)
Definition tight_l (p : ascii -> bool) (m : text) : Prop :=
  forall c t, m = c :: t -> p c = false.

Definition tight_r (p : ascii -> bool) (m : text) : Prop :=
  forall a c, m = a ++ [c] -> p c = false.

(** Where the parser is while it reads the options of a section: in the
    defaults, or in the section added last. *)
Inductive focus : Type :=
| InTheDefaults (others : dict (dict (list text)))
| InTheLast (defs : dict (list text)) (before : dict (dict (list text)))
    (name : text).

(** The state of the parser at [F] with [d] for the options of the current
    section. *)
Definition plug (F : focus) (d : dict (list text)) (opt : bool) (indent : nat)
  : pstate :=
  match F with
  | InTheDefaults others => mkPstate d others InDefaults opt indent
  | InTheLast defs before name =>
      mkPstate defs (before ++ [(name, d)]) InLast opt indent
  end.

(** What follows the delimiter in the line of an option once the line is
    stripped: a space and the first line of the value without the space at
    its end, or nothing. *)
Definition option_tail (l0 : text) : text :=
  match rstrip l0 with
  | [] => []
  | r => " " :: r
  end.

Definition is_empty_dict {V} (d : dict V) : bool :=
  match d with [] => true | _ => false end.

Definition closed_sections (secs : dict (dict text))
  : dict (dict (list text)) :=
  map (fun s => (fst s, closed_options (snd s))) secs.

(** [key_ok] as a test. *)
Definition key_okb (k : text) : bool :=
  forallb key_chr k
  && match k with
     | c :: _ => negb (is_space c) && negb (is_comment_prefix c)
     | [] => false
     end
  && match rev k with
     | c :: _ => negb (is_space c)
     | [] => false
     end
  && text_eqb (lower k) k.

Definition plain_chr (c : ascii) : Prop := is_cr c = false.

(** The lines kept for an option while the file is read: a first line
    without space at its end, on which the option is not taken for a
    header when it is written. *)
Definition raw_entry_ok (kv : text * list text) : Prop :=
  key_ok (fst kv)
  /\ Forall clean_line (snd kv)
  /\ exists l0 rest,
       snd kv = l0 :: rest
       /\ tight_r is_space l0
       /\ section_header (strip (fst kv ++ txt " = " ++ l0)) = None.

Definition raw_options_ok (d : dict (list text)) : Prop :=
  Forall raw_entry_ok d /\ NoDup (map fst d).

Definition pstate_ok (st : pstate) : Prop :=
  raw_options_ok (p_defaults st)
  /\ Forall (fun s => name_ok (fst s) /\ raw_options_ok (snd s))
       (p_sections st)
  /\ NoDup (map fst (p_sections st)).

(** [update_app_version] on the unit appC, whose descriptor has a comment
    and an option in a section of its own, with version 3.1.4. *)
Definition round_trip_update : outcome bool * world :=
  update_app_version example_source (txt "appC") (txt "3.1.4") example_env
    commented_world.

(** * More of the program: definitions used by the further properties *)

(** ** Paths *)

(** [p] is [q] or an ancestor of [q]. *)
Definition is_prefix (p q : path) : Prop := exists r, q = p ++ r.

(** Neither path is the other or an ancestor of it. *)
Definition apart (p q : path) : Prop := ~ is_prefix p q /\ ~ is_prefix q p.

(** ** A deployment to look at *)

Definition example_target : path := example_apps_dir ++ [txt "appA"].

(** [deploy_app] for appA at version 2.0.0 on the example file system. *)
Definition example_deploy : outcome bool * world :=
  deploy_app example_manager (txt "appA") example_target (txt "2.0.0")
    example_env (example_world []).

(** ** Selecting apps *)

(** The app a typed number selects, if any: the number is an integer
    between 1 and the number of apps on the menu. *)
Definition pick (available : list text) (num_str : text) : list text :=
  match py_int num_str with
  | Some (false, n) =>
      if (1 <=? n)%nat && (n <=? length available)%nat
      then [nth (n - 1) available []]
      else []
  | _ => []
  end.

Definition picks (available : list text) (nums : list text) : list text :=
  flat_map (pick available) nums.

Definition no_text (l : list text) : bool :=
  match l with [] => true | _ => false end.

(** The operator types a line at the menu of the example source
    directory. *)
Definition example_menu (line : text) : outcome (list text) * world :=
  select_apps_interactive example_manager (example_world [Typed line]).

(** ** The restart prompt *)

(** A line typed at the restart prompt that is neither a yes nor a no. *)
Definition undecided (line : text) : bool :=
  negb (is_yes (lower (strip line))) && negb (is_no (lower (strip line))).

(** The command that the prompt tells the operator to run by hand. *)
Definition restart_by_hand (h : host) (splunk_home : path) : text :=
  match host_os h with
  | Windows =>
      txt "   " ++ double_quote ++ render_windows_path splunk_home
      ++ backslash ++ txt "bin" ++ backslash ++ txt "splunk.exe"
      ++ double_quote ++ txt " restart"
  | _ => txt "   " ++ render_path splunk_home ++ txt "/bin/splunk restart"
  end.

(** A Windows machine. *)
Definition example_windows_host : host :=
  mkHost [txt "C:"; txt "tool"] [txt "C:"] Windows open_access false true
    (fun f => f) true true (fun f => f) (Returned 0) (fun f => f).

(** ** What a whole session keeps *)

(** A computation relates the world it ends in to the world it started in
    by [R], and when it ends by [sys.exit] the status is 1. *)
Definition keeps (R : world -> world -> Prop) {A : Type} (m : M A) : Prop :=
  forall w o w', m w = (o, w') -> R w w' /\ forall c, o = Exit c -> c = 1.

(** No operation on the file system was started and the lines left to
    read are the last ones of those there were. *)
Definition calm (w w' : world) : Prop :=
  trace w' = trace w /\ exists read, stdin w = read ++ stdin w'.

Definition anything (w w' : world) : Prop := True.

(** None of the lines typed reads y or yes. *)
Definition no_yes (keys : list keyboard) : bool :=
  forallb (fun k => match k with
                    | Typed line => negb (is_yes (lower (strip line)))
                    | Interrupt => true
                    end) keys.

(** The events that [deploy_app] may start for [app]. *)
Definition event_of_app (m : manager) (dir : path) (app : text) (e : event)
  : Prop :=
  (exists name tree complete,
     e = Archived (backup_dir m ++ [name]) app tree complete)
  \/ e = Wrote (apps_source_dir m ++ [app] ++ app_conf)
  \/ e = Rmtree (dir ++ [app])
  \/ e = Copytree (apps_source_dir m ++ [app]) (dir ++ [app]).

Definition is_done {A} (o : outcome A) : bool :=
  match o with Done _ => true | _ => false end.

(** Started in a world with [Pre], the computation ends in a world that
    [Post] relates to it; [Post] is told whether the computation
    returned. *)
Definition guarded (Pre : world -> Prop) (Post : world -> bool -> world -> Prop)
    {A : Type} (m : M A) : Prop :=
  forall w o w', m w = (o, w') -> Pre w -> Post w (is_done o) w'.

(** The events started for one of the apps of a list. *)
Definition events_of (m : manager) (dir : path) (apps : list text)
    (w w' : world) : Prop :=
  exists ops,
    trace w' = trace w ++ ops
    /\ Forall (fun e => exists app, In app apps /\ event_of_app m dir app e) ops.

(** ** Values as the parser leaves them *)

(** A line on which [strip] changes nothing. *)
Definition tidy (l : text) : Prop := strip l = l.

(** A line that, written behind a tab, is not taken for a comment. *)
Definition no_comment (l : text) : Prop := is_comment ("009" :: l) = false.

(** The lines the parser holds for a value: none of them has a line end in
    it or space at its ends, and none after the first looks like a
    comment. *)
Definition lines_normal (ls : list text) : Prop :=
  exists l0 rest,
    ls = l0 :: rest
    /\ Forall clean_line ls /\ Forall tidy ls /\ Forall no_comment rest.

Definition dict_normal (d : dict (list text)) : Prop :=
  Forall (fun kv => lines_normal (snd kv)) d.

Definition pstate_normal (st : pstate) : Prop :=
  dict_normal (p_defaults st)
  /\ Forall (fun s => dict_normal (snd s)) (p_sections st).

(** Every value of the configuration is one the parser would give. *)
Definition options_normal (d : dict text) : Prop :=
  Forall (fun kv => norm_value (snd kv) = snd kv) d.

Definition config_normal (cfg : config) : Prop :=
  options_normal (defaults cfg)
  /\ Forall (fun s => options_normal (snd s)) (sections cfg).

(** ** Directories in the way *)

Definition is_directory (n : node) : bool :=
  match n with Dir _ => true | _ => false end.

(** Something that is not a directory lies at [p] or above it. *)
Definition blocked (fs : node) (p : path) : Prop :=
  exists q n,
    is_prefix q p /\ lookup_path fs q = Some n /\ is_directory n = false.

Fixpoint path_eqb (p q : path) : bool :=
  match p, q with
  | [], [] => true
  | x :: p', y :: q' => text_eqb x y && path_eqb p' q'
  | _, _ => false
  end.

(** A machine where the directory of the tool is there, empty, and the
    system lets the program make [logs] in it but not [backups]. *)
Definition guarded_host : host :=
  mkHost [txt "tool"] [] Linux
    (mkAccess (fun _ => false) (fun _ => false)
       (path_eqb [txt "tool"; txt "backups"]))
    false true (fun f => f) true true (fun f => f) (Returned 0) (fun f => f).

Definition bare_world : world :=
  mkWorld (Dir [(txt "tool", Dir [])]) [] [] [].

(** The directory [p] cannot be made with its parents: something that is
    not a directory is in the way, or the system refuses to make a
    directory that is missing at [p] or above it. *)
Definition obstructed (refused : path -> bool) (fs : node) (p : path)
  : Prop :=
  blocked fs p
  \/ exists q,
       is_prefix q p /\ path_exists fs q = false /\ refused q = true.

(** ** What the loop of [run] leaves of an app it reports *)

(** The directory of the app under [dir] holds the tree of its source
    directory, with the two key files, and the version read from it is
    [v] when [v] has the form MAJOR.MINOR.PATCH. *)
Definition deployed_as (m : manager) (dir : path) (f : node) (a v : text)
  : Prop :=
  (exists es,
     lookup_path f (dir ++ [a]) = Some (Dir es)
     /\ lookup_path f (apps_source_dir m ++ [a]) = Some (Dir es))
  /\ (forall r, In r required_files -> path_exists f (dir ++ [a] ++ r) = true)
  /\ (Triple v -> get_current_version f dir a false false = Some v).

(** The operator selects appA and appB and asks for 2.0.0 for appA. *)
Definition example_loop : outcome (list (text * text)) * world :=
  deploy_selected example_manager example_apps_dir (fun _ => example_env) 0
    [txt "appA"; txt "appB"] []
    (example_world [Typed (txt "2.0.0"); Typed []]).

(** ** [_set_app_permissions]

    The permission bits are not part of the tree: what the function does
    is kept as the list of its [os.chmod] calls, each with the path and
    the mode.  The function returns nothing; the model returns the calls
    that were made and succeeded. *)

(** [os.walk(top)], top down: for [top] and then for every directory
    below it, the path of the directory, the names of its subdirectories
    and the names of its other entries, in the order of the listing.  What
    is not a directory yields nothing. *)
Fixpoint walk (root : path) (n : node)
  : list (path * list text * list text) :=
  match n with
  | Dir es =>
      (root,
       map fst (filter (fun kv => is_directory (snd kv)) es),
       map fst (filter (fun kv => negb (is_directory (snd kv))) es))
      :: flat_map (fun kv => walk (root ++ [fst kv]) (snd kv)) es
  | _ => []
  end.

(** [0o755] and [0o644] *)
Definition mode_exec : nat := 493.
Definition mode_plain : nat := 420.

(** The mode of a file: [file_path.endswith(('.py', '.sh'))] *)
Definition file_mode (file_path : text) : nat :=
  if ends_with (txt ".py") file_path || ends_with (txt ".sh") file_path
  then mode_exec else mode_plain.

(** The body of the loop for one triple of the walk. *)
Definition chmods_of (entry : path * list text * list text)
  : list (path * nat) :=
  let '(root, dirs, files) := entry in
  map (fun d => (root ++ [d], mode_exec)) dirs
  ++ map (fun f => (root ++ [f], file_mode (render_path (root ++ [f])))) files.

(** The calls in their order, when none of them fails. *)
Definition chmod_plan (fs : node) (app_dir : path) : list (path * nat) :=
  flat_map chmods_of
    (match lookup_path fs app_dir with
     | Some n => walk app_dir n
     | None => []
     end).

(** The calls made until one of them raises, and whether none did. *)
Fixpoint until_failure (fails : path -> bool) (calls : list (path * nat))
  : list (path * nat) * bool :=
  match calls with
  | [] => ([], true)
  | c :: rest =>
      if fails (fst c) then ([], false)
      else let (made, ok) := until_failure fails rest in (c :: made, ok)
  end.

Definition set_app_permissions (chmod_fails : path -> bool) (app_dir : path)
  : M (list (path * nat)) :=
  fs <- get_fs ;;
  let (made, ok) := until_failure chmod_fails (chmod_plan fs app_dir) in
  if ok then ret made
  else logm WARNING (txt "Failed to set some permissions") ;;; ret made.

(** No directory of the tree lists a name twice. *)
Fixpoint distinct (l : list text) : bool :=
  match l with
  | [] => true
  | x :: r => negb (existsb (text_eqb x) r) && distinct r
  end.

Fixpoint well_formed (n : node) : bool :=
  match n with
  | Dir es =>
      distinct (map fst es) && forallb (fun kv => well_formed (snd kv)) es
  | _ => true
  end.

(** The mode that [_set_app_permissions] gives to the entry [c] of the
    name [name]. *)
Definition entry_mode (name : text) (c : node) : nat :=
  if is_directory c then mode_exec
  else if ends_with (txt ".py") name || ends_with (txt ".sh") name
       then mode_exec else mode_plain.

(** ** A session that changes no file *)

(** The two trees hold the same files and archives, with the same content
    at the same paths; the directories of the first are directories of the
    second. *)
Definition same_files (f f' : node) : Prop :=
  (forall q n,
     is_directory n = false ->
     (lookup_path f q = Some n <-> lookup_path f' q = Some n))
  /\ (forall q, is_dir f q = true -> is_dir f' q = true).

(** Nothing was started and no file was touched. *)
Definition quiet (w w' : world) : Prop :=
  calm w w' /\ same_files (fs w) (fs w').

(** When no line to come reads y or yes, [m] is quiet. *)
Definition stays_quiet {A : Type} (m : M A) : Prop :=
  forall w o w', m w = (o, w') -> no_yes (stdin w) = true -> quiet w w'.

(** ** A deployment that meets no obstacle *)

(** No value of the configuration holds a percent sign, so that no value
    is interpolated. *)
Definition no_percent (cfg : config) : Prop :=
  Forall (fun kv => has_percent (snd kv) = false) (defaults cfg)
  /\ Forall (fun s => Forall (fun kv => has_percent (snd kv) = false) (snd s))
       (sections cfg).

(** None of the operations on the file system fails for a reason that the
    tree does not show. *)
Definition no_fault (env : unit_env) : Prop :=
  tar_result env = TarDone /\ write_result env = WriteDone
  /\ rmtree_fails env = false /\ copytree_fails env = false.

(** The configuration read from the descriptor of the examples. *)
Definition example_config : config :=
  match parse example_descriptor with
  | Some cfg => cfg
  | None => empty_config
  end.

(** ** A version among the defaults only *)




(** ** The loop of [run], unit by unit *)



(** ** Where a session can end by [sys.exit] *)



(** * Facts about characters and text *)

Ltac chr_cases c :=
  destruct c as [[] [] [] [] [] [] [] []]; vm_compute; try reflexivity;
  try discriminate; auto.

Lemma text_eqb_eq (a b : text) : text_eqb a b = true <-> a = b.
Proof.
  unfold text_eqb. destruct (list_eq_dec ascii_dec a b); split; auto;
    discriminate.
Qed.

Lemma text_eqb_refl (a : text) : text_eqb a a = true.
Proof. apply text_eqb_eq. reflexivity. Qed.

Lemma text_eqb_neq (a b : text) : text_eqb a b = false <-> a <> b.
Proof.
  unfold text_eqb. destruct (list_eq_dec ascii_dec a b); split; auto;
    try discriminate. intro H; contradiction.
Qed.

Lemma is_chr_eq (a c : ascii) : is_chr a c = true <-> c = a.
Proof. unfold is_chr. apply Ascii.eqb_eq. Qed.

Lemma is_chr_refl (a : ascii) : is_chr a a = true.
Proof. apply is_chr_eq. reflexivity. Qed.


Lemma digit_not_space c : is_digit c = true -> is_space c = false.
Proof. chr_cases c. Qed.

Lemma digit_not_nl c : is_digit c = true -> is_nl c = false.
Proof. chr_cases c. Qed.

Lemma digit_not_dot c : is_digit c = true -> is_chr "." c = false.
Proof. chr_cases c. Qed.

Lemma nl_is_space c : is_nl c = true -> is_space c = true.
Proof. chr_cases c. Qed.

Lemma space_not_v c : is_space c = true -> is_chr "v" c = false.
Proof. chr_cases c. Qed.

Lemma space_not_lparen c : is_space c = true -> is_chr "(" c = false.
Proof. chr_cases c. Qed.

Section Spans.
Variable p : ascii -> bool.

Lemma take_drop (s : text) : take_while p s ++ drop_while p s = s.
Proof.
  induction s as [|c s IH]; simpl; auto.
  destruct (p c); simpl; congruence.
Qed.

Lemma take_while_all (s : text) : forallb p (take_while p s) = true.
Proof.
  induction s as [|c s IH]; simpl; auto.
  destruct (p c) eqn:E; simpl; auto. rewrite E. auto.
Qed.

Lemma drop_while_head (s : text) c t :
  drop_while p s = c :: t -> p c = false.
Proof.
  induction s as [|x s IH]; simpl; try discriminate.
  destruct (p x) eqn:E; auto. intros H; inversion H; subst; auto.
Qed.

Lemma drop_while_app_all (a s : text) :
  forallb p a = true -> drop_while p (a ++ s) = drop_while p s.
Proof.
  induction a as [|c a IH]; simpl; auto.
  intros H. apply andb_true_iff in H as [Hc Ha]. rewrite Hc. auto.
Qed.

Lemma drop_while_app_stop (a s : text) c :
  p c = false -> drop_while p (a ++ c :: s) = drop_while p a ++ c :: s.
Proof.
  intros Hc. induction a as [|x a IH]; simpl.
  - rewrite Hc. reflexivity.
  - destruct (p x); auto.
Qed.

Lemma drop_while_app_keep (a s : text) :
  drop_while p a <> [] -> drop_while p (a ++ s) = drop_while p a ++ s.
Proof.
  induction a as [|x a IH]; simpl; try congruence.
  destruct (p x); auto.
Qed.

Lemma drop_while_fix (s : text) c t :
  s = c :: t -> p c = false -> drop_while p s = s.
Proof. intros -> H. simpl. rewrite H. reflexivity. Qed.

Lemma drop_while_suffix (s : text) :
  exists a, s = a ++ drop_while p s /\ forallb p a = true.
Proof.
  exists (take_while p s). split.
  - symmetry. apply take_drop.
  - apply take_while_all.
Qed.

Lemma drop_while_idem (s : text) :
  drop_while p (drop_while p s) = drop_while p s.
Proof.
  induction s as [|c s IH]; simpl; auto.
  destruct (p c) eqn:E; auto. simpl. rewrite E. reflexivity.
Qed.

Lemma rstrip_by_prefix (s : text) :
  exists a, s = rstrip_by p s ++ a /\ forallb p a = true.
Proof.
  unfold rstrip_by.
  destruct (drop_while_suffix (rev s)) as [a [H Ha]].
  exists (rev a). split.
  - apply (f_equal (@rev ascii)) in H. rewrite rev_involutive in H.
    rewrite rev_app_distr in H. exact H.
  - rewrite forallb_forall in *. intros x Hx. apply Ha.
    apply in_rev. exact Hx.
Qed.

Lemma rstrip_by_snoc (s : text) c :
  p c = false -> rstrip_by p (s ++ [c]) = s ++ [c].
Proof.
  intros H. unfold rstrip_by. rewrite rev_app_distr. simpl. rewrite H.
  simpl. rewrite rev_involutive. reflexivity.
Qed.

Lemma rstrip_by_nil : rstrip_by p [] = [].
Proof. reflexivity. Qed.

Lemma rstrip_by_last (s : text) :
  rstrip_by p s = [] \/ exists a c, rstrip_by p s = a ++ [c] /\ p c = false.
Proof.
  unfold rstrip_by.
  destruct (drop_while p (rev s)) as [|c t] eqn:E; [left; reflexivity|].
  right. exists (rev t), c. split; [reflexivity|].
  eapply drop_while_head; eauto.
Qed.

Lemma rstrip_by_idem (s : text) : rstrip_by p (rstrip_by p s) = rstrip_by p s.
Proof.
  unfold rstrip_by. rewrite rev_involutive, drop_while_idem. reflexivity.
Qed.

Lemma rstrip_by_app_all (s a : text) :
  forallb p a = true -> rstrip_by p (s ++ a) = rstrip_by p s.
Proof.
  intros H. unfold rstrip_by. rewrite rev_app_distr.
  rewrite drop_while_app_all; auto.
  rewrite forallb_forall in *. intros x Hx. apply H. apply in_rev; auto.
Qed.

Lemma rstrip_by_cons_keep (c : ascii) (s : text) :
  rstrip_by p s <> [] -> rstrip_by p (c :: s) = c :: rstrip_by p s.
Proof.
  unfold rstrip_by. simpl. intros H.
  rewrite drop_while_app_keep.
  - rewrite rev_app_distr. reflexivity.
  - intro E. apply H. rewrite E. reflexivity.
Qed.

(** A text that starts and ends outside the class is left alone. *)
Lemma strip_by_fix (s : text) :
  (forall c t, s = c :: t -> p c = false) ->
  (forall a c, s = a ++ [c] -> p c = false) ->
  strip_by p s = s.
Proof.
  intros Hh Hl. unfold strip_by, lstrip_by.
  destruct s as [|c t]; [reflexivity|].
  simpl. rewrite (Hh c t eq_refl).
  destruct (exists_last (l := c :: t)) as [a [z Hz]]; [discriminate|].
  rewrite Hz. apply rstrip_by_snoc. eapply Hl; eauto.
Qed.

Lemma strip_by_ends (s : text) :
  (forall c t, strip_by p s = c :: t -> p c = false) /\
  (forall a c, strip_by p s = a ++ [c] -> p c = false).
Proof.
  unfold strip_by, lstrip_by. split.
  - intros c t H.
    destruct (rstrip_by_prefix (drop_while p s)) as [a [Ha _]].
    rewrite H in Ha. simpl in Ha.
    eapply drop_while_head. exact Ha.
  - intros a c H.
    destruct (rstrip_by_last (drop_while p s)) as [E | [a' [c' [E Hc]]]].
    + rewrite E in H. destruct a; discriminate.
    + rewrite E in H. apply app_inj_tail in H as [_ ->]. exact Hc.
Qed.

Lemma strip_by_idem (s : text) : strip_by p (strip_by p s) = strip_by p s.
Proof.
  destruct (strip_by_ends s) as [H1 H2].
  apply strip_by_fix; auto.
Qed.
End Spans.

Lemma strip_ends (s : text) :
  (forall c t, strip s = c :: t -> is_space c = false) /\
  (forall a c, strip s = a ++ [c] -> is_space c = false).
Proof. apply strip_by_ends. Qed.

(** The characters an operation keeps were there before. *)
Lemma drop_while_incl p (s : text) c : In c (drop_while p s) -> In c s.
Proof.
  induction s as [|x s IH]; simpl; auto.
  destruct (p x); simpl; auto.
Qed.

Lemma take_while_incl p (s : text) c : In c (take_while p s) -> In c s.
Proof.
  induction s as [|x s IH]; simpl; auto.
  destruct (p x); simpl; auto. intros [H|H]; auto. contradiction.
Qed.

Lemma rstrip_by_incl p (s : text) c : In c (rstrip_by p s) -> In c s.
Proof.
  unfold rstrip_by. intros H. apply in_rev in H.
  apply drop_while_incl in H. apply in_rev. exact H.
Qed.

Lemma strip_by_incl p (s : text) c : In c (strip_by p s) -> In c s.
Proof.
  unfold strip_by, lstrip_by. intros H. apply rstrip_by_incl in H.
  eapply drop_while_incl; eauto.
Qed.

(** * The matcher *)

Section Greedy.
Variable p : ascii -> bool.
Variable k : text -> option text.

(** When what follows a repetition cannot start inside the class, the
    repetition takes the whole run and never gives anything back. *)
Lemma greedy_reject (s : text) :
  (forall c t, p c = true -> k (c :: t) = None) ->
  greedy p k s = k (drop_while p s).
Proof.
  intros Hk. induction s as [|c s IH]; simpl; auto.
  destruct (p c) eqn:E; auto.
  rewrite IH. destruct (k (drop_while p s)); auto.
Qed.

Lemma greedy_inv (s r : text) :
  greedy p k s = Some r ->
  exists a t, s = a ++ t /\ forallb p a = true /\ k t = Some r.
Proof.
  revert r. induction s as [|c s IH]; simpl; intros r H.
  - exists [], []. auto.
  - destruct (p c) eqn:E.
    + destruct (greedy p k s) as [r'|] eqn:G.
      * inversion H; subst. destruct (IH r eq_refl) as [a [t [H1 [H2 H3]]]].
        exists (c :: a), t. simpl. rewrite E, H1. auto.
      * exists [], (c :: s). auto.
    + exists [], (c :: s). auto.
Qed.

Lemma greedy_some (a t : text) :
  forallb p a = true -> k t <> None -> greedy p k (a ++ t) <> None.
Proof.
  intros Ha Hk. induction a as [|c a IH]; simpl.
  - destruct t as [|x t]; simpl; auto.
    destruct (p x); auto. destruct (greedy p k t); auto. discriminate.
  - simpl in Ha. apply andb_true_iff in Ha as [Hc Ha]. rewrite Hc.
    destruct (greedy p k (a ++ t)) eqn:G; [discriminate|].
    exfalso. apply (IH Ha). reflexivity.
Qed.
End Greedy.

(** A repetition followed by a wider one gives nothing to it that the wider
    one would not take itself. *)
Lemma greedy_absorb p q k (s : text) :
  (forall c, p c = true -> q c = true) ->
  greedy p (greedy q k) s = greedy q k s.
Proof.
  intros Hpq. induction s as [|c s IH]; simpl; auto.
  destruct (p c) eqn:E; auto.
  rewrite IH. rewrite (Hpq c E).
  destruct (greedy q k s); auto.
Qed.

(** What a match leaves is the end of the text it started on. *)
Lemma match_here_suffix (r : regex) (s rest : text) :
  match_here r s = Some rest -> exists a, s = a ++ rest.
Proof.
  revert s rest. induction r as [|a r IH]; simpl; intros s rest H.
  - inversion H. exists []. reflexivity.
  - destruct a as [p|p|p|].
    + destruct s as [|c s]; try discriminate. destruct (p c); try discriminate.
      destruct (IH _ _ H) as [a Ha]. exists (c :: a). simpl. congruence.
    + apply greedy_inv in H as [a [t [H1 [_ H3]]]].
      destruct (IH _ _ H3) as [b Hb]. exists (a ++ b).
      rewrite <- app_assoc. congruence.
    + destruct s as [|c s]; try discriminate. destruct (p c); try discriminate.
      apply greedy_inv in H as [a [t [H1 [_ H3]]]].
      destruct (IH _ _ H3) as [b Hb]. exists (c :: a ++ b).
      simpl. rewrite <- app_assoc. congruence.
    + destruct (at_eos s); try discriminate. eauto.
Qed.

Lemma match_here_eos (r : regex) (s rest : text) :
  ends_with_eos r = true -> match_here r s = Some rest -> at_eos rest = true.
Proof.
  revert s rest. induction r as [|a r IH]; intros s rest He H;
    [discriminate|].
  destruct r as [|b r'].
  - destruct a; try discriminate. simpl in H.
    destruct (at_eos s) eqn:E; try discriminate. congruence.
  - assert (He' : ends_with_eos (b :: r') = true).
    { destruct a; exact He. }
    destruct a as [p|p|p|]; cbn [match_here] in H.
    + destruct s as [|c s]; try discriminate. destruct (p c); try discriminate.
      eapply IH; eauto.
    + apply greedy_inv in H as [x [t [_ [_ H3]]]]. eapply IH; eauto.
    + destruct s as [|c s]; try discriminate. destruct (p c); try discriminate.
      apply greedy_inv in H as [x [t [_ [_ H3]]]]. eapply IH; eauto.
    + destruct (at_eos s); try discriminate. eapply IH; eauto.
Qed.

Lemma many1_reject p (r : regex) (s : text) :
  (forall c t, p c = true -> match_here r (c :: t) = None) ->
  match_here (Many1 p :: r) s =
  match s with
  | c :: s' => if p c then match_here r (drop_while p s') else None
  | [] => None
  end.
Proof.
  intros Hk. destruct s as [|c s]; simpl; auto.
  destruct (p c); auto. apply greedy_reject. exact Hk.
Qed.

Lemma many_reject p (r : regex) (s : text) :
  (forall c t, p c = true -> match_here r (c :: t) = None) ->
  match_here (Many p :: r) s = match_here r (drop_while p s).
Proof. intros Hk. simpl. apply greedy_reject. exact Hk. Qed.

Lemma match_one_cons p (r : regex) c (s : text) :
  match_here (One p :: r) (c :: s) = if p c then match_here r s else None.
Proof. reflexivity. Qed.

Lemma match_one_nil p (r : regex) : match_here (One p :: r) [] = None.
Proof. reflexivity. Qed.

Lemma match_eos (r : regex) (s : text) :
  match_here (Eos :: r) s = if at_eos s then match_here r s else None.
Proof. reflexivity. Qed.

Lemma one_rejects (a : ascii) p (r : regex) :
  (forall c, p c = true -> is_chr a c = false) ->
  forall c t, p c = true -> match_here (One (is_chr a) :: r) (c :: t) = None.
Proof. intros H c t Hc. simpl. rewrite (H c Hc). reflexivity. Qed.

(** * Version strings *)

Lemma digits_split (s : text) c :
  is_digit c = true ->
  digits (c :: take_while is_digit s).
Proof.
  intros H. split; [discriminate|]. simpl. rewrite H. apply take_while_all.
Qed.

Lemma eos_rejects_digit c t : is_digit c = true -> match_here [Eos] (c :: t) = None.
Proof.
  intros H. simpl. destruct t; auto.
  rewrite (digit_not_nl c H). reflexivity.
Qed.

(** The strict pattern, read without the matcher. *)
Lemma strict_version_run (s : text) :
  match_here strict_version s =
  match s with
  | c1 :: s1 =>
      if is_digit c1 then
        match drop_while is_digit s1 with
        | d1 :: c2 :: s2 =>
            if is_chr "." d1 && is_digit c2 then
              match drop_while is_digit s2 with
              | d2 :: c3 :: s3 =>
                  if is_chr "." d2 && is_digit c3 then
                    let rest := drop_while is_digit s3 in
                    if at_eos rest then Some rest else None
                  else None
              | _ => None
              end
            else None
        | _ => None
        end
      else None
  | [] => None
  end.
Proof.
  unfold strict_version.
  rewrite many1_reject by (apply one_rejects; apply digit_not_dot).
  destruct s as [|c1 s1]; auto. destruct (is_digit c1); auto.
  destruct (drop_while is_digit s1) as [|d1 t1]; auto.
  rewrite match_one_cons.
  destruct (is_chr "." d1); [|destruct t1; reflexivity].
  cbn [andb].
  rewrite many1_reject by (apply one_rejects; apply digit_not_dot).
  destruct t1 as [|c2 s2]; auto. destruct (is_digit c2); auto.
  destruct (drop_while is_digit s2) as [|d2 t2]; auto.
  rewrite match_one_cons.
  destruct (is_chr "." d2); [|destruct t2; reflexivity].
  cbn [andb].
  rewrite many1_reject by (apply eos_rejects_digit).
  destruct t2 as [|c3 s3]; auto.
Qed.

Lemma strict_version_sound (s : text) :
  re_match strict_version s = true ->
  exists v rest, s = v ++ rest /\ Triple v /\ at_eos rest = true.
Proof.
  unfold re_match. rewrite strict_version_run.
  destruct s as [|c1 s1]; try discriminate.
  destruct (is_digit c1) eqn:D1; try discriminate.
  pose proof (take_drop is_digit s1) as T1.
  destruct (drop_while is_digit s1) as [|d1 [|c2 s2]]; try discriminate.
  destruct (is_chr "." d1) eqn:E1; try discriminate.
  destruct (is_digit c2) eqn:D2; try discriminate. cbn [andb].
  pose proof (take_drop is_digit s2) as T2.
  destruct (drop_while is_digit s2) as [|d2 [|c3 s3]]; try discriminate.
  destruct (is_chr "." d2) eqn:E2; try discriminate.
  destruct (is_digit c3) eqn:D3; try discriminate. cbn [andb].
  pose proof (take_drop is_digit s3) as T3.
  cbv zeta. destruct (at_eos (drop_while is_digit s3)) eqn:E; try discriminate.
  intros _. apply is_chr_eq in E1, E2. subst d1 d2.
  exists ((c1 :: take_while is_digit s1) ++ "." ::
          (c2 :: take_while is_digit s2) ++ "." ::
          (c3 :: take_while is_digit s3)), (drop_while is_digit s3).
  split; [|split].
  - rewrite <- T1 at 1. rewrite <- T2 at 1. rewrite <- T3 at 1.
    simpl. repeat (rewrite <- app_assoc; simpl). reflexivity.
  - constructor; apply digits_split; assumption.
  - exact E.
Qed.

Lemma digits_run (a : text) (x : ascii) (t : text) :
  digits a -> is_digit x = false ->
  exists c a', a = c :: a' /\ is_digit c = true /\
               drop_while is_digit (a' ++ x :: t) = x :: t.
Proof.
  intros [Hne Hall] Hx. destruct a as [|c a']; [contradiction|].
  simpl in Hall. apply andb_true_iff in Hall as [Hc Ha].
  exists c, a'. split; [reflexivity|]. split; [exact Hc|].
  rewrite drop_while_app_all by exact Ha. simpl. rewrite Hx. reflexivity.
Qed.

Lemma strict_version_complete (v : text) :
  Triple v -> match_here strict_version v = Some [].
Proof.
  intros [a b c Ha Hb Hc]. rewrite strict_version_run.
  destruct (digits_run a "." (b ++ "." :: c) Ha eq_refl)
    as [c1 [a' [-> [D1 R1]]]].
  cbn [app]. rewrite D1, R1.
  destruct (digits_run b "." c Hb eq_refl) as [c2 [b' [-> [D2 R2]]]].
  cbn [app]. rewrite D2, is_chr_refl. cbn [andb]. rewrite R2.
  destruct Hc as [Hne Hall]. destruct c as [|c3 c']; [contradiction|].
  simpl in Hall. apply andb_true_iff in Hall as [D3 Hc'].
  rewrite D3, is_chr_refl. cbn [andb].
  rewrite <- (app_nil_r c'). rewrite drop_while_app_all by exact Hc'.
  reflexivity.
Qed.

Lemma Triple_chars (v : text) c :
  Triple v -> In c v -> is_digit c = true \/ c = ".".
Proof.
  intros [a b d [_ Ha] [_ Hb] [_ Hd]] Hin.
  rewrite forallb_forall in Ha, Hb, Hd.
  apply in_app_or in Hin as [H|[H|H]]; auto.
  apply in_app_or in H as [H|[H|H]]; auto.
Qed.

Lemma Triple_nonempty (v : text) : Triple v -> v <> [].
Proof.
  intros [a b c [Ha _] _ _]. destruct a; [contradiction|discriminate].
Qed.

(** * The label rewrite on one-line labels *)

Lemma single_line_app (a b : text) :
  single_line (a ++ b) <-> single_line a /\ single_line b.
Proof. unfold single_line. rewrite forallb_app. apply andb_true_iff. Qed.

Lemma single_line_incl (a b : text) :
  (forall c, In c a -> In c b) -> single_line b -> single_line a.
Proof.
  unfold single_line. rewrite !forallb_forall. intros H Hb c Hc. auto.
Qed.

Lemma single_line_cons c (s : text) :
  single_line (c :: s) <-> not_nl c = true /\ single_line s.
Proof. unfold single_line. simpl. apply andb_true_iff. Qed.

Lemma Triple_single_line (v : text) : Triple v -> single_line v.
Proof.
  intros H. unfold single_line. apply forallb_forall. intros c Hc.
  destruct (Triple_chars v c H Hc) as [D | ->].
  - unfold not_nl. rewrite (digit_not_nl c D). reflexivity.
  - reflexivity.
Qed.

Lemma cut_prefix (r : regex) (s : text) : exists w, s = cut r s ++ w.
Proof.
  induction s as [|c s [w IH]]; simpl.
  - exists []. reflexivity.
  - destruct (is_some (match_here r (c :: s))).
    + exists (c :: s). reflexivity.
    + exists w. simpl. congruence.
Qed.

Lemma cut_incl (r : regex) (s : text) c : In c (cut r s) -> In c s.
Proof.
  destruct (cut_prefix r s) as [w H]. intros Hc. rewrite H.
  apply in_or_app. auto.
Qed.

Lemma sub_scan_skip (r : regex) (n : nat) (s : text) :
  length s <= n -> sub_scan r n s = [].
Proof.
  revert n. induction s as [|c s IH]; intros n H; simpl; auto.
  destruct n; simpl in H; [lia|]. apply IH. lia.
Qed.

Section Anchored.
Variable r : regex.
Hypothesis r_eos : ends_with_eos r = true.

(** On a one-line text a pattern that ends in [$] matches up to the
    end. *)
Lemma match_to_end (s rest : text) :
  single_line s -> match_here r s = Some rest -> rest = [].
Proof.
  intros Hs H. pose proof (match_here_eos r s rest r_eos H) as He.
  destruct (match_here_suffix r s rest H) as [a Ha]. subst s.
  apply single_line_app in Hs as [_ Hr].
  destruct rest as [|c [|c' t]]; auto; try discriminate.
  simpl in He. apply single_line_cons in Hr as [Hc _].
  unfold not_nl in Hc. rewrite He in Hc. discriminate.
Qed.

Lemma re_sub_cut (s : text) : single_line s -> re_sub r s = cut r s.
Proof.
  unfold re_sub. induction s as [|c s IH]; intros Hs; auto.
  cbn [sub_scan cut].
  destruct (match_here r (c :: s)) as [rest|] eqn:E; cbn [is_some].
  - rewrite (match_to_end _ _ Hs E). cbn [length Nat.sub].
    apply sub_scan_skip. lia.
  - f_equal. apply IH. apply single_line_cons in Hs. tauto.
Qed.
End Anchored.

(** ** The version suffix, stage by stage *)

Section Stages.
Variable p : ascii -> bool.
Variable a : ascii.

Lemma stage_ext (k k' : text -> bool) (s : text) :
  (forall s', (forall c, In c s' -> In c s) -> k s' = k' s') ->
  stage p a k s = stage p a k' s.
Proof.
  intros H. unfold stage.
  destruct (drop_while p s) as [|x [|c s']] eqn:E; auto.
  rewrite (H s'); auto.
  intros c0 Hc. apply (drop_while_incl p). rewrite E. simpl. auto.
Qed.

Lemma stage_mono (k : text -> bool) (s w : text) :
  (forall s', k s' = true -> k (s' ++ w) = true) ->
  stage p a k s = true -> stage p a k (s ++ w) = true.
Proof.
  intros Hk. unfold stage.
  destruct (drop_while p s) as [|x [|c s']] eqn:E; try discriminate.
  rewrite drop_while_app_keep by (rewrite E; discriminate).
  rewrite E. cbn [app]. intros H.
  apply andb_true_iff in H as [H1 H2]. rewrite H1. cbn [andb]. auto.
Qed.

(** A stage that succeeds on [t ++ sfx] lies within [t] when [sfx]
    starts with a character that is neither [a] nor a digit and the run
    of [p] in front stops within [t]. *)
Lemma stage_local (k : text -> bool) (t : text) sp (rest : text) :
  is_digit sp = false -> is_chr a sp = false ->
  drop_while p (t ++ sp :: rest) = drop_while p t ++ sp :: rest ->
  (forall t', k (t' ++ sp :: rest) = true -> k t' = true) ->
  stage p a k (t ++ sp :: rest) = true -> stage p a k t = true.
Proof.
  intros Hd Ha Hdw Hk. unfold stage. rewrite Hdw.
  destruct (drop_while p t) as [|x [|c s']]; cbn [app].
  - rewrite Ha. destruct rest; discriminate.
  - rewrite Hd. rewrite andb_false_r. discriminate.
  - intros H. apply andb_true_iff in H as [H1 H2]. rewrite H1.
    cbn [andb]. auto.
Qed.
End Stages.

Lemma eos_rejects_not_nl c t :
  not_nl c = true -> match_here [Eos] (c :: t) = None.
Proof.
  intros H. simpl. destruct t; auto.
  unfold not_nl in H. destruct (is_nl c); [discriminate|reflexivity].
Qed.

Lemma digit_is_not_nl c : is_digit c = true -> not_nl c = true.
Proof. intros H. unfold not_nl. rewrite (digit_not_nl c H). reflexivity. Qed.

(** The tail of the pattern, [\d+.*$] after its first digit. *)
Lemma tail_run (s : text) :
  greedy is_digit (match_here [Many not_nl; Eos]) s =
  (let rest := drop_while not_nl s in if at_eos rest then Some rest else None).
Proof.
  change (match_here [Many not_nl; Eos]) with (greedy not_nl (match_here [Eos])).
  rewrite greedy_absorb by apply digit_is_not_nl.
  rewrite greedy_reject by apply eos_rejects_not_nl.
  reflexivity.
Qed.

Lemma tail_single_line (s : text) :
  single_line s ->
  is_some (greedy is_digit (match_here [Many not_nl; Eos]) s) = true.
Proof.
  intros Hs. rewrite tail_run. cbv zeta.
  rewrite <- (app_nil_r s). rewrite drop_while_app_all by exact Hs.
  reflexivity.
Qed.

Lemma stage_run p a (r : regex) (s : text) :
  (forall c, p c = true -> is_chr a c = false) ->
  is_some (greedy p (match_here (One (is_chr a) :: Many1 is_digit :: r)) s) =
  stage p a (fun s' => is_some (greedy is_digit (match_here r) s')) s.
Proof.
  intros H. rewrite greedy_reject by (apply one_rejects; exact H).
  unfold stage. destruct (drop_while p s) as [|x [|c s']]; auto.
  - rewrite match_one_cons. destruct (is_chr a x); reflexivity.
  - rewrite match_one_cons. destruct (is_chr a x); auto.
    cbn [andb match_here]. destruct (is_digit c); reflexivity.
Qed.

Lemma match_many1_cons p (r : regex) c (s : text) :
  match_here (Many1 p :: r) (c :: s) =
  if p c then greedy p (match_here r) s else None.
Proof. reflexivity. Qed.

Lemma version_suffix_starts (s : text) :
  single_line s ->
  is_some (match_here version_suffix s) = suffix_starts s.
Proof.
  intros Hs. unfold version_suffix, suffix_starts.
  destruct s as [|c s0]; auto. rewrite match_many1_cons.
  destruct (is_space c); auto. cbn [andb].
  rewrite stage_run by apply space_not_v.
  apply stage_ext. intros s1 H1. rewrite stage_run by apply digit_not_dot.
  apply stage_ext. intros s2 H2. rewrite stage_run by apply digit_not_dot.
  apply stage_ext. intros s3 H3. apply tail_single_line.
  apply single_line_cons in Hs as [_ Hs].
  eapply single_line_incl; [|exact Hs]. auto.
Qed.

Lemma version_suffix_nil : match_here version_suffix [] = None.
Proof. reflexivity. Qed.

Lemma suffix_starts_mono (s w : text) :
  suffix_starts s = true -> suffix_starts (s ++ w) = true.
Proof.
  unfold suffix_starts. destruct s as [|c s0]; try discriminate.
  cbn [app]. intros H. apply andb_true_iff in H as [H1 H2]. rewrite H1.
  cbn [andb]. revert H2.
  apply stage_mono. intros s1. apply stage_mono. intros s2.
  apply stage_mono. auto.
Qed.

Lemma drop_while_before_last p (t : text) z (sfx : text) :
  p z = false ->
  drop_while p ((t ++ [z]) ++ sfx) = drop_while p (t ++ [z]) ++ sfx.
Proof.
  intros Hz. rewrite <- app_assoc. cbn [app].
  rewrite !drop_while_app_stop by exact Hz.
  rewrite <- app_assoc. reflexivity.
Qed.

(** A version suffix that starts in [t] and would need part of what is
    appended after a space does not match: it lies within [t]. *)
Lemma suffix_starts_local (t : text) sp (rest : text) :
  is_space sp = true -> is_digit sp = false ->
  (forall a c, t = a ++ [c] -> is_space c = false) ->
  t <> [] ->
  suffix_starts (t ++ sp :: rest) = true -> suffix_starts t = true.
Proof.
  intros Hsp Hd Hlast Hne. unfold suffix_starts.
  destruct t as [|c t0]; [contradiction|]. cbn [app].
  intros H. apply andb_true_iff in H as [H1 H2]. rewrite H1. cbn [andb].
  assert (Ht0 : exists a z, t0 = a ++ [z] /\ is_space z = false).
  { destruct t0 as [|x t1].
    - rewrite (Hlast [] c eq_refl) in H1. discriminate.
    - destruct (exists_last (l := x :: t1)) as [a [z Hz]]; [discriminate|].
      exists a, z. split; auto. apply (Hlast (c :: a)). rewrite Hz.
      reflexivity. }
  destruct Ht0 as [a [z [-> Hz]]].
  revert H2. apply stage_local; auto.
  - apply space_not_v. exact Hsp.
  - apply drop_while_before_last. exact Hz.
  - intros t1. apply stage_local; auto.
    + chr_cases sp.
    + apply drop_while_app_stop. exact Hd.
    + intros t2. apply stage_local; auto.
      * chr_cases sp.
      * apply drop_while_app_stop. exact Hd.
Qed.

Lemma suffix_starts_version (v rest : text) :
  Triple v -> suffix_starts (" " :: "v" :: v ++ rest) = true.
Proof.
  intros [a b c Ha Hb Hc].
  destruct Ha as [Ha1 Ha2]. destruct a as [|a0 a']; [contradiction|].
  destruct Hb as [Hb1 Hb2]. destruct b as [|b0 b']; [contradiction|].
  destruct Hc as [Hc1 Hc2]. destruct c as [|c0 c']; [contradiction|].
  simpl in Ha2, Hb2, Hc2.
  apply andb_true_iff in Ha2 as [Ha0 Ha2].
  apply andb_true_iff in Hb2 as [Hb0 Hb2].
  apply andb_true_iff in Hc2 as [Hc0 Hc2].
  replace (((a0 :: a') ++ "." :: (b0 :: b') ++ "." :: c0 :: c') ++ rest)
    with (a0 :: a' ++ "." :: b0 :: b' ++ "." :: c0 :: c' ++ rest)
    by (cbn [app]; repeat (rewrite <- app_assoc; cbn [app]); reflexivity).
  unfold suffix_starts.
  change (is_space " ") with true. cbn [andb].
  unfold stage at 1. cbn [drop_while].
  change (is_space "v") with false. cbv iota.
  rewrite is_chr_refl, Ha0. cbn [andb].
  unfold stage at 1.
  rewrite drop_while_app_all by exact Ha2. cbn [drop_while].
  change (is_digit ".") with false. cbv iota.
  rewrite is_chr_refl, Hb0. cbn [andb].
  unfold stage. rewrite drop_while_app_all by exact Hb2. cbn [drop_while].
  change (is_digit ".") with false. cbv iota.
  rewrite is_chr_refl, Hc0. reflexivity.
Qed.

(** ** Texts without a version suffix *)

Lemma suffix_free_cut (l : text) :
  single_line l -> suffix_free (cut version_suffix l) = true.
Proof.
  induction l as [|c l IH]; intros Hl; auto.
  cbn [cut].
  destruct (is_some (match_here version_suffix (c :: l))) eqn:E; auto.
  assert (Hl' : single_line l) by (apply single_line_cons in Hl; tauto).
  cbn [suffix_free]. rewrite (IH Hl'). rewrite andb_true_r.
  destruct (suffix_starts (c :: cut version_suffix l)) eqn:S; auto.
  exfalso. destruct (cut_prefix version_suffix l) as [w Hw].
  apply (suffix_starts_mono _ w) in S. cbn [app] in S. rewrite <- Hw in S.
  rewrite <- version_suffix_starts in S by exact Hl. congruence.
Qed.

Lemma suffix_free_prefix (y w : text) :
  suffix_free (y ++ w) = true -> suffix_free y = true.
Proof.
  induction y as [|c y IH]; auto. cbn [app suffix_free].
  intros H. apply andb_true_iff in H as [H1 H2]. rewrite (IH H2).
  rewrite andb_true_r. destruct (suffix_starts (c :: y)) eqn:S; auto.
  apply (suffix_starts_mono _ w) in S. cbn [app] in S.
  rewrite S in H1. discriminate.
Qed.

Lemma suffix_free_suffix (a y : text) :
  suffix_free (a ++ y) = true -> suffix_free y = true.
Proof.
  induction a as [|c a IH]; auto. cbn [app suffix_free].
  intros H. apply andb_true_iff in H as [_ H]. auto.
Qed.

Lemma suffix_free_strip (s : text) :
  suffix_free s = true -> suffix_free (strip s) = true.
Proof.
  intros H. unfold strip, strip_by, lstrip_by.
  destruct (drop_while_suffix is_space s) as [a [Ha _]].
  rewrite Ha in H. apply suffix_free_suffix in H.
  destruct (rstrip_by_prefix is_space (drop_while is_space s)) as [w [Hw _]].
  rewrite Hw in H. apply suffix_free_prefix in H. exact H.
Qed.

(** Cutting the label that one rewrite made gives its base back. *)
Lemma cut_appended (b v : text) :
  Triple v ->
  single_line b ->
  suffix_free b = true ->
  (forall a c, b = a ++ [c] -> is_space c = false) ->
  cut version_suffix (b ++ txt " v" ++ v) = b.
Proof.
  intros Hv. induction b as [|c b IH]; intros Hb Hf Hlast.
  - change ([] ++ txt " v" ++ v) with (" " :: "v" :: v).
    cbn [cut]. rewrite version_suffix_starts.
    + rewrite <- (app_nil_r v). rewrite suffix_starts_version by exact Hv.
      reflexivity.
    + apply (single_line_app [" "; "v"] v). split; [reflexivity|].
      apply Triple_single_line. exact Hv.
  - cbn [app cut]. cbn [suffix_free] in Hf.
    apply andb_true_iff in Hf as [Hf1 Hf2].
    apply single_line_cons in Hb as [Hc Hb].
    assert (Hsl : single_line (c :: b ++ txt " v" ++ v)).
    { apply single_line_cons. split; auto. apply single_line_app. split; auto.
      apply (single_line_app [" "; "v"] v). split; [reflexivity|].
      apply Triple_single_line. exact Hv. }
    rewrite version_suffix_starts by exact Hsl.
    destruct (suffix_starts (c :: b ++ txt " v" ++ v)) eqn:S.
    + exfalso. change (c :: b ++ txt " v" ++ v)
        with ((c :: b) ++ " " :: "v" :: v) in S.
      apply suffix_starts_local in S; auto; try discriminate.
      rewrite S in Hf1. discriminate.
    + f_equal. apply IH; auto.
      intros a z Hz. apply (Hlast (c :: a)). rewrite Hz. reflexivity.
Qed.

Lemma base_label_cut (l : text) :
  single_line l ->
  base_label l = strip (cut paren_suffix (cut version_suffix l)).
Proof.
  intros Hl. unfold base_label.
  rewrite (re_sub_cut version_suffix eq_refl l Hl).
  rewrite (re_sub_cut paren_suffix eq_refl); auto.
  eapply single_line_incl; [|exact Hl]. apply cut_incl.
Qed.

Lemma base_label_single_line (l : text) :
  single_line l -> single_line (base_label l).
Proof.
  intros Hl. rewrite base_label_cut by exact Hl.
  eapply single_line_incl; [|exact Hl].
  intros c Hc. apply strip_by_incl in Hc. apply cut_incl in Hc.
  apply cut_incl in Hc. exact Hc.
Qed.

Lemma base_label_suffix_free (l : text) :
  single_line l -> suffix_free (base_label l) = true.
Proof.
  intros Hl. rewrite base_label_cut by exact Hl.
  apply suffix_free_strip.
  destruct (cut_prefix paren_suffix (cut version_suffix l)) as [w Hw].
  apply (suffix_free_prefix _ w). rewrite <- Hw.
  apply suffix_free_cut. exact Hl.
Qed.

Lemma base_label_stripped (l : text) : strip (base_label l) = base_label l.
Proof. unfold base_label. apply strip_by_idem. Qed.

Lemma base_label_last (l : text) a c :
  base_label l = a ++ [c] -> is_space c = false.
Proof. unfold base_label. apply strip_ends. Qed.

(** The version suffix of a label made by one rewrite is exactly what the
    rewrite appended. *)
Lemma re_sub_rewritten (l v : text) :
  single_line l -> Triple v ->
  re_sub version_suffix (rewrite_label l v) = base_label l.
Proof.
  intros Hl Hv. unfold rewrite_label.
  rewrite (re_sub_cut version_suffix eq_refl).
  - apply cut_appended; auto.
    + apply base_label_single_line. exact Hl.
    + apply base_label_suffix_free. exact Hl.
    + apply base_label_last.
  - apply single_line_app. split; [apply base_label_single_line; exact Hl|].
    apply (single_line_app [" "; "v"] v). split; [reflexivity|].
    apply Triple_single_line. exact Hv.
Qed.

(** What a second rewrite does, whatever the label: it strips one more
    parenthesised group from the base, if there is one. *)
Lemma rewrite_label_twice (l v v' : text) :
  single_line l -> Triple v ->
  rewrite_label (rewrite_label l v) v' =
  strip (re_sub paren_suffix (base_label l)) ++ txt " v" ++ v'.
Proof.
  intros Hl Hv. unfold rewrite_label at 1. unfold base_label at 1.
  rewrite re_sub_rewritten by assumption. reflexivity.
Qed.

(** * Dictionaries *)

Section Dict.
Context {V : Type}.
Implicit Types (d : dict V) (k : text) (v : V).

Lemma lookup_assign_same k v d : lookup k (assign k v d) = Some v.
Proof.
  induction d as [|[k' v'] d IH]; simpl.
  - rewrite text_eqb_refl. reflexivity.
  - destruct (text_eqb k' k) eqn:E; simpl.
    + rewrite text_eqb_refl. reflexivity.
    + rewrite E. exact IH.
Qed.

Lemma lookup_assign_other k k' v d :
  k' <> k -> lookup k' (assign k v d) = lookup k' d.
Proof.
  intros Hne. induction d as [|[k0 v0] d IH]; simpl.
  - rewrite (proj2 (text_eqb_neq k k')); auto.
  - destruct (text_eqb k0 k) eqn:E; simpl.
    + apply text_eqb_eq in E. subst k0.
      rewrite (proj2 (text_eqb_neq k k')); auto.
    + destruct (text_eqb k0 k'); auto.
Qed.

Lemma lookup_app k d d' :
  lookup k (d ++ d') =
  match lookup k d with Some v => Some v | None => lookup k d' end.
Proof.
  induction d as [|[k0 v0] d IH]; simpl; auto.
  destruct (text_eqb k0 k); auto.
Qed.

Lemma lookup_In k v d : lookup k d = Some v -> In (k, v) d.
Proof.
  induction d as [|[k0 v0] d IH]; simpl; try discriminate.
  destruct (text_eqb k0 k) eqn:E.
  - apply text_eqb_eq in E. intros H; inversion H; subst. auto.
  - auto.
Qed.

Lemma lookup_None_keys k d : lookup k d = None <-> ~ In k (map fst d).
Proof.
  induction d as [|[k0 v0] d IH]; simpl.
  - tauto.
  - destruct (text_eqb k0 k) eqn:E.
    + apply text_eqb_eq in E. split; [discriminate|]. intros H. tauto.
    + apply text_eqb_neq in E. rewrite IH. tauto.
Qed.

Lemma mem_keys k d : mem k d = true <-> In k (map fst d).
Proof.
  unfold mem. destruct (lookup k d) eqn:E; simpl.
  - split; auto. intros _. apply lookup_In in E.
    apply (in_map fst) in E. exact E.
  - apply lookup_None_keys in E. split; [discriminate|contradiction].
Qed.

Lemma mem_false_keys k d : mem k d = false <-> ~ In k (map fst d).
Proof.
  rewrite <- mem_keys. destruct (mem k d); split; auto; try discriminate.
  intros H. exfalso. apply H. reflexivity.
Qed.

Lemma assign_keys k v d :
  map fst (assign k v d) =
  if mem k d then map fst d else map fst d ++ [k].
Proof.
  induction d as [|[k0 v0] d IH]; simpl; auto.
  unfold mem in *. simpl. destruct (text_eqb k0 k) eqn:E; simpl.
  - apply text_eqb_eq in E. subst. reflexivity.
  - rewrite IH. destruct (lookup k d); reflexivity.
Qed.

Lemma NoDup_assign k v d :
  NoDup (map fst d) -> NoDup (map fst (assign k v d)).
Proof.
  intros H. rewrite assign_keys. destruct (mem k d) eqn:E; auto.
  apply mem_false_keys in E.
  apply NoDup_rev in H. rewrite <- (rev_involutive (map fst d ++ [k])).
  apply NoDup_rev. rewrite rev_app_distr. simpl. constructor; auto.
  rewrite <- in_rev. exact E.
Qed.

(** What [assign] keeps of the other entries. *)
Lemma assign_In k v d k' v' :
  In (k', v') (assign k v d) -> (k' = k /\ v' = v) \/ In (k', v') d.
Proof.
  induction d as [|[k0 v0] d IH]; simpl.
  - intros [H|[]]. inversion H. auto.
  - destruct (text_eqb k0 k); simpl.
    + intros [H|H]; [inversion H|]; auto.
    + intros [H|H]; auto. destruct (IH H); auto.
Qed.
End Dict.

(** * Interpolation *)

Lemma has_percent_false (v : text) :
  has_percent v = false <-> forall c, In c v -> is_chr "%" c = false.
Proof.
  unfold has_percent. split.
  - intros H c Hc. destruct (is_chr "%" c) eqn:E; auto.
    assert (existsb (is_chr "%") v = true) by (apply existsb_exists; eauto).
    congruence.
  - intros H. destruct (existsb (is_chr "%") v) eqn:E; auto.
    apply existsb_exists in E as [c [Hc E]]. rewrite (H c Hc) in E.
    discriminate.
Qed.

(** A value without a percent sign is its own expansion. *)
Lemma interpolate_scan_plain deeper vars (v : text) :
  has_percent v = false -> interpolate_scan deeper vars None v = Some v.
Proof.
  induction v as [|c v IH]; intros H; simpl; auto.
  unfold has_percent in H. simpl in H. apply orb_false_iff in H as [Hc Hv].
  rewrite Hc. rewrite (IH Hv). reflexivity.
Qed.

Lemma before_get_plain vars (v : text) :
  has_percent v = false -> before_get vars v = Some v.
Proof. intros H. apply interpolate_scan_plain. exact H. Qed.

(** Every character of an expansion is a percent sign or comes from the
    value or from one of the values it refers to. *)
Section InterpolateChars.
Variable good : ascii -> Prop.
Variable vars : text -> option text.
Hypothesis good_percent : good "%".
Hypothesis good_vars : forall k v, vars k = Some v -> Forall good v.

Lemma interpolate_scan_chars deeper :
  (forall v r, Forall good v -> deeper v = Some r -> Forall good r) ->
  forall (rest : text) ref r,
    Forall good rest ->
    interpolate_scan deeper vars ref rest = Some r -> Forall good r.
Proof.
  intros Hdeep.
  assert (Hstrong : forall n (rest : text), length rest <= n ->
            forall ref r, Forall good rest ->
            interpolate_scan deeper vars ref rest = Some r -> Forall good r).
  { induction n as [|n IH]; intros rest Hlen ref r Hrest.
    - destruct rest; [|simpl in Hlen; lia].
      destruct ref; simpl; intros H; inversion H. constructor.
    - destruct rest as [|c rest];
        [destruct ref; simpl; intros H; inversion H; constructor|].
      simpl in Hlen. inversion Hrest as [|? ? Hc Hr]; subst.
      destruct ref as [acc|]; simpl.
      + destruct (is_chr ")" c).
        * destruct (is_empty acc); try discriminate.
          destruct rest as [|c2 r2]; try discriminate.
          destruct (is_chr "s" c2); try discriminate.
          destruct (vars (optionxform (rev acc))) as [v|] eqn:Ev;
            try discriminate.
          assert (Hpiece : forall piece,
                    (if has_percent v then deeper v else Some v) = Some piece ->
                    Forall good piece).
          { intros piece Ep. destruct (has_percent v).
            - apply (Hdeep v); [eapply good_vars; exact Ev | exact Ep].
            - inversion Ep; subst. eapply good_vars; exact Ev. }
          destruct (has_percent v).
          -- destruct (deeper v) as [piece|]; try discriminate.
             destruct (interpolate_scan deeper vars None r2) as [r'|] eqn:Er;
               try discriminate.
             simpl. intros H. inversion H; subst.
             apply Forall_app. split; [apply Hpiece; reflexivity|].
             inversion Hr; subst. eapply (IH r2); eauto. simpl in Hlen. lia.
          -- destruct (interpolate_scan deeper vars None r2) as [r'|] eqn:Er;
               try discriminate.
             simpl. intros H. inversion H; subst.
             apply Forall_app. split; [apply Hpiece; reflexivity|].
             inversion Hr; subst. eapply (IH r2); eauto. simpl in Hlen. lia.
        * apply (IH rest); auto. lia.
      + destruct (is_chr "%" c).
        * destruct rest as [|c2 r2]; try discriminate.
          inversion Hr; subst.
          destruct (is_chr "%" c2).
          -- destruct (interpolate_scan deeper vars None r2) as [r'|] eqn:Er;
               try discriminate.
             simpl. intros H. inversion H; subst. constructor; auto.
             eapply (IH r2); eauto. simpl in Hlen. lia.
          -- destruct (is_chr "(" c2); try discriminate.
             apply (IH r2); auto. simpl in Hlen. lia.
        * destruct (interpolate_scan deeper vars None rest) as [r'|] eqn:Er;
            try discriminate.
          simpl. intros H. inversion H; subst. constructor; auto.
          eapply (IH rest); eauto. lia. }
  intros rest ref r. apply (Hstrong (length rest)). lia.
Qed.

Lemma interpolate_chars n (v r : text) :
  Forall good v -> interpolate n vars v = Some r -> Forall good r.
Proof.
  revert v r. induction n as [|n IH]; intros v r Hv H; simpl in H;
    [discriminate|].
  eapply interpolate_scan_chars; eauto.
Qed.
End InterpolateChars.

(** * The parser object *)

Lemma add_section_spec cfg s cfg' :
  add_section cfg s = Some cfg' ->
  s <> default_section /\ mem s (sections cfg) = false /\
  cfg' = mkConfig (defaults cfg) (sections cfg ++ [(s, [])]).
Proof.
  unfold add_section.
  destruct (text_eqb s default_section) eqn:E1; try discriminate.
  destruct (mem s (sections cfg)) eqn:E2; try discriminate.
  intros H. inversion H. apply text_eqb_neq in E1. auto.
Qed.

Lemma set_spec cfg s k v cfg' :
  is_empty s = false -> s <> default_section ->
  set cfg s k v = Some cfg' ->
  exists d, lookup s (sections cfg) = Some d /\
            cfg' = mkConfig (defaults cfg)
                     (assign s (assign (optionxform k) v d) (sections cfg)).
Proof.
  intros He Hd. unfold set.
  destruct (negb (is_empty v) && negb (before_set v)); try discriminate.
  rewrite He. apply text_eqb_neq in Hd. rewrite Hd. cbn [orb].
  destruct (lookup s (sections cfg)) as [d|]; try discriminate.
  intros H. inversion H. eauto.
Qed.

Lemma option_of_add cfg s s' k :
  mem s (sections cfg) = false ->
  option_of (mkConfig (defaults cfg) (sections cfg ++ [(s, [])])) s' k =
  option_of cfg s' k.
Proof.
  intros Hm. unfold option_of. cbn [sections]. rewrite lookup_app.
  destruct (lookup s' (sections cfg)) eqn:E; auto.
  simpl. destruct (text_eqb s s'); reflexivity.
Qed.

Lemma option_of_set cfg s k v d s' k' :
  lookup s (sections cfg) = Some d ->
  ~ (s' = s /\ k' = k) ->
  option_of (mkConfig (defaults cfg) (assign s (assign k v d) (sections cfg)))
    s' k' = option_of cfg s' k'.
Proof.
  intros Hd Hne. unfold option_of. cbn [sections].
  destruct (list_eq_dec ascii_dec s' s) as [->|Hs].
  - rewrite lookup_assign_same, Hd.
    apply lookup_assign_other. intros ->. apply Hne. auto.
  - rewrite lookup_assign_other by exact Hs. reflexivity.
Qed.

Lemma option_of_set_same cfg s k v d :
  lookup s (sections cfg) = Some d ->
  option_of (mkConfig (defaults cfg) (assign s (assign k v d) (sections cfg)))
    s k = Some v.
Proof.
  intros Hd. unfold option_of. cbn [sections].
  rewrite lookup_assign_same. apply lookup_assign_same.
Qed.


(** ** What [update_app_version] changes in the parser object *)

Lemma ensure_section_frame cfg s c1 :
  (if has_section cfg s then Some cfg else add_section cfg s) = Some c1 ->
  defaults c1 = defaults cfg
  /\ (forall s' k, option_of c1 s' k = option_of cfg s' k)
  /\ (forall s', s' <> s -> lookup s' (sections c1) = lookup s' (sections cfg))
  /\ (exists d, lookup s (sections c1) = Some d)
  /\ (exists extra, map fst (sections c1) = map fst (sections cfg) ++ extra
                    /\ incl extra [s]).
Proof.
  unfold has_section.
  destruct (mem s (sections cfg)) eqn:E.
  - intros H; inversion H; subst. repeat split; auto.
    + unfold mem in E. destruct (lookup s (sections c1)); eauto. discriminate.
    + exists []. rewrite app_nil_r. split; auto. intros x [].
  - intros H. apply add_section_spec in H as [_ [_ ->]].
    cbn [defaults sections]. repeat split; auto.
    + intros s' k. apply option_of_add. exact E.
    + intros s' Hne. rewrite lookup_app.
      destruct (lookup s' (sections cfg)); auto. simpl.
      rewrite (proj2 (text_eqb_neq s s')); auto.
    + exists []. rewrite lookup_app.
      unfold mem in E. destruct (lookup s (sections cfg)); [discriminate|].
      simpl. rewrite text_eqb_refl. reflexivity.
    + exists [s]. rewrite map_app. split; auto. apply incl_refl.
Qed.

Lemma set_frame cfg s k v c1 :
  is_empty s = false -> s <> default_section ->
  set cfg s k v = Some c1 ->
  defaults c1 = defaults cfg
  /\ (forall s' k', ~ (s' = s /\ k' = optionxform k) ->
        option_of c1 s' k' = option_of cfg s' k')
  /\ option_of c1 s (optionxform k) = Some v
  /\ (forall s', s' <> s -> lookup s' (sections c1) = lookup s' (sections cfg))
  /\ map fst (sections c1) = map fst (sections cfg).
Proof.
  intros He Hd H. apply set_spec in H as [d [Hl ->]]; auto.
  cbn [defaults sections]. repeat split; auto.
  - intros s' k' Hne. apply option_of_set; auto.
  - apply option_of_set_same. exact Hl.
  - intros s' Hne. apply lookup_assign_other. exact Hne.
  - rewrite assign_keys. unfold mem. rewrite Hl. reflexivity.
Qed.

Lemma updated_config_frame cfg version build cfg' :
  updated_config cfg version build = Some cfg' ->
  defaults cfg' = defaults cfg
  /\ (forall s k, ~ rewritten s k -> option_of cfg' s k = option_of cfg s k)
  /\ (forall s, s <> launcher -> s <> install ->
        lookup s (sections cfg') = lookup s (sections cfg))
  /\ (exists extra, map fst (sections cfg') = map fst (sections cfg) ++ extra
                    /\ incl extra [launcher; install])
  /\ option_of cfg' launcher (txt "version") = Some version
  /\ option_of cfg' install (txt "build") = Some build.
Proof.
  unfold updated_config. fold launcher. fold install.
  destruct (if has_section cfg launcher then Some cfg
            else add_section cfg launcher) as [c1|] eqn:E1; [|discriminate].
  apply ensure_section_frame in E1 as [D1 [O1 [L1 [_ [x1 [K1 I1]]]]]].
  destruct (set c1 launcher (txt "version") version) as [c2|] eqn:E2;
    [|discriminate].
  apply set_frame in E2 as [D2 [O2 [V2 [L2 K2]]]]; try discriminate;
    [|reflexivity].
  destruct (if has_section c2 install then Some c2
            else add_section c2 install) as [c3|] eqn:E3; [|discriminate].
  apply ensure_section_frame in E3 as [D3 [O3 [L3 [_ [x3 [K3 I3]]]]]].
  destruct (set c3 install (txt "build") build) as [c4|] eqn:E4;
    [|discriminate].
  apply set_frame in E4 as [D4 [O4 [V4 [L4 K4]]]]; try discriminate;
    [|reflexivity].
  change (optionxform (txt "version")) with (txt "version") in *.
  change (optionxform (txt "build")) with (txt "build") in *.
  assert (Hkeys : map fst (sections c4) = (map fst (sections cfg) ++ x1) ++ x3)
    by congruence.
  assert (Hincl : incl (x1 ++ x3) [launcher; install]).
  { intros x Hx. apply in_app_or in Hx as [Hx|Hx].
    - apply I1 in Hx as [<-|[]]. left; reflexivity.
    - apply I3 in Hx as [<-|[]]. right; left; reflexivity. }
  assert (Hframe4 : forall s k, ~ rewritten s k ->
            option_of c4 s k = option_of cfg s k).
  { intros s k Hn. rewrite O4, O3, O2, O1; auto.
    - intros [-> ->]. apply Hn. left. auto.
    - intros [-> ->]. apply Hn. right. auto. }
  assert (Hver4 : option_of c4 launcher (txt "version") = Some version).
  { rewrite O4, O3; auto. intros [H _]. discriminate. }
  assert (Hsec4 : forall s, s <> launcher -> s <> install ->
            lookup s (sections c4) = lookup s (sections cfg)).
  { intros s H1 H2. rewrite L4, L3, L2, L1; auto. }
  destruct (has_option c4 launcher (txt "label")).
  - destruct (get c4 launcher (txt "label")) as [current|]; [|discriminate].
    intros E5.
    apply set_frame in E5 as [D5 [O5 [V5 [L5 K5]]]]; try discriminate;
      [|reflexivity].
    change (optionxform (txt "label")) with (txt "label") in *.
    split; [congruence|]. split; [|split; [|split; [|split]]].
    + intros s k Hn. rewrite O5; auto.
      intros [-> ->]. apply Hn. left. auto.
    + intros s H1 H2. rewrite L5; auto.
    + exists (x1 ++ x3). split; auto. rewrite K5, Hkeys, app_assoc.
      reflexivity.
    + rewrite O5; auto. intros [_ H]. discriminate.
    + rewrite O5; auto. intros [H _]. discriminate.
  - intros H. inversion H; subst cfg'.
    split; [congruence|]. split; [exact Hframe4|]. split; [exact Hsec4|].
    split; [|split; auto].
    exists (x1 ++ x3). split; auto. rewrite Hkeys, app_assoc. reflexivity.
Qed.

(** * The file system *)

Lemma lookup_store_same (p : path) : forall (n n' new : node),
  store n p new = Some n' -> lookup_path n' p = Some new.
Proof.
  induction p as [|x p IH]; intros n n' new H; simpl in H; [discriminate|].
  destruct n as [?|? ? ?|es]; try discriminate.
  destruct p as [|y p'].
  - inversion H; subst. simpl. rewrite lookup_assign_same. reflexivity.
  - destruct (lookup x es) as [child|] eqn:E; try discriminate.
    destruct (store child (y :: p') new) as [child'|] eqn:S; try discriminate.
    inversion H; subst. cbn [lookup_path]. rewrite lookup_assign_same.
    eapply IH. exact S.
Qed.

Lemma write_file_read (fs fs' : node) (p : path) (content : text) :
  write_file fs p content = Some fs' ->
  lookup_path fs' p = Some (File content).
Proof.
  unfold write_file. destruct (is_dir fs p); [discriminate|].
  apply lookup_store_same.
Qed.

Lemma path_exists_lookup (fs : node) (p : path) :
  path_exists fs p = true <-> exists n, lookup_path fs p = Some n.
Proof.
  unfold path_exists. destruct (lookup_path fs p); simpl; split; eauto;
    try discriminate.
  intros [n H]. discriminate.
Qed.

Lemma path_exists_false (fs : node) (p : path) :
  path_exists fs p = false <-> lookup_path fs p = None.
Proof.
  unfold path_exists. destruct (lookup_path fs p); simpl; split; auto;
    discriminate.
Qed.

(** * Sorting names *)

Lemma text_leb_total (a b : text) : text_leb a b = false -> text_leb b a = true.
Proof.
  revert b. induction a as [|x a IH]; intros [|y b]; simpl; auto;
    try discriminate.
  destruct (code x <? code y)%nat eqn:E1; try discriminate.
  destruct (code y <? code x)%nat eqn:E2; auto.
Qed.

Lemma text_leb_refl (a : text) : text_leb a a = true.
Proof.
  induction a as [|x a IH]; simpl; auto.
  rewrite Nat.ltb_irrefl. exact IH.
Qed.

Lemma text_leb_trans (a b c : text) :
  text_leb a b = true -> text_leb b c = true -> text_leb a c = true.
Proof.
  revert b c. induction a as [|x a IH]; intros [|y b] [|z c]; simpl; auto;
    try discriminate.
  destruct (code x <? code y)%nat eqn:E1.
  - apply Nat.ltb_lt in E1. intros _.
    destruct (code y <? code z)%nat eqn:E2.
    + apply Nat.ltb_lt in E2. intros _.
      rewrite (proj2 (Nat.ltb_lt (code x) (code z))) by lia. reflexivity.
    + destruct (code z <? code y)%nat eqn:E3; try discriminate.
      apply Nat.ltb_ge in E2, E3. intros _.
      rewrite (proj2 (Nat.ltb_lt (code x) (code z))) by lia. reflexivity.
  - destruct (code y <? code x)%nat eqn:E1'; try discriminate.
    apply Nat.ltb_ge in E1, E1'. intros Hab.
    destruct (code y <? code z)%nat eqn:E2.
    + apply Nat.ltb_lt in E2. intros _.
      rewrite (proj2 (Nat.ltb_lt (code x) (code z))) by lia. reflexivity.
    + destruct (code z <? code y)%nat eqn:E3; try discriminate.
      apply Nat.ltb_ge in E2, E3. intros Hbc.
      rewrite (proj2 (Nat.ltb_ge (code x) (code z))) by lia.
      rewrite (proj2 (Nat.ltb_ge (code z) (code x))) by lia.
      eapply IH; eauto.
Qed.

Lemma insert_sorted_perm (x : text) (l : list text) :
  Permutation (x :: l) (insert_sorted x l).
Proof.
  induction l as [|y l IH]; simpl; auto.
  destruct (text_leb x y); auto.
  rewrite perm_swap. constructor. exact IH.
Qed.

Lemma sorted_perm (l : list text) : Permutation l (sorted l).
Proof.
  induction l as [|x l IH]; simpl; auto.
  rewrite <- insert_sorted_perm. constructor. exact IH.
Qed.

Lemma insert_sorted_strongly (x : text) (l : list text) :
  StronglySorted text_le l -> StronglySorted text_le (insert_sorted x l).
Proof.
  induction l as [|y l IH]; intros H; simpl.
  - constructor; constructor.
  - inversion H as [|? ? Hl Hy]; subst.
    destruct (text_leb x y) eqn:E.
    + constructor; auto. constructor; auto.
      eapply Forall_impl; [|exact Hy]. intros z Hz.
      unfold text_le in *. eapply text_leb_trans; eauto.
    + constructor; auto.
      apply (Permutation_Forall (insert_sorted_perm x l)).
      constructor; auto. apply text_leb_total. exact E.
Qed.

Lemma sorted_strongly (l : list text) : StronglySorted text_le (sorted l).
Proof.
  induction l as [|x l IH]; simpl.
  - constructor.
  - apply insert_sorted_strongly. exact IH.
Qed.

Lemma sorted_In (l : list text) x : In x (sorted l) <-> In x l.
Proof.
  split; apply Permutation_in; [symmetry|]; apply sorted_perm.
Qed.

Lemma first_missing_some (fs : node) (base : path) (required : list path) p :
  first_missing fs base required = Some p ->
  exists r, In r required /\ p = base ++ r /\ path_exists fs p = false.
Proof.
  induction required as [|r rest IH]; simpl; [discriminate|].
  destruct (path_exists fs (base ++ r)) eqn:E.
  - intros H. destruct (IH H) as [r' [H1 H2]]. exists r'. auto.
  - intros H. inversion H; subst. exists r. auto.
Qed.

Lemma first_missing_none (fs : node) (base : path) (required : list path) :
  first_missing fs base required = None <->
  forall r, In r required -> path_exists fs (base ++ r) = true.
Proof.
  induction required as [|r rest IH]; simpl.
  - split; auto.
  - destruct (path_exists fs (base ++ r)) eqn:E.
    + rewrite IH. split; intros H r' Hr'; auto.
      destruct Hr' as [<-|Hr']; auto.
    + split; [discriminate|]. intros H. rewrite H in E; auto. discriminate.
Qed.

(** * The apps of a source directory *)

Lemma list_available_apps_missing (f : node) (src : path) (acc : access) :
  stat_refused acc src = false ->
  path_exists f src = false -> list_available_apps f src acc = Some [].
Proof.
  intros R H. unfold list_available_apps. rewrite R, H. reflexivity.
Qed.

Lemma list_available_apps_dir (f : node) (src : path) (acc : access)
    (entries : dict node) :
  lookup_path f src = Some (Dir entries) ->
  stat_refused acc src = false ->
  list_refused acc src = false ->
  existsb (probe_refused acc f src) (map fst entries) = false ->
  exists names,
    list_available_apps f src acc = Some names
    /\ StronglySorted text_le names
    /\ (forall name, In name names <->
                     In name (map fst entries) /\ deployable f src name)
    /\ Permutation names
         (filter (fun name => is_dir f (src ++ [name])
                              && path_exists f (src ++ [name] ++ app_conf))
            (map fst entries)).
Proof.
  intros H R L P. unfold list_available_apps, iterdir, path_exists.
  rewrite R, H, L, P.
  cbn [is_some negb]. eexists. split; [reflexivity|].
  split; [apply sorted_strongly|]. split.
  - intros name. rewrite sorted_In, filter_In, andb_true_iff.
    unfold deployable, path_exists. tauto.
  - symmetry. apply sorted_perm.
Qed.

(** What a listing that returns tells. *)
Lemma list_available_apps_some (f : node) (src : path) (acc : access)
    (names : list text) :
  list_available_apps f src acc = Some names ->
  stat_refused acc src = false
  /\ ((path_exists f src = false /\ names = [])
      \/ exists entries,
           lookup_path f src = Some (Dir entries)
           /\ list_refused acc src = false
           /\ existsb (probe_refused acc f src) (map fst entries) = false
           /\ names
              = sorted
                  (filter (fun name =>
                             is_dir f (src ++ [name])
                             && path_exists f (src ++ [name] ++ app_conf))
                     (map fst entries))).
Proof.
  unfold list_available_apps, iterdir.
  destruct (stat_refused acc src); [discriminate|].
  destruct (path_exists f src) eqn:E; cbn [negb].
  - destruct (list_refused acc src); [discriminate|].
    destruct (lookup_path f src) as [[c|a t b|es]|] eqn:L; try discriminate.
    destruct (existsb (probe_refused acc f src) (map fst es)) eqn:P;
      [discriminate|].
    intros H. inversion H; subst. split; [reflexivity|]. right.
    exists es. auto.
  - intros H. inversion H; subst. auto.
Qed.

(** The descriptor of a listed app was probed, and the probe answered. *)
Lemma listed_not_refused (f : node) (src : path) (acc : access)
    (names : list text) (name : text) :
  list_available_apps f src acc = Some names -> In name names ->
  stat_refused acc (src ++ [name] ++ app_conf) = false.
Proof.
  intros H Hin. destruct (list_available_apps_some _ _ _ _ H) as [_ [[_ ->]|D]].
  - destruct Hin.
  - destruct D as [es [_ [_ [P ->]]]].
    apply sorted_In, filter_In in Hin. destruct Hin as [Hin Hd].
    apply andb_true_iff in Hd. destruct Hd as [Hd _].
    destruct (stat_refused acc (src ++ [name] ++ app_conf)) eqn:E; [|reflexivity].
    assert (X : existsb (probe_refused acc f src) (map fst es) = true).
    { apply existsb_exists. exists name. split; [exact Hin|].
      unfold probe_refused. rewrite Hd, E. apply orb_true_r. }
    rewrite X in P. discriminate.
Qed.

(** * Running the pipeline

    Every step of the pipeline returns; what it returns, what it leaves in
    the file system, what it logs and which operations it starts depend
    only on the file system it finds.  The functions below give these four
    for each step, and the lemmas say that the step does just that to the
    world. *)

Lemma evolve_evolve w f lg tr f' lg' tr' :
  evolve (evolve w f lg tr) f' lg' tr' = evolve w f' (lg ++ lg') (tr ++ tr').
Proof. unfold evolve. simpl. rewrite <- !app_assoc. reflexivity. Qed.

Ltac run_monad :=
  cbv beta iota zeta delta [bind ret logm emit get_fs put_fs sys_exit negb
                            fs stdin log trace evolve apply_effect].

Ltac tidy_world :=
  unfold evolve; cbn [fs stdin log trace];
  repeat rewrite <- app_assoc; cbn [app]; repeat rewrite app_nil_r;
  try reflexivity.

Lemma validate_app_structure_run (src : path) (app : text) (w : world) :
  validate_app_structure src app w =
  apply_effect (validate_result src app (fs w)) w.
Proof.
  destruct w as [f i l t]. unfold validate_app_structure, validate_result.
  run_monad.
  destruct (first_missing f (src ++ [app]) required_dirs).
  - run_monad. tidy_world.
  - destruct (first_missing f (src ++ [app]) required_files); run_monad;
      tidy_world.
Qed.

Lemma backup_existing_app_run (m : manager) (app : text) (dir : path)
    (env : unit_env) (w : world) :
  backup_existing_app m app dir env w =
  apply_effect (backup_result m app dir env (fs w)) w.
Proof.
  destruct w as [f i l t].
  unfold backup_existing_app, backup_result, store_archive, archive_path.
  run_monad.
  destruct (lookup_path f (dir ++ [app])) as [tree|]; run_monad;
    [|tidy_world].
  destruct (tar_result env); run_monad.
  - destruct (is_dir f _); [tidy_world|].
    destruct (store f _ _); run_monad; tidy_world.
  - tidy_world.
  - destruct (is_dir f _); [tidy_world|].
    destruct (store f _ _); run_monad; tidy_world.
Qed.

Lemma update_app_version_run (src : path) (app version : text) (env : unit_env)
    (w : world) :
  update_app_version src app version env w =
  apply_effect (update_result src app version env (fs w)) w.
Proof.
  destruct w as [f i l t]. unfold update_app_version, update_result. run_monad.
  destruct (path_exists f _); run_monad; [|tidy_world].
  destruct (read_config f _ _) as [cfg|]; run_monad; [|tidy_world].
  destruct (updated_config cfg _ _) as [cfg'|]; run_monad; [|tidy_world].
  destruct (written cfg' _) as [[content complete]|]; run_monad; [|tidy_world].
  destruct (write_file f _ content) as [f'|]; run_monad; [|tidy_world].
  destruct complete; run_monad; tidy_world.
Qed.

Lemma validate_deployment_run (app : text) (target : path) (w : world) :
  validate_deployment app target w =
  apply_effect (validate_deployment_result app target (fs w)) w.
Proof.
  destruct w as [f i l t]. unfold validate_deployment, validate_deployment_result.
  run_monad.
  destruct (path_exists f target); run_monad; [|tidy_world].
  destruct (first_missing f target required_files); run_monad; tidy_world.
Qed.

Lemma validate_result_fs src app f :
  snd (fst (fst (validate_result src app f))) = f
  /\ snd (validate_result src app f) = [].
Proof.
  unfold validate_result.
  destruct (first_missing f _ required_dirs); auto.
  destruct (first_missing f _ required_files); auto.
Qed.

Lemma bind_eq {A B} (m : M A) (k : A -> M B) (w : world) :
  bind m k w =
  match m w with
  | (Done a, w') => k a w'
  | (Exit c, w') => (Exit c, w')
  | (Raised, w') => (Raised, w')
  end.
Proof. reflexivity. Qed.

Lemma logm_run l msg w : logm l msg w = (Done tt, evolve w (fs w) [(l, msg)] []).
Proof. unfold logm, evolve. rewrite app_nil_r. reflexivity. Qed.

Lemma emit_run e w : emit e w = (Done tt, evolve w (fs w) [] [e]).
Proof. unfold emit, evolve. rewrite app_nil_r. reflexivity. Qed.

Lemma get_fs_run w : get_fs w = (Done (fs w), w).
Proof. reflexivity. Qed.

Lemma put_fs_run f w : put_fs f w = (Done tt, evolve w f [] []).
Proof. unfold put_fs, evolve. rewrite !app_nil_r. reflexivity. Qed.

Lemma ret_run {A} (a : A) w : ret a w = (Done a, w).
Proof. reflexivity. Qed.

Lemma fs_evolve w f lg ops : fs (evolve w f lg ops) = f.
Proof. reflexivity. Qed.

Ltac step :=
  rewrite bind_eq;
  first [ rewrite logm_run | rewrite emit_run | rewrite get_fs_run
        | rewrite put_fs_run | rewrite ret_run ];
  cbv beta iota; rewrite ?evolve_evolve, ?fs_evolve.

Ltac finish_run :=
  rewrite ?ret_run, ?evolve_evolve, ?fs_evolve, ?app_nil_r;
  cbn [app]; rewrite <- ?app_assoc; cbn [app]; rewrite ?app_nil_r;
  try reflexivity.

Lemma deploy_app_run (m : manager) (app : text) (target : path) (version : text)
    (env : unit_env) (w : world) :
  deploy_app m app target version env w =
  apply_effect (deploy_result m app target version env (fs w)) w.
Proof.
  unfold deploy_app, deploy_result, deploying.
  step. rewrite bind_eq, validate_app_structure_run, fs_evolve.
  destruct (validate_result_fs (apps_source_dir m) app (fs w)) as [Hf Ho].
  destruct (validate_result (apps_source_dir m) app (fs w))
    as [[[b1 f1] lg1] ops1]. cbn [fst snd] in Hf, Ho. subst f1 ops1.
  unfold apply_effect. rewrite evolve_evolve.
  destruct b1; cbn [negb]; [|step; finish_run].
  rewrite bind_eq, backup_existing_app_run, fs_evolve.
  destruct (backup_result m app (parent target) env (fs w))
    as [[[b2 f2] lg2] ops2].
  unfold apply_effect. rewrite evolve_evolve.
  destruct b2; cbn [negb]; [|step; finish_run].
  rewrite bind_eq, update_app_version_run, fs_evolve.
  destruct (update_result (apps_source_dir m) app version env f2)
    as [[[b3 f3] lg3] ops3].
  unfold apply_effect. rewrite evolve_evolve.
  destruct b3; cbn [negb]; [|step; finish_run].
  unfold replace_result. step.
  destruct (path_exists f3 target).
  - rewrite bind_eq. step. step.
    destruct (if rmtree_fails env then None else rmtree f3 target) as [f4|].
    + step. rewrite ret_run. cbv beta iota. cbn [negb].
      step. step. step.
      destruct (if copytree_fails env then None else copytree f4 _ target).
      * step. destruct (os_type m); step; step; finish_run.
      * step. finish_run.
    + rewrite ret_run. cbv beta iota. cbn [negb]. step. finish_run.
  - rewrite bind_eq, ret_run. cbv beta iota. cbn [negb].
    step. step. step.
    destruct (if copytree_fails env then None else copytree f3 _ target).
    + step. destruct (os_type m); step; step; finish_run.
    + step. finish_run.
Qed.

(** ** The validator *)

Lemma validate_result_missing (src : path) (app : text) (f : node) (r : path) :
  In r (required_dirs ++ required_files) ->
  path_exists f (src ++ [app] ++ r) = false ->
  exists kind r',
    validate_result src app f =
    (false, f,
     [(LOG, txt "Validating " ++ app ++ txt " app structure...");
      (ERROR, kind ++ render_path (src ++ [app] ++ r'))], [])
    /\ (kind = txt "Missing required directory: "
        \/ kind = txt "Missing required file: ")
    /\ In r' (required_dirs ++ required_files)
    /\ path_exists f (src ++ [app] ++ r') = false.
Proof.
  intros Hr Hmiss. unfold validate_result.
  destruct (first_missing f (src ++ [app]) required_dirs) as [p|] eqn:D.
  - apply first_missing_some in D as [r' [H1 [-> H3]]].
    exists (txt "Missing required directory: "), r'.
    rewrite <- app_assoc in *. repeat split; auto.
    apply in_or_app. auto.
  - destruct (first_missing f (src ++ [app]) required_files) as [p|] eqn:F.
    + apply first_missing_some in F as [r' [H1 [-> H3]]].
      exists (txt "Missing required file: "), r'.
      rewrite <- app_assoc in *. repeat split; auto.
      apply in_or_app. auto.
    + exfalso. rewrite first_missing_none in D, F.
      apply in_app_or in Hr as [Hr|Hr].
      * specialize (D r Hr). rewrite <- app_assoc in D. congruence.
      * specialize (F r Hr). rewrite <- app_assoc in F. congruence.
Qed.

Lemma validate_result_true (src : path) (app : text) (f f' : node) lg ops :
  validate_result src app f = (true, f', lg, ops) ->
  forall r, In r (required_dirs ++ required_files) ->
            path_exists f (src ++ [app] ++ r) = true.
Proof.
  unfold validate_result.
  destruct (first_missing f (src ++ [app]) required_dirs) eqn:D;
    [discriminate|].
  destruct (first_missing f (src ++ [app]) required_files) eqn:F;
    [discriminate|].
  intros _ r Hr. rewrite first_missing_none in D, F.
  rewrite app_assoc. apply in_app_or in Hr as [Hr|Hr]; auto.
Qed.

(** ** The operations a deployment starts *)

Lemma backup_result_absent m app dir env f :
  lookup_path f (dir ++ [app]) = None ->
  backup_result m app dir env f =
  (true, f, [(LOG, txt "No existing " ++ app ++ txt " app found to backup")], []).
Proof. intros H. unfold backup_result. rewrite H. reflexivity. Qed.

Lemma backup_result_present m app dir env f tree b f1 lg ops :
  lookup_path f (dir ++ [app]) = Some tree ->
  backup_result m app dir env f = (b, f1, lg, ops) ->
  (b = true /\ ops = [Archived (archive_path m app env) app tree true]
   /\ store_archive f (archive_path m app env) app tree true = Some f1)
  \/ (b = false /\ ops = [] /\ f1 = f)
  \/ (b = false /\ ops = [Archived (archive_path m app env) app tree false]
      /\ store_archive f (archive_path m app env) app tree false = Some f1).
Proof.
  intros Ht. unfold backup_result. rewrite Ht. cbv zeta.
  destruct (tar_result env).
  - destruct (store_archive f _ app tree true) eqn:S; intros H; inversion H;
      subst; auto.
  - intros H; inversion H; subst; auto.
  - destruct (store_archive f _ app tree false) eqn:S; intros H; inversion H;
      subst; auto.
Qed.

Lemma update_result_ops src app version env f b f' lg ops :
  update_result src app version env f = (b, f', lg, ops) ->
  ops = [] \/ ops = [Wrote (src ++ [app] ++ app_conf)].
Proof.
  unfold update_result.
  destruct (negb (path_exists f _)); [intros H; inversion H; auto|].
  cbv zeta.
  destruct (read_config f _ _) as [cfg|]; [|intros H; inversion H; auto].
  destruct (updated_config cfg _ _) as [cfg'|]; [|intros H; inversion H; auto].
  destruct (written cfg' _) as [[content complete]|];
    [|intros H; inversion H; auto].
  destruct (write_file f _ content); [|intros H; inversion H; auto].
  destruct complete; intros H; inversion H; auto.
Qed.

Lemma replace_result_ops m app target env f b f' lg ops :
  replace_result m app target env f = (b, f', lg, ops) ->
  Forall (destructive target) ops.
Proof.
  unfold replace_result. cbv zeta.
  assert (R : destructive target (Rmtree target)) by (left; reflexivity).
  assert (C : destructive target
                (Copytree (apps_source_dir m ++ [app]) target))
    by (right; eexists; reflexivity).
  destruct (path_exists f target).
  - destruct (if rmtree_fails env then None else rmtree f target) as [f1|].
    + destruct (if copytree_fails env then None else copytree f1 _ target);
        intros H; inversion H; subst; cbn [List.app];
        repeat (apply Forall_cons || apply Forall_nil); auto.
    + intros H; inversion H; subst.
      repeat (apply Forall_cons || apply Forall_nil); auto.
  - destruct (if copytree_fails env then None else copytree f _ target);
      intros H; inversion H; subst; cbn [List.app];
      repeat (apply Forall_cons || apply Forall_nil); auto.
Qed.

(** What [deploy_app] starts, in order: the operations of the backup, then
    at most one write of the descriptor, then the removal and the copy;
    the last two only after a backup step that succeeded. *)
Lemma deploy_result_ops m app target version env f ok f' lg ops :
  deploy_result m app target version env f = (ok, f', lg, ops) ->
  (ok = false /\ ops = [] /\ f' = f)
  \/ exists b2 f1 lg2 ops2,
       backup_result m app (parent target) env f = (b2, f1, lg2, ops2) /\
       ((b2 = false /\ ok = false /\ ops = ops2 /\ f' = f1)
        \/ (b2 = true /\
            exists writes moves,
              ops = ops2 ++ writes ++ moves /\
              (writes = []
               \/ writes = [Wrote (apps_source_dir m ++ [app] ++ app_conf)]) /\
              Forall (destructive target) moves)).
Proof.
  unfold deploy_result.
  destruct (validate_result (apps_source_dir m) app f)
    as [[[b1 f0] lg1] ops1].
  destruct b1; [|intros H; inversion H; auto].
  destruct (backup_result m app (parent target) env f)
    as [[[b2 f1] lg2] ops2].
  intros H. right. exists b2, f1, lg2, ops2. split; [reflexivity|].
  destruct b2; [|inversion H; auto].
  right. split; [reflexivity|].
  destruct (update_result (apps_source_dir m) app version env f1)
    as [[[b3 f2] lg3] ops3] eqn:U.
  apply update_result_ops in U.
  destruct b3.
  - destruct (replace_result m app target env f2) as [[[b4 f3] lg4] ops4] eqn:R.
    apply replace_result_ops in R. inversion H; subst.
    exists ops3, ops4. auto.
  - inversion H; subst. exists ops3, []. rewrite app_nil_r. auto.
Qed.

(** ** Version prompt *)

Lemma strict_version_stripped (raw : text) :
  re_match strict_version (strip raw) = true <-> Triple (strip raw).
Proof.
  split.
  - intros H. apply strict_version_sound in H as [v [rest [Hs [Hv He]]]].
    destruct rest as [|c [|c' rest]]; try discriminate.
    + rewrite app_nil_r in Hs. rewrite Hs. exact Hv.
    + simpl in He. apply nl_is_space in He.
      rewrite (proj2 (strip_ends raw) v c Hs) in He. discriminate.
  - intros H. unfold re_match. rewrite (strict_version_complete _ H).
    reflexivity.
Qed.

Lemma input_run f line rest lg tr :
  input (mkWorld f (Typed line :: rest) lg tr) = (Done line, mkWorld f rest lg tr).
Proof. reflexivity. Qed.

Lemma prompt_for_version_run (app cur raw : text) f rest lg tr :
  prompt_for_version app cur (mkWorld f (Typed raw :: rest) lg tr) =
  if is_empty (strip raw) then (Done cur, mkWorld f rest lg tr)
  else if re_match strict_version (strip raw)
       then (Done (strip raw), mkWorld f rest lg tr)
       else (Done cur,
             mkWorld f rest
               (lg ++ [(WARNING,
                        txt "Invalid version format. Using current version: "
                        ++ cur)]) tr).
Proof.
  unfold prompt_for_version. rewrite bind_eq, input_run. cbv beta iota.
  destruct (is_empty (strip raw)); [reflexivity|].
  destruct (re_match strict_version (strip raw)); reflexivity.
Qed.

(** ** The loop over the selected apps *)



Lemma get_plain cfg section d optname value :
  lookup section (sections cfg) = Some d ->
  lookup (optionxform optname) d = Some value ->
  has_percent value = false ->
  get cfg section optname = Some value.
Proof.
  intros Hs Hk Hp. unfold get, unify_values. rewrite Hs, Hk.
  apply before_get_plain. exact Hp.
Qed.

Lemma own_version_offered cfg section value :
  is_empty section = false -> section <> default_section ->
  option_of cfg section (txt "version") = Some value ->
  offers_version cfg section = true.
Proof.
  intros He Hd. unfold option_of, offers_version, has_section, has_option, mem.
  apply text_eqb_neq in Hd. rewrite He, Hd. cbn [orb].
  destruct (lookup section (sections cfg)) as [d|]; [|discriminate].
  change (optionxform (txt "version")) with (txt "version").
  intros ->. reflexivity.
Qed.

Lemma own_version_got cfg section value :
  option_of cfg section (txt "version") = Some value ->
  has_percent value = false ->
  get cfg section (txt "version") = Some value.
Proof.
  unfold option_of. intros H Hp.
  destruct (lookup section (sections cfg)) as [d|] eqn:E; [|discriminate].
  eapply get_plain; eauto.
Qed.

Lemma first_version_cases cfg :
  first_version cfg [launcher; install] =
  if offers_version cfg launcher then
    match get cfg launcher (txt "version") with
    | Some v => strip_quotes v
    | None => default_version
    end
  else if offers_version cfg install then
    match get cfg install (txt "version") with
    | Some v => strip_quotes v
    | None => default_version
    end
  else default_version.
Proof. reflexivity. Qed.


Lemma get_current_version_cases f src app unreadable :
  get_current_version f src app unreadable false =
  Some (if negb (path_exists f (src ++ [app] ++ app_conf)) then default_version
        else match read_config f (src ++ [app] ++ app_conf) unreadable with
             | None => default_version
             | Some cfg => first_version cfg [launcher; install]
             end).
Proof.
  unfold get_current_version.
  destruct (negb (path_exists f (src ++ [app] ++ app_conf))); [reflexivity|].
  destruct (read_config f (src ++ [app] ++ app_conf) unreadable); reflexivity.
Qed.

(** The probe answers whenever the system lets it. *)
Lemma get_current_version_answers f src app unreadable :
  exists v, get_current_version f src app unreadable false = Some v.
Proof. rewrite get_current_version_cases. eexists. reflexivity. Qed.

(** ** Writing the version *)

Lemma update_result_true src app version env f f' lg ops :
  update_result src app version env f = (true, f', lg, ops) ->
  exists cfg cfg',
    read_config f (src ++ [app] ++ app_conf) (read_unreadable env) = Some cfg
    /\ updated_config cfg version (build_stamp (build_time env)) = Some cfg'
    /\ write_file f (src ++ [app] ++ app_conf) (render cfg') = Some f'
    /\ ops = [Wrote (src ++ [app] ++ app_conf)].
Proof.
  unfold update_result.
  destruct (negb (path_exists f _)); [discriminate|]. cbv zeta.
  destruct (read_config f _ _) as [cfg|] eqn:R; [|discriminate].
  destruct (updated_config cfg _ _) as [cfg'|] eqn:U; [|discriminate].
  destruct (write_result env); cbn [written]; try discriminate.
  - destruct (write_file f _ (render cfg')) as [f1|] eqn:W; [|discriminate].
    intros H. inversion H; subst. exists cfg, cfg'. repeat split; auto.
  - destruct (write_file f _ _); discriminate.
Qed.

(** The descriptor after a call that returned [False]: as it was, or the
    first bytes of the new one only. *)
Lemma update_result_false src app version env f f' lg ops :
  update_result src app version env f = (false, f', lg, ops) ->
  (f' = f /\ ops = [])
  \/ exists cfg cfg' n,
       read_config f (src ++ [app] ++ app_conf) (read_unreadable env) = Some cfg
       /\ updated_config cfg version (build_stamp (build_time env)) = Some cfg'
       /\ write_result env = WriteFailsAfter n
       /\ write_file f (src ++ [app] ++ app_conf)
            (firstn n (render cfg')) = Some f'
       /\ ops = [Wrote (src ++ [app] ++ app_conf)].
Proof.
  unfold update_result.
  destruct (negb (path_exists f _)); [intros H; inversion H; auto|]. cbv zeta.
  destruct (read_config f _ _) as [cfg|] eqn:R; [|intros H; inversion H; auto].
  destruct (updated_config cfg _ _) as [cfg'|] eqn:U;
    [|intros H; inversion H; auto].
  destruct (write_result env) as [| |n] eqn:W; cbn [written].
  - destruct (write_file f _ (render cfg')); intros H; inversion H; auto.
  - intros H; inversion H; auto.
  - destruct (write_file f _ _) as [f1|] eqn:Wf; intros H; inversion H; subst;
      auto.
    right. exists cfg, cfg', n. repeat split; auto.
Qed.

(** * Text: what [strip] leaves, lines *)

Lemma forallb_rev {A} (p : A -> bool) (l : list A) :
  forallb p (rev l) = forallb p l.
Proof.
  induction l as [|x l IH]; simpl; auto.
  rewrite forallb_app, IH. simpl. rewrite andb_true_r. apply andb_comm.
Qed.

Section Tight.
Variable p : ascii -> bool.

Lemma lstrip_unique (a m : text) :
  forallb p a = true -> tight_l p m -> drop_while p (a ++ m) = m.
Proof.
  intros Ha Hm. rewrite drop_while_app_all by exact Ha.
  destruct m as [|c t]; auto. simpl. rewrite (Hm c t eq_refl). reflexivity.
Qed.

Lemma rstrip_unique (m b : text) :
  forallb p b = true -> tight_r p m -> rstrip_by p (m ++ b) = m.
Proof.
  intros Hb Hm. rewrite rstrip_by_app_all by exact Hb.
  destruct (list_eq_dec ascii_dec m []) as [->|Hne]; auto.
  destruct (exists_last Hne) as [a [c ->]].
  apply rstrip_by_snoc. eapply Hm. reflexivity.
Qed.

Lemma strip_unique (a m b : text) :
  forallb p a = true -> forallb p b = true -> tight_l p m -> tight_r p m ->
  strip_by p (a ++ m ++ b) = m.
Proof.
  intros Ha Hb Hl Hr. unfold strip_by, lstrip_by.
  destruct m as [|c t].
  - simpl. rewrite drop_while_app_all by exact Ha.
    rewrite <- (app_nil_r b). rewrite drop_while_app_all by exact Hb.
    reflexivity.
  - rewrite drop_while_app_all by exact Ha.
    cbn [app drop_while]. rewrite (Hl c t eq_refl).
    apply (rstrip_unique (c :: t) b); auto.
Qed.

Lemma rstrip_tight (s : text) : tight_r p (rstrip_by p s).
Proof.
  intros a c H. destruct (rstrip_by_last p s) as [E|[a' [c' [E Hc]]]].
  - rewrite E in H. destruct a; discriminate.
  - rewrite E in H. apply app_inj_tail in H as [_ ->]. exact Hc.
Qed.

Lemma lstrip_tight (s : text) : tight_l p (drop_while p s).
Proof. intros c t H. eapply drop_while_head. exact H. Qed.

Lemma tight_r_suffix (a m : text) : tight_r p (a ++ m) -> m <> [] -> tight_r p m.
Proof.
  intros H Hne x c Hm. apply (H (a ++ x)). rewrite Hm, app_assoc.
  reflexivity.
Qed.

Lemma tight_r_app (a m : text) : tight_r p m -> m <> [] -> tight_r p (a ++ m).
Proof.
  intros H Hne x c E.
  destruct (exists_last Hne) as [m' [z Hz]]. subst m.
  rewrite app_assoc in E. apply app_inj_tail in E as [_ <-].
  eapply H. reflexivity.
Qed.

Lemma rstrip_app_keep (a z : text) :
  rstrip_by p z <> [] -> rstrip_by p (a ++ z) = a ++ rstrip_by p z.
Proof.
  intros Hne. destruct (rstrip_by_prefix p z) as [b [Hz Hb]].
  rewrite Hz at 1. rewrite app_assoc. apply rstrip_unique; auto.
  apply tight_r_app; auto. apply rstrip_tight.
Qed.

Lemma rstrip_app_drop (a z : text) :
  rstrip_by p z = [] -> rstrip_by p (a ++ z) = rstrip_by p a.
Proof.
  intros He. destruct (rstrip_by_prefix p z) as [b [Hz Hb]].
  rewrite He in Hz. simpl in Hz. subst z. apply rstrip_by_app_all. exact Hb.
Qed.

Lemma rstrip_nil_all (z : text) : rstrip_by p z = [] <-> forallb p z = true.
Proof.
  split.
  - intros He. destruct (rstrip_by_prefix p z) as [b [Hz Hb]].
    rewrite He in Hz. simpl in Hz. subst z. exact Hb.
  - intros H. rewrite <- (app_nil_l z). rewrite rstrip_by_app_all; auto.
Qed.

Lemma strip_by_decompose (s : text) :
  exists a b, s = a ++ strip_by p s ++ b
              /\ forallb p a = true /\ forallb p b = true.
Proof.
  unfold strip_by, lstrip_by.
  destruct (drop_while_suffix p s) as [a [Ha Pa]].
  destruct (rstrip_by_prefix p (drop_while p s)) as [b [Hb Pb]].
  exists a, b. rewrite <- Hb. auto.
Qed.

Lemma strip_by_tight (s : text) :
  tight_l p (strip_by p s) /\ tight_r p (strip_by p s).
Proof. apply strip_by_ends. Qed.

(** Stripping after a one-sided strip, or after more space was put
    around, changes nothing. *)
Lemma strip_by_padded (a s b : text) :
  forallb p a = true -> forallb p b = true ->
  strip_by p (a ++ s ++ b) = strip_by p s.
Proof.
  intros Ha Hb. destruct (strip_by_decompose s) as [a' [b' [Hs [Pa Pb]]]].
  destruct (strip_by_tight s) as [Tl Tr].
  rewrite Hs at 1.
  replace (a ++ (a' ++ strip_by p s ++ b') ++ b)
    with ((a ++ a') ++ strip_by p s ++ (b' ++ b))
    by (repeat rewrite <- app_assoc; reflexivity).
  apply strip_unique; auto; rewrite forallb_app, ?Ha, ?Pa, ?Pb, ?Hb; auto.
Qed.

Lemma strip_by_lstrip (s : text) :
  strip_by p (drop_while p s) = strip_by p s.
Proof.
  destruct (drop_while_suffix p s) as [a [Ha Pa]].
  rewrite Ha at 2. rewrite <- (app_nil_r (drop_while p s)) at 2.
  rewrite (strip_by_padded a (drop_while p s) []); auto.
Qed.

Lemma strip_by_rstrip (s : text) :
  strip_by p (rstrip_by p s) = strip_by p s.
Proof.
  destruct (rstrip_by_prefix p s) as [b [Hb Pb]].
  rewrite Hb at 2.
  rewrite <- (strip_by_padded [] (rstrip_by p s) b); auto.
Qed.

Lemma strip_by_all (s : text) : forallb p s = true -> strip_by p s = [].
Proof.
  intros H. unfold strip_by, lstrip_by.
  rewrite <- (app_nil_r s). rewrite drop_while_app_all by exact H.
  reflexivity.
Qed.
End Tight.

Lemma space_strip_tight (s : text) :
  tight_l is_space (strip s) /\ tight_r is_space (strip s).
Proof. apply strip_by_ends. Qed.

(** ** Lines *)

Lemma clean_line_single (s : text) : clean_line s -> single_line s.
Proof.
  unfold clean_line, single_line. rewrite !forallb_forall.
  intros H c Hc. specialize (H c Hc). unfold line_chr in H.
  apply andb_true_iff in H as [H _]. exact H.
Qed.

Lemma clean_line_no_cr (s : text) : clean_line s -> no_cr s.
Proof.
  unfold clean_line, no_cr. rewrite !forallb_forall.
  intros H c Hc. specialize (H c Hc). unfold line_chr in H.
  apply andb_true_iff in H as [_ H]. exact H.
Qed.

Lemma clean_line_incl (a b : text) :
  (forall c, In c a -> In c b) -> clean_line b -> clean_line a.
Proof.
  unfold clean_line. rewrite !forallb_forall. intros H Hb c Hc. auto.
Qed.

Lemma no_cr_incl (a b : text) :
  (forall c, In c a -> In c b) -> no_cr b -> no_cr a.
Proof.
  unfold no_cr. rewrite !forallb_forall. intros H Hb c Hc. auto.
Qed.

Lemma no_cr_app (a b : text) : no_cr (a ++ b) <-> no_cr a /\ no_cr b.
Proof. unfold no_cr. rewrite forallb_app. apply andb_true_iff. Qed.

Lemma clean_line_app (a b : text) :
  clean_line (a ++ b) <-> clean_line a /\ clean_line b.
Proof. unfold clean_line. rewrite forallb_app. apply andb_true_iff. Qed.

Lemma universal_newlines_id (s : text) : no_cr s -> universal_newlines s = s.
Proof.
  unfold no_cr, is_cr. induction s as [|c s IH]; simpl; auto.
  intros H. apply andb_true_iff in H as [Hc Hs].
  destruct (is_chr "013" c); [discriminate|]. rewrite IH; auto.
Qed.

Lemma universal_newlines_no_cr (s : text) : no_cr (universal_newlines s).
Proof.
  unfold no_cr.
  assert (H : forall n (s : text), length s <= n ->
              forallb (fun c => negb (is_cr c)) (universal_newlines s) = true).
  { induction n as [|n IH]; intros [|c r] Hlen; auto;
      try (simpl in Hlen; lia).
    cbn [universal_newlines]. simpl in Hlen.
    destruct (is_chr "013" c) eqn:E.
    - cbn [forallb]. change (negb (is_cr "010")) with true. cbn [andb].
      destruct r as [|c2 r2]; auto.
      destruct (is_nl c2); apply IH; simpl in *; lia.
    - cbn [forallb]. unfold is_cr at 1. rewrite E. cbn [negb andb].
      apply IH. lia. }
  apply (H (length s)). lia.
Qed.

Lemma lines_of_line (l s : text) :
  single_line l -> lines_of (l ++ nl ++ s) = l :: lines_of s.
Proof.
  induction l as [|c l IH]; intros Hl.
  - reflexivity.
  - apply single_line_cons in Hl as [Hc Hl]. cbn [app lines_of].
    unfold not_nl in Hc. destruct (is_nl c); [discriminate|].
    rewrite IH by exact Hl. reflexivity.
Qed.

Lemma lines_of_unlines (ls : list text) :
  Forall single_line ls -> lines_of (unlines ls) = ls.
Proof.
  induction 1 as [|l ls Hl _ IH]; auto.
  unfold unlines in *. cbn [map concat]. rewrite <- app_assoc.
  rewrite lines_of_line by exact Hl. rewrite IH. reflexivity.
Qed.

Lemma lines_of_clean (s : text) :
  no_cr s -> Forall clean_line (lines_of s).
Proof.
  unfold no_cr. induction s as [|c s IH]; simpl; [constructor|].
  intros H. apply andb_true_iff in H as [Hc Hs]. specialize (IH Hs).
  destruct (is_nl c) eqn:E.
  - constructor; auto. reflexivity.
  - destruct (lines_of s) as [|l ls].
    + constructor; [|constructor]. unfold clean_line. simpl.
      unfold line_chr. rewrite E, Hc. reflexivity.
    + inversion IH; subst. constructor; auto.
      unfold clean_line in *. simpl. unfold line_chr at 1.
      rewrite E, Hc. simpl. assumption.
Qed.

(** ** Splitting a value into its lines *)

Lemma split_chr_cons a (s : text) :
  exists l ls, split_chr a s = l :: ls.
Proof.
  induction s as [|c s [l [ls IH]]]; simpl; eauto.
  destruct (Ascii.eqb c a); eauto. rewrite IH. eauto.
Qed.

Lemma split_chr_head (s : text) l ls :
  split_chr "010" s = l :: ls -> l = first_line s.
Proof.
  unfold first_line, not_nl, is_nl.
  revert l ls. induction s as [|c s IH]; simpl; intros l ls H.
  - inversion H. reflexivity.
  - destruct (Ascii.eqb c "010"); simpl.
    + inversion H. reflexivity.
    + destruct (split_chr "010" s) as [|l' ls'] eqn:E.
      * destruct (split_chr_cons "010" s) as [? [? E']]. congruence.
      * inversion H; subst. f_equal. eapply IH. reflexivity.
Qed.

Lemma split_chr_chars (s : text) :
  forall l, In l (split_chr "010" s) ->
            single_line l /\ forall c, In c l -> In c s.
Proof.
  induction s as [|c s IH]; simpl; intros l Hl.
  - destruct Hl as [<-|[]]. split; [reflexivity|auto].
  - destruct (Ascii.eqb c "010") eqn:E.
    + destruct Hl as [<-|Hl].
      * split; [reflexivity|]. intros x [].
      * destruct (IH l Hl) as [H1 H2]. split; auto.
    + destruct (split_chr "010" s) as [|l' ls'] eqn:Es.
      * destruct (split_chr_cons "010" s) as [? [? E']]. congruence.
      * destruct Hl as [<-|Hl].
        -- destruct (IH l' (or_introl eq_refl)) as [H1 H2]. split.
           ++ apply single_line_cons. split; auto.
              unfold not_nl, is_nl. rewrite E. reflexivity.
           ++ intros x [<-|Hx]; auto.
        -- destruct (IH l (or_intror Hl)) as [H1 H2]. split; auto.
Qed.

Lemma unlines_cons (l : text) (ls : list text) :
  unlines (l :: ls) = l ++ nl ++ unlines ls.
Proof. unfold unlines. cbn [map concat]. rewrite <- app_assoc. reflexivity. Qed.

(** The text [config.write] makes of a value is the lines of the value,
    the second and later ones behind a tab. *)
Lemma indent_continuations_lines (v pre : text) :
  exists l0 ls,
    split_chr "010" v = l0 :: ls
    /\ pre ++ indent_continuations v ++ nl
       = unlines ((pre ++ l0) :: map (cons "009") ls).
Proof.
  revert pre. induction v as [|c v IH]; intros pre.
  - exists [], []. split; [reflexivity|]. rewrite unlines_cons.
    unfold unlines. simpl. rewrite !app_nil_r. reflexivity.
  - cbn [split_chr indent_continuations]. unfold is_nl.
    destruct (Ascii.eqb c "010") eqn:E.
    + apply Ascii.eqb_eq in E. subst c.
      destruct (IH ["009"]) as [l0 [ls [Hs Hr]]].
      exists [], (l0 :: ls). rewrite Hs. split; [reflexivity|].
      cbn [map]. rewrite unlines_cons. cbn [app] in Hr. rewrite <- Hr.
      rewrite app_nil_r. reflexivity.
    + destruct (IH (pre ++ [c])) as [l0 [ls [Hs Hr]]].
      rewrite Hs. exists (c :: l0), ls. split; [reflexivity|].
      rewrite <- !app_assoc in Hr. cbn [app] in *. exact Hr.
Qed.

Lemma option_line_out_lines (kv : text * text) :
  option_line_out kv = unlines (entry_lines kv).
Proof.
  unfold option_line_out, entry_lines.
  destruct (indent_continuations_lines (snd kv) (fst kv ++ txt " = "))
    as [l0 [ls [Hs Hr]]].
  rewrite Hs. rewrite <- !app_assoc in Hr. exact Hr.
Qed.

Lemma unlines_app (a b : list text) : unlines (a ++ b) = unlines a ++ unlines b.
Proof. unfold unlines. rewrite map_app, concat_app. reflexivity. Qed.

Lemma write_options_lines (items : dict text) :
  concat (map option_line_out items ++ [nl])
  = unlines (flat_map entry_lines items ++ [[]]).
Proof.
  induction items as [|kv items IH]; [reflexivity|].
  cbn [map flat_map concat app]. rewrite <- app_assoc, unlines_app.
  rewrite IH, option_line_out_lines. reflexivity.
Qed.

Lemma write_section_lines (name : text) (items : dict text) :
  concat (write_section name items) = unlines (section_lines (name, items)).
Proof.
  unfold write_section, section_lines. cbn [fst snd concat].
  rewrite unlines_cons, write_options_lines.
  rewrite <- !app_assoc. reflexivity.
Qed.

Lemma render_unlines (cfg : config) : render cfg = unlines (render_lines cfg).
Proof.
  unfold render, write_chunks, render_lines.
  rewrite concat_app, unlines_app. f_equal.
  - destruct (defaults cfg); [reflexivity|]. apply write_section_lines.
  - induction (sections cfg) as [|s ss IH]; auto.
    cbn [flat_map]. rewrite concat_app, unlines_app, IH.
    rewrite write_section_lines. destruct s. reflexivity.
Qed.

(** * The parser, line by line *)

Lemma on_last_section_snoc f (ss : dict (dict (list text))) n d :
  on_last_section f (ss ++ [(n, d)]) = ss ++ [(n, f d)].
Proof.
  induction ss as [|s ss IH]; [reflexivity|].
  cbn [app]. destruct s as [n0 d0].
  destruct (ss ++ [(n, d)]) eqn:E.
  - destruct ss; discriminate.
  - change (on_last_section f ((n0, d0) :: p :: l))
      with ((n0, d0) :: on_last_section f (p :: l)).
    rewrite IH. reflexivity.
Qed.

Lemma last_section_snoc (ss : dict (dict (list text))) n d :
  last_section (ss ++ [(n, d)]) = d.
Proof. unfold last_section. rewrite rev_app_distr. reflexivity. Qed.

Lemma append_last_snoc x (d : dict (list text)) k ls :
  append_last x (d ++ [(k, ls)]) = d ++ [(k, ls ++ [x])].
Proof.
  induction d as [|kv d IH]; [reflexivity|].
  cbn [app]. destruct kv as [k0 l0].
  destruct (d ++ [(k, ls)]) eqn:E.
  - destruct d; discriminate.
  - change (append_last x ((k0, l0) :: p :: l))
      with ((k0, l0) :: append_last x (p :: l)).
    rewrite IH. reflexivity.
Qed.

Lemma on_current_plug f F d o i :
  on_current f (plug F d o i) = plug F (f d) o i.
Proof.
  destruct F; unfold on_current, plug; cbn [p_cur p_defaults p_sections p_opt
                                            p_indent].
  - reflexivity.
  - rewrite on_last_section_snoc. reflexivity.
Qed.

Lemma current_options_plug F d o i : current_options (plug F d o i) = d.
Proof.
  destruct F; unfold current_options, plug; cbn [p_cur p_defaults p_sections].
  - reflexivity.
  - apply last_section_snoc.
Qed.

Lemma has_cursor_plug F d o i : has_cursor (plug F d o i) = true.
Proof. destruct F; reflexivity. Qed.

Lemma p_opt_plug F d o i : p_opt (plug F d o i) = o.
Proof. destruct F; reflexivity. Qed.

Lemma p_indent_plug F d o i : p_indent (plug F d o i) = i.
Proof. destruct F; reflexivity. Qed.

Lemma replug F d o i o' i' :
  mkPstate (p_defaults (plug F d o i)) (p_sections (plug F d o i))
    (p_cur (plug F d o i)) o' i' = plug F d o' i'.
Proof. destruct F; reflexivity. Qed.

(** ** Text facts about the lines [config.write] makes *)

Lemma take_while_app_all p (a s : text) :
  forallb p a = true -> take_while p (a ++ s) = a ++ take_while p s.
Proof.
  induction a as [|c a IH]; simpl; auto.
  intros H. apply andb_true_iff in H as [Hc Ha]. rewrite Hc, IH; auto.
Qed.

Lemma indent_of_tight (line : text) :
  tight_l is_space line -> indent_of line = 0.
Proof.
  intros H. unfold indent_of. destruct line as [|c t]; auto.
  simpl. rewrite (H c t eq_refl). reflexivity.
Qed.

Lemma strip_tight (s : text) :
  tight_l is_space s -> tight_r is_space s -> strip s = s.
Proof. intros Hl Hr. apply strip_by_fix; auto. Qed.

Lemma is_comment_head c (t s : text) :
  strip s = c :: t -> is_comment s = is_comment_prefix c.
Proof. intros H. unfold is_comment. rewrite H. reflexivity. Qed.

(** The header line of a section. *)
Lemma header_line_strip (name : text) :
  strip (txt "[" ++ name ++ txt "]") = txt "[" ++ name ++ txt "]".
Proof.
  apply strip_tight.
  - intros c t H. inversion H. reflexivity.
  - intros a c H. change (txt "[" ++ name ++ txt "]")
      with (("[" :: name) ++ ["]"]) in H.
    apply app_inj_tail in H as [_ <-]. reflexivity.
Qed.

Lemma section_header_line (name : text) :
  name <> [] -> section_header (txt "[" ++ name ++ txt "]") = Some name.
Proof.
  intros Hne. cbn [txt list_ascii_of_string app section_header].
  rewrite is_chr_refl. rewrite rev_app_distr. cbn [rev app drop_while].
  change (not_chr "]" "]") with false. cbv iota.
  change ("]" :: rev name) with (["]"] ++ rev name).
  rewrite rev_app_distr, rev_involutive. cbn [rev app].
  destruct name as [|c name]; [contradiction|].
  cbn [app]. change (c :: name ++ ["]"]) with ((c :: name) ++ ["]"]).
  rewrite removelast_last. reflexivity.
Qed.

Lemma parse_header_line (st : pstate) (name : text) :
  name <> [] -> mem name (p_sections st) = false ->
  parse_line st (txt "[" ++ name ++ txt "]") =
  Some (if text_eqb name default_section
        then plug (InTheDefaults (p_sections st)) (p_defaults st) false 0
        else plug (InTheLast (p_defaults st) (p_sections st) name) [] false 0).
Proof.
  intros Hne Hmem. unfold parse_line.
  rewrite (is_comment_head "[" (name ++ txt "]"))
    by (rewrite header_line_strip; reflexivity).
  change (is_comment_prefix "[") with false. cbv iota.
  rewrite header_line_strip.
  change (is_empty (txt "[" ++ name ++ txt "]")) with false. cbv iota zeta.
  rewrite indent_of_tight
    by (intros c t H; inversion H; reflexivity).
  replace (has_cursor st && p_opt st && (p_indent st <? 0)%nat) with false
    by (rewrite andb_false_r; reflexivity).
  rewrite section_header_line by exact Hne. rewrite Hmem.
  destruct (text_eqb name default_section); reflexivity.
Qed.

(** The first line of an option. *)

Lemma key_ok_tight (k : text) :
  key_ok k -> tight_l is_space k /\ tight_r is_space k.
Proof.
  intros [_ [_ [Hh [Hl _]]]]. split.
  - intros c t H. apply (Hh c t H).
  - exact Hl.
Qed.

Lemma key_ok_no_delimiter (k : text) :
  key_ok k -> forallb not_delimiter k = true.
Proof.
  intros [_ [Hc _]]. rewrite forallb_forall in *. intros c Hin.
  specialize (Hc c Hin). unfold key_chr in Hc.
  apply andb_true_iff in Hc as [_ Hc]. exact Hc.
Qed.

Lemma option_line_strip (k l0 : text) :
  key_ok k ->
  strip (k ++ txt " = " ++ l0) = k ++ [" "; "="] ++ option_tail l0.
Proof.
  intros Hk. destruct (key_ok_tight k Hk) as [Hl Hr].
  destruct Hk as [Hne _].
  unfold strip, strip_by, lstrip_by.
  assert (Hls : drop_while is_space (k ++ txt " = " ++ l0)
                = k ++ txt " = " ++ l0).
  { apply (lstrip_unique is_space [] (k ++ txt " = " ++ l0) eq_refl).
    intros c t H. destruct k as [|c0 k]; [contradiction|].
    inversion H; subst. apply (Hl c k eq_refl). }
  rewrite Hls.
  change (k ++ txt " = " ++ l0) with (k ++ ([" "; "="] ++ [" "] ++ l0)).
  rewrite !app_assoc. rewrite <- (app_assoc _ [" "] l0).
  unfold option_tail.
  destruct (rstrip l0) as [|c r] eqn:E.
  - rewrite rstrip_app_drop.
    + change ((k ++ [" "; "="])) with (k ++ [" "] ++ ["="]).
      rewrite app_assoc. rewrite rstrip_by_snoc by reflexivity.
      rewrite app_nil_r. reflexivity.
    + apply rstrip_nil_all. cbn [app forallb].
      change (is_space " ") with true. cbn [andb].
      apply rstrip_nil_all. exact E.
  - rewrite rstrip_app_keep.
    + f_equal. change ([" "] ++ l0) with ([" "] ++ l0).
      unfold rstrip in E. rewrite rstrip_app_keep by (rewrite E; discriminate).
      rewrite E. reflexivity.
    + unfold rstrip in E. rewrite rstrip_app_keep by (rewrite E; discriminate).
      discriminate.
Qed.

Lemma option_tail_strip (l0 : text) : strip (lstrip (option_tail l0)) = strip l0.
Proof.
  unfold lstrip, lstrip_by, strip. rewrite strip_by_lstrip.
  unfold option_tail. destruct (rstrip l0) as [|c r] eqn:E.
  - symmetry. apply strip_by_all. apply rstrip_nil_all. exact E.
  - rewrite <- E. unfold rstrip.
    rewrite <- (app_nil_r (rstrip_by is_space l0)).
    change (" " :: rstrip_by is_space l0 ++ [])
      with ([" "] ++ rstrip_by is_space l0 ++ []).
    rewrite strip_by_padded by reflexivity. apply strip_by_rstrip.
Qed.

Lemma split_option_line (k l0 : text) :
  key_ok k ->
  split_option (k ++ [" "; "="] ++ option_tail l0)
  = Some (k, lstrip (option_tail l0)).
Proof.
  intros Hk. unfold split_option.
  pose proof (key_ok_no_delimiter k Hk) as Hd.
  destruct (key_ok_tight k Hk) as [_ Hr].
  change (k ++ [" "; "="] ++ option_tail l0)
    with (k ++ [" "] ++ "=" :: option_tail l0).
  rewrite app_assoc.
  assert (Ha : forallb not_delimiter (k ++ [" "]) = true).
  { rewrite forallb_app, Hd. reflexivity. }
  rewrite drop_while_app_all by exact Ha.
  rewrite take_while_app_all by exact Ha.
  cbn [drop_while take_while]. change (not_delimiter "=") with false.
  cbv iota. rewrite app_nil_r.
  unfold rstrip. rewrite rstrip_unique by (auto; reflexivity).
  reflexivity.
Qed.

Lemma lower_fixed (k : text) : key_ok k -> optionxform (rstrip k) = k.
Proof.
  intros Hk. destruct (key_ok_tight k Hk) as [_ Hr].
  destruct Hk as [_ [_ [_ [_ Hlow]]]].
  unfold rstrip. rewrite <- (app_nil_r k) at 1.
  rewrite rstrip_unique by (auto; reflexivity). exact Hlow.
Qed.

Lemma parse_option_line (F : focus) d o (k v : text) :
  entry_ok (k, v) -> mem k d = false ->
  parse_line (plug F d o 0) (k ++ txt " = " ++ first_line v) =
  Some (plug F (d ++ [(k, [strip (first_line v)])]) true 0).
Proof.
  intros [Hk [_ Hsafe]] Hmem. cbn [fst snd] in *.
  pose proof (option_line_strip k (first_line v) Hk) as Hstrip.
  destruct (key_ok_tight k Hk) as [Hl _].
  assert (Hne : k <> []) by apply Hk.
  destruct k as [|c k'] eqn:Ek; [contradiction|]. rewrite <- Ek in *.
  assert (Hc : is_space c = false /\ is_comment_prefix c = false).
  { destruct Hk as [_ [_ [Hh _]]]. apply (Hh c k'). exact Ek. }
  unfold parse_line.
  rewrite (is_comment_head c (k' ++ [" "; "="] ++ option_tail (first_line v)))
    by (rewrite Hstrip, Ek; reflexivity).
  rewrite (proj2 Hc). cbv iota.
  unfold header_safe in Hsafe. rewrite Hstrip in *.
  replace (is_empty (k ++ [" "; "="] ++ option_tail (first_line v))) with false
    by (rewrite Ek; reflexivity).
  cbv iota zeta.
  rewrite indent_of_tight.
  2:{ intros x t H. rewrite Ek in H. inversion H; subst. apply Hc. }
  rewrite p_indent_plug. rewrite andb_false_r.
  rewrite Hsafe, has_cursor_plug. cbn [negb].
  rewrite split_option_line by exact Hk.
  replace (is_empty k) with false by (rewrite Ek; reflexivity).
  rewrite lower_fixed by exact Hk.
  rewrite current_options_plug, Hmem.
  rewrite on_current_plug, replug, option_tail_strip. reflexivity.
Qed.

(** A continuation line. *)
Lemma parse_continuation_line (F : focus) d k ls (l : text) :
  parse_line (plug F (d ++ [(k, ls)]) true 0) ("009" :: l) =
  Some (plug F (d ++ [(k, ls ++ (if is_comment ("009" :: l) then []
                                 else [strip l]))]) true 0).
Proof.
  unfold parse_line. destruct (is_comment ("009" :: l)) eqn:C.
  - rewrite app_nil_r. reflexivity.
  - assert (Hs : strip ("009" :: l) = strip l).
    { rewrite <- (app_nil_r l) at 1.
      apply (strip_by_padded is_space ["009"] l []); reflexivity. }
    rewrite Hs, has_cursor_plug, p_opt_plug, p_indent_plug.
    destruct (is_empty (strip l)) eqn:E.
    + cbn [andb]. rewrite on_current_plug, append_last_snoc.
      destruct (strip l); [reflexivity|discriminate].
    + cbv zeta. unfold indent_of. cbn [take_while].
      change (is_space "009") with true. cbv iota. cbn [length andb Nat.ltb
                                                        Nat.leb].
      rewrite on_current_plug, append_last_snoc. reflexivity.
Qed.

Lemma parse_continuation_lines (F : focus) d k (ls : list text) :
  forall ls0,
    parse_lines (plug F (d ++ [(k, ls0)]) true 0) (map (cons "009") ls) =
    Some (plug F
            (d ++ [(k, ls0 ++ flat_map
                                (fun l => if is_comment ("009" :: l) then []
                                          else [strip l]) ls)]) true 0).
Proof.
  induction ls as [|l ls IH]; intros ls0.
  - cbn [map parse_lines flat_map]. rewrite app_nil_r. reflexivity.
  - cbn [map parse_lines flat_map].
    rewrite parse_continuation_line, IH, <- app_assoc. reflexivity.
Qed.

Lemma parse_lines_app st a b :
  parse_lines st (a ++ b) =
  match parse_lines st a with
  | Some st' => parse_lines st' b
  | None => None
  end.
Proof.
  revert st. induction a as [|l a IH]; intros st; auto.
  cbn [app parse_lines]. destruct (parse_line st l); auto.
Qed.

(** The lines of one option. *)
Lemma parse_entry_lines (F : focus) d o (kv : text * text) :
  entry_ok kv -> mem (fst kv) d = false ->
  parse_lines (plug F d o 0) (entry_lines kv) =
  Some (plug F (d ++ [(fst kv, norm_lines (snd kv))]) true 0).
Proof.
  destruct kv as [k v]. intros Hok Hmem. cbn [fst snd] in *.
  unfold entry_lines, norm_lines. cbn [fst snd].
  destruct (split_chr_cons "010" v) as [l0 [ls Hs]]. rewrite Hs.
  rewrite (split_chr_head v l0 ls Hs).
  cbn [parse_lines]. rewrite parse_option_line by assumption.
  apply (parse_continuation_lines F d k ls [strip (first_line v)]).
Qed.

Lemma parse_entries_lines (F : focus) (es : dict text) :
  forall d o,
    Forall entry_ok es -> NoDup (map fst es) ->
    (forall k, In k (map fst es) -> mem k d = false) ->
    parse_lines (plug F d o 0) (flat_map entry_lines es) =
    Some (plug F (d ++ parsed_options es) (o || negb (is_empty_dict es)) 0).
Proof.
  induction es as [|kv es IH]; intros d o Hok Hnd Hfresh.
  - cbn. rewrite app_nil_r, orb_false_r. reflexivity.
  - inversion Hok as [|? ? Hkv Hes]; subst.
    inversion Hnd as [|? ? Hnotin Hnd']; subst.
    cbn [flat_map]. rewrite parse_lines_app.
    rewrite parse_entry_lines; auto.
    2:{ apply Hfresh. left. reflexivity. }
    rewrite IH; auto.
    + cbn [parsed_options map]. rewrite <- app_assoc. cbn [app].
      rewrite orb_true_r. reflexivity.
    + intros k Hk. unfold mem. rewrite lookup_app.
      specialize (Hfresh k (or_intror Hk)). unfold mem in Hfresh.
      destruct (lookup k d); [discriminate|]. cbn [lookup].
      destruct (text_eqb (fst kv) k) eqn:E; [|reflexivity].
      apply text_eqb_eq in E. subst k. contradiction.
Qed.

(** * Writing a configuration and reading it back *)

Lemma parse_blank_line (F : focus) d o :
  parse_line (plug F d o 0) [] =
  Some (plug F (if o then append_last [] d else d) o 0).
Proof.
  unfold parse_line. change (is_comment []) with false.
  change (strip []) with (@nil ascii). cbv iota zeta. cbn [is_empty].
  rewrite has_cursor_plug, p_opt_plug.
  destruct o; cbn [andb]; [rewrite on_current_plug|]; reflexivity.
Qed.

Lemma parse_section_body (F : focus) (es : dict text) :
  options_ok es ->
  parse_lines (plug F [] false 0) (flat_map entry_lines es ++ [[]]) =
  Some (plug F (closed_options es) (negb (is_empty_dict es)) 0).
Proof.
  intros [Hok Hnd]. rewrite parse_lines_app.
  rewrite parse_entries_lines by auto.
  cbn [app orb parse_lines]. rewrite parse_blank_line.
  unfold closed_options. destruct es; reflexivity.
Qed.

Lemma parse_section_lines (st : pstate) (name : text) (es : dict text) :
  name_ok name -> options_ok es -> mem name (p_sections st) = false ->
  parse_lines st (section_lines (name, es)) =
  Some (plug (InTheLast (p_defaults st) (p_sections st) name)
          (closed_options es) (negb (is_empty_dict es)) 0).
Proof.
  intros [Hne [_ Hnd]] Hok Hmem. unfold section_lines. cbn [fst snd].
  cbn [parse_lines]. rewrite parse_header_line by assumption.
  destruct (text_eqb name default_section) eqn:E.
  - apply text_eqb_eq in E. contradiction.
  - apply parse_section_body. exact Hok.
Qed.

Lemma parse_default_lines (es : dict text) :
  options_ok es ->
  parse_lines initial_pstate (section_lines (default_section, es)) =
  Some (plug (InTheDefaults []) (closed_options es)
          (negb (is_empty_dict es)) 0).
Proof.
  intros Hok. unfold section_lines. cbn [fst snd parse_lines].
  rewrite parse_header_line by (reflexivity || discriminate).
  rewrite text_eqb_refl. apply (parse_section_body (InTheDefaults []) es Hok).
Qed.

Lemma parse_sections_lines (secs : dict (dict text)) :
  forall st,
    Forall (fun s => name_ok (fst s) /\ options_ok (snd s)) secs ->
    NoDup (map fst secs) ->
    (forall n, In n (map fst secs) -> mem n (p_sections st) = false) ->
    exists st',
      parse_lines st (flat_map section_lines secs) = Some st'
      /\ p_defaults st' = p_defaults st
      /\ p_sections st' = p_sections st ++ closed_sections secs.
Proof.
  induction secs as [|[name es] secs IH]; intros st Hok Hnd Hfresh.
  - exists st. unfold closed_sections. cbn [flat_map parse_lines map].
    rewrite app_nil_r. auto.
  - inversion Hok as [|? ? [Hname Hes] Hrest]; subst.
    inversion Hnd as [|? ? Hnotin Hnd']; subst. cbn [fst snd] in *.
    cbn [flat_map]. rewrite parse_lines_app.
    rewrite parse_section_lines; auto.
    2:{ apply Hfresh. left. reflexivity. }
    destruct (IH (plug (InTheLast (p_defaults st) (p_sections st) name)
                    (closed_options es) (negb (is_empty_dict es)) 0)
                Hrest Hnd') as [st' [Hp [Hd Hs]]].
    + intros n Hn. cbn [plug p_sections]. unfold mem. rewrite lookup_app.
      specialize (Hfresh n (or_intror Hn)). unfold mem in Hfresh.
      destruct (lookup n (p_sections st)); [discriminate|]. cbn [lookup].
      destruct (text_eqb name n) eqn:E; [|reflexivity].
      apply text_eqb_eq in E. subst n. contradiction.
    + exists st'. split; [exact Hp|]. split; [exact Hd|].
      rewrite Hs. cbn [plug p_sections closed_sections map fst snd].
      rewrite <- app_assoc. reflexivity.
Qed.

Lemma parse_render_lines (cfg : config) :
  config_ok cfg ->
  exists st,
    parse_lines initial_pstate (render_lines cfg) = Some st
    /\ p_defaults st = closed_options (defaults cfg)
    /\ p_sections st = closed_sections (sections cfg).
Proof.
  intros [Hd [Hs Hnd]]. unfold render_lines. rewrite parse_lines_app.
  destruct (defaults cfg) as [|kv d] eqn:E.
  - cbn [parse_lines].
    destruct (parse_sections_lines (sections cfg) initial_pstate Hs Hnd)
      as [st [Hp [H1 H2]]]; [reflexivity|].
    exists st. auto.
  - rewrite parse_default_lines by exact Hd.
    destruct (parse_sections_lines (sections cfg)
                (plug (InTheDefaults []) (closed_options (kv :: d))
                   (negb (is_empty_dict (kv :: d))) 0) Hs Hnd)
      as [st [Hp [H1 H2]]]; [reflexivity|].
    exists st. auto.
Qed.

(** ** Joining the lines of a value *)

Lemma join_cons (sep a : text) (b : text) (r : list text) :
  join sep (a :: b :: r) = a ++ sep ++ join sep (b :: r).
Proof. reflexivity. Qed.

Lemma join_snoc_empty (ls : list text) :
  ls <> [] -> join nl (ls ++ [[]]) = join nl ls ++ nl.
Proof.
  induction ls as [|a ls IH]; [contradiction|]. intros _.
  destruct ls as [|b r].
  - reflexivity.
  - cbn [app] in *. rewrite !join_cons.
    rewrite IH by discriminate. rewrite <- !app_assoc. reflexivity.
Qed.

Lemma join_value_snoc_empty (ls : list text) :
  join_value (ls ++ [[]]) = join_value ls.
Proof.
  destruct ls as [|a ls]; [reflexivity|].
  unfold join_value. rewrite join_snoc_empty by discriminate.
  apply rstrip_app_drop. reflexivity.
Qed.

Lemma join_options_append_last (d : dict (list text)) :
  join_options (append_last [] d) = join_options d.
Proof.
  induction d as [|[k ls] d IH]; [reflexivity|].
  destruct d as [|kv d].
  - cbn [append_last join_options map fst snd].
    rewrite join_value_snoc_empty. reflexivity.
  - change (append_last [] ((k, ls) :: kv :: d))
      with ((k, ls) :: append_last [] (kv :: d)).
    unfold join_options in *. rewrite map_cons, IH. reflexivity.
Qed.

Lemma join_options_closed (d : dict text) :
  join_options (closed_options d) = norm_options d.
Proof.
  unfold closed_options. rewrite join_options_append_last.
  unfold join_options, parsed_options, norm_options, norm_value.
  rewrite map_map. reflexivity.
Qed.

(** ** The lines of a written configuration are clean *)

Lemma clean_line_both (s : text) : single_line s -> no_cr s -> clean_line s.
Proof.
  unfold single_line, no_cr, clean_line, line_chr, not_nl.
  rewrite !forallb_forall. intros H1 H2 c Hc.
  rewrite (H1 c Hc), (H2 c Hc). reflexivity.
Qed.

Lemma key_ok_clean (k : text) : key_ok k -> clean_line k.
Proof.
  intros [_ [Hc _]]. unfold clean_line. rewrite forallb_forall in *.
  intros c Hin. specialize (Hc c Hin). unfold key_chr in Hc.
  apply andb_true_iff in Hc as [Hc _]. exact Hc.
Qed.

Lemma entry_lines_clean (kv : text * text) :
  entry_ok kv -> Forall clean_line (entry_lines kv).
Proof.
  destruct kv as [k v]. intros [Hk [Hv _]]. cbn [fst snd] in *.
  unfold entry_lines. cbn [fst snd].
  pose proof (split_chr_chars v) as Hsplit.
  destruct (split_chr "010" v) as [|l0 ls]; [constructor|].
  assert (Hall : forall l, In l (l0 :: ls) -> clean_line l).
  { intros l Hl. destruct (Hsplit l Hl) as [H1 H2].
    apply clean_line_both; [exact H1|]. apply (no_cr_incl l v); auto. }
  constructor.
  - apply clean_line_app. split; [apply key_ok_clean; exact Hk|].
    apply clean_line_app. split; [reflexivity|].
    apply Hall. left. reflexivity.
  - apply Forall_forall. intros l Hl. apply in_map_iff in Hl as [l' [<- Hl']].
    change ("009" :: l') with (["009"] ++ l').
    apply clean_line_app. split; [reflexivity|].
    apply Hall. right. exact Hl'.
Qed.

Lemma options_lines_clean (es : dict text) :
  Forall entry_ok es -> Forall clean_line (flat_map entry_lines es).
Proof.
  induction 1 as [|kv es Hkv _ IH]; [constructor|].
  cbn [flat_map]. apply Forall_app. split; [|exact IH].
  apply entry_lines_clean. exact Hkv.
Qed.

Lemma section_lines_clean (name : text) (es : dict text) :
  clean_line name -> options_ok es ->
  Forall clean_line (section_lines (name, es)).
Proof.
  intros Hn [Hes _]. unfold section_lines. cbn [fst snd]. constructor.
  - apply clean_line_app. split; [reflexivity|].
    apply clean_line_app. split; [exact Hn|reflexivity].
  - apply Forall_app. split; [apply options_lines_clean; exact Hes|].
    constructor; [reflexivity|constructor].
Qed.

Lemma render_lines_clean (cfg : config) :
  config_ok cfg -> Forall clean_line (render_lines cfg).
Proof.
  intros [Hd [Hs _]]. unfold render_lines. apply Forall_app. split.
  - destruct (defaults cfg) eqn:E; [constructor|].
    apply section_lines_clean; [reflexivity|exact Hd].
  - induction Hs as [|[name es] secs [[_ [Hn _]] Hes] _ IH]; [constructor|].
    cbn [flat_map]. apply Forall_app. split; [|exact IH].
    apply section_lines_clean; assumption.
Qed.

Lemma unlines_no_cr (ls : list text) : Forall no_cr ls -> no_cr (unlines ls).
Proof.
  induction 1 as [|l ls Hl _ IH]; [reflexivity|].
  rewrite unlines_cons. apply no_cr_app. split; [exact Hl|].
  apply no_cr_app. split; [reflexivity|exact IH].
Qed.

(** Reading what [config.write] wrote gives the configuration back, each
    value as the parser normalises it. *)
Lemma parse_render (cfg : config) :
  config_ok cfg -> parse (render cfg) = Some (normalise cfg).
Proof.
  intros Hok. pose proof (render_lines_clean cfg Hok) as Hclean.
  unfold parse. rewrite render_unlines.
  rewrite universal_newlines_id.
  2:{ apply unlines_no_cr. eapply Forall_impl; [|exact Hclean].
      apply clean_line_no_cr. }
  rewrite lines_of_unlines.
  2:{ eapply Forall_impl; [|exact Hclean]. apply clean_line_single. }
  destruct (parse_render_lines cfg Hok) as [st [Hp [Hd Hs]]].
  rewrite Hp. cbn [option_map]. unfold finish, normalise.
  rewrite Hd, Hs, join_options_closed. unfold closed_sections.
  rewrite map_map. cbn [fst snd]. f_equal. f_equal.
  apply map_ext. intros [n d]. cbn [fst snd].
  rewrite join_options_closed. reflexivity.
Qed.

(** ** The update keeps a configuration that can be written and read *)

Lemma section_header_other (s : text) :
  (forall t, s <> "[" :: t) -> section_header s = None.
Proof.
  destruct s as [|c r]; auto. intros H. unfold section_header.
  destruct (is_chr "[" c) eqn:E; auto.
  apply is_chr_eq in E. subst. exfalso. apply (H r). reflexivity.
Qed.

Lemma header_safe_plain (k v : text) :
  key_ok k -> (forall t, k <> "[" :: t) -> header_safe k v.
Proof.
  intros Hk Hh. unfold header_safe. rewrite option_line_strip by exact Hk.
  apply section_header_other. intros t E.
  destruct k as [|c k']; [apply Hk; reflexivity|].
  cbn [app] in E. inversion E; subst. apply (Hh k'). reflexivity.
Qed.

Lemma key_okb_ok (k : text) : key_okb k = true -> key_ok k.
Proof.
  unfold key_okb. intros H.
  apply andb_true_iff in H as [H Hlow].
  apply andb_true_iff in H as [H Hlast].
  apply andb_true_iff in H as [Hchr Hhead].
  split; [|split; [|split; [|split]]].
  - intros ->. discriminate.
  - exact Hchr.
  - intros c t ->. apply andb_true_iff in Hhead as [H1 H2].
    apply negb_true_iff in H1, H2. auto.
  - intros a c ->. rewrite rev_app_distr in Hlast. cbn in Hlast.
    apply negb_true_iff in Hlast. exact Hlast.
  - apply text_eqb_eq. exact Hlow.
Qed.

Lemma entry_ok_plain (k v : text) :
  key_okb k = true -> starts_with_chr "[" k = false -> no_cr v ->
  entry_ok (k, v).
Proof.
  intros Hk Hh Hv. pose proof (key_okb_ok k Hk) as Hok.
  split; [exact Hok|]. split; [exact Hv|]. cbn [fst snd].
  apply header_safe_plain; [exact Hok|].
  intros t ->. cbn in Hh. discriminate.
Qed.

Lemma Forall_assign {V} (P : text * V -> Prop) k v (d : dict V) :
  Forall P d -> P (k, v) -> Forall P (assign k v d).
Proof.
  intros Hd Hkv. apply Forall_forall. intros [k' v'] Hin.
  apply assign_In in Hin as [[-> ->]|Hin]; [exact Hkv|].
  rewrite Forall_forall in Hd. apply Hd. exact Hin.
Qed.

Lemma options_ok_assign (k v : text) (d : dict text) :
  options_ok d -> entry_ok (k, v) -> options_ok (assign k v d).
Proof.
  intros [Hd Hnd] Hkv. split.
  - apply Forall_assign; assumption.
  - apply NoDup_assign. exact Hnd.
Qed.

Lemma config_ok_empty : config_ok empty_config.
Proof.
  split; [|split]; cbn; try constructor; constructor.
Qed.

Lemma config_ok_ensure (cfg c1 : config) (s : text) :
  config_ok cfg -> name_ok s ->
  (if has_section cfg s then Some cfg else add_section cfg s) = Some c1 ->
  config_ok c1.
Proof.
  intros Hok Hs. destruct (has_section cfg s).
  - intros H. inversion H; subst. exact Hok.
  - intros H. apply add_section_spec in H as [_ [Hm ->]].
    destruct Hok as [Hd [Hsec Hnd]]. split; [exact Hd|]. cbn [sections].
    split.
    + apply Forall_app. split; [exact Hsec|].
      constructor; [|constructor]. split; [exact Hs|].
      split; constructor.
    + rewrite map_app. cbn [map fst].
      apply NoDup_rev in Hnd.
      rewrite <- (rev_involutive (map fst (sections cfg) ++ [s])).
      apply NoDup_rev. rewrite rev_app_distr. cbn [rev app].
      constructor; [|exact Hnd].
      rewrite <- in_rev. apply mem_false_keys. exact Hm.
Qed.

Lemma config_ok_set (cfg c1 : config) (s k v : text) :
  config_ok cfg -> is_empty s = false -> s <> default_section ->
  entry_ok (optionxform k, v) ->
  set cfg s k v = Some c1 -> config_ok c1.
Proof.
  intros [Hd [Hsec Hnd]] He Hne Hkv H.
  apply set_spec in H as [d [Hl ->]]; auto.
  split; [exact Hd|]. cbn [sections].
  pose proof (lookup_In _ _ _ Hl) as Hin.
  rewrite Forall_forall in Hsec. destruct (Hsec _ Hin) as [Hname Hopts].
  cbn [fst snd] in *. split.
  - apply Forall_assign.
    + apply Forall_forall. exact Hsec.
    + split; [exact Hname|]. apply options_ok_assign; assumption.
  - apply NoDup_assign. exact Hnd.
Qed.

(** The characters of the values: none is a carriage return. *)

Lemma no_cr_plain (v : text) : no_cr v <-> Forall plain_chr v.
Proof.
  unfold no_cr, plain_chr. rewrite forallb_forall, Forall_forall.
  split; intros H c Hc; specialize (H c Hc).
  - apply negb_true_iff. exact H.
  - apply negb_true_iff. exact H.
Qed.

Lemma options_ok_values (d : dict text) k v :
  options_ok d -> lookup k d = Some v -> no_cr v.
Proof.
  intros [Hd _] Hl. apply lookup_In in Hl.
  rewrite Forall_forall in Hd. apply (Hd _ Hl).
Qed.

Lemma config_ok_values (cfg : config) s vars k v :
  config_ok cfg -> unify_values cfg s = Some vars -> vars k = Some v ->
  no_cr v.
Proof.
  intros [Hd [Hsec _]]. unfold unify_values.
  destruct (lookup s (sections cfg)) as [d|] eqn:E.
  - intros H. inversion H; subst. clear H.
    apply lookup_In in E. rewrite Forall_forall in Hsec.
    destruct (Hsec _ E) as [_ Hopts]. cbn [snd] in Hopts.
    destruct (lookup k d) as [v'|] eqn:Ek.
    + intros H. inversion H; subst.
      exact (options_ok_values d k v Hopts Ek).
    + intros H. exact (options_ok_values _ k v Hd H).
  - destruct (text_eqb s default_section); [|discriminate].
    intros H. inversion H; subst. intros Hk.
    exact (options_ok_values _ k v Hd Hk).
Qed.

Lemma get_no_cr (cfg : config) s k v :
  config_ok cfg -> get cfg s k = Some v -> no_cr v.
Proof.
  intros Hok. unfold get.
  destruct (unify_values cfg s) as [vars|] eqn:U; [|discriminate].
  destruct (vars (optionxform k)) as [value|] eqn:E; [|discriminate].
  intros H. apply no_cr_plain.
  apply (interpolate_chars plain_chr vars) in H; auto.
  - reflexivity.
  - intros k' v' Hv. apply no_cr_plain.
    eapply config_ok_values; eauto.
  - apply no_cr_plain. eapply config_ok_values; eauto.
Qed.

Lemma sub_scan_incl (r : regex) (s : text) :
  forall n c, In c (sub_scan r n s) -> In c s.
Proof.
  induction s as [|x s IH]; intros n c; [auto|].
  cbn [sub_scan]. destruct n as [|n].
  - destruct (match_here r (x :: s)) as [rest|].
    + destruct (length (x :: s) - length rest).
      * intros [->|H]; [left; reflexivity|right; eapply IH; exact H].
      * intros H. right. eapply IH; exact H.
    + intros [->|H]; [left; reflexivity|right; eapply IH; exact H].
  - intros H. right. eapply IH; exact H.
Qed.

Lemma base_label_incl (l : text) c : In c (base_label l) -> In c l.
Proof.
  unfold base_label, re_sub. intros H. apply strip_by_incl in H.
  apply sub_scan_incl in H. apply sub_scan_incl in H. exact H.
Qed.

Lemma digit_plain c : is_digit c = true -> plain_chr c.
Proof. unfold plain_chr, is_cr. chr_cases c. Qed.

Lemma Triple_no_cr (v : text) : Triple v -> no_cr v.
Proof.
  intros Hv. apply no_cr_plain. apply Forall_forall. intros c Hc.
  destruct (Triple_chars v c Hv Hc) as [H| ->].
  - apply digit_plain. exact H.
  - reflexivity.
Qed.

Lemma rewrite_label_no_cr (l v : text) :
  no_cr l -> Triple v -> no_cr (rewrite_label l v).
Proof.
  intros Hl Hv. unfold rewrite_label.
  apply no_cr_app. split.
  - apply (no_cr_incl _ l); [|exact Hl]. intros c. apply base_label_incl.
  - apply no_cr_app. split; [reflexivity|]. apply Triple_no_cr. exact Hv.
Qed.

Lemma config_ok_updated (cfg cfg' : config) (version build : text) :
  config_ok cfg -> Triple version -> no_cr build ->
  updated_config cfg version build = Some cfg' -> config_ok cfg'.
Proof.
  intros Hok Hv Hb. unfold updated_config.
  destruct (if has_section cfg (txt "launcher") then Some cfg
            else add_section cfg (txt "launcher")) as [c1|] eqn:E1;
    [|discriminate].
  apply config_ok_ensure in E1; [|exact Hok|].
  2:{ split; [discriminate|]. split; [reflexivity|discriminate]. }
  destruct (set c1 (txt "launcher") (txt "version") version) as [c2|] eqn:E2;
    [|discriminate].
  apply config_ok_set in E2; [|exact E1|reflexivity|discriminate|].
  2:{ apply entry_ok_plain; [reflexivity|reflexivity|].
      apply Triple_no_cr. exact Hv. }
  destruct (if has_section c2 (txt "install") then Some c2
            else add_section c2 (txt "install")) as [c3|] eqn:E3;
    [|discriminate].
  apply config_ok_ensure in E3; [|exact E2|].
  2:{ split; [discriminate|]. split; [reflexivity|discriminate]. }
  destruct (set c3 (txt "install") (txt "build") build) as [c4|] eqn:E4;
    [|discriminate].
  apply config_ok_set in E4; [|exact E3|reflexivity|discriminate|].
  2:{ apply entry_ok_plain; [reflexivity|reflexivity|exact Hb]. }
  destruct (has_option c4 (txt "launcher") (txt "label")).
  - destruct (get c4 (txt "launcher") (txt "label")) as [current|] eqn:G;
      [|discriminate].
    intros E5.
    apply config_ok_set in E5; [exact E5|exact E4|reflexivity|discriminate|].
    apply entry_ok_plain; [reflexivity|reflexivity|].
    apply rewrite_label_no_cr; [|exact Hv].
    eapply get_no_cr; eauto.
  - intros H. inversion H; subst. exact E4.
Qed.

(** The build number is made of digits. *)

Lemma string_of_uint_digits (u : Decimal.uint) :
  forallb is_digit (list_ascii_of_string (NilEmpty.string_of_uint u)) = true.
Proof.
  induction u; cbn [NilEmpty.string_of_uint list_ascii_of_string forallb];
    auto.
Qed.

Lemma decimal_all_digits (n : nat) : forallb is_digit (decimal n) = true.
Proof.
  unfold decimal, NilZero.string_of_uint.
  destruct (Nat.to_uint n) eqn:E; try rewrite <- E;
    try apply string_of_uint_digits.
  reflexivity.
Qed.

Lemma digits_no_cr (s : text) : forallb is_digit s = true -> no_cr s.
Proof.
  intros H. apply no_cr_plain. apply Forall_forall. intros c Hc.
  apply digit_plain. rewrite forallb_forall in H. auto.
Qed.

Lemma two_digits_no_cr (n : nat) : no_cr (two_digits n).
Proof.
  unfold two_digits. destruct (n <? 10)%nat.
  - change ("0" :: decimal n) with (["0"] ++ decimal n).
    apply no_cr_app. split; [reflexivity|].
    apply digits_no_cr, decimal_all_digits.
  - apply digits_no_cr, decimal_all_digits.
Qed.

Lemma build_stamp_no_cr (t : datetime) : no_cr (build_stamp t).
Proof.
  unfold build_stamp.
  repeat (apply no_cr_app; split);
    try apply two_digits_no_cr. apply digits_no_cr, decimal_all_digits.
Qed.

(** ** What the parser keeps can be written and read *)

Lemma lower_chr_key c : key_chr c = true -> key_chr (lower_chr c) = true.
Proof. chr_cases c. Qed.

Lemma lower_chr_space c : is_space c = false -> is_space (lower_chr c) = false.
Proof. chr_cases c. Qed.

Lemma lower_chr_comment c :
  is_comment_prefix c = false -> is_comment_prefix (lower_chr c) = false.
Proof. chr_cases c. Qed.

Lemma lower_chr_idem c : lower_chr (lower_chr c) = lower_chr c.
Proof. chr_cases c. Qed.

Lemma lower_chr_lbracket c : lower_chr c = "[" -> c = "[".
Proof. chr_cases c. Qed.

Lemma lower_chr_rbracket c : lower_chr c = "]" -> c = "]".
Proof. chr_cases c. Qed.

Lemma snoc_cases {A} (l : list A) : l = [] \/ exists l' x, l = l' ++ [x].
Proof.
  destruct l as [|a l]; [left; reflexivity|right].
  assert (Hne : a :: l <> []) by discriminate.
  destruct (exists_last Hne) as [l' [x H]]. eauto.
Qed.

Lemma NoDup_snoc {A} (l : list A) x : NoDup l -> ~ In x l -> NoDup (l ++ [x]).
Proof.
  intros Hnd Hx. apply NoDup_rev in Hnd.
  rewrite <- (rev_involutive (l ++ [x])). apply NoDup_rev.
  rewrite rev_app_distr. cbn [rev app]. constructor; [|exact Hnd].
  rewrite <- in_rev. exact Hx.
Qed.

Lemma In_removelast {A} (l : list A) x : In x (removelast l) -> In x l.
Proof.
  induction l as [|a l IH]; [auto|]. cbn [removelast].
  destruct l as [|b l]; [intros []|].
  intros [->|H]; [left; reflexivity|right; apply IH; exact H].
Qed.

Lemma rstrip_tight_id p (m : text) : tight_r p m -> rstrip_by p m = m.
Proof.
  intros H. rewrite <- (app_nil_r m) at 1.
  apply rstrip_unique; [reflexivity|exact H].
Qed.

Lemma tight_r_map (f : ascii -> ascii) p (s : text) :
  (forall c, p c = false -> p (f c) = false) ->
  tight_r p s -> tight_r p (map f s).
Proof.
  intros Hf Hs a c E.
  destruct (snoc_cases s) as [->|[s' [x ->]]]; [destruct a; discriminate|].
  rewrite map_app in E. cbn [map] in E. apply app_inj_tail in E as [_ <-].
  apply Hf. apply (Hs s' x eq_refl).
Qed.

(** *** Section headers *)

Lemma section_header_some (x : ascii) (t : text) :
  In "]" t -> section_header ("[" :: x :: t) <> None.
Proof.
  intros Hin. unfold section_header. rewrite is_chr_refl.
  change (rev (drop_while (not_chr "]") (rev (x :: t))))
    with (rstrip_by (not_chr "]") ([x] ++ t)).
  assert (Hne : rstrip_by (not_chr "]") t <> []).
  { intros E. apply rstrip_nil_all in E. rewrite forallb_forall in E.
    specialize (E _ Hin). discriminate. }
  rewrite rstrip_app_keep by exact Hne.
  destruct (rstrip_by (not_chr "]") t) as [|y w]; [contradiction|].
  cbn [app removelast]. destruct w; discriminate.
Qed.

Lemma section_header_none (s : text) :
  (forall x t, s = "[" :: x :: t -> ~ In "]" t) -> section_header s = None.
Proof.
  intros H. destruct s as [|c r]; [reflexivity|]. unfold section_header.
  destruct (is_chr "[" c) eqn:E; [|reflexivity].
  apply is_chr_eq in E. subst c.
  destruct r as [|x t]; [reflexivity|].
  specialize (H x t eq_refl).
  change (rev (drop_while (not_chr "]") (rev (x :: t))))
    with (rstrip_by (not_chr "]") ([x] ++ t)).
  rewrite rstrip_by_app_all.
  - unfold rstrip_by. cbn [rev app drop_while].
    destruct (not_chr "]" x); reflexivity.
  - apply forallb_forall. intros c Hc. unfold not_chr.
    apply negb_true_iff. apply Ascii.eqb_neq. intros ->. contradiction.
Qed.

Lemma section_header_spec (s h : text) :
  section_header s = Some h -> h <> [] /\ forall c, In c h -> In c s.
Proof.
  destruct s as [|c r]; [discriminate|]. unfold section_header.
  destruct (is_chr "[" c); [|discriminate].
  change (rev (drop_while (not_chr "]") (rev r)))
    with (rstrip_by (not_chr "]") r).
  destruct (rstrip_by (not_chr "]") r) as [|y w] eqn:E; [discriminate|].
  destruct (removelast (y :: w)) as [|z h'] eqn:R; [discriminate|].
  intros H. inversion H; subst h. split; [discriminate|].
  intros a Ha. right. apply (rstrip_by_incl (not_chr "]")). rewrite E.
  apply In_removelast. rewrite R. exact Ha.
Qed.

(** *** Option lines *)

Lemma split_option_spec (value on ov : text) :
  split_option value = Some (on, ov) ->
  exists sp dl after,
    value = on ++ sp ++ dl :: after
    /\ forallb not_delimiter on = true
    /\ tight_r is_space on
    /\ ov = lstrip after.
Proof.
  unfold split_option. pose proof (take_drop not_delimiter value) as Htd.
  destruct (drop_while not_delimiter value) as [|dl after] eqn:E;
    [discriminate|].
  intros H. inversion H; subst on ov. clear H.
  destruct (rstrip_by_prefix is_space (take_while not_delimiter value))
    as [sp [Hsp Hall]].
  exists sp, dl, after. split; [|split; [|split]].
  - unfold rstrip. rewrite app_assoc, <- Hsp. symmetry. exact Htd.
  - apply forallb_forall. intros c Hc. apply rstrip_by_incl in Hc.
    pose proof (take_while_all not_delimiter value) as Hall'.
    rewrite forallb_forall in Hall'. auto.
  - apply rstrip_tight.
  - reflexivity.
Qed.

Lemma parsed_key_ok (line on rest : text) :
  clean_line line -> is_comment line = false ->
  strip line = on ++ rest -> on <> [] ->
  forallb not_delimiter on = true -> tight_r is_space on ->
  key_ok (optionxform (rstrip on)).
Proof.
  intros Hl Hc Hs Hne Hd Ht. unfold rstrip. rewrite rstrip_tight_id by exact Ht.
  unfold optionxform, lower.
  destruct on as [|c0 on']; [contradiction|].
  split; [discriminate|]. split; [|split; [|split]].
  - apply forallb_forall. intros c Hin.
    apply in_map_iff in Hin as [c' [<- Hin]]. apply lower_chr_key.
    unfold key_chr. apply andb_true_iff. split.
    + unfold clean_line in Hl. rewrite forallb_forall in Hl. apply Hl.
      apply (strip_by_incl is_space). fold (strip line). rewrite Hs.
      apply in_or_app. left. exact Hin.
    + rewrite forallb_forall in Hd. apply (Hd c' Hin).
  - intros c t E. cbn [map] in E. inversion E; subst c t. split.
    + apply lower_chr_space. apply (proj1 (strip_ends line) c0 (on' ++ rest)).
      rewrite Hs. reflexivity.
    + apply lower_chr_comment. unfold is_comment in Hc. rewrite Hs in Hc.
      exact Hc.
  - apply tight_r_map; [apply lower_chr_space|exact Ht].
  - unfold lower. rewrite map_map. apply map_ext. intros c.
    apply lower_chr_idem.
Qed.

Lemma parsed_header_safe (on sp after tail : text) dl :
  on <> [] ->
  section_header (on ++ sp ++ dl :: after) = None ->
  (In "]" tail -> In "]" after) ->
  section_header (lower on ++ [" "; "="] ++ tail) = None.
Proof.
  intros Hne Hold Htail. apply section_header_none. intros x t E Hin.
  destruct on as [|c0 on']; [contradiction|].
  cbn [lower map app] in E. inversion E as [[Hc0 E']].
  apply lower_chr_lbracket in Hc0. subst c0. cbn [app] in Hold.
  destruct on' as [|y on''].
  - cbn [map app] in E'. inversion E'; subst x t.
    destruct Hin as [Hd|Hin]; [discriminate|]. apply Htail in Hin.
    destruct sp as [|z sp']; cbn [app] in Hold.
    + exact (section_header_some dl after Hin Hold).
    + apply (section_header_some z (sp' ++ dl :: after)); [|exact Hold].
      apply in_or_app. right. right. exact Hin.
  - cbn [map app] in E'. inversion E'; subst x t.
    apply (section_header_some y (on'' ++ sp ++ dl :: after)); [|exact Hold].
    apply in_app_or in Hin as [Hin|Hin].
    + apply in_map_iff in Hin as [c [Hc Hin]].
      apply lower_chr_rbracket in Hc. subst c.
      apply in_or_app. left. exact Hin.
    + destruct Hin as [Hd|[Hd|Hin]]; try discriminate.
      apply in_or_app. right. apply in_or_app. right. right.
      apply Htail. exact Hin.
Qed.

Lemma parsed_entry_ok (line on ov : text) :
  clean_line line -> is_comment line = false ->
  section_header (strip line) = None ->
  split_option (strip line) = Some (on, ov) -> is_empty on = false ->
  raw_entry_ok (optionxform (rstrip on), [strip ov]).
Proof.
  intros Hl Hc Hh Hs He.
  apply split_option_spec in Hs as [sp [dl [after [Hv [Hd [Ht Hov]]]]]].
  assert (Hne : on <> []) by (intros ->; discriminate).
  assert (Hk : key_ok (optionxform (rstrip on))).
  { apply (parsed_key_ok line on (sp ++ dl :: after)); auto. }
  assert (Hincl : forall c, In c (strip ov) -> In c after).
  { intros c H. apply (strip_by_incl is_space) in H. subst ov.
    apply (drop_while_incl is_space) in H. exact H. }
  split; [exact Hk|]. cbn [fst snd]. split.
  - constructor; [|constructor].
    apply (clean_line_incl _ line); [|exact Hl].
    intros c H. apply (strip_by_incl is_space). fold (strip line).
    rewrite Hv. apply in_or_app. right. apply in_or_app. right. right.
    apply Hincl. exact H.
  - exists (strip ov), []. split; [reflexivity|]. split.
    + exact (proj2 (strip_ends ov)).
    + rewrite option_line_strip by exact Hk.
      unfold rstrip. rewrite rstrip_tight_id by exact Ht.
      apply (parsed_header_safe on sp after _ dl Hne).
      * rewrite <- Hv. exact Hh.
      * intros H. apply Hincl. unfold option_tail in H.
        destruct (rstrip (strip ov)) as [|c r] eqn:E; [destruct H|].
        destruct H as [H|H]; [discriminate|]. rewrite <- E in H.
        apply (rstrip_by_incl is_space) in H. exact H.
Qed.

(** *** The state of the parser *)

Lemma raw_options_ok_append (x : text) (d : dict (list text)) :
  clean_line x -> raw_options_ok d -> raw_options_ok (append_last x d).
Proof.
  intros Hx [Hd Hnd].
  destruct (snoc_cases d) as [->|[d' [[k ls] ->]]]; [split; assumption|].
  rewrite append_last_snoc.
  split; [|rewrite map_app in Hnd; rewrite map_app; exact Hnd].
  apply Forall_app in Hd as [Hd' Hlast]. apply Forall_app. split; [exact Hd'|].
  inversion Hlast as [|? ? [Hk [Hc [l0 [rest [E [Ht Hh]]]]]] _]; subst.
  cbn [fst snd] in *. constructor; [|constructor].
  split; [exact Hk|]. cbn [fst snd]. split.
  - apply Forall_app. split; [exact Hc|]. constructor; [exact Hx|constructor].
  - exists l0, (rest ++ [x]). rewrite E. auto.
Qed.

Lemma raw_options_ok_snoc (d : dict (list text)) kv :
  raw_options_ok d -> raw_entry_ok kv -> mem (fst kv) d = false ->
  raw_options_ok (d ++ [kv]).
Proof.
  intros [Hd Hnd] Hkv Hm. split.
  - apply Forall_app. split; [exact Hd|]. constructor; [exact Hkv|constructor].
  - rewrite map_app. cbn [map]. apply NoDup_snoc; [exact Hnd|].
    apply mem_false_keys. exact Hm.
Qed.

Lemma pstate_ok_on_current f (st : pstate) :
  pstate_ok st ->
  (raw_options_ok (current_options st) ->
   raw_options_ok (f (current_options st))) ->
  pstate_ok (on_current f st).
Proof.
  intros Hst Hf. pose proof Hst as [Hd [Hs Hnd]].
  unfold on_current, current_options in *.
  destruct (p_cur st) eqn:C; [exact Hst| |].
  - split; [|split]; cbn [p_defaults p_sections]; auto.
  - split; [|split]; cbn [p_defaults p_sections]; [exact Hd| |].
    + destruct (snoc_cases (p_sections st)) as [E|[ss [[n d] E]]]; rewrite E in *.
      * constructor.
      * rewrite on_last_section_snoc. rewrite last_section_snoc in Hf.
        apply Forall_app in Hs as [Hss Hlast]. apply Forall_app.
        split; [exact Hss|]. inversion Hlast as [|? ? [Hn Ho] _]; subst.
        constructor; [|constructor]. split; [exact Hn|]. apply Hf. exact Ho.
    + destruct (snoc_cases (p_sections st)) as [E|[ss [[n d] E]]]; rewrite E in *.
      * constructor.
      * rewrite on_last_section_snoc. rewrite map_app in Hnd.
        rewrite map_app. exact Hnd.
Qed.

Lemma strip_clean (line : text) : clean_line line -> clean_line (strip line).
Proof.
  apply clean_line_incl. intros c. apply (strip_by_incl is_space).
Qed.

Lemma parse_line_ok (st st' : pstate) (line : text) :
  clean_line line -> pstate_ok st -> parse_line st line = Some st' ->
  pstate_ok st'.
Proof.
  intros Hl Hst. unfold parse_line.
  destruct (is_comment line) eqn:C;
    [intros H; inversion H; subst; exact Hst|].
  cbv zeta. destruct (is_empty (strip line)) eqn:E.
  - intros H. inversion H; subst.
    destruct (has_cursor st && p_opt st); [|exact Hst].
    apply pstate_ok_on_current; [exact Hst|].
    apply raw_options_ok_append. reflexivity.
  - destruct (has_cursor st && p_opt st
              && (p_indent st <? indent_of line)%nat).
    + intros H. inversion H; subst.
      apply pstate_ok_on_current; [exact Hst|].
      apply raw_options_ok_append. apply strip_clean. exact Hl.
    + destruct (section_header (strip line)) as [name|] eqn:SH.
      * destruct (mem name (p_sections st)) eqn:M; [discriminate|].
        destruct Hst as [Hd [Hs Hnd]].
        apply section_header_spec in SH as [Hne Hin].
        destruct (text_eqb name default_section) eqn:D;
          intros H; inversion H; subst;
          (split; [|split]); cbn [p_defaults p_sections]; auto.
        -- apply Forall_app. split; [exact Hs|].
           constructor; [|constructor]. cbn [fst snd]. split.
           ++ split; [exact Hne|]. split.
              ** apply (clean_line_incl _ (strip line)); [exact Hin|].
                 apply strip_clean. exact Hl.
              ** apply text_eqb_neq. exact D.
           ++ split; constructor.
        -- rewrite map_app. cbn [map fst]. apply NoDup_snoc; [exact Hnd|].
           apply mem_false_keys. exact M.
      * destruct (negb (has_cursor st)); [discriminate|].
        destruct (split_option (strip line)) as [[on ov]|] eqn:SO;
          [|discriminate].
        destruct (is_empty on) eqn:EO; [discriminate|].
        destruct (mem (optionxform (rstrip on)) (current_options st)) eqn:M;
          [discriminate|].
        intros H. inversion H; subst. clear H.
        assert (Hok : pstate_ok
                        (on_current
                           (fun d => d ++ [(optionxform (rstrip on),
                                            [strip ov])]) st)).
        { apply pstate_ok_on_current; [exact Hst|]. intros Hd.
          apply raw_options_ok_snoc; [exact Hd| |exact M].
          apply (parsed_entry_ok line); assumption. }
        exact Hok.
Qed.

Lemma parse_lines_ok (lines : list text) :
  forall st st',
    Forall clean_line lines -> pstate_ok st ->
    parse_lines st lines = Some st' -> pstate_ok st'.
Proof.
  induction lines as [|l lines IH]; intros st st' Hl Hst; cbn [parse_lines].
  - intros H. inversion H; subst. exact Hst.
  - inversion Hl as [|? ? Hl1 Hl2]; subst.
    destruct (parse_line st l) as [st1|] eqn:E; [|discriminate].
    apply IH; [exact Hl2|]. eapply parse_line_ok; eauto.
Qed.

(** *** Joining the lines *)

Lemma join_incl (sep : text) (ls : list text) c :
  In c (join sep ls) -> In c sep \/ exists l, In l ls /\ In c l.
Proof.
  induction ls as [|a ls IH]; [intros []|].
  destruct ls as [|b r].
  - cbn [join]. intros H. right. exists a. split; [left; reflexivity|exact H].
  - rewrite join_cons. intros H. apply in_app_or in H as [H|H].
    + right. exists a. split; [left; reflexivity|exact H].
    + apply in_app_or in H as [H|H]; [left; exact H|].
      destruct (IH H) as [H'|[l [Hl Hc]]]; [left; exact H'|].
      right. exists l. split; [right; exact Hl|exact Hc].
Qed.

Lemma join_value_no_cr (ls : list text) :
  Forall clean_line ls -> no_cr (join_value ls).
Proof.
  intros H. apply no_cr_plain. apply Forall_forall. intros c Hc.
  unfold join_value in Hc. apply (rstrip_by_incl is_space) in Hc.
  apply join_incl in Hc as [Hc|[l [Hl Hc]]].
  - destruct Hc as [<-|[]]. reflexivity.
  - rewrite Forall_forall in H. specialize (H l Hl).
    apply clean_line_no_cr in H. apply no_cr_plain in H.
    rewrite Forall_forall in H. auto.
Qed.

Lemma first_line_all (l : text) : single_line l -> first_line l = l.
Proof.
  unfold single_line, first_line. induction l as [|c l IH]; [reflexivity|].
  cbn [forallb take_while]. intros H. apply andb_true_iff in H as [Hc Hl].
  rewrite Hc, IH by exact Hl. reflexivity.
Qed.

Lemma first_line_join_value (l0 : text) (rest : list text) :
  single_line l0 -> tight_r is_space l0 ->
  first_line (join_value (l0 :: rest)) = l0.
Proof.
  intros Hs Ht. unfold join_value. destruct rest as [|b r].
  - cbn [join]. unfold rstrip. rewrite rstrip_tight_id by exact Ht.
    apply first_line_all. exact Hs.
  - rewrite join_cons. unfold rstrip.
    destruct (rstrip_by is_space (nl ++ join nl (b :: r))) as [|c w] eqn:E.
    + rewrite rstrip_app_drop by exact E.
      rewrite rstrip_tight_id by exact Ht. apply first_line_all. exact Hs.
    + rewrite rstrip_app_keep by (rewrite E; discriminate). rewrite E.
      destruct (rstrip_by_prefix is_space (nl ++ join nl (b :: r)))
        as [a [Ha _]].
      rewrite E in Ha. cbn [nl app] in Ha. inversion Ha; subst c.
      unfold first_line. rewrite take_while_app_all by exact Hs.
      cbn [take_while]. change (not_nl "010") with false. cbv iota.
      apply app_nil_r.
Qed.

Lemma entry_ok_joined (kv : text * list text) :
  raw_entry_ok kv -> entry_ok (fst kv, join_value (snd kv)).
Proof.
  destruct kv as [k ls]. intros [Hk [Hc [l0 [rest [E [Ht Hh]]]]]].
  cbn [fst snd] in *. subst ls.
  split; [exact Hk|]. cbn [fst snd]. split.
  - apply join_value_no_cr. exact Hc.
  - unfold header_safe. rewrite first_line_join_value; [exact Hh| |exact Ht].
    apply clean_line_single. inversion Hc; assumption.
Qed.

Lemma options_ok_joined (d : dict (list text)) :
  raw_options_ok d -> options_ok (join_options d).
Proof.
  intros [Hd Hnd]. unfold join_options. split.
  - apply Forall_forall. intros kv Hin.
    apply in_map_iff in Hin as [kv' [<- Hin]].
    apply entry_ok_joined. rewrite Forall_forall in Hd. auto.
  - rewrite map_map. cbn [fst]. exact Hnd.
Qed.

Lemma config_ok_finish (st : pstate) : pstate_ok st -> config_ok (finish st).
Proof.
  intros [Hd [Hs Hnd]]. unfold finish.
  split; [|split]; cbn [defaults sections].
  - apply options_ok_joined. exact Hd.
  - apply Forall_forall. intros s Hin.
    apply in_map_iff in Hin as [s' [<- Hin]]. cbn [fst snd].
    rewrite Forall_forall in Hs. destruct (Hs _ Hin) as [Hn Ho].
    split; [exact Hn|]. apply options_ok_joined. exact Ho.
  - rewrite map_map. cbn [fst]. exact Hnd.
Qed.

Lemma pstate_ok_initial : pstate_ok initial_pstate.
Proof.
  split; [|split]; cbn; try constructor; constructor.
Qed.

(** A configuration read from a file can be written and read again. *)
Lemma parse_ok (content : text) (cfg : config) :
  parse content = Some cfg -> config_ok cfg.
Proof.
  unfold parse.
  destruct (parse_lines initial_pstate
              (lines_of (universal_newlines content))) as [st|] eqn:E;
    [|discriminate].
  intros H. inversion H; subst. apply config_ok_finish.
  eapply parse_lines_ok; [| |exact E].
  - apply lines_of_clean. apply universal_newlines_no_cr.
  - apply pstate_ok_initial.
Qed.

(** ** The version after the round trip *)

Lemma lookup_map {V W} (g : V -> W) (k : text) (d : dict V) :
  lookup k (map (fun kv => (fst kv, g (snd kv))) d)
  = option_map g (lookup k d).
Proof.
  induction d as [|[k0 v0] d IH]; [reflexivity|].
  cbn [map lookup fst snd]. destruct (text_eqb k0 k); [reflexivity|exact IH].
Qed.

Lemma option_of_normalise (cfg : config) (s k : text) :
  option_of (normalise cfg) s k = option_map norm_value (option_of cfg s k).
Proof.
  unfold option_of, normalise. cbn [sections].
  rewrite (lookup_map norm_options).
  destruct (lookup s (sections cfg)) as [d|]; [|reflexivity].
  cbn [option_map]. apply (lookup_map norm_value).
Qed.

Lemma split_chr_single (s : text) :
  single_line s -> split_chr "010" s = [s].
Proof.
  unfold single_line. induction s as [|c s IH]; [reflexivity|].
  cbn [forallb split_chr]. intros H. apply andb_true_iff in H as [Hc Hs].
  unfold not_nl, is_nl in Hc. apply negb_true_iff in Hc.
  rewrite Hc, (IH Hs). reflexivity.
Qed.

Lemma strip_by_plain p (s : text) :
  (forall c, In c s -> p c = false) -> strip_by p s = s.
Proof.
  intros H. apply strip_by_fix.
  - intros c t ->. apply H. left. reflexivity.
  - intros a c ->. apply H. apply in_or_app. right. left. reflexivity.
Qed.

Lemma norm_value_plain (v : text) :
  (forall c, In c v -> is_space c = false) -> norm_value v = v.
Proof.
  intros H. unfold norm_value, norm_lines.
  rewrite split_chr_single.
  - cbn [flat_map]. unfold join_value. cbn [join]. unfold strip.
    rewrite strip_by_plain by exact H. unfold rstrip.
    apply rstrip_tight_id. intros a c ->. apply H.
    apply in_or_app. right. left. reflexivity.
  - unfold single_line. apply forallb_forall. intros c Hc.
    specialize (H c Hc). unfold not_nl. apply negb_true_iff.
    destruct (is_nl c) eqn:E; [|reflexivity].
    apply nl_is_space in E. congruence.
Qed.

Lemma digit_not_percent c : is_digit c = true -> is_chr "%" c = false.
Proof. chr_cases c. Qed.

Lemma digit_not_quote c : is_digit c = true -> is_chr "034" c = false.
Proof. chr_cases c. Qed.

Lemma Triple_plain (v : text) :
  Triple v ->
  (forall c, In c v -> is_space c = false)
  /\ has_percent v = false
  /\ strip_quotes v = v.
Proof.
  intros Hv. split; [|split].
  - intros c Hc. destruct (Triple_chars v c Hv Hc) as [H| ->].
    + apply digit_not_space. exact H.
    + reflexivity.
  - apply has_percent_false. intros c Hc.
    destruct (Triple_chars v c Hv Hc) as [H| ->].
    + apply digit_not_percent. exact H.
    + reflexivity.
  - apply strip_by_plain. intros c Hc.
    destruct (Triple_chars v c Hv Hc) as [H| ->].
    + apply digit_not_quote. exact H.
    + reflexivity.
Qed.

Lemma first_version_normalise (cfg : config) (v : text) :
  Triple v -> option_of cfg launcher (txt "version") = Some v ->
  first_version (normalise cfg) [launcher; install] = v.
Proof.
  intros Hv Ho. destruct (Triple_plain v Hv) as [Hs [Hp Hq]].
  assert (Hn : option_of (normalise cfg) launcher (txt "version") = Some v).
  { rewrite option_of_normalise, Ho. cbn [option_map].
    rewrite norm_value_plain by exact Hs. reflexivity. }
  rewrite first_version_cases.
  rewrite (own_version_offered _ launcher v) by (auto; discriminate).
  rewrite (own_version_got _ launcher v Hn Hp). exact Hq.
Qed.

Lemma read_config_ok (f : node) (p : path) (unreadable : bool) (cfg : config) :
  read_config f p unreadable = Some cfg -> config_ok cfg.
Proof.
  unfold read_config.
  destruct (lookup_path f p) as [[content|a t c|es]|];
    destruct unreadable; intros H; try discriminate;
    try (inversion H; subst; apply config_ok_empty).
  apply (parse_ok content). exact H.
Qed.

(** What is read from the descriptor that [update_app_version] wrote: the
    configuration it wrote, each value as the parser normalises it. *)
Lemma update_read_back (src : path) (app version : text) (env : unit_env)
    (f f' : node) lg ops :
  Triple version ->
  update_result src app version env f = (true, f', lg, ops) ->
  exists cfg',
    read_config f' (src ++ [app] ++ app_conf) false = Some (normalise cfg')
    /\ path_exists f' (src ++ [app] ++ app_conf) = true
    /\ option_of cfg' launcher (txt "version") = Some version.
Proof.
  intros Hv R. apply update_result_true in R as [cfg [cfg' [R1 [R2 [R3 _]]]]].
  exists cfg'. pose proof (write_file_read _ _ _ _ R3) as Hfile.
  split; [|split].
  - unfold read_config. rewrite Hfile. apply parse_render.
    apply (config_ok_updated cfg cfg' version (build_stamp (build_time env)));
      auto.
    + eapply read_config_ok. exact R1.
    + apply build_stamp_no_cr.
  - apply path_exists_lookup. eauto.
  - apply updated_config_frame in R2. apply R2.
Qed.

(** * Properties of the program *)

(** ** Examples used below *)

Lemma Triple_2_0_0 : Triple (txt "2.0.0").
Proof.
  apply (Triple_intro (txt "2") (txt "0") (txt "0"));
    (split; [discriminate|reflexivity]).
Defined.

Lemma Triple_3_1_4 : Triple (txt "3.1.4").
Proof.
  apply (Triple_intro (txt "3") (txt "1") (txt "4"));
    (split; [discriminate|reflexivity]).
Defined.

(** ** C1 *)

Lemma parent_join (dir : path) (name : text) : parent (dir ++ [name]) = dir.
Proof. unfold parent. apply removelast_last. Qed.

Lemma not_destructive_archived target a n t c :
  ~ destructive target (Archived a n t c).
Proof. intros [H|[s H]]; discriminate. Qed.

Lemma not_destructive_wrote target p : ~ destructive target (Wrote p).
Proof. intros [H|[s H]]; discriminate. Qed.

Lemma destructive_not_archive target e : destructive target e -> ~ is_archive e.
Proof.
  intros [->|[s ->]] [a [n [t [c H]]]]; discriminate.
Qed.

(** ** C4 *)

(** The claim fails: a version that is not MAJOR.MINOR.PATCH is appended
    again by every rewrite. *)
Lemma label_rewrite_accumulates :
  rewrite_label (txt "Foo") (txt "1.0") = txt "Foo v1.0"
  /\ rewrite_label (rewrite_label (txt "Foo") (txt "1.0")) (txt "1.0")
     = txt "Foo v1.0 v1.0"
  /\ rewrite_label (rewrite_label (txt "Foo") (txt "1.0")) (txt "1.0")
     <> rewrite_label (txt "Foo") (txt "1.0").
Proof. vm_compute. repeat split; discriminate. Qed.

(** A second parenthesised group goes with the second rewrite. *)
Lemma label_rewrite_strips_one_group :
  rewrite_label (txt "Foo (a) (b)") (txt "2.0.0") = txt "Foo (a) v2.0.0"
  /\ rewrite_label (rewrite_label (txt "Foo (a) (b)") (txt "2.0.0"))
       (txt "2.0.0") = txt "Foo v2.0.0".
Proof. vm_compute. split; reflexivity. Qed.

(** On a label of two lines a version on the first line survives the
    first rewrite and goes with the second. *)
Lemma label_rewrite_two_lines :
  rewrite_label (txt "A v1.2.3" ++ nl ++ txt "v1.2.3") (txt "2.0.0")
  = txt "A v1.2.3 v2.0.0"
  /\ rewrite_label
       (rewrite_label (txt "A v1.2.3" ++ nl ++ txt "v1.2.3") (txt "2.0.0"))
       (txt "2.0.0") = txt "A v2.0.0".
Proof. vm_compute. split; reflexivity. Qed.

(** C4, amended.  For every one-line label and every version
    MAJOR.MINOR.PATCH: when the base label, the label without its version
    suffix and without one trailing parenthesised suffix, does not itself
    end in a parenthesised suffix, rewriting the label twice gives the
    same label as rewriting it once, and rewriting the rewritten label to
    any other version gives the base label followed by that version; in
    particular Foo v1.2.3 becomes Foo v2.0.0. *)
Theorem label_rewrite_idempotent (label version : text) :
  single_line label ->
  Triple version ->
  re_sub paren_suffix (base_label label) = base_label label ->
  rewrite_label (rewrite_label label version) version
  = rewrite_label label version
  /\ (forall version',
        rewrite_label (rewrite_label label version) version'
        = base_label label ++ txt " v" ++ version')
  /\ rewrite_label (txt "Foo v1.2.3") (txt "2.0.0") = txt "Foo v2.0.0".
Proof.
  intros Hl Hv Hp.
  assert (H : forall version',
             rewrite_label (rewrite_label label version) version'
             = base_label label ++ txt " v" ++ version').
  { intros version'. rewrite rewrite_label_twice by assumption.
    rewrite Hp, base_label_stripped. reflexivity. }
  split; [apply H|]. split; [exact H|]. vm_compute. reflexivity.
Qed.

Lemma label_rewrite_idempotent_witness :
  single_line (txt "Foo v1.2.3")
  /\ Triple (txt "2.0.0")
  /\ re_sub paren_suffix (base_label (txt "Foo v1.2.3"))
     = base_label (txt "Foo v1.2.3")
  /\ rewrite_label (rewrite_label (txt "Foo v1.2.3") (txt "2.0.0"))
       (txt "2.0.0")
     = rewrite_label (txt "Foo v1.2.3") (txt "2.0.0").
Proof.
  split; [reflexivity|]. split; [exact Triple_2_0_0|].
  split; [reflexivity|].
  apply (label_rewrite_idempotent (txt "Foo v1.2.3") (txt "2.0.0"));
    [reflexivity | exact Triple_2_0_0 | reflexivity].
Defined.

(** ** C5 *)

(** C5.  For every line typed at the version prompt and every current
    version, [prompt_for_version] returns: the line, stripped, when it is
    MAJOR.MINOR.PATCH; the current version in every other case.  It does
    not raise and leaves the file system alone. *)
Theorem prompt_for_version_resolves (app current raw : text) (f : node)
    (rest : list keyboard) (lg : list (level * text)) (tr : list event) :
  exists version lg',
    prompt_for_version app current (mkWorld f (Typed raw :: rest) lg tr)
    = (Done version, mkWorld f rest (lg ++ lg') tr)
    /\ ((Triple (strip raw) /\ version = strip raw)
        \/ (~ Triple (strip raw) /\ version = current)).
Proof.
  rewrite prompt_for_version_run.
  destruct (is_empty (strip raw)) eqn:E.
  - exists current, []. rewrite app_nil_r. split; [reflexivity|]. right.
    split; [|reflexivity]. intros H. apply Triple_nonempty in H.
    destruct (strip raw); [contradiction|discriminate].
  - destruct (re_match strict_version (strip raw)) eqn:R.
    + exists (strip raw), []. rewrite app_nil_r. split; [reflexivity|]. left.
      split; [|reflexivity]. apply strict_version_stripped. exact R.
    + eexists current, _. split; [reflexivity|]. right.
      split; [|reflexivity]. intros H. apply strict_version_stripped in H.
      congruence.
Qed.

(** ** C7 *)

(** C7.  When one of the four required paths of a unit is missing, the
    validator returns [False] after an error entry that names a required
    path of the unit that is missing, and [deploy_app] returns [False]
    right after it: the file system is untouched and no operation on it is
    started, so there is no archive and the descriptor is not written. *)
Theorem missing_path_stops_pipeline (m : manager) (app : text) (target : path)
    (version : text) (env : unit_env) (w : world) (r : path) :
  In r (required_dirs ++ required_files) ->
  path_exists (fs w) (apps_source_dir m ++ [app] ++ r) = false ->
  exists kind r',
    let p := apps_source_dir m ++ [app] ++ r' in
    let start := (LOG, txt "Validating " ++ app ++ txt " app structure...") in
    let error := (ERROR, kind ++ render_path p) in
    (kind = txt "Missing required directory: "
     \/ kind = txt "Missing required file: ")
    /\ In r' (required_dirs ++ required_files)
    /\ path_exists (fs w) p = false
    /\ validate_app_structure (apps_source_dir m) app w
       = (Done false,
          mkWorld (fs w) (stdin w) (log w ++ [start; error]) (trace w))
    /\ deploy_app m app target version env w
       = (Done false,
          mkWorld (fs w) (stdin w)
            (log w ++ [deploying app version; start; error;
                       (ERROR, txt "App structure validation failed for "
                               ++ app)])
            (trace w)).
Proof.
  intros Hr Hmiss.
  destruct (validate_result_missing (apps_source_dir m) app (fs w) r Hr Hmiss)
    as [kind [r' [Hv [Hk [Hr' Hp]]]]].
  exists kind, r'. cbv zeta. split; [exact Hk|]. split; [exact Hr'|].
  split; [exact Hp|]. split.
  - rewrite validate_app_structure_run, Hv. unfold apply_effect, evolve.
    rewrite app_nil_r. reflexivity.
  - rewrite deploy_app_run. unfold deploy_result. rewrite Hv.
    unfold apply_effect, evolve. rewrite app_nil_r. reflexivity.
Qed.

Lemma missing_path_stops_pipeline_witness :
  In [txt "metadata"] (required_dirs ++ required_files)
  /\ path_exists example_fs
       (apps_source_dir example_manager ++ [txt "appB"] ++ [txt "metadata"])
     = false
  /\ exists kind r',
       (kind = txt "Missing required directory: "
        \/ kind = txt "Missing required file: ")
       /\ In r' (required_dirs ++ required_files)
       /\ deploy_app example_manager (txt "appB")
            (example_apps_dir ++ [txt "appB"]) (txt "1.0.0") example_env
            (example_world [])
          = (Done false,
             mkWorld example_fs []
               ([] ++ [deploying (txt "appB") (txt "1.0.0");
                       (LOG, txt "Validating " ++ txt "appB"
                             ++ txt " app structure...");
                       (ERROR, kind ++ render_path
                                 (apps_source_dir example_manager
                                  ++ [txt "appB"] ++ r'));
                       (ERROR, txt "App structure validation failed for "
                               ++ txt "appB")])
               []).
Proof.
  split; [right; left; reflexivity|]. split; [reflexivity|].
  destruct (missing_path_stops_pipeline example_manager (txt "appB")
              (example_apps_dir ++ [txt "appB"]) (txt "1.0.0") example_env
              (example_world []) [txt "metadata"])
    as [kind [r' [Hk [Hr [_ [_ Hd]]]]]];
    [right; left; reflexivity | reflexivity |].
  exists kind, r'. split; [exact Hk|]. split; [exact Hr|]. exact Hd.
Defined.

(** ** C8 *)

(** C8.  When [update_app_version] returns [True] for a version of the
    form MAJOR.MINOR.PATCH, [get_current_version] on the same unit right
    afterwards, the descriptor being opened and decoded as any file just
    written is, returns exactly that version: [ConfigParser.write] puts
    the launcher section with its version option in the file, and reading
    the file back gives the configuration written, so the first section
    asked for a version is launcher and its value is the one set.  The
    one way for the call not to return it is that the system refuses the
    probe of the descriptor, and the call raises. *)
Theorem written_version_read_back (src : path) (app version : text)
    (env : unit_env) (w w' : world) :
  Triple version ->
  update_app_version src app version env w = (Done true, w') ->
  forall refused,
    get_current_version (fs w') src app false refused
    = if refused then None else Some version.
Proof.
  intros Hv Hrun [|]; [reflexivity|]. revert Hrun.
  rewrite update_app_version_run.
  destruct (update_result src app version env (fs w)) as [[[ok f'] lg] ops]
    eqn:R.
  unfold apply_effect. intros H. inversion H; subst. clear H.
  cbn [fs evolve].
  apply update_read_back in R as [cfg' [H1 [H2 H3]]]; [|exact Hv].
  rewrite get_current_version_cases, H2, H1. cbn [negb]. f_equal.
  apply first_version_normalise; assumption.
Qed.

Lemma written_version_read_back_witness :
  Triple (txt "3.1.4")
  /\ round_trip_update = (Done true, snd round_trip_update)
  /\ get_current_version (fs (snd round_trip_update)) example_source
       (txt "appC") false false = Some (txt "3.1.4").
Proof.
  assert (H : round_trip_update = (Done true, snd round_trip_update))
    by (vm_compute; reflexivity).
  split; [exact Triple_3_1_4|]. split; [exact H|].
  exact (written_version_read_back example_source (txt "appC") (txt "3.1.4")
           example_env commented_world (snd round_trip_update)
           Triple_3_1_4 H false).
Defined.

(** ** C9 *)

Lemma not_In_text (x : text) (l : list text) :
  existsb (text_eqb x) l = false -> ~ In x l.
Proof.
  intros H Hin.
  assert (existsb (text_eqb x) l = true).
  { apply existsb_exists. exists x. split; auto. apply text_eqb_refl. }
  congruence.
Qed.

(** The claim fails: the descriptor below has neither a launcher nor an
    install section, yet after the rewrite its comment is gone and the
    option of its section has another name. *)
Lemma rewrite_is_not_verbatim :
  fst commented_update = Done true
  /\ content_at (snd commented_update) (example_source ++ [txt "appC"] ++ app_conf)
     = Some (txt "[ui]" ++ nl ++ txt "is_visible = 1" ++ nl ++ nl
             ++ txt "[launcher]" ++ nl ++ txt "version = 2.0.0" ++ nl ++ nl
             ++ txt "[install]" ++ nl ++ txt "build = 202403070905" ++ nl
             ++ nl)
  /\ ~ kept_verbatim commented_descriptor
         (txt "[ui]" ++ nl ++ txt "is_visible = 1" ++ nl ++ nl
          ++ txt "[launcher]" ++ nl ++ txt "version = 2.0.0" ++ nl ++ nl
          ++ txt "[install]" ++ nl ++ txt "build = 202403070905" ++ nl ++ nl).
Proof.
  split; [vm_compute; reflexivity|]. split; [vm_compute; reflexivity|].
  intros H.
  apply (not_In_text (txt "Is_Visible = 1")
           (lines_of
              (txt "[ui]" ++ nl ++ txt "is_visible = 1" ++ nl ++ nl
               ++ txt "[launcher]" ++ nl ++ txt "version = 2.0.0" ++ nl ++ nl
               ++ txt "[install]" ++ nl ++ txt "build = 202403070905" ++ nl
               ++ nl))).
  - vm_compute. reflexivity.
  - apply H. vm_compute. right. right. left. reflexivity.
Qed.

(** C9, amended.  When [update_app_version] returns [True] the descriptor
    holds what [ConfigParser.write] makes of the configuration read from
    the old descriptor and changed in three places at most: the default
    section is the same, every section other than launcher and install has
    the same options with the same values in the same order, every option
    other than launcher.version, launcher.label and install.build has the
    same value, and the sections keep their order, launcher and install
    going last when they are new.  Option names are kept as the parser
    holds them, in lower case; comments, blank lines and the layout of the
    old file are not kept. *)
Theorem other_options_kept (src : path) (app version : text) (env : unit_env)
    (w w' : world) :
  update_app_version src app version env w = (Done true, w') ->
  let p := src ++ [app] ++ app_conf in
  exists cfg cfg',
    read_config (fs w) p (read_unreadable env) = Some cfg
    /\ content_at w' p = Some (render cfg')
    /\ defaults cfg' = defaults cfg
    /\ (forall section optname,
          ~ rewritten section optname ->
          option_of cfg' section optname = option_of cfg section optname)
    /\ (forall section,
          section <> launcher -> section <> install ->
          lookup section (sections cfg') = lookup section (sections cfg))
    /\ (exists extra,
          map fst (sections cfg') = map fst (sections cfg) ++ extra
          /\ incl extra [launcher; install])
    /\ option_of cfg' launcher (txt "version") = Some version
    /\ option_of cfg' install (txt "build")
       = Some (build_stamp (build_time env)).
Proof.
  rewrite update_app_version_run.
  destruct (update_result src app version env (fs w)) as [[[ok f'] lg] ops]
    eqn:R.
  unfold apply_effect. intros H. inversion H; subst. clear H.
  apply update_result_true in R as [cfg [cfg' [R1 [R2 [R3 _]]]]].
  exists cfg, cfg'. split; [exact R1|]. split.
  - unfold content_at. cbn [fs evolve].
    rewrite (write_file_read _ _ _ _ R3). reflexivity.
  - apply updated_config_frame in R2. exact R2.
Qed.

Lemma other_options_kept_witness :
  commented_update = (Done true, snd commented_update)
  /\ exists cfg cfg',
       read_config (fs commented_world)
         (example_source ++ [txt "appC"] ++ app_conf) false = Some cfg
       /\ content_at (snd commented_update)
            (example_source ++ [txt "appC"] ++ app_conf) = Some (render cfg')
       /\ (forall section optname,
             ~ rewritten section optname ->
             option_of cfg' section optname = option_of cfg section optname).
Proof.
  assert (H : commented_update = (Done true, snd commented_update))
    by (vm_compute; reflexivity).
  split; [exact H|].
  destruct (other_options_kept example_source (txt "appC") (txt "2.0.0")
              example_env commented_world (snd commented_update) H)
    as [cfg [cfg' [H1 [H2 [_ [H4 _]]]]]].
  exists cfg, cfg'. split; [exact H1|]. split; [exact H2|exact H4].
Defined.

(** * The file system: what an operation leaves alone *)

Lemma is_prefix_refl (p : path) : is_prefix p p.
Proof. exists []. symmetry. apply app_nil_r. Qed.

Lemma is_prefix_nil (p : path) : is_prefix [] p.
Proof. exists p. reflexivity. Qed.

Lemma is_prefix_cons x (p q : path) :
  is_prefix (x :: p) (x :: q) <-> is_prefix p q.
Proof.
  split; intros [r H]; exists r.
  - cbn [app] in H. inversion H. reflexivity.
  - cbn [app]. rewrite H. reflexivity.
Qed.

Lemma is_prefix_app (p q r : path) : is_prefix p q -> is_prefix p (q ++ r).
Proof. intros [s ->]. exists (s ++ r). rewrite app_assoc. reflexivity. Qed.

Lemma is_prefix_trans (p q r : path) :
  is_prefix p q -> is_prefix q r -> is_prefix p r.
Proof. intros [s ->] [t ->]. exists (s ++ t). rewrite app_assoc. reflexivity. Qed.

(** Two ancestors of a path lie on one line. *)
Lemma is_prefix_comparable (a b c : path) :
  is_prefix a c -> is_prefix b c -> is_prefix a b \/ is_prefix b a.
Proof.
  revert b c. induction a as [|x a IH]; intros b c Ha Hb.
  - left. apply is_prefix_nil.
  - destruct b as [|y b]; [right; apply is_prefix_nil|].
    destruct Ha as [r Ha], Hb as [s Hb]. subst c. cbn [app] in Hb.
    inversion Hb; subst y.
    destruct (IH b (a ++ r)) as [H|H].
    + exists r. reflexivity.
    + exists s. assumption.
    + left. apply is_prefix_cons. exact H.
    + right. apply is_prefix_cons. exact H.
Qed.

Lemma apart_sym (p q : path) : apart p q -> apart q p.
Proof. intros [H1 H2]. split; assumption. Qed.

Lemma apart_cons x (p q : path) : apart (x :: p) (x :: q) -> apart p q.
Proof.
  intros [H1 H2]. split; intros H.
  - apply H1. apply is_prefix_cons. exact H.
  - apply H2. apply is_prefix_cons. exact H.
Qed.

(** What lies under a path is apart from what is apart from the path. *)
Lemma apart_below (p q r : path) : apart p q -> apart p (q ++ r).
Proof.
  intros [H1 H2]. split; intros H.
  - destruct (is_prefix_comparable p q (q ++ r) H) as [H'|H'].
    + exists r. reflexivity.
    + contradiction.
    + contradiction.
  - apply H2. apply (is_prefix_trans q (q ++ r) p); [|exact H].
    exists r. reflexivity.
Qed.

Lemma apart_below_both (p q r s : path) : apart p q -> apart (p ++ r) (q ++ s).
Proof.
  intros H. apply apart_sym. apply apart_below. apply apart_sym.
  apply apart_below. exact H.
Qed.

Lemma lookup_remove_other {V} (k k' : text) (d : dict V) :
  k' <> k -> lookup k' (remove_key k d) = lookup k' d.
Proof.
  intros Hne. induction d as [|[k0 v0] d IH]; [reflexivity|].
  cbn [remove_key lookup]. destruct (text_eqb k0 k) eqn:E.
  - apply text_eqb_eq in E. subst k0.
    rewrite (proj2 (text_eqb_neq k k')) by auto. exact IH.
  - cbn [lookup]. rewrite IH. reflexivity.
Qed.

Lemma lookup_remove_same {V} (k : text) (d : dict V) :
  lookup k (remove_key k d) = None.
Proof.
  induction d as [|[k0 v0] d IH]; [reflexivity|].
  cbn [remove_key]. destruct (text_eqb k0 k) eqn:E; [exact IH|].
  cbn [lookup]. rewrite E. exact IH.
Qed.

Lemma lookup_path_app (p q : path) : forall n,
  lookup_path n (p ++ q) =
  match lookup_path n p with
  | Some m => lookup_path m q
  | None => None
  end.
Proof.
  induction p as [|x p IH]; intros n; [reflexivity|].
  cbn [app lookup_path]. destruct n as [?|? ? ?|es]; try reflexivity.
  destruct (lookup x es); [apply IH|reflexivity].
Qed.

(** [store] changes what is at the path and what lies around it only. *)
Lemma lookup_store_other (p : path) : forall (n n' new : node) (q : path),
  store n p new = Some n' -> apart p q ->
  lookup_path n' q = lookup_path n q.
Proof.
  induction p as [|x p IH]; intros n n' new q H Hap; [discriminate|].
  cbn [store] in H. destruct n as [?|? ? ?|es]; try discriminate.
  destruct q as [|y q].
  { exfalso. apply (proj2 Hap). apply is_prefix_nil. }
  destruct (list_eq_dec ascii_dec x y) as [<-|Hne].
  - destruct p as [|z p'].
    + exfalso. apply (proj1 Hap). exists q. reflexivity.
    + destruct (lookup x es) as [child|] eqn:E; try discriminate.
      destruct (store child (z :: p') new) as [child'|] eqn:S;
        try discriminate.
      inversion H; subst n'. cbn [lookup_path].
      rewrite lookup_assign_same, E.
      apply (IH child child' new q S). apply (apart_cons x). exact Hap.
  - assert (Hl : forall v, lookup y (assign x v es) = lookup y es).
    { intros v. apply lookup_assign_other. auto. }
    destruct p as [|z p'].
    + inversion H; subst n'. cbn [lookup_path]. rewrite Hl. reflexivity.
    + destruct (lookup x es) as [child|] eqn:E; try discriminate.
      destruct (store child (z :: p') new) as [child'|] eqn:S;
        try discriminate.
      inversion H; subst n'. cbn [lookup_path]. rewrite Hl. reflexivity.
Qed.

Lemma lookup_delete_other (p : path) : forall (n n' : node) (q : path),
  delete n p = Some n' -> apart p q ->
  lookup_path n' q = lookup_path n q.
Proof.
  induction p as [|x p IH]; intros n n' q H Hap; [discriminate|].
  cbn [delete] in H. destruct n as [?|? ? ?|es]; try discriminate.
  destruct q as [|y q].
  { exfalso. apply (proj2 Hap). apply is_prefix_nil. }
  destruct (list_eq_dec ascii_dec x y) as [<-|Hne].
  - destruct p as [|z p'].
    + exfalso. apply (proj1 Hap). exists q. reflexivity.
    + destruct (lookup x es) as [child|] eqn:E; try discriminate.
      destruct (delete child (z :: p')) as [child'|] eqn:S; try discriminate.
      inversion H; subst n'. cbn [lookup_path].
      rewrite lookup_assign_same, E.
      apply (IH child child' q S). apply (apart_cons x). exact Hap.
  - destruct p as [|z p'].
    + destruct (mem x es); [|discriminate].
      inversion H; subst n'. cbn [lookup_path].
      rewrite lookup_remove_other by auto. reflexivity.
    + destruct (lookup x es) as [child|] eqn:E; try discriminate.
      destruct (delete child (z :: p')) as [child'|] eqn:S; try discriminate.
      inversion H; subst n'. cbn [lookup_path].
      rewrite lookup_assign_other by auto. reflexivity.
Qed.

Lemma lookup_delete_same (p : path) : forall (n n' : node),
  delete n p = Some n' -> lookup_path n' p = None.
Proof.
  induction p as [|x p IH]; intros n n' H; [discriminate|].
  cbn [delete] in H. destruct n as [?|? ? ?|es]; try discriminate.
  destruct p as [|z p'].
  - destruct (mem x es); [|discriminate].
    inversion H; subst n'. cbn [lookup_path].
    rewrite lookup_remove_same. reflexivity.
  - destruct (lookup x es) as [child|] eqn:E; try discriminate.
    destruct (delete child (z :: p')) as [child'|] eqn:S; try discriminate.
    inversion H; subst n'. cbn [lookup_path]. rewrite lookup_assign_same.
    apply (IH child child' S).
Qed.

(** [makedirs] keeps every entry that is not on the way to the new
    directory. *)
Lemma lookup_makedirs_other (p : path) : forall (n n' : node) (q : path),
  makedirs p n = Some n' -> ~ is_prefix q p ->
  lookup_path n' q = lookup_path n q.
Proof.
  induction p as [|x p IH]; intros n n' q H Hq.
  - destruct n; try discriminate. inversion H. reflexivity.
  - destruct n as [?|? ? ?|es]; try discriminate. cbn [makedirs] in H.
    destruct (makedirs p (match lookup x es with
                          | Some child => child
                          | None => Dir []
                          end)) as [child'|] eqn:S; [|discriminate].
    inversion H; subst n'. clear H.
    destruct q as [|y q]; [exfalso; apply Hq; apply is_prefix_nil|].
    cbn [lookup_path].
    destruct (list_eq_dec ascii_dec x y) as [<-|Hne].
    + rewrite lookup_assign_same.
      assert (Hq' : ~ is_prefix q p).
      { intros H. apply Hq. apply is_prefix_cons. exact H. }
      rewrite (IH _ child' q S Hq').
      destruct (lookup x es); [reflexivity|].
      destruct q as [|z q]; [exfalso; apply Hq'; apply is_prefix_nil|].
      reflexivity.
    + rewrite lookup_assign_other by auto. reflexivity.
Qed.

Lemma makedirs_is_dir (p : path) : forall (n n' : node),
  makedirs p n = Some n' -> is_dir n' p = true.
Proof.
  induction p as [|x p IH]; intros n n' H.
  - destruct n; try discriminate. inversion H. reflexivity.
  - destruct n as [?|? ? ?|es]; try discriminate. cbn [makedirs] in H.
    destruct (makedirs p (match lookup x es with
                          | Some child => child
                          | None => Dir []
                          end)) as [child'|] eqn:S; [|discriminate].
    inversion H; subst n'. unfold is_dir. cbn [lookup_path].
    rewrite lookup_assign_same. apply (IH _ child' S).
Qed.

Lemma is_prefix_parent (q p : path) :
  is_prefix q (parent p) -> is_prefix q p.
Proof.
  unfold parent. intros [r H].
  destruct (snoc_cases p) as [->|[p' [x ->]]].
  - cbn in H. exists r. exact H.
  - rewrite removelast_last in H. subst p'. exists (r ++ [x]).
    rewrite app_assoc. reflexivity.
Qed.

(** ** [shutil.copytree], [shutil.rmtree] and the write of a file *)

Lemma copytree_spec (f f' : node) (src dst : path) :
  copytree f src dst = Some f' ->
  exists es,
    lookup_path f src = Some (Dir es)
    /\ path_exists f dst = false
    /\ lookup_path f' dst = Some (Dir es)
    /\ forall q, apart dst q -> lookup_path f' q = lookup_path f q.
Proof.
  unfold copytree.
  destruct (lookup_path f src) as [[?|? ? ?|es]|] eqn:E; try discriminate.
  destruct (path_exists f dst) eqn:X; [discriminate|].
  destruct dst as [|x dst]; [discriminate|].
  destruct (makedirs (parent (x :: dst)) f) as [fm|] eqn:Mk; [|discriminate].
  intros S. exists es. split; [reflexivity|]. split; [reflexivity|]. split.
  - apply (lookup_store_same _ _ _ _ S).
  - intros q Hap. rewrite (lookup_store_other _ _ _ _ q S Hap).
    apply (lookup_makedirs_other _ _ _ q Mk).
    intros H. apply (proj2 Hap). apply is_prefix_parent. exact H.
Qed.

Lemma rmtree_spec (f f' : node) (p : path) :
  rmtree f p = Some f' ->
  lookup_path f' p = None
  /\ forall q, apart p q -> lookup_path f' q = lookup_path f q.
Proof.
  unfold rmtree. destruct (is_dir f p); [|discriminate]. intros D. split.
  - apply (lookup_delete_same _ _ _ D).
  - intros q Hap. apply (lookup_delete_other _ _ _ q D Hap).
Qed.

Lemma write_file_other (f f' : node) (p q : path) (content : text) :
  write_file f p content = Some f' -> apart p q ->
  lookup_path f' q = lookup_path f q.
Proof.
  unfold write_file. destruct (is_dir f p); [discriminate|].
  intros S Hap. apply (lookup_store_other _ _ _ _ q S Hap).
Qed.

Lemma store_archive_other (f f' : node) (archive q : path) app tree c :
  store_archive f archive app tree c = Some f' -> apart archive q ->
  lookup_path f' q = lookup_path f q.
Proof.
  unfold store_archive. destruct (is_dir f archive); [discriminate|].
  intros S Hap. apply (lookup_store_other _ _ _ _ q S Hap).
Qed.

(** ** What the steps of a deployment leave alone *)

Lemma backup_result_frame m app dir env f b f1 lg ops (q : path) :
  backup_result m app dir env f = (b, f1, lg, ops) ->
  apart (archive_path m app env) q ->
  lookup_path f1 q = lookup_path f q.
Proof.
  intros H Hap. unfold backup_result in H.
  destruct (lookup_path f (dir ++ [app])) as [tree|];
    [|inversion H; reflexivity].
  cbv zeta in H. destruct (tar_result env).
  - destruct (store_archive f _ app tree true) as [f'|] eqn:S;
      inversion H; subst; [|reflexivity].
    apply (store_archive_other _ _ _ _ _ _ _ S Hap).
  - inversion H; reflexivity.
  - destruct (store_archive f _ app tree false) as [f'|] eqn:S;
      inversion H; subst; [|reflexivity].
    apply (store_archive_other _ _ _ _ _ _ _ S Hap).
Qed.

Lemma update_result_frame src app version env f b f2 lg ops (q : path) :
  update_result src app version env f = (b, f2, lg, ops) ->
  apart (src ++ [app] ++ app_conf) q ->
  lookup_path f2 q = lookup_path f q.
Proof.
  intros H Hap. unfold update_result in H.
  destruct (negb (path_exists f _)); [inversion H; reflexivity|].
  cbv zeta in H.
  destruct (read_config f _ _) as [cfg|]; [|inversion H; reflexivity].
  destruct (updated_config cfg _ _) as [cfg'|]; [|inversion H; reflexivity].
  destruct (written cfg' _) as [[content complete]|];
    [|inversion H; reflexivity].
  destruct (write_file f _ content) as [f'|] eqn:W;
    [|inversion H; reflexivity].
  destruct complete; inversion H; subst;
    apply (write_file_other _ _ _ _ _ W Hap).
Qed.

Lemma replace_result_frame m app target env f b f3 lg ops (q : path) :
  replace_result m app target env f = (b, f3, lg, ops) ->
  apart target q ->
  lookup_path f3 q = lookup_path f q.
Proof.
  intros H Hap. unfold replace_result in H. cbv zeta in H.
  assert (Hcopy : forall f1 f2,
            copytree f1 (apps_source_dir m ++ [app]) target = Some f2 ->
            lookup_path f2 q = lookup_path f1 q).
  { intros f1 f2 C. apply copytree_spec in C as [es [_ [_ [_ Hq]]]].
    apply Hq. exact Hap. }
  destruct (path_exists f target).
  - destruct (rmtree_fails env).
    + inversion H; reflexivity.
    + destruct (rmtree f target) as [f1|] eqn:R; [|inversion H; reflexivity].
      apply rmtree_spec in R as [_ Hr].
      destruct (copytree_fails env).
      * inversion H; subst. apply Hr. exact Hap.
      * destruct (copytree f1 _ target) as [f2|] eqn:C; inversion H; subst.
        -- rewrite (Hcopy _ _ C). apply Hr. exact Hap.
        -- apply Hr. exact Hap.
  - destruct (copytree_fails env).
    + inversion H; reflexivity.
    + destruct (copytree f _ target) as [f2|] eqn:C; inversion H; subst.
      * apply (Hcopy _ _ C).
      * reflexivity.
Qed.

Lemma deploy_result_frame m app target version env f b f3 lg ops (q : path) :
  deploy_result m app target version env f = (b, f3, lg, ops) ->
  apart (archive_path m app env) q ->
  apart (apps_source_dir m ++ [app] ++ app_conf) q ->
  apart target q ->
  lookup_path f3 q = lookup_path f q.
Proof.
  intros H Ha Hd Ht. unfold deploy_result in H.
  destruct (validate_result _ app f) as [[[b1 f0] lg1] ops1].
  destruct b1; [|inversion H; reflexivity].
  destruct (backup_result m app _ env f) as [[[b2 f1] lg2] ops2] eqn:B.
  pose proof (backup_result_frame _ _ _ _ _ _ _ _ _ q B Ha) as E1.
  destruct b2; [|inversion H; subst; exact E1].
  destruct (update_result _ app version env f1) as [[[b3 f2] lg3] ops3] eqn:U.
  pose proof (update_result_frame _ _ _ _ _ _ _ _ _ q U Hd) as E2.
  destruct b3; [|inversion H; subst; congruence].
  destruct (replace_result m app target env f2) as [[[b4 f4] lg4] ops4] eqn:R.
  pose proof (replace_result_frame _ _ _ _ _ _ _ _ _ q R Ht) as E3.
  inversion H; subst. congruence.
Qed.

(** ** A deployment that succeeds *)

Lemma replace_result_true m app target env f f3 lg ops :
  replace_result m app target env f = (true, f3, lg, ops) ->
  exists f1,
    ((path_exists f target = false /\ f1 = f)
     \/ (path_exists f target = true /\ rmtree f target = Some f1))
    /\ copytree f1 (apps_source_dir m ++ [app]) target = Some f3.
Proof.
  unfold replace_result. cbv zeta. destruct (path_exists f target).
  - destruct (rmtree_fails env); [discriminate|].
    destruct (rmtree f target) as [f1|] eqn:R; [|discriminate].
    destruct (copytree_fails env); [discriminate|].
    destruct (copytree f1 _ target) as [f2|] eqn:C; [|discriminate].
    intros H. inversion H; subst. exists f1. auto.
  - destruct (copytree_fails env); [discriminate|].
    destruct (copytree f _ target) as [f2|] eqn:C; [|discriminate].
    intros H. inversion H; subst. exists f. auto.
Qed.

Lemma deploy_result_true m app target version env f f3 lg ops :
  deploy_result m app target version env f = (true, f3, lg, ops) ->
  exists lg1 f1 lg2 ops2 f2 lg3 ops3 lg4 ops4,
    validate_result (apps_source_dir m) app f = (true, f, lg1, [])
    /\ backup_result m app (parent target) env f = (true, f1, lg2, ops2)
    /\ update_result (apps_source_dir m) app version env f1
       = (true, f2, lg3, ops3)
    /\ replace_result m app target env f2 = (true, f3, lg4, ops4).
Proof.
  unfold deploy_result.
  destruct (validate_result_fs (apps_source_dir m) app f) as [Hf Ho].
  destruct (validate_result _ app f) as [[[b1 f0] lg1] ops1] eqn:V.
  cbn [fst snd] in Hf, Ho. subst f0 ops1.
  destruct b1; [|discriminate].
  destruct (backup_result m app _ env f) as [[[b2 f1] lg2] ops2] eqn:B.
  destruct b2; [|discriminate].
  destruct (update_result _ app version env f1) as [[[b3 f2] lg3] ops3] eqn:U.
  destruct b3; [|discriminate].
  destruct (replace_result m app target env f2) as [[[b4 f4] lg4] ops4] eqn:R.
  intros H. inversion H; subst.
  exists lg1, f1, lg2, ops2, f2, lg3, ops3, lg4, ops4.
  split; [reflexivity|]. split; [reflexivity|]. split; [exact U|exact R].
Qed.

(** After the copy the target holds the tree of the source, which is the
    one the version update left. *)
Lemma replace_result_copy m app target env f f3 lg ops :
  replace_result m app target env f = (true, f3, lg, ops) ->
  apart (apps_source_dir m ++ [app]) target ->
  exists es,
    lookup_path f (apps_source_dir m ++ [app]) = Some (Dir es)
    /\ lookup_path f3 (apps_source_dir m ++ [app]) = Some (Dir es)
    /\ lookup_path f3 target = Some (Dir es).
Proof.
  intros H Hap. apply replace_result_true in H as [f1 [Hrm C]].
  apply copytree_spec in C as [es [Hsrc [_ [Hdst Hq]]]].
  exists es. split; [|split; [|exact Hdst]].
  - destruct Hrm as [[_ ->]|[_ R]]; [exact Hsrc|].
    apply rmtree_spec in R as [_ Hr]. rewrite <- Hsrc. symmetry.
    apply Hr. apply apart_sym. exact Hap.
  - rewrite <- Hsrc. apply Hq. apply apart_sym. exact Hap.
Qed.

Lemma read_config_ext (f f' : node) (p p' : path) (u : bool) :
  lookup_path f p = lookup_path f' p' -> read_config f p u = read_config f' p' u.
Proof. intros H. unfold read_config. rewrite H. reflexivity. Qed.

Lemma get_current_version_ext (f f' : node) (src src' : path) (app app' : text)
    (u r : bool) :
  lookup_path f (src ++ [app] ++ app_conf)
  = lookup_path f' (src' ++ [app'] ++ app_conf) ->
  get_current_version f src app u r = get_current_version f' src' app' u r.
Proof.
  intros H. destruct r; [reflexivity|].
  rewrite !get_current_version_cases. unfold path_exists.
  rewrite H, (read_config_ext _ _ _ _ u H). reflexivity.
Qed.

Lemma update_result_version src app version env f f2 lg ops :
  Triple version ->
  update_result src app version env f = (true, f2, lg, ops) ->
  get_current_version f2 src app false false = Some version.
Proof.
  intros Hv R.
  apply update_read_back in R as [cfg' [H1 [H2 H3]]]; [|exact Hv].
  rewrite get_current_version_cases, H2, H1. cbn [negb]. f_equal.
  apply first_version_normalise; assumption.
Qed.

Lemma apart_heads (x y : text) (p q : path) : x <> y -> apart (x :: p) (y :: q).
Proof.
  intros Hne. split; intros [r H]; cbn [app] in H; inversion H; congruence.
Qed.

Lemma apart_common (a p q : path) : apart p q -> apart (a ++ p) (a ++ q).
Proof.
  intros [H1 H2]. split; intros [r H]; rewrite <- app_assoc in H;
    apply app_inv_head in H; [apply H1|apply H2]; exists r; exact H.
Qed.

Lemma apart_required : apart app_conf default_meta.
Proof. apply apart_heads. discriminate. Qed.

(** After a deployment that succeeded the required files of the source
    are in the target. *)
Lemma deploy_result_required m app target version env f f3 lg ops :
  deploy_result m app target version env f = (true, f3, lg, ops) ->
  apart (apps_source_dir m ++ [app]) target ->
  apart (backup_dir m) (apps_source_dir m ++ [app]) ->
  path_exists f3 target = true
  /\ forall r, In r required_files -> path_exists f3 (target ++ r) = true.
Proof.
  intros H Hst Hbs.
  apply deploy_result_true in H
    as [lg1 [f1 [lg2 [ops2 [f2 [lg3 [ops3 [lg4 [ops4 [V [B [U R]]]]]]]]]]]].
  destruct (replace_result_copy _ _ _ _ _ _ _ _ R Hst) as [es [S2 [_ T3]]].
  split; [apply path_exists_lookup; eauto|].
  intros r Hr. unfold path_exists.
  assert (Hcopy : lookup_path f3 (target ++ r)
                  = lookup_path f2 ((apps_source_dir m ++ [app]) ++ r))
    by (rewrite (lookup_path_app target r),
          (lookup_path_app (apps_source_dir m ++ [app]) r), T3, S2;
        reflexivity).
  rewrite Hcopy.
  assert (Hf : path_exists f ((apps_source_dir m ++ [app]) ++ r) = true).
  { rewrite <- app_assoc. apply (validate_result_true _ _ _ _ _ _ V).
    apply in_or_app. right. exact Hr. }
  assert (H1 : lookup_path f1 ((apps_source_dir m ++ [app]) ++ r)
               = lookup_path f ((apps_source_dir m ++ [app]) ++ r)).
  { apply (backup_result_frame _ _ _ _ _ _ _ _ _ _ B).
    unfold archive_path. apply apart_below_both. exact Hbs. }
  destruct Hr as [<-|[<-|[]]].
  - rewrite <- app_assoc.
    apply update_result_true in U as [cfg [cfg' [_ [_ [W _]]]]].
    rewrite (write_file_read _ _ _ _ W). reflexivity.
  - assert (H2 : lookup_path f2 ((apps_source_dir m ++ [app]) ++ default_meta)
                 = lookup_path f1 ((apps_source_dir m ++ [app]) ++ default_meta)).
    { apply (update_result_frame _ _ _ _ _ _ _ _ _ _ U).
      rewrite app_assoc. apply apart_common. apply apart_required. }
    rewrite H2, H1. exact Hf.
Qed.

(** * The session: selection, prompts, restart *)

(** ** Numbers: [int] reads what [str] writes *)

Lemma decimal_digits_after (u : Decimal.uint) : forall acc,
  decimal_digits acc true (list_ascii_of_string (NilEmpty.string_of_uint u))
  = Some (Nat.of_uint_acc u acc).
Proof.
  induction u; intros acc;
    cbn [NilEmpty.string_of_uint list_ascii_of_string decimal_digits
         Nat.of_uint_acc]; try reflexivity;
    match goal with
    | |- context [is_digit ?c] => change (is_digit c) with true
    end; cbv iota; rewrite IHu; f_equal; f_equal;
    rewrite Nat.tail_mul_spec; vm_compute digit_value; lia.
Qed.

Lemma decimal_digits_first (u : Decimal.uint) (acc : nat) :
  u <> Decimal.Nil ->
  decimal_digits acc false (list_ascii_of_string (NilEmpty.string_of_uint u))
  = Some (Nat.of_uint_acc u acc).
Proof.
  intros Hne. destruct u; [contradiction| | | | | | | | | |];
    cbn [NilEmpty.string_of_uint list_ascii_of_string decimal_digits
         Nat.of_uint_acc];
    match goal with
    | |- context [is_digit ?c] => change (is_digit c) with true
    end; cbv iota; rewrite decimal_digits_after; f_equal; f_equal;
    rewrite Nat.tail_mul_spec; vm_compute digit_value; lia.
Qed.

Lemma decimal_digits_decimal (n : nat) :
  decimal_digits 0 false (decimal n) = Some n.
Proof.
  unfold decimal, NilZero.string_of_uint.
  pose proof (DecimalNat.Unsigned.of_to n) as Hn. unfold Nat.of_uint in Hn.
  destruct (Nat.to_uint n) as [| | | | | | | | | |] eqn:E;
    try (rewrite decimal_digits_first by discriminate; rewrite Hn;
         reflexivity).
  cbn in Hn. subst n. reflexivity.
Qed.

Lemma decimal_nonempty (n : nat) : decimal n <> [].
Proof.
  intros H. pose proof (decimal_digits_decimal n) as D. rewrite H in D.
  discriminate.
Qed.

Lemma digit_not_sign c :
  is_digit c = true -> is_chr "-" c = false /\ is_chr "+" c = false.
Proof. chr_cases c. Qed.

(** [int(str(n))] is [n]. *)
Lemma py_int_decimal (n : nat) : py_int (decimal n) = Some (false, n).
Proof.
  pose proof (decimal_digits_decimal n) as D.
  pose proof (decimal_all_digits n) as A.
  unfold py_int. destruct (decimal n) as [|c r] eqn:E; [discriminate|].
  cbn [forallb] in A. apply andb_true_iff in A as [Hc _].
  destruct (digit_not_sign c Hc) as [-> ->]. rewrite D. reflexivity.
Qed.

(** ** The numbers typed at the menu *)

Lemma select_numbers_run (available : list text) (nums : list text) :
  forall (selected : list text) (w : world),
  exists lg,
    select_numbers available nums selected w
    = (Done (selected ++ picks available nums),
       mkWorld (fs w) (stdin w) (log w ++ lg) (trace w)).
Proof.
  induction nums as [|num nums IH]; intros selected w.
  - exists []. cbn [select_numbers picks flat_map]. rewrite !app_nil_r.
    destruct w. reflexivity.
  - assert (Hskip : forall entry,
              exists lg,
                select_numbers available nums selected
                  (evolve w (fs w) [entry] [])
                = (Done (selected ++ picks available nums),
                   mkWorld (fs w) (stdin w) (log w ++ lg) (trace w))).
    { intros entry. destruct (IH selected (evolve w (fs w) [entry] []))
        as [lg Hlg].
      exists (entry :: lg). rewrite Hlg. unfold evolve.
      cbn [fs stdin log trace]. rewrite <- app_assoc, app_nil_r.
      reflexivity. }
    cbn [select_numbers picks flat_map]. fold (picks available nums).
    unfold pick.
    destruct (py_int num) as [[negative n]|].
    + destruct negative; cbn [negb andb].
      * rewrite bind_eq, logm_run. cbv beta iota. apply Hskip.
      * destruct ((1 <=? n)%nat && (n <=? length available)%nat).
        -- rewrite bind_eq, logm_run. cbv beta iota zeta.
           destruct (IH (selected ++ [nth (n - 1) available []])
                       (evolve w (fs w)
                          [(INFO, txt "Selected app: "
                                  ++ nth (n - 1) available [])] []))
             as [lg Hlg].
           eexists. etransitivity; [exact Hlg|]. unfold evolve.
           cbn [fs stdin log trace app].
           rewrite <- !app_assoc, app_nil_r. reflexivity.
        -- rewrite bind_eq, logm_run. cbv beta iota. apply Hskip.
    + rewrite bind_eq, logm_run. cbv beta iota. apply Hskip.
Qed.

Lemma picks_available (available nums : list text) a :
  In a (picks available nums) -> In a available.
Proof.
  unfold picks. intros H. apply in_flat_map in H as [num [_ H]].
  unfold pick in H. destruct (py_int num) as [[[|] n]|]; try destruct H.
  destruct ((1 <=? n)%nat && (n <=? length available)%nat) eqn:E;
    [|destruct H].
  destruct H as [<-|[]]. apply andb_true_iff in E as [E1 E2].
  apply Nat.leb_le in E1, E2. apply nth_In. lia.
Qed.

Ltac close_run :=
  unfold evolve, sys_exit; cbn [fs stdin log trace];
  rewrite ?app_nil_r, <- ?app_assoc; eexists; reflexivity.

(** ** The versions shown *)

(** Showing the versions changes nothing; it ends the session when a
    probe is refused. *)
Lemma show_versions_run (m : manager) (apps : list text) (w : world) :
  show_versions m apps w
  = (if existsb (fun a => stat_refused (manager_access m)
                            (apps_source_dir m ++ [a] ++ app_conf)) apps
     then Raised else Done tt, w).
Proof.
  induction apps as [|a apps IH]; [reflexivity|].
  cbn [show_versions existsb]. rewrite bind_eq, get_fs_run. cbv beta iota.
  destruct (stat_refused (manager_access m)
              (apps_source_dir m ++ [a] ++ app_conf)); [reflexivity|].
  cbn [orb].
  destruct (get_current_version_answers (fs w) (apps_source_dir m) a false)
    as [v ->].
  exact IH.
Qed.

Lemma show_versions_answered (m : manager) (apps : list text) (w : world) :
  (forall a, In a apps ->
     stat_refused (manager_access m) (apps_source_dir m ++ [a] ++ app_conf)
     = false) ->
  show_versions m apps w = (Done tt, w).
Proof.
  intros H. rewrite show_versions_run.
  destruct (existsb _ apps) eqn:E; [|reflexivity].
  apply existsb_exists in E as [a [Ha E]]. rewrite (H a Ha) in E.
  discriminate.
Qed.

(** The apps of a listing that returned can be shown. *)
Lemma show_versions_listed (m : manager) (names apps : list text) (f : node)
    (w : world) :
  list_available_apps f (apps_source_dir m) (manager_access m) = Some names ->
  (forall a, In a apps -> In a names) ->
  show_versions m apps w = (Done tt, w).
Proof.
  intros H Hin. apply show_versions_answered. intros a Ha.
  eapply listed_not_refused; eauto.
Qed.

(** What [select_apps_interactive] does with the line typed. *)
Lemma select_apps_interactive_typed (m : manager) f raw rest lg tr names :
  list_available_apps f (apps_source_dir m) (manager_access m) = Some names ->
  no_text names = false ->
  exists lg',
    select_apps_interactive m (mkWorld f (Typed raw :: rest) lg tr)
    = (if is_empty (strip raw) then Exit 1
       else
         let sel := if text_eqb (lower (strip raw)) (txt "all") then names
                    else picks names (words (strip raw)) in
         if no_text sel then Exit 1 else Done sel,
       mkWorld f rest (lg ++ lg') tr).
Proof.
  intros Ha Hne. unfold select_apps_interactive.
  rewrite bind_eq, get_fs_run. cbv beta iota. cbn [fs]. rewrite Ha.
  unfold no_text in Hne. destruct names as [|a names]; [discriminate|].
  cbv iota.
  rewrite bind_eq, (show_versions_listed m _ _ f _ Ha (fun a H => H)).
  cbv beta iota.
  rewrite bind_eq, input_run. cbv beta iota zeta.
  destruct (is_empty (strip raw)).
  - rewrite bind_eq, logm_run. cbv beta iota. close_run.
  - rewrite bind_eq, logm_run. cbv beta iota. rewrite bind_eq.
    destruct (text_eqb (lower (strip raw)) (txt "all")).
    + rewrite bind_eq, logm_run. cbv beta iota. rewrite ret_run.
      cbv beta iota. cbn [no_text]. rewrite ret_run. close_run.
    + match goal with
      | |- context [select_numbers ?av ?ns ?sel ?w0] =>
          destruct (select_numbers_run av ns sel w0) as [lg1 H1]
      end.
      rewrite H1. cbv beta iota. cbn [app].
      destruct (picks (a :: names) (words (strip raw))) as [|s sel].
      * cbn [no_text]. rewrite bind_eq, logm_run. cbv beta iota. close_run.
      * cbn [no_text]. rewrite ret_run. close_run.
Qed.

Lemma lower_chr_a c :
  lower_chr c = "a" -> is_space c = false /\ is_digit c = false.
Proof. chr_cases c. Qed.

Lemma lower_chr_l c : lower_chr c = "l" -> is_space c = false.
Proof. chr_cases c. Qed.

(** A line that reads [all] in some mix of cases is one word and not a
    number. *)
Lemma lower_all (s : text) :
  lower s = txt "all" ->
  words s = [s] /\ exists c r, s = c :: r /\ is_digit c = false.
Proof.
  destruct s as [|c1 [|c2 [|c3 [|c4 s]]]]; try discriminate.
  intros H. cbn in H.
  assert (H1 : lower_chr c1 = "a") by congruence.
  assert (H2 : lower_chr c2 = "l") by congruence.
  assert (H3 : lower_chr c3 = "l") by congruence.
  destruct (lower_chr_a c1 H1) as [S1 D1].
  pose proof (lower_chr_l c2 H2) as S2. pose proof (lower_chr_l c3 H3) as S3.
  split.
  - unfold words. cbn [words_from]. rewrite S1, S2, S3. reflexivity.
  - exists c1, [c2; c3]. auto.
Qed.

Lemma words_nil : words [] = [].
Proof. reflexivity. Qed.

Lemma pick_decimal (available : list text) (n : nat) :
  1 <= n <= length available ->
  pick available (decimal n) = [nth (n - 1) available []].
Proof.
  intros [H1 H2]. unfold pick. rewrite py_int_decimal.
  rewrite (proj2 (Nat.leb_le 1 n)) by exact H1.
  rewrite (proj2 (Nat.leb_le n (length available))) by exact H2.
  reflexivity.
Qed.

Lemma picks_decimal (available : list text) (ns : list nat) :
  Forall (fun n => 1 <= n <= length available) ns ->
  picks available (map decimal ns)
  = map (fun n => nth (n - 1) available []) ns.
Proof.
  induction 1 as [|n ns Hn _ IH]; [reflexivity|].
  unfold picks in *. cbn [map flat_map]. rewrite pick_decimal by exact Hn.
  rewrite IH. reflexivity.
Qed.

(** A line made of numbers is not the word [all]. *)
Lemma numbers_not_all (s : text) (ns : list nat) :
  words s = map decimal ns -> text_eqb (lower s) (txt "all") = false.
Proof.
  intros Hw. apply text_eqb_neq. intros Hall.
  destruct (lower_all s Hall) as [Hs [c [r [E Hd]]]].
  rewrite Hs in Hw. destruct ns as [|n [|n' ns]]; try discriminate.
  cbn [map] in Hw. inversion Hw as [Hn].
  pose proof (decimal_all_digits n) as A. rewrite <- Hn, E in A.
  cbn [forallb] in A. rewrite Hd in A. discriminate.
Qed.

(** ** Restarting Splunk *)

(** ** The restart prompt *)

Lemma restart_prompt_loop_eq (turns : nat) (h : host) (splunk_home : path) :
  restart_prompt_loop turns h splunk_home =
  (raw <- input ;;
   let choice := lower (strip raw) in
   if is_yes choice then
     logm INFO (txt "Starting Splunk restart...") ;;;
     restart_splunk h splunk_home ;;;
     ret tt
   else if is_no choice then
     logm WARNING (txt "Splunk restart skipped.") ;;;
     logm INFO
       (wrench
        ++ txt " Remember to restart Splunk manually to load the new apps:") ;;;
     (match host_os h with
      | Windows =>
          logm INFO (txt "   " ++ double_quote
                     ++ render_windows_path splunk_home ++ backslash
                     ++ txt "bin" ++ backslash
                     ++ splunk_executable (host_os h) ++ double_quote
                     ++ txt " restart")
      | _ =>
          logm INFO (txt "   " ++ render_path splunk_home ++ txt "/bin/"
                     ++ splunk_executable (host_os h) ++ txt " restart")
      end) ;;;
     ret tt
   else
     match turns with
     | O => input ;;; ret tt
     | S turns' => restart_prompt_loop turns' h splunk_home
     end).
Proof. destruct turns; reflexivity. Qed.

Lemma undecided_spec (line : text) :
  undecided line = true ->
  is_yes (lower (strip line)) = false /\ is_no (lower (strip line)) = false.
Proof.
  unfold undecided. intros H. apply andb_true_iff in H as [H1 H2].
  apply negb_true_iff in H1, H2. auto.
Qed.

Lemma restart_prompt_loop_undecided turns h home f line rest lg tr :
  undecided line = true ->
  restart_prompt_loop (S turns) h home (mkWorld f (Typed line :: rest) lg tr)
  = restart_prompt_loop turns h home (mkWorld f rest lg tr).
Proof.
  intros H. destruct (undecided_spec line H) as [Hy Hn].
  rewrite (restart_prompt_loop_eq (S turns)).
  rewrite bind_eq, input_run. cbv beta iota zeta. rewrite Hy, Hn.
  reflexivity.
Qed.

(** The loop does not depend on the bound once the bound covers the lines
    there are. *)
Lemma restart_prompt_loop_enough h home f lg tr (keys : list keyboard) :
  forall turns,
    length keys <= turns ->
    restart_prompt_loop turns h home (mkWorld f keys lg tr)
    = restart_prompt_loop (length keys) h home (mkWorld f keys lg tr).
Proof.
  induction keys as [|k keys IH]; intros turns Hle.
  - rewrite !restart_prompt_loop_eq. reflexivity.
  - destruct turns as [|turns]; [cbn in Hle; lia|]. cbn [length] in *.
    destruct k as [line|].
    + rewrite (restart_prompt_loop_eq (S turns)),
        (restart_prompt_loop_eq (S (length keys))).
      rewrite !bind_eq, input_run. cbv beta iota zeta.
      destruct (is_yes (lower (strip line))); [reflexivity|].
      destruct (is_no (lower (strip line))); [reflexivity|].
      apply IH. lia.
    + rewrite !restart_prompt_loop_eq. reflexivity.
Qed.

Lemma interactive_restart_prompt_skip h home f lg tr (junk : list text) :
  forall keys,
    forallb undecided junk = true ->
    interactive_restart_prompt h home (mkWorld f (map Typed junk ++ keys) lg tr)
    = interactive_restart_prompt h home (mkWorld f keys lg tr).
Proof.
  unfold interactive_restart_prompt. cbn [stdin].
  induction junk as [|line junk IH]; intros keys H; [reflexivity|].
  cbn [forallb] in H. apply andb_true_iff in H as [Hl Hj].
  cbn [map app length]. rewrite restart_prompt_loop_undecided by exact Hl.
  apply IH. exact Hj.
Qed.

Lemma no_is_not_yes (choice : text) : is_no choice = true -> is_yes choice = false.
Proof.
  unfold is_no. intros H. apply orb_true_iff in H as [H|H];
    apply text_eqb_eq in H; subst; reflexivity.
Qed.

(** ** Invariants of the session *)

Section Keeps.
Variable R : world -> world -> Prop.
Hypothesis R_refl : forall w, R w w.
Hypothesis R_trans : forall a b c, R a b -> R b c -> R a c.
Hypothesis R_log :
  forall w l, R w (mkWorld (fs w) (stdin w) (log w ++ l) (trace w)).
Hypothesis R_fs :
  forall w f, R w (mkWorld f (stdin w) (log w) (trace w)).
Hypothesis R_input :
  forall w k rest,
    stdin w = k :: rest -> R w (mkWorld (fs w) rest (log w) (trace w)).

Lemma keeps_ret {A} (a : A) : keeps R (ret a).
Proof.
  intros w o w' H. inversion H; subst. split; [apply R_refl|discriminate].
Qed.

Lemma keeps_raise {A} : keeps R (fun w => (@Raised A, w)).
Proof.
  intros w o w' H. inversion H; subst. split; [apply R_refl|discriminate].
Qed.

Lemma keeps_exit {A} : keeps R (@sys_exit A 1).
Proof.
  intros w o w' H. inversion H; subst. split; [apply R_refl|].
  intros c E. inversion E. reflexivity.
Qed.

Lemma keeps_logm l msg : keeps R (logm l msg).
Proof.
  intros w o w' H. inversion H; subst. split; [apply R_log|discriminate].
Qed.

Lemma keeps_get_fs : keeps R get_fs.
Proof.
  intros w o w' H. inversion H; subst. split; [apply R_refl|discriminate].
Qed.

Lemma keeps_put_fs f : keeps R (put_fs f).
Proof.
  intros w o w' H. inversion H; subst. split; [apply R_fs|discriminate].
Qed.

Lemma keeps_input : keeps R input.
Proof.
  intros w o w' H. unfold input in H.
  destruct (stdin w) as [|[line|] rest] eqn:E; inversion H; subst;
    (split; [|discriminate]).
  - apply R_refl.
  - apply (R_input w _ rest E).
  - apply (R_input w _ rest E).
Qed.

Lemma keeps_bind {A B} (m : M A) (k : A -> M B) :
  keeps R m -> (forall a, keeps R (k a)) -> keeps R (bind m k).
Proof.
  intros Hm Hk w o w' H. rewrite bind_eq in H.
  destruct (m w) as [[a|c|] w1] eqn:E.
  - destruct (Hm w _ _ E) as [H1 _]. destruct (Hk a w1 o w' H) as [H2 H3].
    split; [eapply R_trans; eauto|exact H3].
  - inversion H; subst. destruct (Hm w _ _ E) as [H1 H2].
    split; [exact H1|]. intros c0 E0. inversion E0; subst.
    apply (H2 c0 eq_refl).
  - inversion H; subst. destruct (Hm w _ _ E) as [H1 _].
    split; [exact H1|discriminate].
Qed.

Ltac keeps_step :=
  first [ apply keeps_ret | apply keeps_raise | apply keeps_exit
        | apply keeps_logm | apply keeps_get_fs | apply keeps_put_fs
        | apply keeps_input
        | apply keeps_bind; [|intros ?]
        | match goal with
          | |- keeps _ (if ?b then _ else _) => destruct b
          | |- keeps _ (match ?x with _ => _ end) => destruct x
          end ].

Lemma keeps_validate_environment h : keeps R (validate_environment h).
Proof. unfold validate_environment. repeat keeps_step. Qed.

Lemma keeps_prompt_for_splunk_home h : keeps R (prompt_for_splunk_home h).
Proof. unfold prompt_for_splunk_home. cbv zeta. repeat keeps_step. Qed.

Lemma keeps_select_numbers available nums :
  forall selected, keeps R (select_numbers available nums selected).
Proof.
  induction nums as [|num nums IH]; intros selected;
    cbn [select_numbers]; [apply keeps_ret|].
  destruct (py_int num) as [[negative n]|].
  - destruct (negb negative && (1 <=? n)%nat
              && (n <=? length available)%nat); cbv zeta;
      (apply keeps_bind; [apply keeps_logm|intros _; apply IH]).
  - apply keeps_bind; [apply keeps_logm|intros _; apply IH].
Qed.

Lemma keeps_show_versions m apps : keeps R (show_versions m apps).
Proof.
  intros w o w' H. rewrite show_versions_run in H.
  destruct (existsb _ apps); inversion H; subst;
    (split; [apply R_refl|discriminate]).
Qed.

Lemma keeps_select_apps_interactive m : keeps R (select_apps_interactive m).
Proof.
  unfold select_apps_interactive.
  apply keeps_bind; [apply keeps_get_fs|intros f].
  destruct (list_available_apps f (apps_source_dir m) (manager_access m))
    as [names|]; [|apply keeps_raise].
  destruct names as [|a names]; cbv iota; [repeat keeps_step|].
  apply keeps_bind; [apply keeps_show_versions|intros _].
  apply keeps_bind; [apply keeps_input|intros raw]. cbv zeta.
  destruct (is_empty (strip raw)); [repeat keeps_step|].
  apply keeps_bind; [apply keeps_logm|intros _].
  apply keeps_bind.
  - destruct (text_eqb (lower (strip raw)) (txt "all"));
      [repeat keeps_step|apply keeps_select_numbers].
  - intros sel. destruct sel; repeat keeps_step.
Qed.

Lemma keeps_restart_splunk h home : keeps R (restart_splunk h home).
Proof.
  unfold restart_splunk. apply keeps_bind; [apply keeps_get_fs|intros f].
  destruct (stat_refused (host_access h) home); [apply keeps_raise|].
  destruct (negb (path_exists f home)); [repeat keeps_step|].
  apply keeps_bind; [apply keeps_logm|intros _]. cbv zeta.
  destruct (find_splunk_bin h f home) as [[bin|]|]; [|repeat keeps_step..].
  apply keeps_bind; [apply keeps_logm|intros _].
  apply keeps_bind; [apply keeps_put_fs|intros _].
  destruct (restart_result h) as [[|code]| |]; repeat keeps_step.
Qed.

Lemma keeps_restart_prompt_loop h home :
  forall turns, keeps R (restart_prompt_loop turns h home).
Proof.
  induction turns as [|turns IH]; rewrite restart_prompt_loop_eq;
    (apply keeps_bind; [apply keeps_input|intros raw]); cbv zeta;
    (destruct (is_yes (lower (strip raw)));
     [apply keeps_bind; [apply keeps_logm|intros _];
      apply keeps_bind; [apply keeps_restart_splunk|intros _];
      apply keeps_ret|]);
    (destruct (is_no (lower (strip raw))); [repeat keeps_step|]).
  - repeat keeps_step.
  - exact IH.
Qed.

Lemma keeps_interactive_restart_prompt h home :
  keeps R (interactive_restart_prompt h home).
Proof.
  intros w o w' H. unfold interactive_restart_prompt in H.
  apply (keeps_restart_prompt_loop h home _ w o w' H).
Qed.

Lemma keeps_handle_git_operations h apps :
  keeps R (handle_git_operations h apps).
Proof. unfold handle_git_operations. cbv zeta. repeat keeps_step. Qed.

Lemma keeps_prompt_for_version app current :
  keeps R (prompt_for_version app current).
Proof. unfold prompt_for_version. cbv zeta. repeat keeps_step. Qed.

Lemma keeps_init_manager h args : keeps R (init_manager h args).
Proof.
  unfold init_manager. cbv zeta.
  apply keeps_bind; [apply keeps_get_fs|intros f].
  destruct (mkdir_parents _ [] _ f) as [f1 ok1].
  apply keeps_bind; [apply keeps_put_fs|intros _].
  destruct ok1; cbn [negb]; [|apply keeps_raise].
  destruct (mkdir_parents _ [] _ f1) as [f2 ok2].
  apply keeps_bind; [apply keeps_put_fs|intros _].
  destruct ok2; cbn [negb]; [|apply keeps_raise].
  repeat keeps_step.
Qed.

(** The steps of a deployment, which may start operations. *)
Hypothesis R_evolve : forall w f lg ops, R w (evolve w f lg ops).

Lemma keeps_effect (e : effect) : keeps R (apply_effect e).
Proof.
  intros w o w' H. destruct e as [[[b f] lg] ops]. inversion H; subst.
  split; [apply R_evolve|discriminate].
Qed.

Lemma keeps_deploy_app m app target version env :
  keeps R (deploy_app m app target version env).
Proof.
  intros w o w' H. rewrite deploy_app_run in H.
  apply (keeps_effect _ w o w' H).
Qed.

Lemma keeps_validate_deployment app target :
  keeps R (validate_deployment app target).
Proof.
  intros w o w' H. rewrite validate_deployment_run in H.
  apply (keeps_effect _ w o w' H).
Qed.

Lemma keeps_deploy_selected m dir envs (selected : list text) :
  forall i deployed, keeps R (deploy_selected m dir envs i selected deployed).
Proof.
  induction selected as [|app selected IH]; intros i deployed;
    cbn [deploy_selected]; [apply keeps_ret|]. cbv zeta.
  apply keeps_bind; [apply keeps_get_fs|intros f].
  destruct (get_current_version f _ app _ _) as [current|];
    [|apply keeps_raise].
  apply keeps_bind; [apply keeps_prompt_for_version|intros version].
  apply keeps_bind; [apply keeps_deploy_app|intros ok].
  apply keeps_bind; [|intros d; apply IH].
  destruct ok; [|repeat keeps_step].
  apply keeps_bind; [apply keeps_validate_deployment|intros v].
  destruct v; repeat keeps_step.
Qed.

Lemma keeps_run h m args envs : keeps R (run h m args envs).
Proof.
  unfold run.
  apply keeps_bind; [apply keeps_logm|intros _].
  apply keeps_bind; [apply keeps_logm|intros _].
  apply keeps_bind; [apply keeps_logm|intros _].
  apply keeps_bind; [apply keeps_validate_environment|intros valid].
  destruct (negb valid); [repeat keeps_step|].
  apply keeps_bind.
  { destruct (arg_splunk_home args);
      [apply keeps_ret|apply keeps_prompt_for_splunk_home]. }
  intros home. cbv zeta.
  apply keeps_bind; [apply keeps_logm|intros _].
  apply keeps_bind; [apply keeps_logm|intros _].
  apply keeps_bind; [apply keeps_get_fs|intros f0].
  destruct (mkdir_parents _ [] _ f0) as [f1 made].
  apply keeps_bind; [apply keeps_put_fs|intros _].
  destruct made; cbn [negb]; [|apply keeps_raise].
  apply keeps_bind; [apply keeps_select_apps_interactive|intros selected].
  apply keeps_bind; [apply keeps_show_versions|intros _].
  apply keeps_bind; [apply keeps_input|intros raw].
  destruct (negb (is_yes (lower (strip raw)))); [repeat keeps_step|].
  apply keeps_bind; [apply keeps_deploy_selected|intros deployed].
  apply keeps_bind.
  { destruct (arg_restart args).
    - apply keeps_bind; [apply keeps_restart_splunk|intros _].
      apply keeps_ret.
    - apply keeps_interactive_restart_prompt. }
  intros _. apply keeps_bind.
  { destruct deployed; [apply keeps_ret|].
    apply keeps_bind; [apply keeps_handle_git_operations|intros _].
    apply keeps_ret. }
  intros _. unfold show_deployment_summary. apply keeps_logm.
Qed.
End Keeps.

(** ** The instances *)

Lemma calm_refl w : calm w w.
Proof. split; [reflexivity|]. exists []. reflexivity. Qed.

Lemma calm_trans a b c : calm a b -> calm b c -> calm a c.
Proof.
  intros [T1 [r1 S1]] [T2 [r2 S2]]. split; [congruence|].
  exists (r1 ++ r2). rewrite S1, S2, app_assoc. reflexivity.
Qed.

Lemma calm_log w l :
  calm w (mkWorld (fs w) (stdin w) (log w ++ l) (trace w)).
Proof. split; [reflexivity|]. exists []. reflexivity. Qed.

Lemma calm_fs w f : calm w (mkWorld f (stdin w) (log w) (trace w)).
Proof. split; [reflexivity|]. exists []. reflexivity. Qed.

Lemma calm_input w k rest :
  stdin w = k :: rest -> calm w (mkWorld (fs w) rest (log w) (trace w)).
Proof. intros H. split; [reflexivity|]. exists [k]. rewrite H. reflexivity. Qed.

Lemma no_yes_suffix (read keys : list keyboard) :
  no_yes (read ++ keys) = true -> no_yes keys = true.
Proof.
  unfold no_yes. rewrite forallb_app. intros H.
  apply andb_true_iff in H as [_ H]. exact H.
Qed.

Section Guarded.
Variable Pre : world -> Prop.
Variable Post : world -> bool -> world -> Prop.
Hypothesis Pre_calm : forall w w1, calm w w1 -> Pre w -> Pre w1.
Hypothesis Post_calm :
  forall w w1 b w', calm w w1 -> Post w1 b w' -> Post w b w'.
Hypothesis Post_stop : forall w w', calm w w' -> Post w false w'.

Lemma guarded_bind {A B} (m : M A) (k : A -> M B) :
  keeps calm m -> (forall a, guarded Pre Post (k a)) ->
  guarded Pre Post (bind m k).
Proof.
  intros Hm Hk w o w' H Hpre. rewrite bind_eq in H.
  destruct (m w) as [[a|c|] w1] eqn:E; destruct (Hm w _ _ E) as [Hc _].
  - apply (Post_calm w w1 _ w' Hc).
    apply (Hk a w1 o w' H). apply (Pre_calm w w1 Hc Hpre).
  - inversion H; subst. apply Post_stop. exact Hc.
  - inversion H; subst. apply Post_stop. exact Hc.
Qed.

(** A step that does not return under [Pre] ends the computation. *)
Lemma guarded_bind_stop {A B} (m : M A) (k : A -> M B) :
  keeps calm m ->
  (forall w o w', m w = (o, w') -> Pre w -> is_done o = false) ->
  guarded Pre Post (bind m k).
Proof.
  intros Hm Hs w o w' H Hpre. rewrite bind_eq in H.
  destruct (m w) as [[a|c|] w1] eqn:E; destruct (Hm w _ _ E) as [Hc _].
  - specialize (Hs w _ _ E Hpre). discriminate.
  - inversion H; subst. apply Post_stop. exact Hc.
  - inversion H; subst. apply Post_stop. exact Hc.
Qed.

Lemma guarded_calm {A} (m : M A) :
  keeps calm m ->
  (forall w o w', m w = (o, w') -> Pre w -> is_done o = false) ->
  guarded Pre Post m.
Proof.
  intros Hm Hs w o w' H Hpre. rewrite (Hs w o w' H Hpre).
  apply Post_stop. apply (Hm w o w' H).
Qed.
End Guarded.

Ltac calm_keeps lemma :=
  apply (lemma calm calm_refl calm_trans calm_log calm_fs calm_input).

Ltac calm_facts :=
  first [ exact calm_refl | exact calm_trans | exact calm_log
        | exact calm_fs | exact calm_input ].

Lemma calm_logm l msg : keeps calm (logm l msg).
Proof. apply keeps_logm; calm_facts. Qed.

Lemma calm_select_apps_interactive m : keeps calm (select_apps_interactive m).
Proof. apply keeps_select_apps_interactive; calm_facts. Qed.

Lemma calm_show_versions m apps : keeps calm (show_versions m apps).
Proof. apply keeps_show_versions; calm_facts. Qed.

Lemma calm_init_manager h args : keeps calm (init_manager h args).
Proof. apply keeps_init_manager; calm_facts. Qed.

Lemma calm_validate_environment h : keeps calm (validate_environment h).
Proof. apply keeps_validate_environment; calm_facts. Qed.

Lemma calm_prompt_for_splunk_home h : keeps calm (prompt_for_splunk_home h).
Proof. apply keeps_prompt_for_splunk_home; calm_facts. Qed.

Lemma calm_ret {A} (a : A) : keeps calm (ret a).
Proof. apply keeps_ret; calm_facts. Qed.

Lemma calm_get_fs : keeps calm get_fs.
Proof. apply keeps_get_fs; calm_facts. Qed.

Lemma calm_put_fs f : keeps calm (put_fs f).
Proof. apply keeps_put_fs; calm_facts. Qed.

Lemma calm_input_step : keeps calm input.
Proof. apply keeps_input; calm_facts. Qed.

Lemma calm_raise {A} : keeps calm (fun w => (@Raised A, w)).
Proof. apply keeps_raise; calm_facts. Qed.

Lemma calm_bind {A B} (m : M A) (k : A -> M B) :
  keeps calm m -> (forall a, keeps calm (k a)) -> keeps calm (bind m k).
Proof. apply keeps_bind; calm_facts. Qed.

Lemma calm_exit {A} : keeps calm (@sys_exit A 1).
Proof. apply keeps_exit; calm_facts. Qed.

(** [select_apps_interactive] returns only after it has read a line. *)
Lemma select_needs_input (m : manager) (w w' : world) (o : outcome (list text)) :
  select_apps_interactive m w = (o, w') -> stdin w = [] -> is_done o = false.
Proof.
  intros H Hin. unfold select_apps_interactive in H.
  rewrite bind_eq, get_fs_run in H. cbv beta iota in H.
  destruct (list_available_apps (fs w) (apps_source_dir m) (manager_access m))
    as [names|]; [|inversion H; reflexivity].
  destruct names as [|a names]; cbv iota in H.
  - rewrite bind_eq, logm_run in H. inversion H. reflexivity.
  - rewrite bind_eq, show_versions_run in H.
    destruct (existsb _ (a :: names)); [inversion H; reflexivity|].
    cbv beta iota in H.
    rewrite bind_eq in H. unfold input in H. rewrite Hin in H.
    inversion H. reflexivity.
Qed.

(** A step that never returns. *)
Lemma guarded_stop (Pre : world -> Prop) (Post : world -> bool -> world -> Prop)
    {A} (m : M A) :
  (forall w w', calm w w' -> Post w false w') ->
  keeps calm m -> (forall w o w', m w = (o, w') -> is_done o = false) ->
  guarded Pre Post m.
Proof.
  intros Hstop Hm Hs. apply guarded_calm; auto.
  intros w o w' H _. apply (Hs w o w' H).
Qed.

Lemma exit_not_done {A} l msg (w w' : world) (o : outcome A) :
  (logm l msg ;;; sys_exit 1) w = (o, w') -> is_done o = false.
Proof. rewrite bind_eq, logm_run. intros H. inversion H. reflexivity. Qed.

Lemma raise_not_done {A} (w w' : world) (o : outcome A) :
  (fun w => (@Raised A, w)) w = (o, w') -> is_done o = false.
Proof. intros H. inversion H. reflexivity. Qed.

(** [run] up to the question whether to proceed: every step before the
    selection is calm, so a property that survives calm steps and holds
    for the selection and for the question holds for [run]. *)
Section RunGuarded.
Variable Pre : world -> Prop.
Variable Post : world -> bool -> world -> Prop.
Hypothesis Pre_calm : forall w w1, calm w w1 -> Pre w -> Pre w1.
Hypothesis Post_calm :
  forall w w1 b w', calm w w1 -> Post w1 b w' -> Post w b w'.
Hypothesis Post_stop : forall w w', calm w w' -> Post w false w'.
Hypothesis at_selection :
  forall m B (k : list text -> M B),
    (forall a, guarded Pre Post (k a)) ->
    guarded Pre Post (bind (select_apps_interactive m) k).
Hypothesis at_question :
  forall (c d : M unit),
    keeps calm c ->
    guarded Pre Post
      (raw <- input ;;
       if negb (is_yes (lower (strip raw))) then c else d).

Ltac calm_then lemma :=
  apply (guarded_bind Pre Post Pre_calm Post_calm Post_stop);
  [exact lemma|intros ?].

Lemma guarded_run h m args envs : guarded Pre Post (run h m args envs).
Proof.
  unfold run.
  calm_then (calm_logm LOG (txt "Starting deployment process...")).
  apply (guarded_bind Pre Post Pre_calm Post_calm Post_stop);
    [apply calm_logm|intros _].
  apply (guarded_bind Pre Post Pre_calm Post_calm Post_stop);
    [apply calm_logm|intros _].
  calm_then (calm_validate_environment h).
  destruct (negb a0).
  { apply (guarded_stop Pre Post); [exact Post_stop| |].
    - apply calm_bind; [apply calm_logm|intros _; apply calm_exit].
    - intros w o w'. apply exit_not_done. }
  apply (guarded_bind Pre Post Pre_calm Post_calm Post_stop).
  { destruct (arg_splunk_home args);
      [apply calm_ret|apply calm_prompt_for_splunk_home]. }
  intros home. cbv zeta.
  apply (guarded_bind Pre Post Pre_calm Post_calm Post_stop);
    [apply calm_logm|intros _].
  apply (guarded_bind Pre Post Pre_calm Post_calm Post_stop);
    [apply calm_logm|intros _].
  calm_then calm_get_fs.
  destruct (mkdir_parents _ [] _ a1) as [f1 made].
  apply (guarded_bind Pre Post Pre_calm Post_calm Post_stop);
    [apply calm_put_fs|intros _].
  destruct made; cbn [negb].
  2:{ apply (guarded_stop Pre Post); [exact Post_stop|apply calm_raise|].
      intros w o w'. apply raise_not_done. }
  apply at_selection. intros selected.
  apply (guarded_bind Pre Post Pre_calm Post_calm Post_stop);
    [apply calm_show_versions|intros _].
  apply at_question.
  apply calm_bind; [apply calm_logm|intros _; apply calm_ret].
Qed.

Lemma guarded_session h args envs :
  guarded Pre Post (m <- init_manager h args ;; run h m args envs).
Proof.
  apply (guarded_bind Pre Post Pre_calm Post_calm Post_stop);
    [apply calm_init_manager|intros m; apply guarded_run].
Qed.
End RunGuarded.

(** Without a y or a yes among the lines typed nothing is started. *)
Lemma session_no_yes h args envs :
  guarded (fun w => no_yes (stdin w) = true)
    (fun w _ w' => trace w' = trace w)
    (m <- init_manager h args ;; run h m args envs).
Proof.
  assert (Pre_calm : forall w w1, calm w w1 -> no_yes (stdin w) = true ->
                                  no_yes (stdin w1) = true).
  { intros w w1 [_ [read Hr]] H. rewrite Hr in H.
    apply (no_yes_suffix read). exact H. }
  assert (Post_calm : forall w w1 (b : bool) w',
            calm w w1 -> trace w' = trace w1 -> trace w' = trace w).
  { intros w w1 _ w' [Ht _] H. congruence. }
  assert (Post_stop : forall w w', calm w w' -> trace w' = trace w).
  { intros w w' [Ht _]. exact Ht. }
  apply guarded_session.
  - exact Pre_calm.
  - exact Post_calm.
  - exact Post_stop.
  - intros m B k Hk.
    apply (guarded_bind _ _ Pre_calm Post_calm Post_stop);
      [apply calm_select_apps_interactive|exact Hk].
  - intros c d Hc w o w' H Hpre. rewrite bind_eq in H. unfold input in H.
    destruct (stdin w) as [|[raw|] rest] eqn:E.
    + inversion H; subst. reflexivity.
    + cbn [no_yes forallb] in Hpre.
      apply andb_true_iff in Hpre as [Hraw _]. rewrite Hraw in H.
      destruct (Hc _ _ _ H) as [[Ht _] _]. exact Ht.
    + inversion H; subst. reflexivity.
Qed.

(** Without a line to read the session does not come to its end. *)
Lemma session_no_input h args envs :
  guarded (fun w => stdin w = []) (fun _ b _ => b = false)
    (m <- init_manager h args ;; run h m args envs).
Proof.
  assert (Pre_calm : forall w w1, calm w w1 -> stdin w = [] -> stdin w1 = []).
  { intros w w1 [_ [read Hr]] H. rewrite H in Hr. symmetry in Hr.
    apply app_eq_nil in Hr. apply Hr. }
  apply guarded_session; auto.
  - intros m B k _.
    apply (guarded_bind_stop _ _); auto.
    + apply calm_select_apps_interactive.
    + intros w o w' H Hin. apply (select_needs_input m w w' o H Hin).
  - intros c d _.
    apply (guarded_bind_stop _ _); auto.
    + apply calm_input_step.
    + intros w o w' H Hin. unfold input in H. rewrite Hin in H.
      inversion H. reflexivity.
Qed.

(** ** The operations the loop of [run] starts *)

Lemma events_refl m dir apps w : events_of m dir apps w w.
Proof. exists []. rewrite app_nil_r. auto. Qed.

Lemma events_trans m dir apps a b c :
  events_of m dir apps a b -> events_of m dir apps b c ->
  events_of m dir apps a c.
Proof.
  intros [o1 [T1 F1]] [o2 [T2 F2]]. exists (o1 ++ o2). split.
  - rewrite T2, T1, app_assoc. reflexivity.
  - apply Forall_app. auto.
Qed.

Lemma events_log m dir apps w l :
  events_of m dir apps w (mkWorld (fs w) (stdin w) (log w ++ l) (trace w)).
Proof. exists []. cbn [trace]. rewrite app_nil_r. auto. Qed.

Lemma events_fs m dir apps w f :
  events_of m dir apps w (mkWorld f (stdin w) (log w) (trace w)).
Proof. exists []. cbn [trace]. rewrite app_nil_r. auto. Qed.

Lemma events_input m dir apps w (k : keyboard) rest :
  stdin w = k :: rest ->
  events_of m dir apps w (mkWorld (fs w) rest (log w) (trace w)).
Proof. intros _. exists []. cbn [trace]. rewrite app_nil_r. auto. Qed.

Lemma backup_result_events m app dir env f b f1 lg ops :
  backup_result m app dir env f = (b, f1, lg, ops) ->
  Forall (fun e => exists name tree complete,
                     e = Archived (backup_dir m ++ [name]) app tree complete)
    ops.
Proof.
  unfold backup_result, archive_path.
  destruct (lookup_path f (dir ++ [app])) as [tree|];
    [|intros H; inversion H; constructor].
  cbv zeta. destruct (tar_result env).
  - destruct (store_archive f _ app tree true); intros H; inversion H;
      subst; [|constructor].
    apply Forall_cons; [eauto|apply Forall_nil].
  - intros H; inversion H; constructor.
  - destruct (store_archive f _ app tree false); intros H; inversion H;
      subst; [|constructor].
    apply Forall_cons; [eauto|apply Forall_nil].
Qed.

Lemma replace_result_events m app target env f b f3 lg ops :
  replace_result m app target env f = (b, f3, lg, ops) ->
  Forall (fun e => e = Rmtree target
                   \/ e = Copytree (apps_source_dir m ++ [app]) target) ops.
Proof.
  unfold replace_result. cbv zeta. destruct (path_exists f target).
  - destruct (if rmtree_fails env then None else rmtree f target) as [f1|].
    + destruct (if copytree_fails env then None else copytree f1 _ target);
        intros H; inversion H; subst; cbn [List.app];
        repeat (apply Forall_cons || apply Forall_nil); auto.
    + intros H; inversion H; subst.
      repeat (apply Forall_cons || apply Forall_nil); auto.
  - destruct (if copytree_fails env then None else copytree f _ target);
      intros H; inversion H; subst; cbn [List.app];
      repeat (apply Forall_cons || apply Forall_nil); auto.
Qed.

Lemma deploy_result_events m dir app version env f b f3 lg ops :
  deploy_result m app (dir ++ [app]) version env f = (b, f3, lg, ops) ->
  Forall (event_of_app m dir app) ops.
Proof.
  unfold deploy_result.
  destruct (validate_result _ app f) as [[[b1 f0] lg1] ops1].
  destruct b1; [|intros H; inversion H; constructor].
  destruct (backup_result m app _ env f) as [[[b2 f1] lg2] ops2] eqn:B.
  apply backup_result_events in B.
  assert (HB : Forall (event_of_app m dir app) ops2).
  { eapply Forall_impl; [|exact B]. intros e H. left. exact H. }
  destruct b2; [|intros H; inversion H; subst; exact HB].
  destruct (update_result _ app version env f1) as [[[b3 f2] lg3] ops3] eqn:U.
  apply update_result_ops in U.
  assert (HU : Forall (event_of_app m dir app) ops3).
  { destruct U as [->| ->]; [constructor|].
    apply Forall_cons; [|apply Forall_nil]. right. left. reflexivity. }
  destruct b3;
    [|intros H; inversion H; subst; apply Forall_app; split; assumption].
  destruct (replace_result m app _ env f2) as [[[b4 f4] lg4] ops4] eqn:R.
  apply replace_result_events in R.
  intros H. inversion H; subst. apply Forall_app. split; [exact HB|].
  apply Forall_app. split; [exact HU|].
  eapply Forall_impl; [|exact R]. intros e [-> | ->].
  - right. right. left. reflexivity.
  - right. right. right. reflexivity.
Qed.

Lemma events_deploy_app m dir apps app version env :
  In app apps ->
  keeps (events_of m dir apps) (deploy_app m app (dir ++ [app]) version env).
Proof.
  intros Hin w o w' H. rewrite deploy_app_run in H.
  destruct (deploy_result m app (dir ++ [app]) version env (fs w))
    as [[[b f3] lg] ops] eqn:R.
  unfold apply_effect in H. inversion H; subst. split; [|discriminate].
  exists ops. split; [reflexivity|].
  apply deploy_result_events in R.
  eapply Forall_impl; [|exact R]. intros e He. exists app. auto.
Qed.

Lemma events_validate_deployment m dir apps app target :
  keeps (events_of m dir apps) (validate_deployment app target).
Proof.
  intros w o w' H. rewrite validate_deployment_run in H.
  unfold validate_deployment_result in H. split.
  - exists []. cbn zeta in H.
    destruct (negb (path_exists (fs w) target)).
    + inversion H; subst. split; [reflexivity|constructor].
    + destruct (first_missing (fs w) target required_files);
        inversion H; subst; (split; [reflexivity|constructor]).
  - cbn zeta in H. destruct (negb (path_exists (fs w) target)).
    + inversion H; discriminate.
    + destruct (first_missing (fs w) target required_files);
        inversion H; discriminate.
Qed.

Lemma events_deploy_selected m dir envs apps (selected : list text) :
  forall i deployed,
    (forall app, In app selected -> In app apps) ->
    keeps (events_of m dir apps)
      (deploy_selected m dir envs i selected deployed).
Proof.
  pose proof (events_refl m dir apps) as Hrefl.
  pose proof (events_trans m dir apps) as Htrans.
  pose proof (events_log m dir apps) as Hlog.
  pose proof (events_input m dir apps) as Hinput.
  induction selected as [|app selected IH]; intros i deployed Hsub;
    cbn [deploy_selected]; [apply keeps_ret; exact Hrefl|]. cbv zeta.
  apply keeps_bind; [exact Htrans|apply keeps_get_fs; exact Hrefl|intros f].
  destruct (get_current_version f _ app _ _) as [current|];
    [|apply keeps_raise; exact Hrefl].
  apply keeps_bind;
    [exact Htrans|apply keeps_prompt_for_version; assumption|intros version].
  apply keeps_bind; [exact Htrans| |intros ok].
  { apply events_deploy_app. apply Hsub. left. reflexivity. }
  apply keeps_bind; [exact Htrans| |].
  - destruct ok.
    + apply keeps_bind;
        [exact Htrans|apply events_validate_deployment|intros v].
      destruct v; (apply keeps_bind;
                   [exact Htrans|apply keeps_logm; exact Hlog|intros _];
                   apply keeps_ret; exact Hrefl).
    + apply keeps_bind; [exact Htrans|apply keeps_logm; exact Hlog|intros _].
      apply keeps_ret. exact Hrefl.
  - intros d. apply IH. intros a Ha. apply Hsub. right. exact Ha.
Qed.

(** The session ends by [sys.exit] with status 1 only. *)
Lemma session_exits_one h args envs :
  keeps anything (m <- init_manager h args ;; run h m args envs).
Proof.
  apply keeps_bind.
  - intros; exact I.
  - apply keeps_init_manager; intros; exact I.
  - intros m. apply keeps_run; intros; exact I.
Qed.

(** * Values read from a file are read back as they are *)

Lemma join_snoc (sep : text) (ls : list text) (z : text) :
  ls <> [] -> join sep (ls ++ [z]) = join sep ls ++ sep ++ z.
Proof.
  induction ls as [|a ls IH]; [contradiction|]. intros _.
  destruct ls as [|b r].
  - reflexivity.
  - cbn [app] in *. rewrite !join_cons. rewrite IH by discriminate.
    rewrite <- !app_assoc. reflexivity.
Qed.

Lemma split_chr_line (l s : text) :
  single_line l -> split_chr "010" (l ++ "010" :: s) = l :: split_chr "010" s.
Proof.
  unfold single_line. induction l as [|c l IH]; intros H.
  - reflexivity.
  - cbn [forallb] in H. apply andb_true_iff in H as [Hc Hl].
    unfold not_nl, is_nl in Hc. apply negb_true_iff in Hc.
    cbn [app split_chr]. rewrite Hc, (IH Hl). reflexivity.
Qed.

Lemma split_join (ls : list text) :
  ls <> [] -> Forall single_line ls -> split_chr "010" (join nl ls) = ls.
Proof.
  induction ls as [|a ls IH]; [contradiction|]. intros _ H.
  inversion H as [|? ? Ha Hls]; subst. destruct ls as [|b r].
  - apply split_chr_single. exact Ha.
  - rewrite join_cons. change (nl ++ join nl (b :: r))
      with ("010" :: join nl (b :: r)).
    rewrite split_chr_line by exact Ha. rewrite IH; auto. discriminate.
Qed.

Lemma tidy_tight (l : text) : tidy l -> tight_r is_space l.
Proof. unfold tidy. intros H. rewrite <- H. exact (proj2 (strip_ends l)). Qed.

Lemma keep_lines (rest : list text) :
  Forall tidy rest -> Forall no_comment rest ->
  flat_map (fun l => if is_comment ("009" :: l) then [] else [strip l]) rest
  = rest.
Proof.
  induction rest as [|l rest IH]; [reflexivity|]. intros Ht Hc.
  inversion Ht; subst. inversion Hc; subst. cbn [flat_map].
  match goal with H : no_comment l |- _ => unfold no_comment in H; rewrite H end.
  match goal with H : tidy l |- _ => unfold tidy in H; rewrite H end.
  cbn [app]. rewrite IH; auto.
Qed.

Lemma lines_normal_init (ls : list text) (z : text) :
  ls <> [] -> lines_normal (ls ++ [z]) -> lines_normal ls.
Proof.
  intros Hne [l0 [rest [E [Hc [Ht Hn]]]]].
  destruct ls as [|a ls]; [contradiction|].
  cbn [app] in E. inversion E; subst l0 rest.
  exists a, ls. split; [reflexivity|].
  change (a :: ls ++ [z]) with ((a :: ls) ++ [z]) in Hc, Ht.
  apply Forall_app in Hc as [Hc _]. apply Forall_app in Ht as [Ht _].
  apply Forall_app in Hn as [Hn _]. auto.
Qed.

(** The value joined from such lines is the one [norm_value] gives. *)
Lemma norm_value_join (ls : list text) :
  lines_normal ls -> norm_value (join_value ls) = join_value ls.
Proof.
  induction ls as [|z ls IH] using rev_ind.
  { intros [l0 [rest [E _]]]. discriminate. }
  intros Hn. destruct (list_eq_dec (list_eq_dec ascii_dec) ls []) as [->|Hne].
  - (* one line *)
    destruct Hn as [l0 [rest [E [Hc [Ht _]]]]]. cbn [app] in E.
    inversion E; subst l0 rest. inversion Ht as [|? ? Hz _]; subst.
    inversion Hc as [|? ? Hcz _]; subst.
    unfold join_value. cbn [app join]. unfold rstrip.
    rewrite (rstrip_tight_id is_space z) by (apply tidy_tight; exact Hz).
    unfold norm_value, norm_lines.
    rewrite split_chr_single by (apply clean_line_single; exact Hcz).
    cbn [flat_map]. unfold tidy in Hz. rewrite Hz.
    unfold join_value. cbn [join]. unfold rstrip.
    apply rstrip_tight_id. apply tidy_tight. exact Hz.
  - destruct z as [|c z].
    + rewrite join_value_snoc_empty. apply IH.
      apply (lines_normal_init ls []); assumption.
    + pose proof Hn as [l0 [rest [E [Hc [Ht Hnc]]]]].
      assert (Hz : tidy (c :: z)).
      { apply Forall_app in Ht as [_ Ht]. inversion Ht; assumption. }
      match goal with |- norm_value ?v = _ =>
        assert (Hj : v = join nl (ls ++ [c :: z])) end.
      { unfold join_value, rstrip. apply rstrip_tight_id.
        rewrite join_snoc by exact Hne. rewrite app_assoc.
        apply tight_r_app; [apply tidy_tight; exact Hz|discriminate]. }
      rewrite Hj. unfold norm_value, norm_lines.
      rewrite split_join.
      * destruct ls as [|a ls']; [contradiction|].
        cbn [app] in E, Ht, Hj |- *. inversion E; subst l0 rest.
        inversion Ht as [|? ? Hl0 Hrest]; subst.
        rewrite keep_lines by assumption.
        unfold tidy in Hl0. rewrite Hl0. exact Hj.
      * destruct ls; discriminate.
      * eapply Forall_impl; [|exact Hc]. apply clean_line_single.
Qed.

(** ** The lines the parser keeps *)

Lemma tidy_strip (x : text) : tidy (strip x).
Proof. apply (strip_by_idem is_space). Qed.

Lemma tidy_nil : tidy [].
Proof. reflexivity. Qed.

Lemma no_comment_nil : no_comment [].
Proof. reflexivity. Qed.

Lemma no_comment_strip (line : text) :
  is_comment line = false -> no_comment (strip line).
Proof.
  unfold no_comment, is_comment. intros H.
  assert (E : strip ("009" :: strip line) = strip line).
  { pose proof (strip_by_padded is_space ["009"] (strip line) []
                  eq_refl eq_refl) as P.
    rewrite app_nil_r in P. cbn [app] in P. unfold strip at 1.
    rewrite P. apply (strip_by_idem is_space). }
  rewrite E. exact H.
Qed.

Lemma split_option_value_clean (line on ov : text) :
  clean_line line -> split_option (strip line) = Some (on, ov) ->
  clean_line (strip ov).
Proof.
  intros Hl Hs.
  apply split_option_spec in Hs as [sp [dl [after [Hv [_ [_ Hov]]]]]].
  apply (clean_line_incl _ line); [|exact Hl].
  intros c H. apply (strip_by_incl is_space). fold (strip line).
  rewrite Hv. apply in_or_app. right. apply in_or_app. right. right.
  apply (strip_by_incl is_space) in H. subst ov.
  apply (drop_while_incl is_space) in H. exact H.
Qed.

Lemma lines_normal_one (x : text) :
  clean_line x -> tidy x -> lines_normal [x].
Proof.
  intros Hc Ht. exists x, []. split; [reflexivity|].
  split; [|split]; repeat constructor; assumption.
Qed.

Lemma lines_normal_snoc (ls : list text) (x : text) :
  lines_normal ls -> clean_line x -> tidy x -> no_comment x ->
  lines_normal (ls ++ [x]).
Proof.
  intros [l0 [rest [E [Hc [Ht Hn]]]]] Hx Hxt Hxn. subst ls.
  exists l0, (rest ++ [x]). split; [reflexivity|].
  change (l0 :: rest ++ [x]) with ((l0 :: rest) ++ [x]).
  split; [|split]; apply Forall_app; split; auto.
Qed.

Lemma dict_normal_append (x : text) (d : dict (list text)) :
  clean_line x -> tidy x -> no_comment x ->
  dict_normal d -> dict_normal (append_last x d).
Proof.
  intros Hx Hxt Hxn Hd. unfold dict_normal in *.
  destruct (snoc_cases d) as [E|[d' [[k ls] E]]]; rewrite E in *.
  - constructor.
  - rewrite append_last_snoc. apply Forall_app in Hd as [Hd' Hlast].
    apply Forall_app. split; [exact Hd'|].
    inversion Hlast as [|? ? Hls _]; subst. constructor; [|constructor].
    cbn [snd] in *. apply lines_normal_snoc; assumption.
Qed.

Lemma pstate_normal_on_current f (st : pstate) :
  (forall d, dict_normal d -> dict_normal (f d)) ->
  pstate_normal st -> pstate_normal (on_current f st).
Proof.
  intros Hf [Hd Hs]. unfold on_current.
  destruct (p_cur st) eqn:C; [split; assumption| |].
  - split; cbn [p_defaults p_sections]; auto.
  - split; cbn [p_defaults p_sections]; [exact Hd|].
    destruct (snoc_cases (p_sections st)) as [E|[ss [[n d] E]]]; rewrite E in *.
    + constructor.
    + rewrite on_last_section_snoc. apply Forall_app in Hs as [Hss Hlast].
      apply Forall_app. split; [exact Hss|].
      inversion Hlast as [|? ? Ho _]; subst. constructor; [|constructor].
      cbn [snd] in *. apply Hf. exact Ho.
Qed.

Lemma parse_line_normal (st st' : pstate) (line : text) :
  clean_line line -> pstate_normal st -> parse_line st line = Some st' ->
  pstate_normal st'.
Proof.
  intros Hl Hst. unfold parse_line.
  destruct (is_comment line) eqn:C;
    [intros H; inversion H; subst; exact Hst|].
  cbv zeta. destruct (is_empty (strip line)) eqn:E.
  - intros H. inversion H; subst.
    destruct (has_cursor st && p_opt st); [|exact Hst].
    apply pstate_normal_on_current; [|exact Hst].
    intros d. apply dict_normal_append.
    + reflexivity.
    + exact tidy_nil.
    + exact no_comment_nil.
  - destruct (has_cursor st && p_opt st
              && (p_indent st <? indent_of line)%nat).
    + intros H. inversion H; subst.
      apply pstate_normal_on_current; [|exact Hst].
      intros d. apply dict_normal_append.
      * apply strip_clean. exact Hl.
      * apply tidy_strip.
      * apply no_comment_strip. exact C.
    + destruct (section_header (strip line)) as [name|] eqn:SH.
      * destruct (mem name (p_sections st)) eqn:M; [discriminate|].
        destruct Hst as [Hd Hs].
        destruct (text_eqb name default_section) eqn:D;
          intros H; inversion H; subst;
          split; cbn [p_defaults p_sections]; auto.
        apply Forall_app. split; [exact Hs|].
        constructor; [|constructor]. constructor.
      * destruct (negb (has_cursor st)); [discriminate|].
        destruct (split_option (strip line)) as [[on ov]|] eqn:SO;
          [|discriminate].
        destruct (is_empty on) eqn:EO; [discriminate|].
        destruct (mem (optionxform (rstrip on)) (current_options st)) eqn:M;
          [discriminate|].
        intros H. inversion H; subst. clear H.
        assert (Hok : pstate_normal
                        (on_current
                           (fun d => d ++ [(optionxform (rstrip on),
                                            [strip ov])]) st)).
        { apply pstate_normal_on_current; [|exact Hst]. intros d Hd.
          apply Forall_app. split; [exact Hd|].
          constructor; [|constructor]. cbn [snd].
          apply lines_normal_one; [|apply tidy_strip].
          apply (split_option_value_clean line on); assumption. }
        exact Hok.
Qed.

Lemma parse_lines_normal (lines : list text) :
  forall st st',
    Forall clean_line lines -> pstate_normal st ->
    parse_lines st lines = Some st' -> pstate_normal st'.
Proof.
  induction lines as [|l lines IH]; intros st st' Hl Hst; cbn [parse_lines].
  - intros H. inversion H; subst. exact Hst.
  - inversion Hl as [|? ? Hl1 Hl2]; subst.
    destruct (parse_line st l) as [st1|] eqn:E; [|discriminate].
    apply IH; [exact Hl2|]. eapply parse_line_normal; eauto.
Qed.

Lemma options_normal_joined (d : dict (list text)) :
  dict_normal d -> options_normal (join_options d).
Proof.
  unfold dict_normal, options_normal, join_options. intros H.
  apply Forall_forall. intros kv Hin.
  apply in_map_iff in Hin as [kv' [<- Hin]]. cbn [snd].
  apply norm_value_join. rewrite Forall_forall in H. auto.
Qed.

Lemma config_normal_finish (st : pstate) :
  pstate_normal st -> config_normal (finish st).
Proof.
  intros [Hd Hs]. unfold finish. split; cbn [defaults sections].
  - apply options_normal_joined. exact Hd.
  - apply Forall_forall. intros s Hin.
    apply in_map_iff in Hin as [s' [<- Hin]]. cbn [snd].
    apply options_normal_joined. rewrite Forall_forall in Hs. auto.
Qed.

(** Every value of a configuration read from a file is as the parser
    gives it. *)
Lemma parse_normal (content : text) (cfg : config) :
  parse content = Some cfg -> config_normal cfg.
Proof.
  unfold parse.
  destruct (parse_lines initial_pstate
              (lines_of (universal_newlines content))) as [st|] eqn:E;
    [|discriminate].
  intros H. inversion H; subst. apply config_normal_finish.
  eapply parse_lines_normal; [| |exact E].
  - apply lines_of_clean. apply universal_newlines_no_cr.
  - split; constructor.
Qed.

Lemma norm_options_fixed (d : dict text) :
  options_normal d -> norm_options d = d.
Proof.
  unfold options_normal, norm_options.
  induction d as [|[k v] d IH]; [reflexivity|]. intros H.
  inversion H as [|? ? Hv Hd]; subst. cbn [map fst snd] in *.
  rewrite Hv, IH by exact Hd. reflexivity.
Qed.

Lemma normalise_fixed (cfg : config) :
  config_normal cfg -> normalise cfg = cfg.
Proof.
  destruct cfg as [df ss]. intros [Hd Hs]. unfold normalise.
  cbn [defaults sections] in *. rewrite norm_options_fixed by exact Hd.
  f_equal. induction ss as [|[n d] ss IH]; [reflexivity|].
  inversion Hs as [|? ? Ho Hss]; subst. cbn [map fst snd] in *.
  rewrite norm_options_fixed by exact Ho. rewrite IH by exact Hss.
  reflexivity.
Qed.

Lemma config_normal_empty : config_normal empty_config.
Proof. split; constructor. Qed.

Lemma option_normal (cfg : config) (s k v : text) :
  config_normal cfg -> option_of cfg s k = Some v -> norm_value v = v.
Proof.
  intros Hn H. pose proof (option_of_normalise cfg s k) as E.
  rewrite (normalise_fixed cfg Hn), H in E. cbn [option_map] in E.
  congruence.
Qed.

(** ** The descriptor after [update_app_version], read again *)

Lemma two_digits_digits (n : nat) : forallb is_digit (two_digits n) = true.
Proof.
  unfold two_digits. destruct (n <? 10)%nat.
  - cbn [forallb]. rewrite decimal_all_digits. reflexivity.
  - apply decimal_all_digits.
Qed.

Lemma build_stamp_digits (t : datetime) :
  forallb is_digit (build_stamp t) = true.
Proof.
  unfold build_stamp. rewrite !forallb_app, decimal_all_digits.
  rewrite !two_digits_digits. reflexivity.
Qed.

Lemma build_stamp_fixed (t : datetime) :
  norm_value (build_stamp t) = build_stamp t.
Proof.
  apply norm_value_plain. intros c Hc. apply digit_not_space.
  pose proof (build_stamp_digits t) as H. rewrite forallb_forall in H. auto.
Qed.

Lemma read_config_normal (f : node) (p : path) (unreadable : bool)
    (cfg : config) :
  read_config f p unreadable = Some cfg -> config_normal cfg.
Proof.
  unfold read_config.
  destruct (lookup_path f p) as [[content|a t c|es]|];
    destruct unreadable; intros H; try discriminate;
    try (inversion H; subst; apply config_normal_empty).
  apply (parse_normal content). exact H.
Qed.

Lemma section_normal (cfg : config) (s : text) (d : dict text) :
  config_normal cfg -> lookup s (sections cfg) = Some d -> options_normal d.
Proof.
  intros [_ Hs] H. apply lookup_In in H. rewrite Forall_forall in Hs.
  apply (Hs (s, d)). exact H.
Qed.

(** What [update_app_version] leaves in the descriptor, as it is read
    again, against what was read before. *)
Lemma update_read_again (src : path) (app version : text) (env : unit_env)
    (f f' : node) lg ops :
  Triple version ->
  update_result src app version env f = (true, f', lg, ops) ->
  exists cfg cfg'',
    read_config f (src ++ [app] ++ app_conf) (read_unreadable env) = Some cfg
    /\ read_config f' (src ++ [app] ++ app_conf) false = Some cfg''
    /\ defaults cfg'' = defaults cfg
    /\ (forall s k, ~ rewritten s k -> option_of cfg'' s k = option_of cfg s k)
    /\ (forall s, s <> launcher -> s <> install ->
          lookup s (sections cfg'') = lookup s (sections cfg))
    /\ option_of cfg'' launcher (txt "version") = Some version
    /\ option_of cfg'' install (txt "build")
       = Some (build_stamp (build_time env)).
Proof.
  intros Hv R. apply update_result_true in R as [cfg [cfg' [R1 [R2 [R3 _]]]]].
  pose proof (write_file_read _ _ _ _ R3) as Hfile.
  pose proof (read_config_normal _ _ _ _ R1) as Hn.
  pose proof (updated_config_frame _ _ _ _ R2) as [D [O [L [_ [V B]]]]].
  exists cfg, (normalise cfg'). split; [exact R1|]. split.
  { unfold read_config. rewrite Hfile. apply parse_render.
    apply (config_ok_updated cfg cfg' version (build_stamp (build_time env)));
      auto.
    - eapply read_config_ok. exact R1.
    - apply build_stamp_no_cr. }
  split; [|split; [|split; [|split]]].
  - unfold normalise. cbn [defaults]. rewrite D.
    apply norm_options_fixed. apply Hn.
  - intros s k Hr. rewrite option_of_normalise, (O s k Hr).
    destruct (option_of cfg s k) as [v|] eqn:E; [|reflexivity].
    cbn [option_map]. rewrite (option_normal cfg s k v Hn E). reflexivity.
  - intros s Hl Hi. unfold normalise. cbn [sections].
    rewrite (lookup_map norm_options), (L s Hl Hi).
    destruct (lookup s (sections cfg)) as [d|] eqn:E; [|reflexivity].
    cbn [option_map]. rewrite norm_options_fixed; [reflexivity|].
    apply (section_normal cfg s d Hn E).
  - rewrite option_of_normalise, V. cbn [option_map].
    rewrite norm_value_plain; [reflexivity|].
    apply (Triple_plain version Hv).
  - rewrite option_of_normalise, B. cbn [option_map].
    rewrite build_stamp_fixed. reflexivity.
Qed.

(** * The host: directories, prompts and git *)

(** ** [mkdir(parents=True, exist_ok=True)] *)

Lemma is_prefix_decide (q p : path) : is_prefix q p \/ ~ is_prefix q p.
Proof.
  revert p. induction q as [|x q IH]; intros p.
  - left. apply is_prefix_nil.
  - destruct p as [|y p].
    + right. intros [r H]. discriminate.
    + destruct (list_eq_dec ascii_dec x y) as [->|Hne].
      * destruct (IH p) as [H|H].
        -- left. apply is_prefix_cons. exact H.
        -- right. intros H'. apply H. apply is_prefix_cons in H'. exact H'.
      * right. intros [r H]. cbn [app] in H. inversion H. congruence.
Qed.

Lemma makedirs_fresh (p : path) : exists n', makedirs p (Dir []) = Some n'.
Proof.
  induction p as [|x p [n' IH]]; cbn [makedirs lookup].
  - eexists. reflexivity.
  - rewrite IH. eexists. reflexivity.
Qed.

(** The call fails exactly when something that is not a directory is in
    the way. *)
Lemma makedirs_none (p : path) : forall n,
  makedirs p n = None <-> blocked n p.
Proof.
  induction p as [|x p IH]; intros n.
  - destruct n as [c|a t c|es]; cbn [makedirs]; split; intros H;
      try discriminate; try reflexivity.
    + exists [], (File c). split; [apply is_prefix_nil|]. split; reflexivity.
    + exists [], (Tarball a t c). split; [apply is_prefix_nil|].
      split; reflexivity.
    + destruct H as [q [m [[r Hq] [Hl Hd]]]].
      destruct q; [|discriminate]. cbn in Hl. inversion Hl; subst m.
      discriminate.
  - destruct n as [c|a t c|es].
    + split; [intros _|intros _; reflexivity].
      exists [], (File c). split; [apply is_prefix_nil|]. split; reflexivity.
    + split; [intros _|intros _; reflexivity].
      exists [], (Tarball a t c). split; [apply is_prefix_nil|].
      split; reflexivity.
    + cbn [makedirs]. destruct (lookup x es) as [child|] eqn:E.
      * destruct (makedirs p child) as [child'|] eqn:M.
        -- split; [discriminate|]. intros [q [m [Hq [Hl Hd]]]].
           destruct q as [|y q].
           ++ cbn in Hl. inversion Hl; subst m. discriminate.
           ++ assert (y = x) by (destruct Hq as [r Hq]; inversion Hq; auto).
              subst y. apply is_prefix_cons in Hq.
              cbn [lookup_path] in Hl. rewrite E in Hl.
              assert (B : blocked child p) by (exists q, m; auto).
              apply IH in B. congruence.
        -- split; [intros _|intros _; reflexivity]. apply IH in M.
           destruct M as [q [m [Hq [Hl Hd]]]]. exists (x :: q), m.
           split; [apply is_prefix_cons; exact Hq|].
           split; [|exact Hd]. cbn [lookup_path]. rewrite E. exact Hl.
      * destruct (makedirs_fresh p) as [n' M]. rewrite M.
        split; [discriminate|]. intros [q [m [Hq [Hl Hd]]]].
        destruct q as [|y q].
        -- cbn in Hl. inversion Hl; subst m. discriminate.
        -- assert (y = x) by (destruct Hq as [r Hq]; inversion Hq; auto).
           subst y. cbn [lookup_path] in Hl. rewrite E in Hl. discriminate.
Qed.

(** What is not a directory stays as it is. *)
Lemma makedirs_keeps (p : path) (n n' : node) (q : path) (m : node) :
  makedirs p n = Some n' -> lookup_path n q = Some m ->
  is_directory m = false -> lookup_path n' q = Some m.
Proof.
  intros M Hl Hd. destruct (is_prefix_decide q p) as [Hq|Hq].
  - assert (B : blocked n p) by (exists q, m; auto).
    apply makedirs_none in B. congruence.
  - rewrite (lookup_makedirs_other p n n' q M Hq). exact Hl.
Qed.

(** What exists goes on existing. *)
Lemma makedirs_exists (p : path) (n n' : node) (q : path) :
  makedirs p n = Some n' -> path_exists n q = true ->
  path_exists n' q = true.
Proof.
  intros M He. destruct (is_prefix_decide q p) as [[r Hq]|Hq].
  - pose proof (makedirs_is_dir p n n' M) as Hd. unfold is_dir in Hd.
    subst p. rewrite lookup_path_app in Hd. unfold path_exists.
    destruct (lookup_path n' q); [reflexivity|discriminate].
  - unfold path_exists in *.
    rewrite (lookup_makedirs_other p n n' q M Hq). exact He.
Qed.

Lemma makedirs_dir_stays (p : path) (n n' : node) (q : path) :
  makedirs p n = Some n' -> is_dir n q = true -> is_dir n' q = true.
Proof.
  intros M Hd. destruct (is_prefix_decide q p) as [[r Hq]|Hq].
  - subst p. pose proof (makedirs_is_dir _ n n' M) as Hp.
    unfold is_dir in *. rewrite lookup_path_app in Hp.
    destruct (lookup_path n' q) as [m|] eqn:E; [|discriminate].
    destruct m as [c|a t c|es]; [| |reflexivity].
    + destruct r; cbn in Hp; discriminate.
    + destruct r; cbn in Hp; discriminate.
  - unfold is_dir in *.
    rewrite (lookup_makedirs_other p n n' q M Hq). exact Hd.
Qed.

Lemma lookup_below_dir (n : node) (q r : path) (m : node) :
  lookup_path n (q ++ r) = Some (Dir []) \/
  (exists es, lookup_path n (q ++ r) = Some (Dir es)) ->
  lookup_path n q = Some m -> is_directory m = true.
Proof.
  intros H Hq. assert (H' : exists es, lookup_path n (q ++ r) = Some (Dir es)).
  { destruct H as [H|H]; [exists []; exact H|exact H]. }
  destruct H' as [es H']. rewrite lookup_path_app, Hq in H'.
  destruct r as [|x r].
  - cbn in H'. inversion H'. reflexivity.
  - destruct m; try discriminate. reflexivity.
Qed.

(** What is in the way after the call was in the way before. *)
Lemma blocked_before (p q : path) (n n' : node) :
  makedirs p n = Some n' -> blocked n' q -> blocked n q.
Proof.
  intros M [r [m [Hr [Hl Hd]]]].
  destruct (is_prefix_decide r p) as [[s Hp]|Hp].
  - pose proof (makedirs_is_dir p n n' M) as Hdir. unfold is_dir in Hdir.
    subst p. destruct (lookup_path n' (r ++ s)) as [[c|a t c|es]|] eqn:E;
      try discriminate.
    assert (is_directory m = true).
    { apply (lookup_below_dir n' r s m); [right; exists es; exact E|exact Hl]. }
    congruence.
  - exists r, m. split; [exact Hr|]. split; [|exact Hd].
    rewrite <- (lookup_makedirs_other p n n' r M Hp). exact Hl.
Qed.

Lemma blocked_after (p q : path) (n n' : node) :
  makedirs p n = Some n' -> blocked n q -> blocked n' q.
Proof.
  intros M [r [m [Hr [Hl Hd]]]]. exists r, m.
  split; [exact Hr|]. split; [|exact Hd].
  apply (makedirs_keeps p n n' r m M Hl Hd).
Qed.

(** ** Directories that the system may refuse to make *)

Lemma assign_same {V} (k : text) (v : V) (d : dict V) :
  lookup k d = Some v -> assign k v d = d.
Proof.
  induction d as [|[k' v'] d IH]; cbn [lookup assign]; [discriminate|].
  destruct (text_eqb k' k) eqn:E.
  - intros H. inversion H; subst. apply text_eqb_eq in E. subst. reflexivity.
  - intros H. rewrite (IH H). reflexivity.
Qed.

Lemma not_blocked_fresh (p : path) : ~ blocked (Dir []) p.
Proof.
  intros B. apply makedirs_none in B. destruct (makedirs_fresh p) as [n' M].
  congruence.
Qed.

Lemma blocked_child (x : text) (p : path) (es : dict node) (child : node) :
  lookup x es = Some child -> blocked child p -> blocked (Dir es) (x :: p).
Proof.
  intros E [q [m [Hq [Hl Hd]]]]. exists (x :: q), m.
  split; [apply is_prefix_cons; exact Hq|]. split; [|exact Hd].
  cbn [lookup_path]. rewrite E. exact Hl.
Qed.

(** How the call ends: every directory is there; or something is in the
    way and nothing was made; or the system refused a directory, and
    those above it were made. *)
Lemma mkdir_parents_cases (refused : path -> bool) (p : path) :
  forall (above : path) (n : node),
    (exists n',
       mkdir_parents refused above p n = (n', true)
       /\ makedirs p n = Some n'
       /\ forall q, is_prefix q p -> path_exists n q = false ->
                    refused (above ++ q) = false)
    \/ (mkdir_parents refused above p n = (n, false) /\ blocked n p)
    \/ (exists n' p0 x r,
          mkdir_parents refused above p n = (n', false)
          /\ p = p0 ++ x :: r
          /\ makedirs p0 n = Some n'
          /\ path_exists n (p0 ++ [x]) = false
          /\ refused (above ++ p0 ++ [x]) = true).
Proof.
  induction p as [|x p IH]; intros above n.
  - destruct n as [c|a t c|es].
    + right. left. split; [reflexivity|].
      exists [], (File c). split; [apply is_prefix_nil|]. split; reflexivity.
    + right. left. split; [reflexivity|].
      exists [], (Tarball a t c). split; [apply is_prefix_nil|].
      split; reflexivity.
    + left. exists (Dir es). split; [reflexivity|]. split; [reflexivity|].
      intros q [r Hq] He. symmetry in Hq. apply app_eq_nil in Hq as [-> _].
      discriminate He.
  - destruct n as [c|a t c|es].
    + right. left. split; [reflexivity|].
      exists [], (File c). split; [apply is_prefix_nil|]. split; reflexivity.
    + right. left. split; [reflexivity|].
      exists [], (Tarball a t c). split; [apply is_prefix_nil|].
      split; reflexivity.
    + cbn [mkdir_parents makedirs].
      destruct (lookup x es) as [child|] eqn:E.
      * destruct (IH (above ++ [x]) child)
          as [[c' [H1 [H2 H3]]] | [[H1 H2] | [c' [p0 [y [r [H1 [H2 [H3 [H4 H5]]]]]]]]]].
        -- left. exists (Dir (assign x c' es)). rewrite H1, H2.
           split; [reflexivity|]. split; [reflexivity|].
           intros q Hq He. destruct q as [|z q]; [discriminate He|].
           assert (z = x) by (destruct Hq as [s Hq]; inversion Hq; auto).
           subst z. apply is_prefix_cons in Hq.
           unfold path_exists in He. cbn [lookup_path] in He.
           rewrite E in He.
           replace (above ++ x :: q) with ((above ++ [x]) ++ q)
             by (rewrite <- app_assoc; reflexivity).
           apply H3; assumption.
        -- right. left. rewrite H1, (assign_same _ _ _ E).
           split; [reflexivity|]. apply (blocked_child x p es child E H2).
        -- right. right. exists (Dir (assign x c' es)), (x :: p0), y, r.
           rewrite H1. split; [reflexivity|]. split; [rewrite H2; reflexivity|].
           split; [cbn [makedirs]; rewrite E, H3; reflexivity|].
           split.
           ++ unfold path_exists in *. cbn [app lookup_path]. rewrite E.
              exact H4.
           ++ replace (above ++ (x :: p0) ++ [y])
                with ((above ++ [x]) ++ p0 ++ [y])
                by (rewrite <- app_assoc; reflexivity).
              exact H5.
      * destruct (refused (above ++ [x])) eqn:Rx.
        -- right. right. exists (Dir es), [], x, p.
           split; [reflexivity|]. split; [reflexivity|].
           split; [reflexivity|]. split.
           ++ unfold path_exists. cbn [app lookup_path]. rewrite E.
              reflexivity.
           ++ exact Rx.
        -- destruct (IH (above ++ [x]) (Dir []))
             as [[c' [H1 [H2 H3]]] | [[H1 H2] | [c' [p0 [y [r [H1 [H2 [H3 [H4 H5]]]]]]]]]].
           ++ left. exists (Dir (assign x c' es)). rewrite H1, H2.
              split; [reflexivity|]. split; [reflexivity|].
              intros q Hq He. destruct q as [|z q]; [discriminate He|].
              assert (z = x) by (destruct Hq as [s Hq]; inversion Hq; auto).
              subst z. apply is_prefix_cons in Hq.
              destruct q as [|z q]; [exact Rx|].
              replace (above ++ x :: z :: q) with ((above ++ [x]) ++ z :: q)
                by (rewrite <- app_assoc; reflexivity).
              apply H3; [exact Hq|reflexivity].
           ++ exfalso. apply (not_blocked_fresh p H2).
           ++ right. right. exists (Dir (assign x c' es)), (x :: p0), y, r.
              rewrite H1. split; [reflexivity|].
              split; [rewrite H2; reflexivity|].
              split; [cbn [makedirs]; rewrite E, H3; reflexivity|].
              split.
              ** unfold path_exists. cbn [app lookup_path]. rewrite E.
                 reflexivity.
              ** replace (above ++ (x :: p0) ++ [y])
                   with ((above ++ [x]) ++ p0 ++ [y])
                   by (rewrite <- app_assoc; reflexivity).
                 exact H5.
Qed.

(** What the call leaves, however it ends: a tree that [makedirs] gives
    for the path or for a part of it. *)
Lemma mkdir_parents_made (refused : path -> bool) (p : path) (n n' : node)
    (ok : bool) :
  mkdir_parents refused [] p n = (n', ok) ->
  n' = n
  \/ exists p0, is_prefix p0 p /\ makedirs p0 n = Some n'
               /\ (ok = true -> p0 = p).
Proof.
  intros H.
  destruct (mkdir_parents_cases refused p [] n)
    as [[c' [H1 [H2 H3]]] | [[H1 H2] | [c' [p0 [y [r [H1 [H2 [H3 [H4 H5]]]]]]]]]];
    rewrite H1 in H; inversion H; subst.
  - right. exists p. split; [apply is_prefix_refl|]. auto.
  - left. reflexivity.
  - right. exists p0. split; [exists (y :: r); reflexivity|].
    split; [exact H3|discriminate].
Qed.

(** The call returns exactly when nothing obstructs it. *)
Lemma mkdir_parents_ok (refused : path -> bool) (p : path) (n n' : node)
    (ok : bool) :
  mkdir_parents refused [] p n = (n', ok) ->
  if ok then ~ obstructed refused n p /\ makedirs p n = Some n'
  else obstructed refused n p.
Proof.
  intros H.
  destruct (mkdir_parents_cases refused p [] n)
    as [[c' [H1 [H2 H3]]] | [[H1 H2] | [c' [p0 [y [r [H1 [H2 [H3 [H4 H5]]]]]]]]]];
    rewrite H1 in H; inversion H; subst.
  - split; [|exact H2].
    intros [B|[q [Hq [He Hr]]]].
    + apply makedirs_none in B. congruence.
    + pose proof (H3 q Hq He) as X. cbn [app] in X. congruence.
  - left. exact H2.
  - right. exists (p0 ++ [y]).
    split; [exists r; rewrite <- app_assoc; reflexivity|]. auto.
Qed.

Lemma mkdir_parents_keeps (refused : path -> bool) (p : path) (n n' : node)
    (ok : bool) (q : path) (m : node) :
  mkdir_parents refused [] p n = (n', ok) -> lookup_path n q = Some m ->
  is_directory m = false -> lookup_path n' q = Some m.
Proof.
  intros H Hl Hd.
  destruct (mkdir_parents_made _ _ _ _ _ H) as [->|[p0 [_ [M _]]]];
    [exact Hl|].
  apply (makedirs_keeps p0 n n' q m M Hl Hd).
Qed.

Lemma mkdir_parents_dir_stays (refused : path -> bool) (p : path)
    (n n' : node) (ok : bool) (q : path) :
  mkdir_parents refused [] p n = (n', ok) -> is_dir n q = true ->
  is_dir n' q = true.
Proof.
  intros H Hd.
  destruct (mkdir_parents_made _ _ _ _ _ H) as [->|[p0 [_ [M _]]]];
    [exact Hd|].
  apply (makedirs_dir_stays p0 n n' q M Hd).
Qed.

Lemma mkdir_parents_other (refused : path -> bool) (p : path) (n n' : node)
    (ok : bool) (q : path) :
  mkdir_parents refused [] p n = (n', ok) -> ~ is_prefix q p ->
  lookup_path n' q = lookup_path n q.
Proof.
  intros H Hq.
  destruct (mkdir_parents_made _ _ _ _ _ H) as [->|[p0 [Hp [M _]]]];
    [reflexivity|].
  apply (lookup_makedirs_other p0 n n' q M).
  intros Hq0. apply Hq. apply (is_prefix_trans q p0 p Hq0 Hp).
Qed.

Lemma is_prefix_snoc (q d : path) (x : text) :
  is_prefix q (d ++ [x]) -> is_prefix q d \/ q = d ++ [x].
Proof.
  intros [r H]. destruct (snoc_cases r) as [->|[r' [y ->]]].
  - right. rewrite app_nil_r in H. auto.
  - left. rewrite app_assoc in H. apply app_inj_tail in H as [H _].
    exists r'. exact H.
Qed.

(** ** [DeploymentManager.__init__] *)

(** The two directories of the tool: what obstructs the second after the
    first was made obstructed it before. *)
Lemma obstructed_second (refused : path -> bool) (d : path) (a b : text)
    (n n1 : node) :
  a <> b ->
  makedirs (d ++ [a]) n = Some n1 ->
  ~ obstructed refused n (d ++ [a]) ->
  (obstructed refused n1 (d ++ [b]) <-> obstructed refused n (d ++ [b])).
Proof.
  intros Hab M Hn. split.
  - intros [B|[q [Hq [He Hr]]]].
    + left. apply (blocked_before _ _ _ _ M B).
    + right. exists q. split; [exact Hq|]. split; [|exact Hr].
      destruct (path_exists n q) eqn:E; [|reflexivity].
      rewrite (makedirs_exists _ _ _ q M E) in He. discriminate.
  - intros [B|[q [Hq [He Hr]]]].
    + left. apply (blocked_after _ _ _ _ M B).
    + destruct (is_prefix_snoc q d b Hq) as [Hd| ->].
      * exfalso. apply Hn. right. exists q.
        split; [apply is_prefix_app; exact Hd|]. auto.
      * right. exists (d ++ [b]). split; [apply is_prefix_refl|].
        split; [|exact Hr]. unfold path_exists in *.
        rewrite (lookup_makedirs_other _ _ _ (d ++ [b]) M); [exact He|].
        intros [r Hp]. destruct (snoc_cases r) as [->|[r' [y ->]]].
        -- rewrite app_nil_r in Hp. apply app_inj_tail in Hp as [_ Hp].
           congruence.
        -- rewrite !app_assoc in Hp. apply app_inj_tail in Hp as [Hp _].
           assert (L : length d = length ((d ++ [b]) ++ r')) by congruence.
           rewrite !length_app in L. cbn [length] in L. lia.
Qed.

Lemma init_manager_cases (h : host) (args : arguments) (w : world) :
  let refused := mkdir_refused (host_access h) in
  let logs := script_dir h ++ [txt "logs"] in
  let backups := script_dir h ++ [txt "backups"] in
  let kept (w' : world) :=
    (forall q n,
       lookup_path (fs w) q = Some n -> is_directory n = false ->
       lookup_path (fs w') q = Some n)
    /\ (forall q, is_dir (fs w) q = true -> is_dir (fs w') q = true)
    /\ (forall q,
          ~ is_prefix q logs -> ~ is_prefix q backups ->
          lookup_path (fs w') q = lookup_path (fs w) q)
    /\ stdin w' = stdin w /\ trace w' = trace w in
  match init_manager h args w with
  | (Done m, w') =>
      ~ obstructed refused (fs w) logs
      /\ ~ obstructed refused (fs w) backups
      /\ backup_dir m = backups
      /\ manager_access m = host_access h
      /\ is_dir (fs w') logs = true
      /\ is_dir (fs w') backups = true
      /\ kept w'
  | (Raised, w') =>
      (obstructed refused (fs w) logs \/ obstructed refused (fs w) backups)
      /\ (~ obstructed refused (fs w) logs -> is_dir (fs w') logs = true)
      /\ log w' = log w
      /\ kept w'
  | (Exit _, _) => False
  end.
Proof.
  cbv zeta. unfold init_manager. cbv zeta.
  rewrite bind_eq, get_fs_run. cbv beta iota.
  destruct (mkdir_parents (mkdir_refused (host_access h)) []
              (script_dir h ++ [txt "logs"]) (fs w)) as [f1 ok1] eqn:M1.
  rewrite bind_eq, put_fs_run. cbv beta iota.
  pose proof (mkdir_parents_ok _ _ _ _ _ M1) as O1.
  destruct ok1; cbn [negb].
  2:{ unfold evolve. cbn [fs stdin log trace]. rewrite !app_nil_r.
      split; [left; exact O1|].
      split; [intros Hn; contradiction|].
      split; [reflexivity|]. split.
      { intros q n. apply (mkdir_parents_keeps _ _ _ _ _ q n M1). }
      split.
      { intros q. apply (mkdir_parents_dir_stays _ _ _ _ _ q M1). }
      split; [|split; reflexivity].
      intros q H1 _. apply (mkdir_parents_other _ _ _ _ _ q M1 H1). }
  destruct O1 as [N1 Mk1].
  unfold evolve at 1. cbn [fs stdin log trace].
  destruct (mkdir_parents (mkdir_refused (host_access h)) []
              (script_dir h ++ [txt "backups"]) f1) as [f2 ok2] eqn:M2.
  rewrite bind_eq, put_fs_run. cbv beta iota.
  pose proof (mkdir_parents_ok _ _ _ _ _ M2) as O2.
  assert (Hne : txt "logs" <> txt "backups") by discriminate.
  pose proof (obstructed_second (mkdir_refused (host_access h))
                (script_dir h) (txt "logs") (txt "backups") (fs w) f1
                Hne Mk1 N1) as Hsec.
  assert (Kept :
    (forall q n,
       lookup_path (fs w) q = Some n -> is_directory n = false ->
       lookup_path f2 q = Some n)
    /\ (forall q, is_dir (fs w) q = true -> is_dir f2 q = true)
    /\ (forall q,
          ~ is_prefix q (script_dir h ++ [txt "logs"]) ->
          ~ is_prefix q (script_dir h ++ [txt "backups"]) ->
          lookup_path f2 q = lookup_path (fs w) q)).
  { split; [|split].
    - intros q n Hl Hd. apply (mkdir_parents_keeps _ _ _ _ _ q n M2); [|exact Hd].
      apply (mkdir_parents_keeps _ _ _ _ _ q n M1); assumption.
    - intros q Hd. apply (mkdir_parents_dir_stays _ _ _ _ _ q M2).
      apply (mkdir_parents_dir_stays _ _ _ _ _ q M1). exact Hd.
    - intros q H1 H2. rewrite (mkdir_parents_other _ _ _ _ _ q M2 H2).
      apply (mkdir_parents_other _ _ _ _ _ q M1 H1). }
  assert (Hlogs : is_dir f2 (script_dir h ++ [txt "logs"]) = true).
  { apply (mkdir_parents_dir_stays _ _ _ _ _ _ M2).
    apply (makedirs_is_dir _ _ _ Mk1). }
  destruct ok2; cbn [negb].
  2:{ unfold evolve. cbn [fs stdin log trace]. rewrite !app_nil_r.
      split; [right; apply Hsec; exact O2|].
      split; [intros _; exact Hlogs|]. split; [reflexivity|].
      destruct Kept as [A [B C]]. repeat split; assumption. }
  rewrite bind_eq, logm_run. cbv beta iota. rewrite ret_run.
  unfold evolve. cbn [fs stdin log trace backup_dir manager_access].
  rewrite !app_nil_r.
  destruct O2 as [N2 Mk2].
  split; [exact N1|]. split.
  { intros Hn. apply Hsec in Hn. contradiction. }
  split; [reflexivity|]. split; [reflexivity|]. split; [exact Hlogs|].
  split; [apply (makedirs_is_dir _ _ _ Mk2)|].
  destruct Kept as [A [B C]]. repeat split; assumption.
Qed.

(** ** [handle_git_operations] *)

Lemma handle_git_unavailable (h : host) (apps : list text) (w : world) :
  git_available h = false ->
  handle_git_operations h apps w
  = (Done false,
     mkWorld (fs w) (stdin w)
       (log w ++ [(INFO, txt "Git not available - skipping git operations")])
       (trace w)).
Proof.
  intros H. unfold handle_git_operations. rewrite H. cbn [negb].
  rewrite bind_eq. unfold logm. cbv beta iota. reflexivity.
Qed.

Lemma handle_git_answered (h : host) (apps : list text) (f : node)
    (raw : text) (rest : list keyboard) lg tr :
  git_available h = true ->
  exists lg',
    handle_git_operations h apps (mkWorld f (Typed raw :: rest) lg tr)
    = (Done (is_yes (lower (strip raw)) && git_add_ok h && git_has_changes h
             && git_commit_ok h),
       mkWorld
         (if is_yes (lower (strip raw)) then
            if git_add_ok h && git_has_changes h
            then git_commit_writes h (git_add_writes h f)
            else git_add_writes h f
          else f)
         rest (lg ++ lg') tr).
Proof.
  intros H. unfold handle_git_operations. rewrite H. cbn [negb].
  rewrite bind_eq, input_run. cbv beta iota zeta.
  destruct (is_yes (lower (strip raw))); cbn [andb].
  2:{ rewrite bind_eq. unfold logm, ret. cbn [fs stdin log trace].
      eexists. reflexivity. }
  run_monad.
  destruct (git_add_ok h); cbn [negb andb].
  2:{ run_monad. rewrite <- app_assoc. eexists. reflexivity. }
  destruct (git_has_changes h); cbn [andb].
  2:{ run_monad. rewrite <- app_assoc. eexists. reflexivity. }
  run_monad.
  destruct (git_commit_ok h); run_monad;
    rewrite <- app_assoc; eexists; reflexivity.
Qed.

(** ** [prompt_for_splunk_home] *)

Lemma prompt_for_splunk_home_typed (h : host) (f : node) (raw : text)
    (rest : list keyboard) lg tr :
  let home := if is_empty (strip raw) then default_splunk_home (host_os h)
              else parse_path (cwd h) (strip raw) in
  exists lg',
    prompt_for_splunk_home h (mkWorld f (Typed raw :: rest) lg tr)
    = (if stat_refused (host_access h) home then Raised
       else if path_exists f home then Done home else Exit 1,
       mkWorld f rest (lg ++ lg') tr).
Proof.
  cbv zeta. unfold prompt_for_splunk_home. rewrite bind_eq, input_run.
  cbv beta iota zeta. destruct (is_empty (strip raw)); run_monad.
  - destruct (stat_refused (host_access h) (default_splunk_home (host_os h))).
    + eexists. reflexivity.
    + destruct (path_exists f (default_splunk_home (host_os h))).
      * eexists. reflexivity.
      * rewrite <- app_assoc. eexists. reflexivity.
  - destruct (stat_refused (host_access h) (parse_path (cwd h) (strip raw))).
    + exists []. rewrite app_nil_r. reflexivity.
    + destruct (path_exists f (parse_path (cwd h) (strip raw))).
      * exists []. rewrite app_nil_r. reflexivity.
      * eexists. reflexivity.
Qed.

(** ** An app of the menu and [validate_app_structure] *)

Lemma path_exists_above (f : node) (p r : path) :
  path_exists f (p ++ r) = true -> path_exists f p = true.
Proof.
  unfold path_exists. rewrite lookup_path_app.
  destruct (lookup_path f p); [reflexivity|discriminate].
Qed.

Lemma listed_app_deployable (f : node) (src : path) (acc : access)
    (names : list text) (app : text) :
  list_available_apps f src acc = Some names -> In app names ->
  is_dir f (src ++ [app]) = true
  /\ path_exists f (src ++ [app] ++ app_conf) = true.
Proof.
  intros H. destruct (list_available_apps_some _ _ _ _ H) as [_ [[_ ->]|D]].
  - intros [].
  - destruct D as [es [_ [_ [_ ->]]]]. rewrite sorted_In, filter_In.
    intros [_ X]. apply andb_true_iff in X. exact X.
Qed.

Lemma validate_result_listed (f : node) (src : path) (acc : access)
    (names : list text) (app : text) :
  list_available_apps f src acc = Some names -> In app names ->
  fst (fst (fst (validate_result src app f)))
  = path_exists f (src ++ [app] ++ default_meta).
Proof.
  intros Hl Hin.
  destruct (listed_app_deployable f src acc names app Hl Hin) as [_ Hc].
  assert (Hd : path_exists f ((src ++ [app]) ++ [txt "default"]) = true).
  { apply (path_exists_above f _ [txt "app.conf"]).
    rewrite <- !app_assoc. exact Hc. }
  assert (Hc' : path_exists f ((src ++ [app]) ++ app_conf) = true)
    by (rewrite <- app_assoc; exact Hc).
  unfold validate_result, required_dirs, required_files.
  cbn [first_missing]. rewrite Hd, Hc'.
  replace (src ++ [app] ++ default_meta) with ((src ++ [app]) ++ default_meta)
    by (rewrite <- app_assoc; reflexivity).
  destruct (path_exists f ((src ++ [app]) ++ [txt "metadata"])) eqn:Em.
  - destruct (path_exists f ((src ++ [app]) ++ default_meta)); reflexivity.
  - cbn [fst]. symmetry. destruct (path_exists f ((src ++ [app]) ++ default_meta))
      eqn:E; [|reflexivity].
    assert (path_exists f ((src ++ [app]) ++ [txt "metadata"]) = true).
    { apply (path_exists_above f _ [txt "default.meta"]).
      rewrite <- app_assoc. exact E. }
    congruence.
Qed.

(** * The loop of [run]: what it leaves behind *)

Lemma bind_done {A B} (m : M A) (k : A -> M B) (w w' : world) (b : B) :
  bind m k w = (Done b, w') ->
  exists a w1, m w = (Done a, w1) /\ k a w1 = (Done b, w').
Proof.
  rewrite bind_eq. destruct (m w) as [[a|c|] w1]; try discriminate.
  intros H. exists a, w1. split; [reflexivity|exact H].
Qed.

Lemma prompt_for_version_fs (app cur : text) (w w1 : world) o :
  prompt_for_version app cur w = (o, w1) -> fs w1 = fs w.
Proof.
  intros H.
  assert (K : keeps (fun a b => fs b = fs a) (prompt_for_version app cur)).
  { apply keeps_prompt_for_version.
    - reflexivity.
    - intros a b c H1 H2. congruence.
    - reflexivity.
    - reflexivity. }
  apply (K w o w1 H).
Qed.

Lemma deployed_as_ext (m : manager) (dir : path) (f f' : node) (a v : text) :
  lookup_path f' (dir ++ [a]) = lookup_path f (dir ++ [a]) ->
  lookup_path f' (apps_source_dir m ++ [a])
  = lookup_path f (apps_source_dir m ++ [a]) ->
  deployed_as m dir f a v -> deployed_as m dir f' a v.
Proof.
  intros Ht Hs [[es [T S]] [Hr Hv]]. split; [|split].
  - exists es. rewrite Ht, Hs. auto.
  - intros r Hin. specialize (Hr r Hin). unfold path_exists in *.
    rewrite app_assoc in Hr. rewrite app_assoc.
    rewrite (lookup_path_app (dir ++ [a]) r) in Hr.
    rewrite (lookup_path_app (dir ++ [a]) r), Ht. exact Hr.
  - intros Tv. rewrite <- (Hv Tv). apply get_current_version_ext.
    rewrite !app_assoc. rewrite !(lookup_path_app (dir ++ [a]) app_conf).
    rewrite Ht. reflexivity.
Qed.

Section Loop.
Variable m : manager.
Variable dir : path.
Hypothesis source_apart : apart (apps_source_dir m) dir.
Hypothesis backups_apart : apart (backup_dir m) dir.
Hypothesis backups_source : apart (backup_dir m) (apps_source_dir m).

(** The deployment of one app leaves the directories of another app as
    they are. *)
Lemma deploy_result_other (a b v : text) (env : unit_env) (f f3 : node)
    ok lg ops :
  deploy_result m b (dir ++ [b]) v env f = (ok, f3, lg, ops) ->
  a <> b ->
  lookup_path f3 (dir ++ [a]) = lookup_path f (dir ++ [a])
  /\ lookup_path f3 (apps_source_dir m ++ [a])
     = lookup_path f (apps_source_dir m ++ [a]).
Proof.
  intros H Hne. split.
  - apply (deploy_result_frame _ _ _ _ _ _ _ _ _ _ _ H).
    + unfold archive_path. apply apart_below_both. exact backups_apart.
    + apply apart_below_both. exact source_apart.
    + apply apart_common. apply apart_heads. congruence.
  - apply (deploy_result_frame _ _ _ _ _ _ _ _ _ _ _ H).
    + unfold archive_path. apply apart_below_both. exact backups_source.
    + apply apart_common.
      change ([b] ++ app_conf) with (b :: app_conf).
      apply apart_heads. congruence.
    + apply apart_below_both. apply apart_sym. exact source_apart.
Qed.

(** The app that was deployed. *)
Lemma deploy_result_deployed_as (a v : text) (env : unit_env) (f f3 : node)
    lg ops :
  deploy_result m a (dir ++ [a]) v env f = (true, f3, lg, ops) ->
  deployed_as m dir f3 a v.
Proof.
  intros H.
  assert (Hst : apart (apps_source_dir m ++ [a]) (dir ++ [a]))
    by (apply apart_below_both; exact source_apart).
  assert (Hbs : apart (backup_dir m) (apps_source_dir m ++ [a])).
  { rewrite <- (app_nil_r (backup_dir m)). apply apart_below_both.
    exact backups_source. }
  destruct (deploy_result_required _ _ _ _ _ _ _ _ _ H Hst Hbs) as [_ Hreq].
  apply deploy_result_true in H
    as [lg1 [f1 [lg2 [ops2 [f2 [lg3 [ops3 [lg4 [ops4 [_ [_ [U R]]]]]]]]]]]].
  destruct (replace_result_copy _ _ _ _ _ _ _ _ R Hst) as [es [S2 [S3 T3]]].
  split; [|split].
  - exists es. auto.
  - intros r Hr. rewrite app_assoc. apply Hreq. exact Hr.
  - intros Hv. rewrite <- (update_result_version _ _ _ _ _ _ _ _ Hv U).
    apply get_current_version_ext.
    rewrite (app_assoc dir), (app_assoc (apps_source_dir m)).
    rewrite (lookup_path_app (dir ++ [a]) app_conf),
      (lookup_path_app (apps_source_dir m ++ [a]) app_conf), S2, T3.
    reflexivity.
Qed.

(** What is added to the list after [deploy_app]. *)
Lemma report_step (b v : text) (ok : bool) (acc d : list (text * text))
    (w w' : world) :
  (if ok then
     validated <- validate_deployment b (dir ++ [b]) ;;
     if validated then
       logm SUCCESS (b ++ txt " v" ++ v ++ txt " deployed and validated") ;;;
       ret (acc ++ [(b, v)])
     else
       logm ERROR (b ++ txt " deployment validation failed") ;;;
       ret acc
   else
     logm ERROR (b ++ txt " deployment failed") ;;;
     ret acc) w = (Done d, w') ->
  fs w' = fs w /\ (d = acc \/ (ok = true /\ d = acc ++ [(b, v)])).
Proof.
  destruct ok.
  - intros H. apply bind_done in H as [validated [w1 [Hv H]]].
    rewrite validate_deployment_run in Hv.
    assert (F1 : fs w1 = fs w).
    { unfold validate_deployment_result in Hv. cbv zeta in Hv.
      destruct (negb (path_exists (fs w) (dir ++ [b]))).
      - inversion Hv; reflexivity.
      - destruct (first_missing (fs w) (dir ++ [b]) required_files);
          inversion Hv; reflexivity. }
    destruct validated; apply bind_done in H as [u [w2 [Hl H]]];
      inversion Hl; subst; inversion H; subst; cbn [fs]; auto.
  - intros H. apply bind_done in H as [u [w2 [Hl H]]].
    inversion Hl; subst. inversion H; subst. cbn [fs]. auto.
Qed.

Lemma deploy_selected_state (envs : nat -> unit_env) (selected : list text) :
  forall i acc w deployed w',
    NoDup selected ->
    (forall a v, In (a, v) acc ->
                 ~ In a selected /\ deployed_as m dir (fs w) a v) ->
    deploy_selected m dir envs i selected acc w = (Done deployed, w') ->
    forall a v, In (a, v) deployed -> deployed_as m dir (fs w') a v.
Proof.
  induction selected as [|b rest IH]; intros i acc w deployed w' Hnd Hacc H.
  - cbn [deploy_selected] in H. inversion H; subst.
    intros a v Hin. apply (Hacc a v Hin).
  - inversion Hnd as [|? ? Hnb Hnd']; subst.
    cbn [deploy_selected] in H. cbv zeta in H.
    apply bind_done in H as [f [w0 [H0 H]]]. inversion H0; subst f w0.
    destruct (get_current_version (fs w) (apps_source_dir m) b _ _)
      as [current|]; [|discriminate H].
    apply bind_done in H as [v [w1 [Hp H]]].
    apply prompt_for_version_fs in Hp.
    apply bind_done in H as [ok [w2 [Hd H]]].
    rewrite deploy_app_run in Hd.
    destruct (deploy_result m b (dir ++ [b]) v (envs i) (fs w1))
      as [[[ok' f3] lg] ops] eqn:R.
    unfold apply_effect in Hd. inversion Hd; subst ok' w2. clear Hd.
    apply bind_done in H as [d [w3 [Hr H]]].
    apply report_step in Hr as [F3 Hd]. cbn [fs evolve] in F3.
    apply (IH (S i) d w3 deployed w' Hnd'); [|exact H].
    intros a x Hin.
    assert (Hold : In (a, x) acc ->
                   ~ In a rest /\ deployed_as m dir (fs w3) a x).
    { intros Ha. destruct (Hacc a x Ha) as [Hn Hda]. split.
      - intros Hr. apply Hn. right. exact Hr.
      - assert (Hne : a <> b) by (intros ->; apply Hn; left; reflexivity).
        destruct (deploy_result_other a b v (envs i) _ _ _ _ _ R Hne)
          as [E1 E2].
        rewrite F3. rewrite Hp in E1, E2.
        apply (deployed_as_ext m dir (fs w) f3 a x E1 E2 Hda). }
    destruct Hd as [->|[-> ->]]; [apply Hold; exact Hin|].
    apply in_app_or in Hin as [Hin|[Hin|[]]]; [apply Hold; exact Hin|].
    inversion Hin; subst a x. split; [exact Hnb|].
    rewrite F3. apply (deploy_result_deployed_as b v (envs i) _ _ _ _ R).
Qed.
End Loop.

(** ** The tree that a deployment replaces *)

Lemma store_archive_same (f f' : node) (archive : path) app tree c :
  store_archive f archive app tree c = Some f' ->
  lookup_path f' archive = Some (Tarball app tree c).
Proof.
  unfold store_archive. destruct (is_dir f archive); [discriminate|].
  apply lookup_store_same.
Qed.

Lemma deploy_result_keeps_tree (m : manager) (app : text) (dir : path)
    (version : text) (env : unit_env) (f f3 : node) ok lg ops (tree : node) :
  deploy_result m app (dir ++ [app]) version env f = (ok, f3, lg, ops) ->
  lookup_path f (dir ++ [app]) = Some tree ->
  apart (backup_dir m) (apps_source_dir m ++ [app]) ->
  apart (backup_dir m) (dir ++ [app]) ->
  lookup_path f3 (dir ++ [app]) = Some tree
  \/ lookup_path f3 (archive_path m app env) = Some (Tarball app tree true).
Proof.
  intros H Ht Hs Hd.
  assert (A1 : apart (archive_path m app env) (dir ++ [app])).
  { unfold archive_path. rewrite <- (app_nil_r (dir ++ [app])).
    apply apart_below_both. exact Hd. }
  assert (A2 : apart (apps_source_dir m ++ [app] ++ app_conf)
                 (archive_path m app env)).
  { unfold archive_path. rewrite (app_assoc (apps_source_dir m)).
    apply apart_sym. apply apart_below_both. exact Hs. }
  unfold deploy_result in H. rewrite parent_join in H.
  destruct (validate_result _ app f) as [[[b1 f0] lg1] ops1].
  destruct b1; [|inversion H; subst; left; exact Ht].
  destruct (backup_result m app dir env f) as [[[b2 f1] lg2] ops2] eqn:B.
  destruct (backup_result_present _ _ _ _ _ _ _ _ _ _ Ht B)
    as [[-> [-> S]] | [[-> [-> ->]] | [-> [-> S]]]].
  - apply store_archive_same in S.
    destruct (update_result _ app version env f1) as [[[b3 f2] lg3] ops3] eqn:U.
    pose proof (update_result_frame _ _ _ _ _ _ _ _ _ _ U A2) as E2.
    destruct b3; [|inversion H; subst; right; congruence].
    destruct (replace_result m app (dir ++ [app]) env f2)
      as [[[b4 f4] lg4] ops4] eqn:R.
    pose proof (replace_result_frame _ _ _ _ _ _ _ _ _ _ R (apart_sym _ _ A1))
      as E3.
    inversion H; subst. right. congruence.
  - inversion H; subst. left. exact Ht.
  - inversion H; subst. left. rewrite <- Ht.
    apply (store_archive_other _ _ _ _ _ _ _ S A1).
Qed.

(** * [_set_app_permissions] *)

(** ** Trees *)

Lemma node_nested_ind (P : node -> Prop) :
  (forall c, P (File c)) ->
  (forall a t c, P (Tarball a t c)) ->
  (forall es, Forall (fun kv => P (snd kv)) es -> P (Dir es)) ->
  forall n, P n.
Proof.
  intros HF HT HD. fix IH 1. intros [c|a t c|es].
  - apply HF.
  - apply HT.
  - apply HD. induction es as [|kv es IHes]; constructor.
    + apply IH.
    + exact IHes.
Qed.

Lemma distinct_NoDup (l : list text) : distinct l = true -> NoDup l.
Proof.
  induction l as [|x l IH]; cbn [distinct]; intros H; constructor.
  - apply andb_true_iff in H as [H _]. apply negb_true_iff in H.
    intros Hin. assert (existsb (text_eqb x) l = true).
    { apply existsb_exists. exists x. split; [exact Hin|apply text_eqb_refl]. }
    congruence.
  - apply IH. apply andb_true_iff in H as [_ H]. exact H.
Qed.

Lemma In_lookup {V} (k : text) (v : V) (d : dict V) :
  NoDup (map fst d) -> In (k, v) d -> lookup k d = Some v.
Proof.
  induction d as [|[k0 v0] d IH]; [intros _ []|].
  cbn [map fst]. intros Hnd [E|Hin].
  - inversion E; subst. cbn [lookup]. rewrite text_eqb_refl. reflexivity.
  - inversion Hnd as [|? ? Hn Hnd']; subst. cbn [lookup].
    destruct (text_eqb k0 k) eqn:E.
    + apply text_eqb_eq in E. subst k0. exfalso. apply Hn.
      apply in_map_iff. exists (k, v). split; [reflexivity|exact Hin].
    + apply IH; assumption.
Qed.

Lemma well_formed_below (p : path) : forall (n c : node),
  well_formed n = true -> lookup_path n p = Some c -> well_formed c = true.
Proof.
  induction p as [|x p IH]; intros n c Hw Hl.
  - cbn in Hl. inversion Hl; subst. exact Hw.
  - destruct n as [?|? ? ?|es]; try discriminate. cbn [lookup_path] in Hl.
    destruct (lookup x es) as [child|] eqn:E; [|discriminate].
    apply (IH child c); [|exact Hl].
    cbn [well_formed] in Hw. apply andb_true_iff in Hw as [_ Hw].
    rewrite forallb_forall in Hw. apply (Hw (x, child)).
    apply lookup_In. exact E.
Qed.

(** ** The mode of a file goes by its name *)

Lemma ends_with_cons (suf : text) (c : ascii) (s : text) :
  ends_with suf (c :: s) = text_eqb (c :: s) suf || ends_with suf s.
Proof. reflexivity. Qed.

Lemma ends_with_after_slash (suf pre name : text) :
  ~ In "/" suf ->
  ends_with suf (pre ++ "/" :: name) = ends_with suf name.
Proof.
  intros Hs.
  assert (Hne : forall a b, text_eqb (a ++ "/" :: b) suf = false).
  { intros a b. apply text_eqb_neq. intros E. apply Hs. rewrite <- E.
    apply in_or_app. right. left. reflexivity. }
  induction pre as [|c pre IH].
  - pose proof (Hne [] name) as H0. cbn [app] in *.
    rewrite ends_with_cons, H0. reflexivity.
  - pose proof (Hne (c :: pre) name) as H0. cbn [app] in *.
    rewrite ends_with_cons, H0. exact IH.
Qed.

Lemma render_path_snoc (p : path) (name : text) :
  exists pre, render_path (p ++ [name]) = pre ++ "/" :: name.
Proof.
  unfold render_path. destruct p as [|x p].
  - exists []. reflexivity.
  - exists (txt "/" ++ join (txt "/") (x :: p)).
    rewrite join_snoc by discriminate. rewrite <- !app_assoc. reflexivity.
Qed.

Lemma file_mode_name (p : path) (name : text) :
  file_mode (render_path (p ++ [name]))
  = if ends_with (txt ".py") name || ends_with (txt ".sh") name
    then mode_exec else mode_plain.
Proof.
  destruct (render_path_snoc p name) as [pre ->]. unfold file_mode.
  rewrite !ends_with_after_slash; [reflexivity| |].
  - cbn. intros [H|[H|[H|[]]]]; discriminate.
  - cbn. intros [H|[H|[H|[]]]]; discriminate.
Qed.

(** ** The calls of the plan *)

Lemma chmods_of_top (root : path) (es : dict node) (p : path) (md : nat) :
  In (p, md)
    (chmods_of
       (root, map fst (filter (fun kv => is_directory (snd kv)) es),
        map fst (filter (fun kv => negb (is_directory (snd kv))) es)))
  <-> exists k c, In (k, c) es /\ p = root ++ [k] /\ md = entry_mode k c.
Proof.
  unfold chmods_of. rewrite in_app_iff, !map_map, !in_map_iff. split.
  - intros [[[k c] [E H]]|[[k c] [E H]]]; apply filter_In in H as [Hin Hd];
      cbn [fst snd] in *; inversion E; subst; exists k, c;
      (split; [exact Hin|]); (split; [reflexivity|]); unfold entry_mode.
    + rewrite Hd. reflexivity.
    + apply negb_true_iff in Hd. rewrite Hd. apply file_mode_name.
  - intros [k [c [Hin [-> ->]]]]. unfold entry_mode.
    destruct (is_directory c) eqn:Hd.
    + left. exists (k, c). split; [reflexivity|].
      apply filter_In. split; [exact Hin|exact Hd].
    + right. exists (k, c). cbn [fst snd]. split.
      * rewrite file_mode_name. reflexivity.
      * apply filter_In. split; [exact Hin|]. cbn [snd]. rewrite Hd.
        reflexivity.
Qed.

Lemma walk_dir (root : path) (es : dict node) :
  flat_map chmods_of (walk root (Dir es))
  = chmods_of
      (root, map fst (filter (fun kv => is_directory (snd kv)) es),
       map fst (filter (fun kv => negb (is_directory (snd kv))) es))
    ++ flat_map
         (fun kv => flat_map chmods_of (walk (root ++ [fst kv]) (snd kv))) es.
Proof.
  cbn [walk flat_map]. f_equal.
  induction es as [|kv es IH]; [reflexivity|].
  cbn [flat_map]. rewrite flat_map_app, IH. reflexivity.
Qed.

Lemma last_cons_nonempty {A} (x : A) (l : list A) (d : A) :
  l <> [] -> last (x :: l) d = last l d.
Proof. destruct l; [contradiction|reflexivity]. Qed.

(** Every entry below the root has its call, with the mode of the entry. *)
Lemma plan_complete (q : path) : forall (root : path) (n c : node),
  q <> [] -> lookup_path n q = Some c ->
  In (root ++ q, entry_mode (last q []) c)
    (flat_map chmods_of (walk root n)).
Proof.
  induction q as [|k q IH]; [contradiction|]. intros root n c _ Hl.
  destruct n as [?|? ? ?|es]; try discriminate. cbn [lookup_path] in Hl.
  destruct (lookup k es) as [child|] eqn:E; [|discriminate].
  apply lookup_In in E. rewrite walk_dir. apply in_or_app.
  destruct q as [|k' q'].
  - left. cbn in Hl. inversion Hl; subst c. apply chmods_of_top.
    exists k, child. cbn [last]. auto.
  - right. apply in_flat_map. exists (k, child). split; [exact E|].
    cbn [fst snd]. rewrite last_cons_nonempty by discriminate.
    replace (root ++ k :: k' :: q') with ((root ++ [k]) ++ k' :: q')
      by (rewrite <- app_assoc; reflexivity).
    apply IH; [discriminate|exact Hl].
Qed.

(** Every call is for an entry below the root. *)
Lemma plan_sound (n : node) : forall (root p : path) (md : nat),
  well_formed n = true ->
  In (p, md) (flat_map chmods_of (walk root n)) ->
  exists q c,
    q <> [] /\ p = root ++ q /\ lookup_path n q = Some c
    /\ md = entry_mode (last q []) c.
Proof.
  induction n as [c|a t c|es IH] using node_nested_ind;
    intros root p md Hw Hin; try (destruct Hin; fail).
  cbn [well_formed] in Hw. apply andb_true_iff in Hw as [Hd Hall].
  apply distinct_NoDup in Hd. rewrite forallb_forall in Hall.
  rewrite walk_dir in Hin. apply in_app_or in Hin as [Hin|Hin].
  - apply chmods_of_top in Hin as [k [c [Hk [-> ->]]]].
    exists [k], c. split; [discriminate|]. split; [reflexivity|].
    split; [|reflexivity]. cbn [lookup_path].
    rewrite (In_lookup k c es Hd Hk). reflexivity.
  - apply in_flat_map in Hin as [[k child] [Hk Hin]]. cbn [fst snd] in Hin.
    rewrite Forall_forall in IH.
    destruct (IH (k, child) Hk (root ++ [k]) p md (Hall _ Hk) Hin)
      as [q [c [Hq [-> [Hl ->]]]]].
    exists (k :: q), c. split; [discriminate|]. split.
    + rewrite <- app_assoc. reflexivity.
    + split.
      * cbn [lookup_path]. rewrite (In_lookup k child es Hd Hk). exact Hl.
      * rewrite last_cons_nonempty by exact Hq. reflexivity.
Qed.

(** ** No entry has two calls *)

Lemma NoDup_map_injective {A B} (f : A -> B) (l : list A) :
  (forall x y, f x = f y -> x = y) -> NoDup l -> NoDup (map f l).
Proof.
  intros Hf. induction 1 as [|x l Hn Hnd IH]; cbn [map]; constructor.
  - intros Hin. apply in_map_iff in Hin as [y [E Hy]].
    apply Hf in E. subst y. contradiction.
  - exact IH.
Qed.

Lemma NoDup_append {A} (l l' : list A) :
  NoDup l -> NoDup l' -> (forall x, In x l -> ~ In x l') -> NoDup (l ++ l').
Proof.
  induction 1 as [|x l Hn Hnd IH]; intros Hl' Hd; [exact Hl'|].
  cbn [app]. constructor.
  - intros Hin. apply in_app_or in Hin as [Hin|Hin]; [contradiction|].
    apply (Hd x); [left; reflexivity|exact Hin].
  - apply IH; [exact Hl'|]. intros y Hy. apply Hd. right. exact Hy.
Qed.

Lemma keys_split (keep : text * node -> bool) (es : dict node) :
  NoDup (map fst es) ->
  NoDup (map fst (filter keep es)
         ++ map fst (filter (fun kv => negb (keep kv)) es)).
Proof.
  intros Hnd. apply NoDup_append.
  - induction es as [|kv es IH]; [constructor|].
    inversion Hnd as [|? ? Hn Hnd']; subst. cbn [filter].
    destruct (keep kv); [|apply IH; exact Hnd'].
    cbn [map]. constructor; [|apply IH; exact Hnd'].
    intros Hin. apply Hn. apply in_map_iff in Hin as [kv' [E Hin]].
    apply filter_In in Hin as [Hin _]. apply in_map_iff. exists kv'. auto.
  - induction es as [|kv es IH]; [constructor|].
    inversion Hnd as [|? ? Hn Hnd']; subst. cbn [filter].
    destruct (negb (keep kv)); [|apply IH; exact Hnd'].
    cbn [map]. constructor; [|apply IH; exact Hnd'].
    intros Hin. apply Hn. apply in_map_iff in Hin as [kv' [E Hin]].
    apply filter_In in Hin as [Hin _]. apply in_map_iff. exists kv'. auto.
  - intros k H1 H2.
    apply in_map_iff in H1 as [[k1 c1] [E1 H1]].
    apply in_map_iff in H2 as [[k2 c2] [E2 H2]].
    apply filter_In in H1 as [H1 K1]. apply filter_In in H2 as [H2 K2].
    cbn [fst] in E1, E2. subst k1 k2.
    pose proof (In_lookup k c1 es Hnd H1) as L1.
    pose proof (In_lookup k c2 es Hnd H2) as L2.
    assert (c1 = c2) by congruence. subst c2.
    rewrite K1 in K2. discriminate.
Qed.

Lemma chmods_of_paths (root : path) (dirs files : list text) :
  map fst (chmods_of (root, dirs, files))
  = map (fun k => root ++ [k]) (dirs ++ files).
Proof.
  unfold chmods_of. rewrite !map_app, !map_map. reflexivity.
Qed.

Lemma plan_distinct (n : node) : forall (root : path),
  well_formed n = true ->
  NoDup (map fst (flat_map chmods_of (walk root n))).
Proof.
  induction n as [c|a t c|es IH] using node_nested_ind;
    intros root Hw; try constructor.
  pose proof Hw as Hw'.
  cbn [well_formed] in Hw. apply andb_true_iff in Hw as [Hd Hall].
  apply distinct_NoDup in Hd.
  rewrite walk_dir, map_app. apply NoDup_append.
  - rewrite chmods_of_paths. apply NoDup_map_injective.
    + intros x y E. apply app_inv_head in E. inversion E. reflexivity.
    + apply keys_split. exact Hd.
  - clear Hw'. induction es as [|[k child] es IHes]; [constructor|].
    inversion IH as [|? ? IHk IHrest]; subst.
    inversion Hd as [|? ? Hn Hd']; subst.
    cbn [forallb snd] in Hall. apply andb_true_iff in Hall as [Hwk Hall].
    cbn [flat_map fst snd]. rewrite map_app. apply NoDup_append.
    + apply IHk. exact Hwk.
    + apply IHes; assumption.
    + intros p H1 H2.
      apply in_map_iff in H1 as [[p1 md1] [E1 H1]]. cbn [fst] in E1. subst p1.
      apply (plan_sound child _ _ _ Hwk) in H1 as [q [c [_ [-> _]]]].
      apply in_map_iff in H2 as [[p2 md2] [E2 H2]]. cbn [fst] in E2.
      apply in_flat_map in H2 as [[k' child'] [Hk' H2]]. cbn [fst snd] in H2.
      rewrite forallb_forall in Hall.
      apply (plan_sound child' _ _ _ (Hall _ Hk')) in H2
        as [q' [c' [_ [-> _]]]].
      rewrite <- !app_assoc in E2. apply app_inv_head in E2.
      cbn [app] in E2. inversion E2; subst k'.
      apply Hn. apply in_map_iff. exists (k, child'). auto.
  - intros p H1 H2. rewrite chmods_of_paths in H1.
    apply in_map_iff in H1 as [k [<- _]].
    apply in_map_iff in H2 as [[p2 md2] [E2 H2]]. cbn [fst] in E2.
    apply in_flat_map in H2 as [[k' child'] [Hk' H2]]. cbn [fst snd] in H2.
    rewrite forallb_forall in Hall.
    apply (plan_sound child' _ _ _ (Hall _ Hk')) in H2
      as [q' [c' [Hq' [-> _]]]].
    rewrite <- app_assoc in E2. apply app_inv_head in E2.
    cbn [app] in E2. inversion E2; subst. contradiction.
Qed.

(** ** Calls that fail *)

Lemma until_failure_none (fails : path -> bool) (calls : list (path * nat)) :
  (forall c, In c calls -> fails (fst c) = false) ->
  until_failure fails calls = (calls, true).
Proof.
  induction calls as [|c calls IH]; intros H; [reflexivity|].
  cbn [until_failure]. rewrite (H c) by (left; reflexivity).
  rewrite IH; [reflexivity|]. intros c' Hc. apply H. right. exact Hc.
Qed.

Lemma until_failure_prefix (fails : path -> bool) (calls : list (path * nat)) :
  forall made ok,
    until_failure fails calls = (made, ok) ->
    exists rest,
      calls = made ++ rest
      /\ Forall (fun c => fails (fst c) = false) made
      /\ (if ok then rest = []
          else exists c r, rest = c :: r /\ fails (fst c) = true).
Proof.
  induction calls as [|c calls IH]; intros made ok H.
  - inversion H; subst. exists []. split; [reflexivity|].
    split; [constructor|reflexivity].
  - cbn [until_failure] in H. destruct (fails (fst c)) eqn:F.
    + inversion H; subst. exists (c :: calls). split; [reflexivity|].
      split; [constructor|]. exists c, calls. auto.
    + destruct (until_failure fails calls) as [made' ok'] eqn:U.
      inversion H; subst. destruct (IH made' ok eq_refl) as [rest [E [Hm Hr]]].
      exists rest. split; [cbn [app]; rewrite <- E; reflexivity|].
      split; [constructor; assumption|exact Hr].
Qed.

Lemma chmod_plan_calls (f : node) (app_dir : path) :
  well_formed f = true ->
  NoDup (map fst (chmod_plan f app_dir))
  /\ forall p md,
       In (p, md) (chmod_plan f app_dir) <->
       exists q c,
         q <> [] /\ p = app_dir ++ q /\ lookup_path f p = Some c
         /\ md = entry_mode (last q []) c.
Proof.
  intros Hw. unfold chmod_plan.
  destruct (lookup_path f app_dir) as [n|] eqn:E.
  - pose proof (well_formed_below app_dir f n Hw E) as Hn. split.
    + apply plan_distinct. exact Hn.
    + intros p md. split.
      * intros H. apply (plan_sound n _ _ _ Hn) in H
          as [q [c [Hq [-> [Hl ->]]]]].
        exists q, c. split; [exact Hq|]. split; [reflexivity|].
        split; [|reflexivity]. rewrite lookup_path_app, E. exact Hl.
      * intros [q [c [Hq [-> [Hl ->]]]]]. rewrite lookup_path_app, E in Hl.
        apply plan_complete; assumption.
  - split; [constructor|]. intros p md. split; [intros []|].
    intros [q [c [_ [-> [Hl _]]]]]. rewrite lookup_path_app, E in Hl.
    discriminate.
Qed.

Lemma set_app_permissions_run (fails : path -> bool) (app_dir : path)
    (w : world) :
  set_app_permissions fails app_dir w
  = let (made, ok) := until_failure fails (chmod_plan (fs w) app_dir) in
    (Done made,
     if ok then w
     else mkWorld (fs w) (stdin w)
            (log w ++ [(WARNING, txt "Failed to set some permissions")])
            (trace w)).
Proof.
  unfold set_app_permissions. rewrite bind_eq, get_fs_run. cbv beta iota.
  destruct (until_failure fails (chmod_plan (fs w) app_dir)) as [made ok].
  destruct ok; reflexivity.
Qed.

(** * A session without a yes *)

Lemma same_files_refl (f : node) : same_files f f.
Proof. split; [intros; reflexivity|auto]. Qed.

Lemma same_files_trans (a b c : node) :
  same_files a b -> same_files b c -> same_files a c.
Proof.
  intros [F1 D1] [F2 D2]. split.
  - intros q n Hn. rewrite (F1 q n Hn). apply F2. exact Hn.
  - intros q H. apply D2, D1. exact H.
Qed.

Lemma makedirs_same_files (p : path) (n n' : node) :
  makedirs p n = Some n' -> same_files n n'.
Proof.
  intros M. split.
  - intros q m Hm. split.
    + intros Hl. apply (makedirs_keeps p n n' q m M Hl Hm).
    + intros Hl. destruct (is_prefix_decide q p) as [[r Hq]|Hq].
      * pose proof (makedirs_is_dir p n n' M) as Hd. unfold is_dir in Hd.
        subst p. destruct (lookup_path n' (q ++ r)) as [[c|a t c|es]|] eqn:E;
          try discriminate.
        assert (is_directory m = true).
        { apply (lookup_below_dir n' q r m); [right; exists es; exact E|].
          exact Hl. }
        congruence.
      * rewrite <- (lookup_makedirs_other p n n' q M Hq). exact Hl.
  - intros q Hd. apply (makedirs_dir_stays p n n' q M Hd).
Qed.

Lemma quiet_refl w : quiet w w.
Proof. split; [apply calm_refl|apply same_files_refl]. Qed.

Lemma quiet_trans a b c : quiet a b -> quiet b c -> quiet a c.
Proof.
  intros [C1 F1] [C2 F2]. split.
  - apply (calm_trans a b c); assumption.
  - apply (same_files_trans _ _ _ F1 F2).
Qed.

Lemma quiet_log w l :
  quiet w (mkWorld (fs w) (stdin w) (log w ++ l) (trace w)).
Proof. split; [apply calm_log|apply same_files_refl]. Qed.

Lemma quiet_input w k rest :
  stdin w = k :: rest -> quiet w (mkWorld (fs w) rest (log w) (trace w)).
Proof.
  intros H. split; [apply (calm_input w k rest H)|apply same_files_refl].
Qed.

Lemma quiet_no_yes w w' :
  quiet w w' -> no_yes (stdin w) = true -> no_yes (stdin w') = true.
Proof.
  intros [[_ [read Hr]] _] H. rewrite Hr in H.
  apply (no_yes_suffix read). exact H.
Qed.

Ltac quiet_facts :=
  first [ exact quiet_refl | exact quiet_trans | exact quiet_log
        | exact quiet_input ].

Lemma stays_quiet_keeps {A} (m : M A) : keeps quiet m -> stays_quiet m.
Proof. intros K w o w' H _. apply (K w o w' H). Qed.

Lemma stays_quiet_bind {A B} (m : M A) (k : A -> M B) :
  keeps quiet m -> (forall a, stays_quiet (k a)) -> stays_quiet (bind m k).
Proof.
  intros Hm Hk w o w' H Hpre. rewrite bind_eq in H.
  destruct (m w) as [[a|c|] w1] eqn:E; destruct (Hm w _ _ E) as [Hq _].
  - apply (quiet_trans w w1 w' Hq).
    apply (Hk a w1 o w' H). apply (quiet_no_yes w w1 Hq Hpre).
  - inversion H; subst. exact Hq.
  - inversion H; subst. exact Hq.
Qed.

Lemma mkdir_parents_same_files (refused : path -> bool) (p : path)
    (n n' : node) (ok : bool) :
  mkdir_parents refused [] p n = (n', ok) -> same_files n n'.
Proof.
  intros H. destruct (mkdir_parents_made _ _ _ _ _ H) as [->|[p0 [_ [M _]]]].
  - apply same_files_refl.
  - apply (makedirs_same_files p0 _ _ M).
Qed.

Lemma quiet_put_fs (w : world) (f : node) :
  same_files (fs w) f -> quiet w (evolve w f [] []).
Proof.
  intros H. split; [|exact H].
  split; [unfold evolve; cbn [trace]; apply app_nil_r|].
  exists []. reflexivity.
Qed.

Lemma stays_quiet_mkdir {B} (refused : path -> bool) (p : path) (k : M B) :
  stays_quiet k ->
  stays_quiet
    (fs0 <- get_fs ;;
     let (fs1, made) := mkdir_parents refused [] p fs0 in
     put_fs fs1 ;;;
     if negb made then fun w => (Raised, w) else k).
Proof.
  intros Hk w o w' H Hpre. rewrite bind_eq, get_fs_run in H.
  cbv beta iota in H.
  destruct (mkdir_parents refused [] p (fs w)) as [f1 made] eqn:M.
  rewrite bind_eq, put_fs_run in H. cbv beta iota in H.
  pose proof (quiet_put_fs w f1 (mkdir_parents_same_files _ _ _ _ _ M)) as Hq.
  destruct made; cbn [negb] in H.
  - apply (quiet_trans _ _ _ Hq). apply (Hk _ o w' H).
    apply (quiet_no_yes _ _ Hq Hpre).
  - inversion H; subst. exact Hq.
Qed.

Lemma quiet_init_manager (h : host) (args : arguments) :
  keeps quiet (init_manager h args).
Proof.
  intros w o w' H. unfold init_manager in H. cbv zeta in H.
  rewrite bind_eq, get_fs_run in H. cbv beta iota in H.
  destruct (mkdir_parents _ [] (script_dir h ++ [txt "logs"]) (fs w))
    as [f1 ok1] eqn:M1.
  rewrite bind_eq, put_fs_run in H. cbv beta iota in H.
  pose proof (quiet_put_fs w f1 (mkdir_parents_same_files _ _ _ _ _ M1)) as Q1.
  destruct ok1; cbn [negb] in H.
  2:{ inversion H; subst. split; [exact Q1|discriminate]. }
  cbn [fs evolve] in H.
  destruct (mkdir_parents _ [] (script_dir h ++ [txt "backups"]) f1)
    as [f2 ok2] eqn:M2.
  rewrite bind_eq, put_fs_run in H. cbv beta iota in H.
  assert (Q2 : quiet w (evolve (evolve w f1 [] []) f2 [] [])).
  { apply (quiet_trans _ _ _ Q1). apply quiet_put_fs. cbn [fs evolve].
    apply (mkdir_parents_same_files _ _ _ _ _ M2). }
  destruct ok2; cbn [negb] in H.
  2:{ inversion H; subst. split; [exact Q2|discriminate]. }
  rewrite bind_eq, logm_run in H. cbv beta iota in H. rewrite ret_run in H.
  inversion H; subst. split; [|discriminate].
  apply (quiet_trans _ _ _ Q2). unfold evolve. cbn [fs stdin log trace].
  rewrite !app_nil_r.
  match goal with
  | |- quiet ?a ?b => apply (quiet_log a)
  end.
Qed.

Lemma quiet_logm l msg : keeps quiet (logm l msg).
Proof. apply keeps_logm; quiet_facts. Qed.

Lemma quiet_ret {A} (a : A) : keeps quiet (ret a).
Proof. apply keeps_ret; quiet_facts. Qed.

(** The question whether to proceed, when the answer is not a yes. *)
Lemma stays_quiet_question (c d : M unit) :
  keeps quiet c ->
  stays_quiet (raw <- input ;;
               if negb (is_yes (lower (strip raw))) then c else d).
Proof.
  intros Hc w o w' H Hpre. rewrite bind_eq in H. unfold input in H.
  destruct (stdin w) as [|[raw|] rest] eqn:E.
  - inversion H; subst. apply quiet_refl.
  - cbn [no_yes forallb] in Hpre.
    apply andb_true_iff in Hpre as [Hraw _]. rewrite Hraw in H.
    apply (quiet_trans _ _ _ (quiet_input w _ rest E)).
    apply (Hc _ _ _ H).
  - inversion H; subst. apply (quiet_input w _ rest E).
Qed.

Lemma stays_quiet_run (h : host) (m : manager) (args : arguments)
    (envs : nat -> unit_env) : stays_quiet (run h m args envs).
Proof.
  unfold run.
  apply stays_quiet_bind; [apply quiet_logm|intros _].
  apply stays_quiet_bind; [apply quiet_logm|intros _].
  apply stays_quiet_bind; [apply quiet_logm|intros _].
  apply stays_quiet_bind;
    [apply keeps_validate_environment; quiet_facts|intros valid].
  destruct (negb valid).
  { apply stays_quiet_keeps.
    apply keeps_bind; [quiet_facts|apply quiet_logm|intros _].
    apply keeps_exit; quiet_facts. }
  apply stays_quiet_bind.
  { destruct (arg_splunk_home args);
      [apply quiet_ret|apply keeps_prompt_for_splunk_home; quiet_facts]. }
  intros home. cbv zeta.
  apply stays_quiet_bind; [apply quiet_logm|intros _].
  apply stays_quiet_bind; [apply quiet_logm|intros _].
  apply stays_quiet_mkdir.
  apply stays_quiet_bind;
    [apply keeps_select_apps_interactive; quiet_facts|intros selected].
  apply stays_quiet_bind;
    [apply keeps_show_versions; quiet_facts|intros _].
  apply stays_quiet_question.
  apply keeps_bind; [quiet_facts|apply quiet_logm|intros _; apply quiet_ret].
Qed.

Lemma stays_quiet_session (h : host) (args : arguments)
    (envs : nat -> unit_env) :
  stays_quiet (m <- init_manager h args ;; run h m args envs).
Proof.
  apply stays_quiet_bind; [apply quiet_init_manager|].
  intros m. apply stays_quiet_run.
Qed.

(** * A deployment that meets no obstacle *)

(** ** The configuration *)

Lemma remove_escaped_percent_incl (s : text) :
  forall c, In c (remove_escaped_percent s) -> In c s.
Proof.
  assert (H : forall n (s : text), length s <= n ->
                forall c, In c (remove_escaped_percent s) -> In c s).
  { induction n as [|n IH]; intros s0 Hlen c.
    - destruct s0; [intros []|cbn in Hlen; lia].
    - destruct s0 as [|x r]; [intros []|]. cbn [remove_escaped_percent].
      cbn [length] in Hlen.
      destruct (is_chr "%" x).
      + destruct r as [|x2 r2]; [auto|].
        destruct (is_chr "%" x2).
        * intros Hc. right. right. apply (IH r2); [cbn [length] in Hlen; lia|].
          exact Hc.
        * intros [->|Hc]; [left; reflexivity|]. right.
          apply (IH (x2 :: r2)); [lia|exact Hc].
      + intros [->|Hc]; [left; reflexivity|]. right.
        apply (IH r); [lia|exact Hc]. }
  apply (H (length s)). lia.
Qed.

Lemma before_set_plain (v : text) : has_percent v = false -> before_set v = true.
Proof.
  intros H. unfold before_set. apply negb_true_iff. apply has_percent_false.
  intros c Hc. unfold re_sub in Hc. apply sub_scan_incl in Hc.
  apply remove_escaped_percent_incl in Hc.
  rewrite has_percent_false in H. auto.
Qed.

Lemma has_percent_app (a b : text) :
  has_percent (a ++ b) = has_percent a || has_percent b.
Proof. unfold has_percent. apply existsb_app. Qed.

Lemma rewritten_label_plain (l v : text) :
  has_percent l = false -> has_percent v = false ->
  has_percent (rewrite_label l v) = false.
Proof.
  intros Hl Hv. unfold rewrite_label. rewrite !has_percent_app, Hv.
  assert (Hb : has_percent (base_label l) = false).
  { apply has_percent_false. intros c Hc. apply base_label_incl in Hc.
    rewrite has_percent_false in Hl. auto. }
  rewrite Hb. reflexivity.
Qed.

Lemma no_percent_add (cfg : config) (s : text) :
  no_percent cfg ->
  no_percent (mkConfig (defaults cfg) (sections cfg ++ [(s, [])])).
Proof.
  intros [Hd Hs]. split; cbn [defaults sections]; [exact Hd|].
  apply Forall_app. split; [exact Hs|]. repeat constructor.
Qed.

Lemma ensure_section (cfg : config) (s : text) :
  s <> default_section -> no_percent cfg ->
  exists c1,
    (if has_section cfg s then Some cfg else add_section cfg s) = Some c1
    /\ no_percent c1 /\ has_section c1 s = true
    /\ forall s', has_section cfg s' = true -> has_section c1 s' = true.
Proof.
  intros Hne Hn. destruct (has_section cfg s) eqn:E.
  - exists cfg. auto.
  - unfold add_section. apply text_eqb_neq in Hne. rewrite Hne.
    unfold has_section in E. rewrite E. eexists. split; [reflexivity|].
    split; [apply no_percent_add; exact Hn|]. split.
    + unfold has_section, mem. cbn [sections]. rewrite lookup_app.
      unfold mem in E. destruct (lookup s (sections cfg)); [discriminate|].
      cbn [lookup]. rewrite text_eqb_refl. reflexivity.
    + intros s' H'. unfold has_section, mem in *. cbn [sections].
      rewrite lookup_app. destruct (lookup s' (sections cfg));
        [reflexivity|discriminate].
Qed.

Lemma set_plain (cfg : config) (s k v : text) :
  is_empty s = false -> s <> default_section ->
  has_section cfg s = true -> no_percent cfg -> has_percent v = false ->
  exists c1,
    set cfg s k v = Some c1 /\ no_percent c1
    /\ forall s', has_section cfg s' = true -> has_section c1 s' = true.
Proof.
  intros He Hne Hs [Hd Hss] Hv. unfold set.
  rewrite (before_set_plain v Hv). rewrite andb_false_r.
  apply text_eqb_neq in Hne. rewrite He, Hne. cbn [orb].
  unfold has_section, mem in Hs.
  destruct (lookup s (sections cfg)) as [d|] eqn:E; [|discriminate].
  eexists. split; [reflexivity|]. split.
  - split; cbn [defaults sections]; [exact Hd|].
    apply Forall_assign; [exact Hss|]. cbn [snd].
    apply Forall_assign; [|exact Hv].
    rewrite Forall_forall in Hss. apply (Hss (s, d)).
    apply lookup_In. exact E.
  - intros s' H'. unfold has_section in *. cbn [sections].
    apply mem_keys. rewrite assign_keys. apply mem_keys in H'.
    destruct (mem s (sections cfg)); [exact H'|].
    apply in_or_app. left. exact H'.
Qed.

Lemma get_offered (cfg : config) (s k : text) :
  is_empty s = false -> s <> default_section ->
  no_percent cfg -> has_option cfg s k = true ->
  exists value, get cfg s k = Some value /\ has_percent value = false.
Proof.
  intros He Hne [Hd Hs] H. unfold has_option in H.
  apply text_eqb_neq in Hne. rewrite He, Hne in H. cbn [orb] in H.
  unfold get, unify_values.
  destruct (lookup s (sections cfg)) as [d|] eqn:E; [|discriminate].
  unfold mem in H.
  assert (Hv : forall value,
            (lookup (optionxform k) d = Some value
             \/ lookup (optionxform k) (defaults cfg) = Some value) ->
            has_percent value = false).
  { intros value [L|L]; apply lookup_In in L.
    - rewrite Forall_forall in Hs. apply lookup_In in E.
      specialize (Hs _ E). cbn [snd] in Hs. rewrite Forall_forall in Hs.
      apply (Hs _ L).
    - rewrite Forall_forall in Hd. apply (Hd _ L). }
  destruct (lookup (optionxform k) d) as [value|] eqn:L1.
  - exists value. split; [|apply Hv; left; reflexivity].
    apply before_get_plain. apply Hv. left. reflexivity.
  - destruct (lookup (optionxform k) (defaults cfg)) as [value|] eqn:L2;
      [|discriminate].
    exists value. split; [|apply Hv; right; reflexivity].
    apply before_get_plain. apply Hv. right. reflexivity.
Qed.

(** Without a percent sign in it, every configuration can be updated. *)
Lemma updated_config_some (cfg : config) (version build : text) :
  no_percent cfg -> has_percent version = false -> has_percent build = false ->
  exists cfg', updated_config cfg version build = Some cfg'.
Proof.
  intros Hn Hv Hb. unfold updated_config. fold launcher. fold install.
  assert (L1 : is_empty launcher = false) by reflexivity.
  assert (L2 : launcher <> default_section) by discriminate.
  assert (I1 : is_empty install = false) by reflexivity.
  assert (I2 : install <> default_section) by discriminate.
  destruct (ensure_section cfg launcher L2 Hn) as [c1 [-> [N1 [S1 _]]]].
  destruct (set_plain c1 launcher (txt "version") version L1 L2 S1 N1 Hv)
    as [c2 [-> [N2 K2]]].
  destruct (ensure_section c2 install I2 N2) as [c3 [E3 [N3 [S3 K3]]]].
  rewrite E3.
  destruct (set_plain c3 install (txt "build") build I1 I2 S3 N3 Hb)
    as [c4 [-> [N4 K4]]].
  destruct (has_option c4 launcher (txt "label")) eqn:O; [|eauto].
  destruct (get_offered c4 launcher (txt "label") L1 L2 N4 O)
    as [value [-> Hp]].
  assert (S4 : has_section c4 launcher = true).
  { apply K4, K3, K2. exact S1. }
  destruct (set_plain c4 launcher (txt "label") (rewrite_label value version)
              L1 L2 S4 N4 (rewritten_label_plain value version Hp Hv))
    as [c5 [-> _]].
  eauto.
Qed.

(** ** The tree *)

Lemma is_dir_above (f : node) (q r : path) :
  path_exists f (q ++ r) = true -> r <> [] -> is_dir f q = true.
Proof.
  unfold path_exists, is_dir. rewrite lookup_path_app.
  destruct (lookup_path f q) as [[c|a t c|es]|]; intros H Hr;
    try discriminate; try reflexivity;
    destruct r; try contradiction; discriminate.
Qed.

Lemma store_some (q : path) : forall (n new : node) (x : text),
  is_dir n q = true -> exists n', store n (q ++ [x]) new = Some n'.
Proof.
  induction q as [|y q IH]; intros n new x Hd.
  - unfold is_dir in Hd. cbn in Hd. destruct n as [?|? ? ?|es];
      try discriminate. cbn [app store]. eexists. reflexivity.
  - unfold is_dir in Hd. cbn [lookup_path] in Hd.
    destruct n as [?|? ? ?|es]; try discriminate.
    destruct (lookup y es) as [child|] eqn:E; [|discriminate].
    cbn [app store]. rewrite E.
    destruct (IH child new x) as [child' S]; [exact Hd|].
    destruct (q ++ [x]) as [|z r] eqn:Eq; [destruct q; discriminate|].
    rewrite S. eauto.
Qed.

Lemma delete_some (q : path) : forall (n : node) (x : text),
  path_exists n (q ++ [x]) = true -> exists n', delete n (q ++ [x]) = Some n'.
Proof.
  induction q as [|y q IH]; intros n x He.
  - unfold path_exists in He. cbn [app lookup_path] in He.
    destruct n as [?|? ? ?|es]; [discriminate He|discriminate He|].
    cbn [app delete]. unfold mem.
    destruct (lookup x es); [|discriminate He].
    cbn [is_some]. eexists. reflexivity.
  - unfold path_exists in He. cbn [app lookup_path] in He.
    destruct n as [?|? ? ?|es]; [discriminate He|discriminate He|].
    destruct (lookup y es) as [child|] eqn:E; [|discriminate He].
    cbn [app delete]. rewrite E.
    destruct (IH child x) as [child' D]; [exact He|].
    destruct (q ++ [x]) as [|z r] eqn:Eq; [destruct q; discriminate|].
    rewrite D. eauto.
Qed.

(** The directories above a stored or deleted entry stay directories. *)
Lemma store_above (q : path) : forall (n n' new : node) (r : path),
  store n (q ++ r) new = Some n' -> r <> [] -> is_dir n' q = true.
Proof.
  induction q as [|y q IH]; intros n n' new r S Hr.
  - destruct r as [|x r]; [contradiction|]. cbn [app store] in S.
    destruct n as [?|? ? ?|es]; try discriminate.
    destruct r; [inversion S; reflexivity|].
    destruct (lookup x es); [|discriminate].
    destruct (store _ _ new); inversion S; reflexivity.
  - cbn [app store] in S. destruct n as [?|? ? ?|es]; try discriminate.
    destruct (q ++ r) as [|z t] eqn:Eq.
    { apply app_eq_nil in Eq as [_ ->]. contradiction. }
    destruct (lookup y es) as [child|]; [|discriminate].
    destruct (store child (z :: t) new) as [child'|] eqn:S'; [|discriminate].
    inversion S; subst. unfold is_dir. cbn [lookup_path].
    rewrite lookup_assign_same. rewrite <- Eq in S'.
    apply (IH child child' new r S' Hr).
Qed.

Lemma delete_above (q : path) : forall (n n' : node) (r : path),
  delete n (q ++ r) = Some n' -> r <> [] -> is_dir n' q = true.
Proof.
  induction q as [|y q IH]; intros n n' r D Hr.
  - destruct r as [|x r]; [contradiction|]. cbn [app delete] in D.
    destruct n as [?|? ? ?|es]; try discriminate.
    destruct r.
    + destruct (mem x es); inversion D; reflexivity.
    + destruct (lookup x es); [|discriminate].
      destruct (delete _ _); inversion D; reflexivity.
  - cbn [app delete] in D. destruct n as [?|? ? ?|es]; try discriminate.
    destruct (q ++ r) as [|z t] eqn:Eq.
    { apply app_eq_nil in Eq as [_ ->]. contradiction. }
    destruct (lookup y es) as [child|]; [|discriminate].
    destruct (delete child (z :: t)) as [child'|] eqn:D'; [|discriminate].
    inversion D; subst. unfold is_dir. cbn [lookup_path].
    rewrite lookup_assign_same. rewrite <- Eq in D'.
    apply (IH child child' r D' Hr).
Qed.

Lemma is_dir_ext (f f' : node) (q : path) :
  lookup_path f' q = lookup_path f q -> is_dir f' q = is_dir f q.
Proof. unfold is_dir. intros ->. reflexivity. Qed.

Lemma is_prefix_proper (q p : path) :
  is_prefix q p -> ~ is_prefix p q -> exists r, p = q ++ r /\ r <> [].
Proof.
  intros [r ->] H. exists r. split; [reflexivity|]. intros ->. apply H.
  rewrite app_nil_r. apply is_prefix_refl.
Qed.

Lemma store_dir_stays (p : path) (n n' new : node) (q : path) :
  store n p new = Some n' -> ~ is_prefix p q -> is_dir n q = true ->
  is_dir n' q = true.
Proof.
  intros S Hp Hd. destruct (is_prefix_decide q p) as [Hq|Hq].
  - destruct (is_prefix_proper q p Hq Hp) as [r [-> Hr]].
    apply (store_above q n n' new r S Hr).
  - rewrite (is_dir_ext n n' q); [exact Hd|].
    apply (lookup_store_other p n n' new q S). split; assumption.
Qed.

Lemma delete_dir_stays (p : path) (n n' : node) (q : path) :
  delete n p = Some n' -> ~ is_prefix p q -> is_dir n q = true ->
  is_dir n' q = true.
Proof.
  intros D Hp Hd. destruct (is_prefix_decide q p) as [Hq|Hq].
  - destruct (is_prefix_proper q p Hq Hp) as [r [-> Hr]].
    apply (delete_above q n n' r D Hr).
  - rewrite (is_dir_ext n n' q); [exact Hd|].
    apply (lookup_delete_other p n n' q D). split; assumption.
Qed.

Lemma is_dir_not_blocked (f : node) (p : path) :
  is_dir f p = true -> ~ blocked f p.
Proof.
  intros Hd [q [m [[r ->] [Hl Hm]]]]. unfold is_dir in Hd.
  destruct (lookup_path f (q ++ r)) as [[c|a t c|es]|] eqn:E;
    try discriminate.
  assert (is_directory m = true).
  { apply (lookup_below_dir f q r m); [right; exists es; exact E|exact Hl]. }
  congruence.
Qed.

Lemma not_prefix_snoc (q : path) (x : text) : ~ is_prefix (q ++ [x]) q.
Proof.
  intros [r H]. rewrite <- app_assoc in H.
  rewrite <- (app_nil_r q) in H at 1. apply app_inv_head in H. discriminate.
Qed.

Lemma copytree_some (f : node) (src dir : path) (x : text) (es : dict node) :
  lookup_path f src = Some (Dir es) ->
  path_exists f (dir ++ [x]) = false -> is_dir f dir = true ->
  exists f', copytree f src (dir ++ [x]) = Some f'.
Proof.
  intros Hs He Hd. unfold copytree. rewrite Hs, He.
  destruct (dir ++ [x]) as [|z t] eqn:Eq; [destruct dir; discriminate|].
  rewrite <- Eq. unfold parent. rewrite removelast_last.
  destruct (makedirs dir f) as [f1|] eqn:M.
  - apply store_some. apply (makedirs_is_dir dir f f1 M).
  - apply makedirs_none in M. exfalso.
    apply (is_dir_not_blocked f dir Hd M).
Qed.

(** ** The steps of [deploy_app] *)

Lemma build_stamp_plain (t : datetime) : has_percent (build_stamp t) = false.
Proof.
  apply has_percent_false. intros c Hc. apply digit_not_percent.
  pose proof (build_stamp_digits t) as H. rewrite forallb_forall in H. auto.
Qed.

Lemma validate_result_passes (src : path) (app : text) (f : node) :
  (forall r, In r (required_dirs ++ required_files) ->
             path_exists f (src ++ [app] ++ r) = true) ->
  exists lg, validate_result src app f = (true, f, lg, []).
Proof.
  intros V. unfold validate_result.
  assert (D : first_missing f (src ++ [app]) required_dirs = None).
  { apply first_missing_none. intros r Hr. rewrite <- app_assoc.
    apply V. apply in_or_app. left. exact Hr. }
  assert (F : first_missing f (src ++ [app]) required_files = None).
  { apply first_missing_none. intros r Hr. rewrite <- app_assoc.
    apply V. apply in_or_app. right. exact Hr. }
  rewrite D, F. eexists. reflexivity.
Qed.

Section Success.
Variable m : manager.
Variable app : text.
Variable dir : path.
Variable version : text.
Variable env : unit_env.
Hypothesis faults : no_fault env.
Hypothesis version_ok : Triple version.
Hypothesis backups_source :
  apart (backup_dir m) (apps_source_dir m ++ [app]).
Hypothesis backups_target : apart (backup_dir m) (dir ++ [app]).
Hypothesis source_target :
  apart (apps_source_dir m ++ [app]) (dir ++ [app]).

Lemma archive_descriptor :
  apart (archive_path m app env) (apps_source_dir m ++ [app] ++ app_conf).
Proof.
  unfold archive_path. rewrite (app_assoc (apps_source_dir m)).
  apply apart_below_both. exact backups_source.
Qed.

Lemma archive_target : apart (archive_path m app env) (dir ++ [app]).
Proof.
  unfold archive_path. rewrite <- (app_nil_r (dir ++ [app])).
  apply apart_below_both. exact backups_target.
Qed.

Lemma descriptor_target :
  apart (apps_source_dir m ++ [app] ++ app_conf) (dir ++ [app]).
Proof.
  rewrite (app_assoc (apps_source_dir m)).
  rewrite <- (app_nil_r (dir ++ [app])).
  apply apart_below_both. exact source_target.
Qed.

Lemma archive_not_above : ~ is_prefix (archive_path m app env) dir.
Proof.
  intros H. apply (proj1 backups_target).
  apply (is_prefix_trans _ (archive_path m app env)).
  - exists [backup_name app (backup_time env)]. reflexivity.
  - apply is_prefix_app. exact H.
Qed.

Lemma descriptor_not_above :
  ~ is_prefix (apps_source_dir m ++ [app] ++ app_conf) dir.
Proof.
  intros H. apply (proj1 source_target).
  apply (is_prefix_trans _ (apps_source_dir m ++ [app] ++ app_conf)).
  - exists app_conf. rewrite app_assoc. reflexivity.
  - apply is_prefix_app. exact H.
Qed.

(** The backup step. *)
Lemma backup_result_succeeds (f : node) :
  is_dir f (backup_dir m) = true ->
  is_dir f (archive_path m app env) = false ->
  exists f1 lg ops,
    backup_result m app dir env f = (true, f1, lg, ops)
    /\ (forall q, apart (archive_path m app env) q ->
                  lookup_path f1 q = lookup_path f q)
    /\ (is_dir f dir = true -> is_dir f1 dir = true).
Proof.
  intros BD AD. unfold backup_result.
  destruct (lookup_path f (dir ++ [app])) as [tree|].
  - cbv zeta. destruct faults as [-> _].
    unfold store_archive. rewrite AD.
    destruct (store_some (backup_dir m) f (Tarball app tree true)
                (backup_name app (backup_time env)) BD) as [f1 S].
    unfold archive_path at 1. rewrite S.
    eexists f1, _, _. split; [reflexivity|]. split.
    + intros q Hq. apply (lookup_store_other _ _ _ _ q S Hq).
    + intros Hd. apply (store_dir_stays _ _ _ _ dir S); [|exact Hd].
      exact archive_not_above.
  - eexists f, _, _. split; [reflexivity|]. auto.
Qed.

(** The update of the descriptor. *)
Lemma update_result_succeeds (f : node) (cfg : config) :
  path_exists f (apps_source_dir m ++ [app] ++ app_conf) = true ->
  is_dir f (apps_source_dir m ++ [app] ++ app_conf) = false ->
  read_config f (apps_source_dir m ++ [app] ++ app_conf)
    (read_unreadable env) = Some cfg ->
  no_percent cfg ->
  exists f2 lg ops,
    update_result (apps_source_dir m) app version env f = (true, f2, lg, ops)
    /\ (forall q, apart (apps_source_dir m ++ [app] ++ app_conf) q ->
                  lookup_path f2 q = lookup_path f q)
    /\ (is_dir f dir = true -> is_dir f2 dir = true)
    /\ is_dir f2 (apps_source_dir m ++ [app]) = true.
Proof.
  intros PE DF RC NP. unfold update_result.
  rewrite PE. cbn [negb]. cbv zeta. rewrite RC.
  destruct (updated_config_some cfg version (build_stamp (build_time env)) NP)
    as [cfg' ->].
  { apply has_percent_false. intros c Hc.
    destruct (Triple_chars version c version_ok Hc) as [H| ->];
      [apply digit_not_percent; exact H|reflexivity]. }
  { apply build_stamp_plain. }
  destruct faults as [_ [-> _]]. cbn [written].
  assert (PD : is_dir f (apps_source_dir m ++ [app; txt "default"]) = true).
  { apply (is_dir_above f _ [txt "app.conf"]); [|discriminate].
    rewrite <- app_assoc. exact PE. }
  destruct (store_some _ f (File (render cfg')) (txt "app.conf") PD)
    as [f2 S].
  assert (W : write_file f (apps_source_dir m ++ [app] ++ app_conf)
                (render cfg') = Some f2).
  { unfold write_file. rewrite DF.
    rewrite <- app_assoc in S. exact S. }
  rewrite W. eexists f2, _, _. split; [reflexivity|]. split; [|split].
  - intros q Hq. apply (write_file_other _ _ _ _ _ W Hq).
  - intros Hd. unfold write_file in W. rewrite DF in W.
    apply (store_dir_stays _ _ _ _ dir W); [|exact Hd].
    exact descriptor_not_above.
  - apply (is_dir_above f2 _ app_conf); [|discriminate].
    rewrite <- app_assoc. apply path_exists_lookup.
    exists (File (render cfg')). apply (write_file_read _ _ _ _ W).
Qed.

(** The replacement of the target. *)
Lemma replace_result_succeeds (f : node) :
  is_dir f (apps_source_dir m ++ [app]) = true ->
  is_dir f dir = true ->
  (path_exists f (dir ++ [app]) = true -> is_dir f (dir ++ [app]) = true) ->
  exists f3 lg ops,
    replace_result m app (dir ++ [app]) env f = (true, f3, lg, ops).
Proof.
  intros SD DD TD. unfold replace_result. cbv zeta.
  destruct faults as [_ [_ [-> ->]]].
  assert (Hsrc : exists es,
            lookup_path f (apps_source_dir m ++ [app]) = Some (Dir es)).
  { unfold is_dir in SD.
    destruct (lookup_path f (apps_source_dir m ++ [app])) as [[?|? ? ?|es]|];
      try discriminate. eauto. }
  destruct Hsrc as [es Hsrc].
  destruct (path_exists f (dir ++ [app])) eqn:PE.
  - assert (R : exists f1, rmtree f (dir ++ [app]) = Some f1).
    { unfold rmtree. rewrite (TD eq_refl). apply delete_some. exact PE. }
    destruct R as [f1 R]. rewrite R.
    pose proof (rmtree_spec _ _ _ R) as [Hnone Hother].
    assert (C : exists f2,
              copytree f1 (apps_source_dir m ++ [app]) (dir ++ [app])
              = Some f2).
    { apply (copytree_some f1 _ dir app es).
      - rewrite (Hother _ (apart_sym _ _ source_target)). exact Hsrc.
      - apply path_exists_false. exact Hnone.
      - unfold rmtree in R. rewrite (TD eq_refl) in R.
        apply (delete_dir_stays _ _ _ dir R); [|exact DD].
        apply not_prefix_snoc. }
    destruct C as [f2 ->]. eexists f2, _, _. reflexivity.
  - destruct (copytree_some f _ dir app es Hsrc PE DD) as [f2 ->].
    eexists f2, _, _. reflexivity.
Qed.

(** The whole of [deploy_app]. *)
Lemma deploy_result_succeeds (f : node) (cfg : config) :
  (forall r, In r (required_dirs ++ required_files) ->
             path_exists f (apps_source_dir m ++ [app] ++ r) = true) ->
  is_dir f (apps_source_dir m ++ [app] ++ app_conf) = false ->
  read_config f (apps_source_dir m ++ [app] ++ app_conf)
    (read_unreadable env) = Some cfg ->
  no_percent cfg ->
  is_dir f (backup_dir m) = true ->
  is_dir f (archive_path m app env) = false ->
  is_dir f dir = true ->
  (path_exists f (dir ++ [app]) = true -> is_dir f (dir ++ [app]) = true) ->
  exists f3 lg ops,
    deploy_result m app (dir ++ [app]) version env f = (true, f3, lg, ops).
Proof.
  intros V DF RC NP BD AD DD TD. unfold deploy_result.
  rewrite parent_join.
  destruct (validate_result_passes _ app f V) as [lg1 ->].
  destruct (backup_result_succeeds f BD AD)
    as [f1 [lg2 [ops2 [-> [K1 D1]]]]].
  pose proof (K1 _ archive_descriptor) as E1.
  pose proof (K1 _ archive_target) as T1.
  assert (PE : path_exists f1 (apps_source_dir m ++ [app] ++ app_conf)
               = true).
  { unfold path_exists. rewrite E1. apply V. apply in_or_app. right.
    left. reflexivity. }
  destruct (update_result_succeeds f1 cfg PE)
    as [f2 [lg3 [ops3 [-> [K2 [D2 S2]]]]]].
  { rewrite (is_dir_ext f f1 _ E1). exact DF. }
  { rewrite (read_config_ext f1 f _ _ _ E1). exact RC. }
  { exact NP. }
  pose proof (K2 _ descriptor_target) as T2.
  destruct (replace_result_succeeds f2 S2 (D2 (D1 DD)))
    as [f3 [lg4 [ops4 ->]]].
  { unfold path_exists. rewrite (is_dir_ext f1 f2 _ T2), T2.
    rewrite (is_dir_ext f f1 _ T1), T1. exact TD. }
  eexists f3, _, _. reflexivity.
Qed.
End Success.

(** * The claims about the file system and the session *)

(** ** C3 *)

(** The claim fails: a write that stops when sixteen bytes have reached
    the file leaves the header of the first section and the beginning of
    the line after it, which is neither the old descriptor nor the new
    one. *)
Lemma interrupted_write_leaves_part :
  fst (example_update (WriteFailsAfter 16)) = Done false
  /\ content_at (snd (example_update (WriteFailsAfter 16))) example_conf_path
     = Some (txt "[launcher]" ++ nl ++ txt "versi")
  /\ content_at (example_world []) example_conf_path = Some example_descriptor
  /\ content_at (snd (example_update WriteDone)) example_conf_path
     = Some (txt "[launcher]" ++ nl ++ txt "version = 2.0.0" ++ nl
             ++ txt "label = Foo v2.0.0" ++ nl ++ nl
             ++ txt "[install]" ++ nl ++ txt "build = 202403070905" ++ nl ++ nl)
  /\ txt "[launcher]" ++ nl ++ txt "versi" <> example_descriptor
  /\ txt "[launcher]" ++ nl ++ txt "versi"
     <> txt "[launcher]" ++ nl ++ txt "version = 2.0.0" ++ nl
        ++ txt "label = Foo v2.0.0" ++ nl ++ nl
        ++ txt "[install]" ++ nl ++ txt "build = 202403070905" ++ nl ++ nl.
Proof. vm_compute. repeat split; discriminate. Qed.

(** C3, amended.  [update_app_version] writes the descriptor in place: it
    opens the descriptor itself for writing and writes the new text into
    it; no other file is written.  It returns [True] only when the write
    went through, and the file then holds the complete new descriptor.
    When it returns [False] the file system is as it was, or the
    descriptor holds the first bytes of the new text, as many as had
    reached the file when the write failed: the cut can fall anywhere. *)
Theorem descriptor_written_in_place (src : path) (app version : text)
    (env : unit_env) (w : world) :
  let p := src ++ [app] ++ app_conf in
  exists ok w',
    update_app_version src app version env w = (Done ok, w')
    /\ (trace w' = trace w \/ trace w' = trace w ++ [Wrote p])
    /\ (ok = true ->
        write_result env = WriteDone
        /\ exists cfg cfg',
             read_config (fs w) p (read_unreadable env) = Some cfg
             /\ updated_config cfg version (build_stamp (build_time env))
                = Some cfg'
             /\ write_file (fs w) p (render cfg') = Some (fs w')
             /\ content_at w' p = Some (render cfg'))
    /\ (ok = false ->
        fs w' = fs w
        \/ exists cfg cfg' n,
             read_config (fs w) p (read_unreadable env) = Some cfg
             /\ updated_config cfg version (build_stamp (build_time env))
                = Some cfg'
             /\ write_result env = WriteFailsAfter n
             /\ write_file (fs w) p (firstn n (render cfg')) = Some (fs w')
             /\ content_at w' p = Some (firstn n (render cfg')))
    /\ (forall cfg cfg' n,
          path_exists (fs w) p = true ->
          is_dir (fs w) p = false ->
          read_config (fs w) p (read_unreadable env) = Some cfg ->
          updated_config cfg version (build_stamp (build_time env))
          = Some cfg' ->
          write_result env = WriteFailsAfter n ->
          ok = false /\ content_at w' p = Some (firstn n (render cfg'))).
Proof.
  intros p. subst p. rewrite update_app_version_run.
  destruct (update_result src app version env (fs w)) as [[[ok f'] lg] ops]
    eqn:R.
  exists ok, (evolve w f' lg ops). split; [reflexivity|].
  split; [|split; [|split]].
  - apply update_result_ops in R as [-> | ->]; cbn [trace evolve];
      [left; apply app_nil_r|right; reflexivity].
  - intros ->. split.
    + revert R. unfold update_result.
      destruct (negb (path_exists (fs w) _)); [discriminate|]. cbv zeta.
      destruct (read_config (fs w) _ _) as [cfg|]; [|discriminate].
      destruct (updated_config cfg _ _) as [cfg'|]; [|discriminate].
      destruct (write_result env); cbn [written]; try discriminate;
        [reflexivity|].
      destruct (write_file (fs w) _ _); discriminate.
    + apply update_result_true in R as [cfg [cfg' [R1 [R2 [R3 _]]]]].
      exists cfg, cfg'. repeat split; auto.
      unfold content_at. cbn [fs evolve].
      rewrite (write_file_read _ _ _ _ R3). reflexivity.
  - intros ->. apply update_result_false in R
      as [[-> _] | [cfg [cfg' [n [R1 [R2 [R3 [R4 _]]]]]]]].
    + left. reflexivity.
    + right. exists cfg, cfg', n. repeat split; auto.
      unfold content_at. cbn [fs evolve].
      rewrite (write_file_read _ _ _ _ R4). reflexivity.
  - intros cfg cfg' n He Hd Hr Hu Hw. revert R. unfold update_result.
    rewrite He, Hr, Hu, Hw. cbn [negb written]. cbv zeta.
    destruct (write_file (fs w) (src ++ [app] ++ app_conf)
                (firstn n (render cfg'))) as [f1|] eqn:Wf.
    + intros H. inversion H; subst. split; [reflexivity|].
      unfold content_at. cbn [fs evolve].
      rewrite (write_file_read _ _ _ _ Wf). reflexivity.
    + exfalso. revert Wf. unfold write_file. rewrite Hd.
      assert (Hp : is_dir (fs w) (src ++ [app] ++ [txt "default"]) = true).
      { apply (is_dir_above _ _ [txt "app.conf"]); [|discriminate].
        rewrite <- !app_assoc. exact He. }
      destruct (store_some _ (fs w) (File (firstn n (render cfg')))
                  (txt "app.conf") Hp) as [f1 S].
      replace (src ++ [app] ++ app_conf)
        with ((src ++ [app] ++ [txt "default"]) ++ [txt "app.conf"])
        by (rewrite <- !app_assoc; reflexivity).
      rewrite S. discriminate.
Qed.

(** ** C6 *)




(** The claim fails also where it says that the call never raises: the
    probe of the descriptor is made before the [try], and when the system
    refuses it the exception leaves the function. *)
Lemma refused_probe_raises :
  get_current_version example_fs example_source (txt "appA") false true
  = None.
Proof. reflexivity. Qed.


(** ** C10 *)

(** The claim fails: the source root exists and is a regular file, and
    [iterdir] raises. *)
Lemma root_that_is_a_file :
  path_exists example_fs example_conf_path = true
  /\ list_available_apps example_fs example_conf_path open_access = None.
Proof. vm_compute. split; reflexivity. Qed.

(** C10, amended.  [list_available_apps] returns the empty list for a
    source root that does not exist.  For a root that is a directory
    which the system lets the program list and probe, it returns, sorted
    by code point, exactly the names of the directories right under the
    root that hold default/app.conf.  It raises in every other case: when
    the root exists and is not a directory, and when the system refuses
    the probe of the root, the listing of the root or the probe of one of
    its entries. *)
Theorem list_available_apps_total (f : node) (src : path) (acc : access) :
  let result := list_available_apps f src acc in
  (stat_refused acc src = true -> result = None)
  /\ (stat_refused acc src = false ->
      (path_exists f src = false -> result = Some [])
      /\ (forall n,
            lookup_path f src = Some n -> is_directory n = false ->
            result = None)
      /\ (forall entries,
            lookup_path f src = Some (Dir entries) ->
            (list_refused acc src = true -> result = None)
            /\ (existsb (probe_refused acc f src) (map fst entries) = true ->
                result = None)
            /\ (list_refused acc src = false ->
                existsb (probe_refused acc f src) (map fst entries) = false ->
                exists names,
                  result = Some names
                  /\ StronglySorted text_le names
                  /\ (forall name,
                        In name names <->
                        In name (map fst entries) /\ deployable f src name)
                  /\ Permutation names
                       (filter (fun name =>
                                  is_dir f (src ++ [name])
                                  && path_exists f
                                       (src ++ [name] ++ app_conf))
                          (map fst entries))))).
Proof.
  intros result. unfold result. split.
  { intros R. unfold list_available_apps. rewrite R. reflexivity. }
  intros R. split; [apply list_available_apps_missing; exact R|]. split.
  - intros n Hl Hd. unfold list_available_apps, path_exists, iterdir.
    rewrite R, Hl. cbn [is_some negb].
    destruct (list_refused acc src); [reflexivity|].
    destruct n; [reflexivity|reflexivity|discriminate].
  - intros entries Hl. split; [|split].
    + intros L. unfold list_available_apps, path_exists.
      rewrite R, Hl, L. reflexivity.
    + intros P. unfold list_available_apps, path_exists, iterdir.
      rewrite R, Hl, P. cbn [is_some negb].
      destruct (list_refused acc src); reflexivity.
    + intros L P. apply list_available_apps_dir; assumption.
Qed.

(** ** C1 *)

(** The backup step as [backup_existing_app] runs it on what lies at the
    target. *)
Lemma backup_existing_app_present (m : manager) (app : text) (dir : path)
    (env : unit_env) (w : world) (tree : node) :
  lookup_path (fs w) (dir ++ [app]) = Some tree ->
  exists backed w1,
    backup_existing_app m app dir env w = (Done backed, w1)
    /\ (backed = true ->
        tar_result env = TarDone
        /\ store_archive (fs w) (archive_path m app env) app tree true
           = Some (fs w1)
        /\ lookup_path (fs w1) (archive_path m app env)
           = Some (Tarball app tree true)
        /\ trace w1
           = trace w ++ [Archived (archive_path m app env) app tree true])
    /\ (backed = false ->
        (fs w1 = fs w /\ trace w1 = trace w)
        \/ (store_archive (fs w) (archive_path m app env) app tree false
            = Some (fs w1)
            /\ trace w1
               = trace w
                 ++ [Archived (archive_path m app env) app tree false])).
Proof.
  intros Ht. rewrite backup_existing_app_run.
  destruct (backup_result m app dir env (fs w)) as [[[b f1] lg] ops] eqn:B.
  exists b, (evolve w f1 lg ops). split; [reflexivity|].
  pose proof B as B'. unfold backup_result in B'. rewrite Ht in B'.
  cbv zeta in B'.
  destruct (backup_result_present _ _ _ _ _ _ _ _ _ _ Ht B)
    as [[-> [-> S]] | [[-> [-> ->]] | [-> [-> S]]]].
  - split; [|discriminate]. intros _. cbn [fs trace evolve].
    split.
    { destruct (tar_result env); [reflexivity| |].
      - inversion B'.
      - destruct (store_archive (fs w) _ app tree false); inversion B'. }
    split; [exact S|]. split; [|reflexivity].
    apply (store_archive_same _ _ _ _ _ _ S).
  - split; [discriminate|]. intros _. left. cbn [fs trace evolve].
    rewrite app_nil_r. auto.
  - split; [discriminate|]. intros _. right. cbn [fs trace evolve]. auto.
Qed.

(** Where the tree that was at the target is when [deploy_app] is over:
    in the archive when the archive was made, and still at the target
    when it was not. *)
Lemma deploy_result_archive (m : manager) (app : text) (dir : path)
    (version : text) (env : unit_env) (f f3 : node) ok lg ops (tree : node) :
  deploy_result m app (dir ++ [app]) version env f = (ok, f3, lg, ops) ->
  lookup_path f (dir ++ [app]) = Some tree ->
  apart (backup_dir m) (apps_source_dir m ++ [app]) ->
  apart (backup_dir m) (dir ++ [app]) ->
  (In (Archived (archive_path m app env) app tree true) ops ->
   lookup_path f3 (archive_path m app env) = Some (Tarball app tree true))
  /\ (~ In (Archived (archive_path m app env) app tree true) ops ->
      lookup_path f3 (dir ++ [app]) = Some tree).
Proof.
  intros H Ht Hs Hd.
  assert (A1 : apart (archive_path m app env) (dir ++ [app])).
  { unfold archive_path. rewrite <- (app_nil_r (dir ++ [app])).
    apply apart_below_both. exact Hd. }
  assert (A2 : apart (apps_source_dir m ++ [app] ++ app_conf)
                 (archive_path m app env)).
  { unfold archive_path. rewrite (app_assoc (apps_source_dir m)).
    apply apart_sym. apply apart_below_both. exact Hs. }
  unfold deploy_result in H. rewrite parent_join in H.
  destruct (validate_result _ app f) as [[[b1 f0] lg1] ops1].
  destruct b1.
  2:{ inversion H; subst. split; [intros []|intros _; exact Ht]. }
  destruct (backup_result m app dir env f) as [[[b2 f1] lg2] ops2] eqn:B.
  destruct (backup_result_present _ _ _ _ _ _ _ _ _ _ Ht B)
    as [[-> [-> S]] | [[-> [-> ->]] | [-> [-> S]]]].
  - apply store_archive_same in S.
    destruct (update_result _ app version env f1) as [[[b3 f2] lg3] ops3] eqn:U.
    pose proof (update_result_frame _ _ _ _ _ _ _ _ _ _ U A2) as E2.
    destruct b3.
    + destruct (replace_result m app (dir ++ [app]) env f2)
        as [[[b4 f4] lg4] ops4] eqn:R.
      pose proof (replace_result_frame _ _ _ _ _ _ _ _ _ _ R
                    (apart_sym _ _ A1)) as E3.
      inversion H; subst. split.
      * intros _. congruence.
      * intros Hn. exfalso. apply Hn. left. reflexivity.
    + inversion H; subst. split.
      * intros _. congruence.
      * intros Hn. exfalso. apply Hn. left. reflexivity.
  - inversion H; subst. split; [intros []|intros _; exact Ht].
  - inversion H; subst. split.
    + intros [X|[]]. discriminate X.
    + intros _. rewrite <- Ht.
      apply (store_archive_other _ _ _ _ _ _ _ S A1).
Qed.

(** C1.  For every deployment of a unit by [deploy_app] to its directory
    under the apps directory.  When something exists at the target path:
    every removal or copy onto the target is preceded by the complete
    archive of the tree found there, and the archive was written: the
    backup step returned [True] and left the archive in the backup
    directory, holding that tree.  When no such archive was made the call
    returns [False] and starts neither a removal, a copy nor a write of
    the descriptor.  When the backup directory lies apart from the source
    and the target of the unit, the archive is still on disk when
    [deploy_app] is over, and a target that was not archived still holds
    its tree.  When nothing exists at the target path no archive is made
    and the backup step succeeds without touching the file system. *)
Theorem backup_before_replace (m : manager) (app : text) (apps_dir : path)
    (version : text) (env : unit_env) (w : world) :
  let target := apps_dir ++ [app] in
  let archive := archive_path m app env in
  exists ok w' ops,
    deploy_app m app target version env w = (Done ok, w')
    /\ trace w' = trace w ++ ops
    /\ (forall tree, lookup_path (fs w) target = Some tree ->
          (forall pre e post, ops = pre ++ e :: post -> destructive target e ->
             In (Archived archive app tree true) pre
             /\ exists w1,
                  backup_existing_app m app apps_dir env w = (Done true, w1)
                  /\ store_archive (fs w) archive app tree true
                     = Some (fs w1)
                  /\ lookup_path (fs w1) archive
                     = Some (Tarball app tree true)
                  /\ trace w1 = trace w ++ [Archived archive app tree true])
          /\ (~ In (Archived archive app tree true) ops ->
              ok = false
              /\ forall e, In e ops ->
                   ~ destructive target e /\ forall p, e <> Wrote p)
          /\ (apart (backup_dir m) (apps_source_dir m ++ [app]) ->
              apart (backup_dir m) target ->
              (In (Archived archive app tree true) ops ->
               lookup_path (fs w') archive = Some (Tarball app tree true))
              /\ (~ In (Archived archive app tree true) ops ->
                  lookup_path (fs w') target = Some tree)))
    /\ (lookup_path (fs w) target = None ->
          (forall e, In e ops -> ~ is_archive e)
          /\ backup_existing_app m app apps_dir env w =
             (Done true,
              mkWorld (fs w) (stdin w)
                (log w ++ [(LOG, txt "No existing " ++ app
                                 ++ txt " app found to backup")])
                (trace w))).
Proof.
  intros target archive. rewrite deploy_app_run.
  destruct (deploy_result m app target version env (fs w))
    as [[[ok f'] lg] ops] eqn:R.
  exists ok, (evolve w f' lg ops), ops.
  split; [reflexivity|]. split; [reflexivity|].
  pose proof R as R0.
  apply deploy_result_ops in R. unfold target in R. rewrite parent_join in R.
  fold target in R.
  split.
  - intros tree Htree.
    assert (Hdisk : apart (backup_dir m) (apps_source_dir m ++ [app]) ->
                    apart (backup_dir m) target ->
                    (In (Archived archive app tree true) ops ->
                     lookup_path f' archive = Some (Tarball app tree true))
                    /\ (~ In (Archived archive app tree true) ops ->
                        lookup_path f' target = Some tree)).
    { intros Hs Hd.
      apply (deploy_result_archive m app apps_dir version env (fs w) f' ok lg
               ops tree R0 Htree Hs Hd). }
    destruct (backup_existing_app_present m app apps_dir env w tree Htree)
      as [backed [w1 [Hb [Htrue Hfalse]]]].
    assert (Hmade : tar_result env = TarDone ->
                    store_archive (fs w) archive app tree true <> None ->
                    exists w1,
                      backup_existing_app m app apps_dir env w
                      = (Done true, w1)
                      /\ store_archive (fs w) archive app tree true
                         = Some (fs w1)
                      /\ lookup_path (fs w1) archive
                         = Some (Tarball app tree true)
                      /\ trace w1
                         = trace w ++ [Archived archive app tree true]).
    { intros Ht Hs. destruct backed.
      - exists w1. destruct (Htrue eq_refl) as [_ [H1 [H2 H3]]]. auto.
      - exfalso. revert Hb. rewrite backup_existing_app_run.
        unfold backup_result. fold target. rewrite Htree, Ht. cbv zeta.
        fold archive.
        destruct (store_archive (fs w) archive app tree true);
          [discriminate|contradiction]. }
    destruct R as [[-> [-> _]] | [b2 [f1 [lg2 [ops2 [B R]]]]]].
    + (* nothing was started *)
      split; [|split].
      * intros pre e post H. destruct pre; discriminate.
      * intros _. split; [reflexivity|intros e []].
      * exact Hdisk.
    + pose proof B as B0. unfold backup_result in B0. fold target in B0.
      rewrite Htree in B0. cbv zeta in B0. fold archive in B0.
      destruct (backup_result_present _ _ _ _ _ _ _ _ _ _ Htree B)
        as [[-> [-> S]] | [[-> [-> _]] | [-> [-> S]]]].
      * (* the archive was made *)
        destruct R as [[H _] | [_ [writes [moves [-> _]]]]]; [discriminate|].
        assert (Ht : tar_result env = TarDone).
        { destruct (tar_result env); [reflexivity| |].
          - inversion B0.
          - destruct (store_archive (fs w) archive app tree false);
              inversion B0. }
        split; [|split].
        -- intros pre e post H Hd. destruct pre as [|x pre].
           ++ injection H as H _. subst e.
              exfalso. eapply not_destructive_archived; eauto.
           ++ injection H as H _. subst x. split; [left; reflexivity|].
              apply Hmade; [exact Ht|]. fold archive in S. congruence.
        -- intros Hno. exfalso. apply Hno. left. reflexivity.
        -- exact Hdisk.
      * (* the backup failed before anything was written *)
        destruct R as [[_ [-> [-> _]]] | [H _]]; [|discriminate].
        split; [|split].
        -- intros pre e post H. destruct pre; discriminate.
        -- intros _. split; [reflexivity|intros e []].
        -- exact Hdisk.
      * (* the backup failed half way *)
        destruct R as [[_ [-> [-> _]]] | [H _]]; [|discriminate].
        split; [|split].
        -- intros pre e post H Hd. exfalso.
           destruct pre as [|x [|y pre]]; try discriminate.
           injection H as H. subst e.
           eapply not_destructive_archived; eauto.
        -- intros _. split; [reflexivity|]. intros e [<-|[]]. split.
           ++ apply not_destructive_archived.
           ++ discriminate.
        -- exact Hdisk.
  - intros Hnone.
    destruct R as [[-> [-> _]] | [b2 [f1 [lg2 [ops2 [B R]]]]]].
    + split; [intros e []|].
      rewrite backup_existing_app_run, (backup_result_absent _ _ _ _ _ Hnone).
      unfold apply_effect, evolve. rewrite app_nil_r. reflexivity.
    + rewrite (backup_result_absent _ _ _ _ _ Hnone) in B.
      inversion B; subst. split.
      * destruct R as [[H _] | [_ [writes [moves [-> [Hw Hm]]]]]];
          [discriminate|].
        intros e He. cbn [List.app] in He. apply in_app_or in He as [He|He].
        -- destruct Hw as [->| ->]; [destruct He|].
           destruct He as [<-|[]]. intros [a [n [t [c H]]]]. discriminate.
        -- rewrite Forall_forall in Hm. apply (destructive_not_archive target).
           auto.
      * rewrite backup_existing_app_run,
          (backup_result_absent _ _ _ _ _ Hnone).
        unfold apply_effect, evolve. rewrite app_nil_r. reflexivity.
Qed.

(** ** C2 *)

(** *** The loop over the selected units *)





(** *** What the log tells of the units *)



(** *** Where the session can end by [sys.exit] *)



























(** * Further properties of the program *)

(** ** [deploy_app]: what a deployment leaves behind *)

(** X1.  When [deploy_app] returns [True] and neither the source directory
    of the app nor the target directory lies inside the other, the target
    directory holds exactly the tree of the source directory, as the
    version update left it. *)
Theorem deployed_tree_is_source_copy (m : manager) (app : text)
    (target : path) (version : text) (env : unit_env) (w w' : world) :
  apart (apps_source_dir m ++ [app]) target ->
  deploy_app m app target version env w = (Done true, w') ->
  exists entries,
    lookup_path (fs w') (apps_source_dir m ++ [app]) = Some (Dir entries)
    /\ lookup_path (fs w') target = Some (Dir entries)
    /\ forall r, lookup_path (fs w') (target ++ r)
                 = lookup_path (fs w') ((apps_source_dir m ++ [app]) ++ r).
Proof.
  intros Hap. rewrite deploy_app_run.
  destruct (deploy_result m app target version env (fs w))
    as [[[ok f'] lg] ops] eqn:R.
  unfold apply_effect. intros H. inversion H; subst. clear H.
  cbn [fs evolve].
  apply deploy_result_true in R
    as [lg1 [f1 [lg2 [ops2 [f2 [lg3 [ops3 [lg4 [ops4 [_ [_ [_ R]]]]]]]]]]]].
  destruct (replace_result_copy _ _ _ _ _ _ _ _ R Hap) as [es [_ [S3 T3]]].
  exists es. split; [exact S3|]. split; [exact T3|].
  intros r. rewrite (lookup_path_app target r),
    (lookup_path_app (apps_source_dir m ++ [app]) r), S3, T3. reflexivity.
Qed.

Lemma deployed_tree_is_source_copy_witness :
  apart (apps_source_dir example_manager ++ [txt "appA"]) example_target
  /\ deploy_app example_manager (txt "appA") example_target (txt "2.0.0")
       example_env (example_world []) = (Done true, snd example_deploy)
  /\ exists entries,
       lookup_path (fs (snd example_deploy))
         (apps_source_dir example_manager ++ [txt "appA"])
       = Some (Dir entries)
       /\ lookup_path (fs (snd example_deploy)) example_target
          = Some (Dir entries)
       /\ forall r,
            lookup_path (fs (snd example_deploy)) (example_target ++ r)
            = lookup_path (fs (snd example_deploy))
                ((apps_source_dir example_manager ++ [txt "appA"]) ++ r).
Proof.
  assert (Hap : apart (apps_source_dir example_manager ++ [txt "appA"])
                  example_target)
    by (apply apart_heads; discriminate).
  assert (H : deploy_app example_manager (txt "appA") example_target
                (txt "2.0.0") example_env (example_world [])
              = (Done true, snd example_deploy))
    by (vm_compute; reflexivity).
  split; [exact Hap|]. split; [exact H|].
  exact (deployed_tree_is_source_copy example_manager (txt "appA")
           example_target (txt "2.0.0") example_env (example_world [])
           (snd example_deploy) Hap H).
Defined.

(** X2.  When [deploy_app] returns [True] for a version of the form
    MAJOR.MINOR.PATCH and the source and target directories do not lie
    inside each other, [get_current_version] on the deployed copy returns
    that version, unless the system refuses the probe of the descriptor,
    which makes the call raise. *)
Theorem deployed_version_reads_back (m : manager) (app : text) (dir : path)
    (version : text) (env : unit_env) (w w' : world) :
  Triple version ->
  apart (apps_source_dir m ++ [app]) (dir ++ [app]) ->
  deploy_app m app (dir ++ [app]) version env w = (Done true, w') ->
  forall refused,
    get_current_version (fs w') dir app false refused
    = if refused then None else Some version.
Proof.
  intros Hv Hap Hrun [|]; [reflexivity|]. revert Hrun.
  rewrite deploy_app_run.
  destruct (deploy_result m app (dir ++ [app]) version env (fs w))
    as [[[ok f'] lg] ops] eqn:R.
  unfold apply_effect. intros H. inversion H; subst. clear H.
  cbn [fs evolve].
  apply deploy_result_true in R
    as [lg1 [f1 [lg2 [ops2 [f2 [lg3 [ops3 [lg4 [ops4 [_ [_ [U R]]]]]]]]]]]].
  destruct (replace_result_copy _ _ _ _ _ _ _ _ R Hap) as [es [S2 [_ T3]]].
  rewrite <- (update_result_version _ _ _ _ _ _ _ _ Hv U).
  apply get_current_version_ext.
  rewrite (app_assoc dir), (app_assoc (apps_source_dir m)).
  rewrite (lookup_path_app (dir ++ [app]) app_conf),
    (lookup_path_app (apps_source_dir m ++ [app]) app_conf), S2, T3.
  reflexivity.
Qed.

Lemma deployed_version_reads_back_witness :
  Triple (txt "2.0.0")
  /\ apart (apps_source_dir example_manager ++ [txt "appA"])
       (example_apps_dir ++ [txt "appA"])
  /\ deploy_app example_manager (txt "appA")
       (example_apps_dir ++ [txt "appA"]) (txt "2.0.0") example_env
       (example_world []) = (Done true, snd example_deploy)
  /\ get_current_version (fs (snd example_deploy)) example_apps_dir
       (txt "appA") false false = Some (txt "2.0.0").
Proof.
  assert (Hap : apart (apps_source_dir example_manager ++ [txt "appA"])
                  (example_apps_dir ++ [txt "appA"]))
    by (apply apart_heads; discriminate).
  assert (H : deploy_app example_manager (txt "appA")
                (example_apps_dir ++ [txt "appA"]) (txt "2.0.0") example_env
                (example_world []) = (Done true, snd example_deploy))
    by (vm_compute; reflexivity).
  split; [exact Triple_2_0_0|]. split; [exact Hap|]. split; [exact H|].
  exact (deployed_version_reads_back example_manager (txt "appA")
           example_apps_dir (txt "2.0.0") example_env (example_world [])
           (snd example_deploy) Triple_2_0_0 Hap H false).
Defined.

(** X3.  When [deploy_app] returns [True], the source and target
    directories do not lie inside each other and the backup directory is
    apart from the source directory of the app, [validate_deployment] on
    the target succeeds: the branch of [run] that reports a failed
    validation is not taken. *)
Theorem deployed_app_validates (m : manager) (app : text) (target : path)
    (version : text) (env : unit_env) (w w' : world) :
  apart (apps_source_dir m ++ [app]) target ->
  apart (backup_dir m) (apps_source_dir m ++ [app]) ->
  deploy_app m app target version env w = (Done true, w') ->
  validate_deployment app target w'
  = (Done true,
     mkWorld (fs w') (stdin w')
       (log w' ++ [(LOG, txt "Validating " ++ app ++ txt " deployment...");
                   (SUCCESS, app ++ txt " deployment validation passed")])
       (trace w')).
Proof.
  intros Hst Hbs. rewrite deploy_app_run.
  destruct (deploy_result m app target version env (fs w))
    as [[[ok f'] lg] ops] eqn:R.
  unfold apply_effect. intros H. inversion H; subst. clear H.
  destruct (deploy_result_required _ _ _ _ _ _ _ _ _ R Hst Hbs) as [Ht Hr].
  rewrite validate_deployment_run. unfold validate_deployment_result.
  cbn [fs evolve]. rewrite Ht. cbn [negb].
  rewrite (proj2 (first_missing_none f' target required_files)) by exact Hr.
  unfold apply_effect, evolve. cbn [fs stdin log trace].
  rewrite app_nil_r. reflexivity.
Qed.

Lemma deployed_app_validates_witness :
  apart (apps_source_dir example_manager ++ [txt "appA"]) example_target
  /\ apart (backup_dir example_manager)
       (apps_source_dir example_manager ++ [txt "appA"])
  /\ deploy_app example_manager (txt "appA") example_target (txt "2.0.0")
       example_env (example_world []) = (Done true, snd example_deploy)
  /\ validate_deployment (txt "appA") example_target (snd example_deploy)
     = (Done true,
        mkWorld (fs (snd example_deploy)) (stdin (snd example_deploy))
          (log (snd example_deploy)
           ++ [(LOG, txt "Validating " ++ txt "appA"
                     ++ txt " deployment...");
               (SUCCESS, txt "appA" ++ txt " deployment validation passed")])
          (trace (snd example_deploy))).
Proof.
  assert (Hst : apart (apps_source_dir example_manager ++ [txt "appA"])
                  example_target)
    by (apply apart_heads; discriminate).
  assert (Hbs : apart (backup_dir example_manager)
                  (apps_source_dir example_manager ++ [txt "appA"]))
    by (apply apart_heads; discriminate).
  assert (H : deploy_app example_manager (txt "appA") example_target
                (txt "2.0.0") example_env (example_world [])
              = (Done true, snd example_deploy))
    by (vm_compute; reflexivity).
  split; [exact Hst|]. split; [exact Hbs|]. split; [exact H|].
  exact (deployed_app_validates example_manager (txt "appA") example_target
           (txt "2.0.0") example_env (example_world [])
           (snd example_deploy) Hst Hbs H).
Defined.

(** X4.  Whatever happens in it, [deploy_app] changes nothing in the file
    system apart from the archive in the backup directory, the descriptor
    of the source and the target directory: every path that neither lies
    under one of the three nor is an ancestor of one holds afterwards what
    it held before.  (The log file of the session is not part of the tree:
    the entries of the logger are kept in a list.) *)
Theorem deploy_app_frame (m : manager) (app : text) (target : path)
    (version : text) (env : unit_env) (w w' : world) (result : outcome bool)
    (q : path) :
  apart (archive_path m app env) q ->
  apart (apps_source_dir m ++ [app] ++ app_conf) q ->
  apart target q ->
  deploy_app m app target version env w = (result, w') ->
  lookup_path (fs w') q = lookup_path (fs w) q.
Proof.
  intros Ha Hd Ht. rewrite deploy_app_run.
  destruct (deploy_result m app target version env (fs w))
    as [[[ok f'] lg] ops] eqn:R.
  unfold apply_effect. intros H. inversion H; subst. clear H.
  cbn [fs evolve].
  apply (deploy_result_frame _ _ _ _ _ _ _ _ _ _ q R); assumption.
Qed.

Lemma deploy_app_frame_witness :
  lookup_path (fs (snd example_deploy)) [txt "src"; txt "appB"]
  = lookup_path (fs (example_world [])) [txt "src"; txt "appB"].
Proof.
  assert (H : deploy_app example_manager (txt "appA") example_target
                (txt "2.0.0") example_env (example_world [])
              = (Done true, snd example_deploy))
    by (vm_compute; reflexivity).
  apply (deploy_app_frame example_manager (txt "appA") example_target
           (txt "2.0.0") example_env (example_world []) (snd example_deploy)
           (Done true) [txt "src"; txt "appB"]).
  - apply apart_heads. discriminate.
  - apply (apart_common [txt "src"]). apply apart_heads. discriminate.
  - apply apart_heads. discriminate.
  - exact H.
Defined.

(** ** [select_apps_interactive]: the menu *)

(** X5.  When [select_apps_interactive] returns, the list it returns is
    not empty and holds only apps that [list_available_apps] lists; the
    file system is as it was and no operation on it was started. *)
Theorem selected_apps_are_available (m : manager) (w w' : world)
    (apps : list text) :
  select_apps_interactive m w = (Done apps, w') ->
  apps <> []
  /\ (exists names,
        list_available_apps (fs w) (apps_source_dir m) (manager_access m)
        = Some names
        /\ forall a, In a apps -> In a names)
  /\ fs w' = fs w /\ trace w' = trace w.
Proof.
  destruct w as [f i lg tr]. cbn [fs trace].
  destruct (list_available_apps f (apps_source_dir m) (manager_access m))
    as [names|] eqn:Ha.
  2:{ unfold select_apps_interactive. rewrite bind_eq, get_fs_run.
      cbv beta iota. cbn [fs]. rewrite Ha. discriminate. }
  destruct (no_text names) eqn:Hn.
  { destruct names; [|discriminate]. unfold select_apps_interactive.
    rewrite bind_eq, get_fs_run. cbv beta iota. cbn [fs]. rewrite Ha.
    cbv iota. rewrite bind_eq, logm_run. discriminate. }
  destruct i as [|[raw|] rest].
  - intros H. pose proof (select_needs_input m _ _ _ H eq_refl) as X.
    discriminate X.
  - destruct (select_apps_interactive_typed m f raw rest lg tr names Ha Hn)
      as [lg' ->].
    destruct (is_empty (strip raw)); [discriminate|]. cbv zeta.
    destruct (text_eqb (lower (strip raw)) (txt "all")).
    + rewrite Hn. intros H. inversion H; subst.
      split; [intros ->; discriminate|]. split; [|split; reflexivity].
      exists apps. split; [reflexivity|auto].
    + destruct (no_text (picks names (words (strip raw)))) eqn:Hp;
        [discriminate|].
      intros H. inversion H; subst.
      split; [intros E; rewrite E in Hp; discriminate|].
      split; [|split; reflexivity].
      exists names. split; [reflexivity|]. apply picks_available.
  - unfold select_apps_interactive. rewrite bind_eq, get_fs_run.
    cbv beta iota. cbn [fs]. rewrite Ha.
    destruct names as [|a names]; [discriminate|]. cbv iota.
    rewrite bind_eq, (show_versions_listed m _ _ f _ Ha (fun a H => H)).
    cbv beta iota. rewrite bind_eq. unfold input. cbn [stdin].
    discriminate.
Qed.

Lemma selected_apps_are_available_witness :
  select_apps_interactive example_manager (example_world [Typed (txt "2 7 1")])
  = (Done [txt "appB"; txt "appA"], snd (example_menu (txt "2 7 1")))
  /\ [txt "appB"; txt "appA"] <> []
  /\ (exists names,
        list_available_apps (fs (example_world [Typed (txt "2 7 1")]))
          (apps_source_dir example_manager) (manager_access example_manager)
        = Some names
        /\ forall a, In a [txt "appB"; txt "appA"] -> In a names)
  /\ fs (snd (example_menu (txt "2 7 1")))
     = fs (example_world [Typed (txt "2 7 1")])
  /\ trace (snd (example_menu (txt "2 7 1")))
     = trace (example_world [Typed (txt "2 7 1")]).
Proof.
  assert (H : select_apps_interactive example_manager
                (example_world [Typed (txt "2 7 1")])
              = (Done [txt "appB"; txt "appA"],
                 snd (example_menu (txt "2 7 1"))))
    by (vm_compute; reflexivity).
  split; [exact H|].
  exact (selected_apps_are_available example_manager
           (example_world [Typed (txt "2 7 1")])
           (snd (example_menu (txt "2 7 1"))) [txt "appB"; txt "appA"] H).
Defined.

(** X6.  When the line typed at the menu is [all], in any mix of upper
    and lower case and with any space around it, and there is an app to
    deploy, [select_apps_interactive] returns every app that
    [list_available_apps] lists, in the order of that list. *)
Theorem select_all_returns_available (m : manager) (f : node) (raw : text)
    (rest : list keyboard) (lg : list (level * text)) (tr : list event)
    (names : list text) :
  list_available_apps f (apps_source_dir m) (manager_access m) = Some names ->
  names <> [] ->
  lower (strip raw) = txt "all" ->
  exists lg',
    select_apps_interactive m (mkWorld f (Typed raw :: rest) lg tr)
    = (Done names, mkWorld f rest (lg ++ lg') tr).
Proof.
  intros Ha Hne Hall.
  assert (Hn : no_text names = false)
    by (destruct names; [contradiction|reflexivity]).
  destruct (select_apps_interactive_typed m f raw rest lg tr names Ha Hn)
    as [lg' H].
  exists lg'. rewrite H. rewrite Hall.
  destruct (strip raw); [discriminate|]. cbn [is_empty]. cbv zeta.
  rewrite text_eqb_refl, Hn. reflexivity.
Qed.

Lemma select_all_returns_available_witness :
  list_available_apps example_fs (apps_source_dir example_manager)
    (manager_access example_manager)
  = Some [txt "appA"; txt "appB"]
  /\ [txt "appA"; txt "appB"] <> []
  /\ lower (strip (txt " All ")) = txt "all"
  /\ exists lg',
       select_apps_interactive example_manager
         (mkWorld example_fs (Typed (txt " All ") :: []) [] [])
       = (Done [txt "appA"; txt "appB"], mkWorld example_fs [] ([] ++ lg') []).
Proof.
  assert (Ha : list_available_apps example_fs (apps_source_dir example_manager)
                 (manager_access example_manager)
               = Some [txt "appA"; txt "appB"]) by (vm_compute; reflexivity).
  assert (Hne : [txt "appA"; txt "appB"] <> []) by discriminate.
  assert (Hall : lower (strip (txt " All ")) = txt "all")
    by (vm_compute; reflexivity).
  split; [exact Ha|]. split; [exact Hne|]. split; [exact Hall|].
  exact (select_all_returns_available example_manager example_fs
           (txt " All ") [] [] [] [txt "appA"; txt "appB"] Ha Hne Hall).
Defined.

(** X7.  When the line typed at the menu splits at its spaces into the
    decimal numerals of numbers between 1 and the number of apps listed,
    [select_apps_interactive] returns the apps with these numbers on the
    menu, in the order typed, an app typed twice being returned twice. *)
Theorem typed_numbers_select_apps (m : manager) (f : node) (raw : text)
    (rest : list keyboard) (lg : list (level * text)) (tr : list event)
    (names : list text) (ns : list nat) :
  list_available_apps f (apps_source_dir m) (manager_access m) = Some names ->
  words (strip raw) = map decimal ns ->
  ns <> [] ->
  Forall (fun n => 1 <= n <= length names) ns ->
  exists lg',
    select_apps_interactive m (mkWorld f (Typed raw :: rest) lg tr)
    = (Done (map (fun n => nth (n - 1) names []) ns),
       mkWorld f rest (lg ++ lg') tr).
Proof.
  intros Ha Hw Hne Hin.
  assert (Hn : no_text names = false).
  { destruct ns as [|n ns]; [contradiction|].
    inversion Hin as [|? ? [H1 H2] _]; subst.
    destruct names; [cbn in H2; lia|reflexivity]. }
  destruct (select_apps_interactive_typed m f raw rest lg tr names Ha Hn)
    as [lg' H].
  exists lg'. rewrite H.
  assert (He : is_empty (strip raw) = false).
  { destruct (strip raw); [|reflexivity]. rewrite words_nil in Hw.
    destruct ns; [contradiction|discriminate]. }
  rewrite He. cbv zeta. rewrite (numbers_not_all _ ns Hw), Hw.
  rewrite picks_decimal by exact Hin.
  destruct ns; [contradiction|]. reflexivity.
Qed.

Lemma typed_numbers_select_apps_witness :
  list_available_apps example_fs (apps_source_dir example_manager)
    (manager_access example_manager)
  = Some [txt "appA"; txt "appB"]
  /\ words (strip (txt " 2  1 2 ")) = map decimal [2; 1; 2]
  /\ [2; 1; 2] <> []
  /\ Forall (fun n => 1 <= n <= length [txt "appA"; txt "appB"]) [2; 1; 2]
  /\ exists lg',
       select_apps_interactive example_manager
         (mkWorld example_fs (Typed (txt " 2  1 2 ") :: []) [] [])
       = (Done (map (fun n => nth (n - 1) [txt "appA"; txt "appB"] [])
                  [2; 1; 2]),
          mkWorld example_fs [] ([] ++ lg') []).
Proof.
  assert (Ha : list_available_apps example_fs (apps_source_dir example_manager)
                 (manager_access example_manager)
               = Some [txt "appA"; txt "appB"]) by (vm_compute; reflexivity).
  assert (Hw : words (strip (txt " 2  1 2 ")) = map decimal [2; 1; 2])
    by (vm_compute; reflexivity).
  assert (Hne : [2; 1; 2] <> []) by discriminate.
  assert (Hin : Forall (fun n => 1 <= n <= length [txt "appA"; txt "appB"])
                  [2; 1; 2])
    by (repeat constructor).
  split; [exact Ha|]. split; [exact Hw|]. split; [exact Hne|].
  split; [exact Hin|].
  exact (typed_numbers_select_apps example_manager example_fs
           (txt " 2  1 2 ") [] [] [] [txt "appA"; txt "appB"] [2; 1; 2]
           Ha Hw Hne Hin).
Defined.

(** ** Restarting Splunk *)

(** X9.  At the restart prompt every line that is not y, yes, n or no
    (whatever its case and the space around it) is passed over without a
    trace: the prompt goes on as if the line had not been typed. *)
Theorem restart_prompt_skips_other_lines (h : host) (splunk_home : path)
    (f : node) (junk : list text) (keys : list keyboard)
    (lg : list (level * text)) (tr : list event) :
  forallb undecided junk = true ->
  interactive_restart_prompt h splunk_home
    (mkWorld f (map Typed junk ++ keys) lg tr)
  = interactive_restart_prompt h splunk_home (mkWorld f keys lg tr).
Proof. intros H. apply interactive_restart_prompt_skip. exact H. Qed.

Lemma restart_prompt_skips_other_lines_witness :
  forallb undecided [txt "info"; txt ""; txt "maybe"] = true
  /\ interactive_restart_prompt example_host [txt "opt"; txt "splunk"]
       (mkWorld example_fs
          (map Typed [txt "info"; txt ""; txt "maybe"] ++ [Typed (txt "N")])
          [] [])
     = interactive_restart_prompt example_host [txt "opt"; txt "splunk"]
         (mkWorld example_fs [Typed (txt "N")] [] []).
Proof.
  assert (H : forallb undecided [txt "info"; txt ""; txt "maybe"] = true)
    by (vm_compute; reflexivity).
  split; [exact H|].
  exact (restart_prompt_skips_other_lines example_host
           [txt "opt"; txt "splunk"] example_fs
           [txt "info"; txt ""; txt "maybe"] [Typed (txt "N")] [] [] H).
Defined.

(** X10.  The first line of the restart prompt that is an answer decides.
    After n or no Splunk is not restarted, three entries are logged and
    nothing else changes: the warning, the reminder, which starts with the
    wrench, and the command to run by hand, which on Windows is quoted and
    written with backslashes.  After y or yes the prompt ends as
    [restart_splunk] does, called once after the entry that announces it:
    with its exception if it raises. *)
Theorem restart_prompt_answer_decides (h : host) (splunk_home : path)
    (f : node) (junk : list text) (answer : text) (rest : list keyboard)
    (lg : list (level * text)) (tr : list event) :
  forallb undecided junk = true ->
  let w := mkWorld f (map Typed junk ++ Typed answer :: rest) lg tr in
  (is_no (lower (strip answer)) = true ->
   interactive_restart_prompt h splunk_home w
   = (Done tt,
      mkWorld f rest
        (lg ++ [(WARNING, txt "Splunk restart skipped.");
                (INFO,
                 wrench
                 ++ txt " Remember to restart Splunk manually to load the new apps:");
                (INFO, restart_by_hand h splunk_home)]) tr))
  /\ (is_yes (lower (strip answer)) = true ->
      interactive_restart_prompt h splunk_home w
      = (restart_splunk h splunk_home ;;; ret tt)
          (mkWorld f rest
             (lg ++ [(INFO, txt "Starting Splunk restart...")]) tr)).
Proof.
  intros Hj w. unfold w.
  rewrite (interactive_restart_prompt_skip h splunk_home f lg tr junk _ Hj).
  unfold interactive_restart_prompt. cbn [stdin length].
  rewrite restart_prompt_loop_eq, bind_eq, input_run. cbv beta iota zeta.
  split.
  - intros Hn. rewrite (no_is_not_yes _ Hn), Hn.
    rewrite bind_eq, logm_run. cbv beta iota.
    rewrite bind_eq, logm_run. cbv beta iota.
    unfold restart_by_hand.
    destruct (host_os h); rewrite bind_eq, logm_run; cbv beta iota;
      rewrite ret_run; unfold evolve; cbn [fs stdin log trace];
      rewrite <- !app_assoc, !app_nil_r; reflexivity.
  - intros Hy. rewrite Hy. rewrite bind_eq, logm_run. cbv beta iota.
    unfold evolve. cbn [fs stdin log trace]. rewrite app_nil_r.
    reflexivity.
Qed.

Lemma restart_prompt_answer_decides_witness :
  forallb undecided [txt "i"] = true
  /\ is_no (lower (strip (txt " No "))) = true
  /\ interactive_restart_prompt example_windows_host
       [txt "C:"; txt "Program Files"; txt "Splunk"]
       (mkWorld example_fs (map Typed [txt "i"] ++ Typed (txt " No ") :: [])
          [] [])
     = (Done tt,
        mkWorld example_fs []
          ([] ++ [(WARNING, txt "Splunk restart skipped.");
                  (INFO,
                   wrench
                   ++ txt " Remember to restart Splunk manually to load the new apps:");
                  (INFO,
                   txt "   " ++ double_quote ++ txt "C:" ++ backslash
                   ++ txt "Program Files" ++ backslash ++ txt "Splunk"
                   ++ backslash ++ txt "bin" ++ backslash ++ txt "splunk.exe"
                   ++ double_quote ++ txt " restart")]) []).
Proof.
  assert (Hj : forallb undecided [txt "i"] = true) by (vm_compute; reflexivity).
  assert (Hn : is_no (lower (strip (txt " No "))) = true)
    by (vm_compute; reflexivity).
  split; [exact Hj|]. split; [exact Hn|].
  exact (proj1 (restart_prompt_answer_decides example_windows_host
                  [txt "C:"; txt "Program Files"; txt "Splunk"] example_fs
                  [txt "i"] (txt " No ") [] [] [] Hj) Hn).
Defined.

(** ** The session: [run] and [main] *)

(** X11.  The exit status of the program is 0, 1 or 2, whatever the
    command line, the keyboard input, the file system and the faults met.
    It is 2 exactly when [parse_args] rejects the command line, and then
    nothing else has happened; a session on an accepted command line ends
    with 0 or 1. *)
Theorem exit_status_is_0_1_or_2 (h : host) (command_line : option arguments)
    (envs : nat -> unit_env) (w : world) :
  (fst (main h command_line envs w) = 0
   \/ fst (main h command_line envs w) = 1
   \/ fst (main h command_line envs w) = 2)
  /\ (fst (main h command_line envs w) = 2 <-> command_line = None)
  /\ (command_line = None -> snd (main h command_line envs w) = w).
Proof.
  assert (H01 : forall args,
            fst (main h (Some args) envs w) = 0
            \/ fst (main h (Some args) envs w) = 1).
  { intros args. unfold main. destruct (arg_help args); [left; reflexivity|].
    destruct ((m <- init_manager h args ;; run h m args envs) w)
      as [[a|c|] w1] eqn:E; cbn [fst]; auto.
    right. destruct (session_exits_one h args envs w _ _ E) as [_ H].
    apply (H c eq_refl). }
  destruct command_line as [args|].
  - split; [|split].
    + destruct (H01 args) as [H|H]; auto.
    + split; [|discriminate]. intros H2.
      destruct (H01 args) as [H|H]; rewrite H in H2; discriminate.
    + discriminate.
  - cbn [main fst snd]. split; [auto|]. split; [|reflexivity].
    split; reflexivity.
Qed.

(** X12.  When none of the lines typed reads y or yes, the program starts
    no archive, no write of a descriptor, no removal and no copy: the
    question whether to proceed is the gate of every deployment.  (The
    directories for logs, backups and apps are made all the same.)  This
    holds for every command line, accepted or not. *)
Theorem no_yes_starts_nothing (h : host) (command_line : option arguments)
    (envs : nat -> unit_env) (w : world) :
  no_yes (stdin w) = true ->
  trace (snd (main h command_line envs w)) = trace w.
Proof.
  intros Hno. unfold main. destruct command_line as [args|]; [|reflexivity].
  destruct (arg_help args); [reflexivity|].
  destruct ((m <- init_manager h args ;; run h m args envs) w)
    as [o w1] eqn:E.
  pose proof (session_no_yes h args envs w o w1 E Hno) as Ht.
  destruct o; exact Ht.
Qed.

Lemma no_yes_starts_nothing_witness :
  no_yes (stdin (example_world [Typed (txt "all"); Typed (txt "n")])) = true
  /\ trace (snd (main example_host (Some example_arguments)
                   (fun _ => example_env)
                   (example_world [Typed (txt "all"); Typed (txt "n")])))
     = trace (example_world [Typed (txt "all"); Typed (txt "n")]).
Proof.
  assert (H : no_yes (stdin (example_world
                               [Typed (txt "all"); Typed (txt "n")])) = true)
    by (vm_compute; reflexivity).
  split; [exact H|].
  exact (no_yes_starts_nothing example_host (Some example_arguments)
           (fun _ => example_env)
           (example_world [Typed (txt "all"); Typed (txt "n")]) H).
Defined.

(** X13.  However the loop of [run] over the selected apps ends, every
    operation it starts belongs to one of the selected apps: an archive in
    the backup directory under the name of the app, the write of the
    descriptor of the app in the source directory, the removal of the
    directory of the app in the apps directory, or the copy of the source
    directory of the app to it. *)
Theorem loop_touches_only_selected_apps (m : manager) (dir : path)
    (envs : nat -> unit_env) (i : nat) (selected : list text)
    (deployed : list (text * text)) (w : world) :
  events_of m dir selected w
    (snd (deploy_selected m dir envs i selected deployed w)).
Proof.
  destruct (deploy_selected m dir envs i selected deployed w) as [o w'] eqn:E.
  cbn [snd].
  apply (events_deploy_selected m dir envs selected selected i deployed
           (fun app H => H) w o w' E).
Qed.

(** X14.  Without a line to read the exit status is settled by the
    command line alone: 2 when [parse_args] rejects it, 0 when it asks for
    the help, and 1 in every other case, because every way through [run]
    asks the operator at least once. *)
Theorem session_without_input_fails (h : host)
    (command_line : option arguments) (envs : nat -> unit_env) (w : world) :
  stdin w = [] ->
  fst (main h command_line envs w)
  = match command_line with
    | None => 2
    | Some args => if arg_help args then 0 else 1
    end.
Proof.
  intros Hin. unfold main. destruct command_line as [args|]; [|reflexivity].
  destruct (arg_help args); [reflexivity|].
  destruct ((m <- init_manager h args ;; run h m args envs) w)
    as [[a|c|] w1] eqn:E; cbn [fst].
  - pose proof (session_no_input h args envs w _ w1 E Hin) as H.
    discriminate.
  - destruct (session_exits_one h args envs w _ _ E) as [_ H].
    apply (H c eq_refl).
  - reflexivity.
Qed.

Lemma session_without_input_fails_witness :
  stdin (example_world []) = []
  /\ fst (main example_host (Some example_arguments) (fun _ => example_env)
            (example_world [])) = 1
  /\ fst (main example_host None (fun _ => example_env) (example_world []))
     = 2.
Proof.
  split; [reflexivity|]. split.
  - exact (session_without_input_fails example_host (Some example_arguments)
             (fun _ => example_env) (example_world []) eq_refl).
  - exact (session_without_input_fails example_host None
             (fun _ => example_env) (example_world []) eq_refl).
Defined.

(** ** [update_app_version]: the descriptor read again *)

(** X15.  When [update_app_version] returns [True] for a version of the
    form MAJOR.MINOR.PATCH, reading the descriptor again with
    [ConfigParser.read] gives the configuration that was read before the
    update, changed in three places at most: the default section is the
    same, every section other than launcher and install has the same
    options with the same values in the same order, every option other
    than launcher.version, launcher.label and install.build has the same
    value, launcher.version is the new version and install.build is the
    stamp of the clock. *)
Theorem descriptor_reads_back (src : path) (app version : text)
    (env : unit_env) (w w' : world) :
  Triple version ->
  update_app_version src app version env w = (Done true, w') ->
  exists cfg cfg'',
    read_config (fs w) (src ++ [app] ++ app_conf) (read_unreadable env)
    = Some cfg
    /\ read_config (fs w') (src ++ [app] ++ app_conf) false = Some cfg''
    /\ defaults cfg'' = defaults cfg
    /\ (forall section optname,
          ~ rewritten section optname ->
          option_of cfg'' section optname = option_of cfg section optname)
    /\ (forall section,
          section <> launcher -> section <> install ->
          lookup section (sections cfg'') = lookup section (sections cfg))
    /\ option_of cfg'' launcher (txt "version") = Some version
    /\ option_of cfg'' install (txt "build")
       = Some (build_stamp (build_time env)).
Proof.
  intros Hv. rewrite update_app_version_run.
  destruct (update_result src app version env (fs w)) as [[[ok f'] lg] ops]
    eqn:R.
  unfold apply_effect. intros H. inversion H; subst. clear H.
  cbn [fs evolve]. exact (update_read_again _ _ _ _ _ _ _ _ Hv R).
Qed.

Lemma descriptor_reads_back_witness :
  Triple (txt "3.1.4")
  /\ update_app_version example_source (txt "appC") (txt "3.1.4") example_env
       commented_world = (Done true, snd round_trip_update)
  /\ exists cfg cfg'',
       read_config (fs commented_world)
         (example_source ++ [txt "appC"] ++ app_conf)
         (read_unreadable example_env) = Some cfg
       /\ read_config (fs (snd round_trip_update))
            (example_source ++ [txt "appC"] ++ app_conf) false = Some cfg''
       /\ defaults cfg'' = defaults cfg
       /\ (forall section optname,
             ~ rewritten section optname ->
             option_of cfg'' section optname = option_of cfg section optname)
       /\ (forall section,
             section <> launcher -> section <> install ->
             lookup section (sections cfg'') = lookup section (sections cfg))
       /\ option_of cfg'' launcher (txt "version") = Some (txt "3.1.4")
       /\ option_of cfg'' install (txt "build")
          = Some (build_stamp (build_time example_env)).
Proof.
  assert (H : update_app_version example_source (txt "appC") (txt "3.1.4")
                example_env commented_world
              = (Done true, snd round_trip_update))
    by (vm_compute; reflexivity).
  split; [exact Triple_3_1_4|]. split; [exact H|].
  exact (descriptor_reads_back example_source (txt "appC") (txt "3.1.4")
           example_env commented_world (snd round_trip_update)
           Triple_3_1_4 H).
Defined.

(** ** [DeploymentManager.__init__]: the directories of the tool *)

(** X16.  [__init__] never ends by [sys.exit].  It raises exactly when
    making [logs] or [backups] under the directory of the script is
    obstructed: a file or an archive lies at the path or above it, or the
    system refuses to make a directory that is missing there.  [logs] is
    made first: when only [backups] is obstructed, [logs] is a directory
    when the exception leaves.  When [__init__] returns, both are
    directories and the manager keeps its backups in [backups].  However
    it ends, every file and archive is where it was with the content it
    had, every directory is still a directory, nothing changed outside
    the two paths, no line was read and no operation started.  (The log
    file that the logger starts under [logs] is not part of the tree: its
    entries are kept in a list.) *)
Theorem init_makes_directories (h : host) (args : arguments) (w : world) :
  let refused := mkdir_refused (host_access h) in
  let logs := script_dir h ++ [txt "logs"] in
  let backups := script_dir h ++ [txt "backups"] in
  match init_manager h args w with
  | (Done m, w') =>
      ~ obstructed refused (fs w) logs
      /\ ~ obstructed refused (fs w) backups
      /\ backup_dir m = backups
      /\ manager_access m = host_access h
      /\ is_dir (fs w') logs = true
      /\ is_dir (fs w') backups = true
      /\ (forall q n,
            lookup_path (fs w) q = Some n -> is_directory n = false ->
            lookup_path (fs w') q = Some n)
      /\ (forall q, is_dir (fs w) q = true -> is_dir (fs w') q = true)
      /\ (forall q,
            ~ is_prefix q logs -> ~ is_prefix q backups ->
            lookup_path (fs w') q = lookup_path (fs w) q)
      /\ stdin w' = stdin w /\ trace w' = trace w
  | (Raised, w') =>
      (obstructed refused (fs w) logs \/ obstructed refused (fs w) backups)
      /\ (~ obstructed refused (fs w) logs -> is_dir (fs w') logs = true)
      /\ log w' = log w
      /\ (forall q n,
            lookup_path (fs w) q = Some n -> is_directory n = false ->
            lookup_path (fs w') q = Some n)
      /\ (forall q, is_dir (fs w) q = true -> is_dir (fs w') q = true)
      /\ (forall q,
            ~ is_prefix q logs -> ~ is_prefix q backups ->
            lookup_path (fs w') q = lookup_path (fs w) q)
      /\ stdin w' = stdin w /\ trace w' = trace w
  | (Exit _, _) => False
  end.
Proof.
  pose proof (init_manager_cases h args w) as H. cbv zeta in H |- *.
  destruct (init_manager h args w) as [[m|c|] w']; exact H.
Qed.

(** On a machine that lets the program make [logs] but not [backups],
    [__init__] raises, and [logs] is there afterwards. *)
Lemma init_makes_directories_witness :
  fst (init_manager guarded_host example_arguments bare_world) = Raised
  /\ (obstructed (mkdir_refused (host_access guarded_host)) (fs bare_world)
        [txt "tool"; txt "logs"]
      \/ obstructed (mkdir_refused (host_access guarded_host)) (fs bare_world)
           [txt "tool"; txt "backups"])
  /\ is_dir (fs (snd (init_manager guarded_host example_arguments bare_world)))
       [txt "tool"; txt "logs"] = true
  /\ path_exists
       (fs (snd (init_manager guarded_host example_arguments bare_world)))
       [txt "tool"; txt "backups"] = false.
Proof.
  pose proof (init_makes_directories guarded_host example_arguments
                bare_world) as H.
  cbv zeta in H.
  assert (E : init_manager guarded_host example_arguments bare_world
              = (Raised,
                 snd (init_manager guarded_host example_arguments bare_world)))
    by (vm_compute; reflexivity).
  rewrite E in H. destruct H as [H _].
  split; [vm_compute; reflexivity|]. split; [exact H|].
  split; vm_compute; reflexivity.
Defined.

(** ** [validate_app_structure] on an app of the menu *)

(** X17.  For an app that [list_available_apps] offers,
    [validate_app_structure] returns [True] exactly when
    metadata/default.meta exists under the directory of the app: the menu
    has already seen to default and default/app.conf.  The call changes
    the log only. *)
Theorem listed_app_validates_iff (src : path) (acc : access) (app : text)
    (names : list text) (w : world) :
  list_available_apps (fs w) src acc = Some names -> In app names ->
  exists lg,
    validate_app_structure src app w
    = (Done (path_exists (fs w) (src ++ [app] ++ default_meta)),
       mkWorld (fs w) (stdin w) (log w ++ lg) (trace w)).
Proof.
  intros Hl Hin. rewrite validate_app_structure_run.
  pose proof (validate_result_listed (fs w) src acc names app Hl Hin) as Hb.
  destruct (validate_result_fs src app (fs w)) as [Hf Ho].
  destruct (validate_result src app (fs w)) as [[[b f] lg] ops].
  cbn [fst snd] in Hb, Hf, Ho. subst b f ops.
  unfold apply_effect, evolve. rewrite app_nil_r. exists lg. reflexivity.
Qed.

Lemma listed_app_validates_iff_witness :
  list_available_apps (fs (example_world [])) example_source open_access
  = Some [txt "appA"; txt "appB"]
  /\ In (txt "appB") [txt "appA"; txt "appB"]
  /\ exists lg,
       validate_app_structure example_source (txt "appB") (example_world [])
       = (Done (path_exists (fs (example_world []))
                  (example_source ++ [txt "appB"] ++ default_meta)),
          mkWorld (fs (example_world [])) (stdin (example_world []))
            (log (example_world []) ++ lg) (trace (example_world []))).
Proof.
  assert (H : list_available_apps (fs (example_world [])) example_source
                open_access
              = Some [txt "appA"; txt "appB"]) by (vm_compute; reflexivity).
  assert (Hin : In (txt "appB") [txt "appA"; txt "appB"])
    by (right; left; reflexivity).
  split; [exact H|]. split; [exact Hin|].
  exact (listed_app_validates_iff example_source open_access (txt "appB")
           [txt "appA"; txt "appB"] (example_world []) H Hin).
Defined.

(** ** [handle_git_operations] *)

(** X18.  Without git [handle_git_operations] returns [False] without
    reading a line and leaves the tree alone.  With git it reads one line
    and returns [True] exactly when the answer is y or yes (after strip
    and lower), [git add] succeeds, something is staged and [git commit]
    succeeds.  The tree afterwards is the one that the commands that ran
    left: [git add] runs after a yes, [git commit] after it when the
    addition succeeded and staged something; after any other answer no
    command runs and the tree is untouched.  No operation of the deployer
    itself is started. *)
Theorem git_commit_decided (h : host) (apps : list text) :
  (git_available h = false ->
   forall w,
     handle_git_operations h apps w
     = (Done false,
        mkWorld (fs w) (stdin w)
          (log w
           ++ [(INFO, txt "Git not available - skipping git operations")])
          (trace w)))
  /\ (git_available h = true ->
      forall f raw rest lg tr,
      exists lg',
        handle_git_operations h apps (mkWorld f (Typed raw :: rest) lg tr)
        = (Done (is_yes (lower (strip raw)) && git_add_ok h
                 && git_has_changes h && git_commit_ok h),
           mkWorld
             (if is_yes (lower (strip raw)) then
                if git_add_ok h && git_has_changes h
                then git_commit_writes h (git_add_writes h f)
                else git_add_writes h f
              else f)
             rest (lg ++ lg') tr)).
Proof.
  split.
  - intros H w. apply handle_git_unavailable. exact H.
  - intros H f raw rest lg tr. apply handle_git_answered. exact H.
Qed.

(** ** The loop of [run]: the apps it reports *)

(** X19.  When the source directory, the apps directory of Splunk and the
    backup directory do not lie inside each other and no app was selected
    twice, every app that the loop of [run] reports as deployed is in
    place when the loop ends, whatever happened to the apps after it: its
    directory under the apps directory holds the same tree as its source
    directory, default/app.conf and metadata/default.meta are there, and
    the version read from it is the one reported when that has the form
    MAJOR.MINOR.PATCH. *)
Theorem reported_apps_are_deployed (m : manager) (dir : path)
    (envs : nat -> unit_env) (selected : list text) (w w' : world)
    (deployed : list (text * text)) :
  apart (apps_source_dir m) dir ->
  apart (backup_dir m) dir ->
  apart (backup_dir m) (apps_source_dir m) ->
  NoDup selected ->
  deploy_selected m dir envs 0 selected [] w = (Done deployed, w') ->
  forall a v, In (a, v) deployed -> deployed_as m dir (fs w') a v.
Proof.
  intros H1 H2 H3 Hnd H.
  apply (deploy_selected_state m dir H1 H2 H3 envs selected 0 [] w deployed w'
           Hnd); [|exact H].
  intros a v [].
Qed.

Lemma reported_apps_are_deployed_witness :
  apart (apps_source_dir example_manager) example_apps_dir
  /\ apart (backup_dir example_manager) example_apps_dir
  /\ apart (backup_dir example_manager) (apps_source_dir example_manager)
  /\ NoDup [txt "appA"; txt "appB"]
  /\ deploy_selected example_manager example_apps_dir (fun _ => example_env) 0
       [txt "appA"; txt "appB"] []
       (example_world [Typed (txt "2.0.0"); Typed []])
     = (Done [(txt "appA", txt "2.0.0")], snd example_loop)
  /\ forall a v,
       In (a, v) [(txt "appA", txt "2.0.0")] ->
       deployed_as example_manager example_apps_dir (fs (snd example_loop))
         a v.
Proof.
  assert (H1 : apart (apps_source_dir example_manager) example_apps_dir)
    by (apply apart_heads; discriminate).
  assert (H2 : apart (backup_dir example_manager) example_apps_dir)
    by (apply apart_heads; discriminate).
  assert (H3 : apart (backup_dir example_manager)
                 (apps_source_dir example_manager))
    by (apply apart_heads; discriminate).
  assert (Hnd : NoDup [txt "appA"; txt "appB"]).
  { constructor; [|constructor; [intros []|constructor]].
    intros [E|[]]. discriminate E. }
  assert (H : deploy_selected example_manager example_apps_dir
                (fun _ => example_env) 0 [txt "appA"; txt "appB"] []
                (example_world [Typed (txt "2.0.0"); Typed []])
              = (Done [(txt "appA", txt "2.0.0")], snd example_loop))
    by (vm_compute; reflexivity).
  split; [exact H1|]. split; [exact H2|]. split; [exact H3|].
  split; [exact Hnd|]. split; [exact H|].
  exact (reported_apps_are_deployed example_manager example_apps_dir
           (fun _ => example_env) [txt "appA"; txt "appB"]
           (example_world [Typed (txt "2.0.0"); Typed []])
           (snd example_loop) [(txt "appA", txt "2.0.0")] H1 H2 H3 Hnd H).
Defined.

(** ** [_set_app_permissions]: the modes set *)

(** X20.  In a tree in which no directory lists a name twice, and when no
    [os.chmod] fails, [_set_app_permissions] calls [os.chmod] exactly once
    for every entry below the directory of the app, at any depth, and for
    nothing else, the directory of the app included.  A directory gets
    mode 0o755; a file gets 0o755 when its name ends in .py or .sh and
    0o644 otherwise.  Nothing is logged, and nothing is called when the
    directory of the app is missing. *)
Theorem permissions_cover_app (chmod_fails : path -> bool) (app_dir : path)
    (w : world) :
  well_formed (fs w) = true ->
  (forall p, chmod_fails p = false) ->
  exists calls,
    set_app_permissions chmod_fails app_dir w = (Done calls, w)
    /\ NoDup (map fst calls)
    /\ forall p md,
         In (p, md) calls <->
         exists q c,
           q <> [] /\ p = app_dir ++ q /\ lookup_path (fs w) p = Some c
           /\ md = entry_mode (last q []) c.
Proof.
  intros Hw Hf. exists (chmod_plan (fs w) app_dir).
  rewrite set_app_permissions_run, until_failure_none by (intros; apply Hf).
  split; [reflexivity|]. apply chmod_plan_calls. exact Hw.
Qed.

Lemma permissions_cover_app_witness :
  well_formed (fs (example_world [])) = true
  /\ (forall p : path, (fun _ : path => false) p = false)
  /\ exists calls,
       set_app_permissions (fun _ => false) (example_source ++ [txt "appA"])
         (example_world []) = (Done calls, example_world [])
       /\ NoDup (map fst calls)
       /\ forall p md,
            In (p, md) calls <->
            exists q c,
              q <> [] /\ p = (example_source ++ [txt "appA"]) ++ q
              /\ lookup_path (fs (example_world [])) p = Some c
              /\ md = entry_mode (last q []) c.
Proof.
  assert (Hw : well_formed (fs (example_world [])) = true)
    by (vm_compute; reflexivity).
  assert (Hf : forall p : path, (fun _ : path => false) p = false)
    by (intros p; reflexivity).
  split; [exact Hw|]. split; [exact Hf|].
  exact (permissions_cover_app (fun _ => false)
           (example_source ++ [txt "appA"]) (example_world []) Hw Hf).
Defined.

(** X21.  [_set_app_permissions] never raises.  When a call of
    [os.chmod] fails, the calls before it have been made, in the order of
    the walk, no call after it is made, and one warning is logged;
    otherwise all calls are made and nothing is logged.  The file system,
    the input and the started operations are as before. *)
Theorem permissions_stop_at_failure (chmod_fails : path -> bool)
    (app_dir : path) (w : world) :
  exists made rest lg,
    set_app_permissions chmod_fails app_dir w
    = (Done made, mkWorld (fs w) (stdin w) (log w ++ lg) (trace w))
    /\ chmod_plan (fs w) app_dir = made ++ rest
    /\ Forall (fun c => chmod_fails (fst c) = false) made
    /\ ((rest = [] /\ lg = [])
        \/ (exists c r,
              rest = c :: r /\ chmod_fails (fst c) = true
              /\ lg = [(WARNING, txt "Failed to set some permissions")])).
Proof.
  rewrite set_app_permissions_run.
  destruct (until_failure chmod_fails (chmod_plan (fs w) app_dir))
    as [made ok] eqn:U.
  destruct (until_failure_prefix _ _ _ _ U) as [rest [E [Hm Hr]]].
  destruct ok.
  - exists made, rest, []. rewrite app_nil_r. destruct w as [f i l t]. cbn [fs stdin log trace].
    split; [reflexivity|]. split; [exact E|]. split; [exact Hm|]. left. auto.
  - destruct Hr as [c [r [-> Hc]]]. eexists made, (c :: r), _.
    split; [reflexivity|]. split; [exact E|]. split; [exact Hm|].
    right. exists c, r. auto.
Qed.

(** ** [deploy_app]: the tree that is replaced *)

(** X22.  When the backup directory lies apart from the source directory
    of the app and from its target directory, the tree that was at the
    target is not lost by [deploy_app], whatever the call returns and
    whichever step fails: afterwards it is still at the target, or the
    complete archive of it is in the backup directory. *)
Theorem replaced_tree_is_kept (m : manager) (app : text) (dir : path)
    (version : text) (env : unit_env) (w w' : world) (ok : bool)
    (tree : node) :
  apart (backup_dir m) (apps_source_dir m ++ [app]) ->
  apart (backup_dir m) (dir ++ [app]) ->
  lookup_path (fs w) (dir ++ [app]) = Some tree ->
  deploy_app m app (dir ++ [app]) version env w = (Done ok, w') ->
  lookup_path (fs w') (dir ++ [app]) = Some tree
  \/ lookup_path (fs w') (archive_path m app env)
     = Some (Tarball app tree true).
Proof.
  intros Hs Hd Ht. rewrite deploy_app_run.
  destruct (deploy_result m app (dir ++ [app]) version env (fs w))
    as [[[b f'] lg] ops] eqn:R.
  unfold apply_effect. intros H. inversion H; subst. clear H.
  cbn [fs evolve]. apply (deploy_result_keeps_tree _ _ _ _ _ _ _ _ _ _ _ R Ht Hs Hd).
Qed.

Lemma replaced_tree_is_kept_witness :
  apart (backup_dir example_manager)
    (apps_source_dir example_manager ++ [txt "appA"])
  /\ apart (backup_dir example_manager) (example_apps_dir ++ [txt "appA"])
  /\ lookup_path (fs (example_world [])) (example_apps_dir ++ [txt "appA"])
     = Some (Dir [])
  /\ deploy_app example_manager (txt "appA")
       (example_apps_dir ++ [txt "appA"]) (txt "2.0.0") example_env
       (example_world []) = (Done true, snd example_deploy)
  /\ (lookup_path (fs (snd example_deploy)) (example_apps_dir ++ [txt "appA"])
      = Some (Dir [])
      \/ lookup_path (fs (snd example_deploy))
           (archive_path example_manager (txt "appA") example_env)
         = Some (Tarball (txt "appA") (Dir []) true)).
Proof.
  assert (Hs : apart (backup_dir example_manager)
                 (apps_source_dir example_manager ++ [txt "appA"]))
    by (apply apart_heads; discriminate).
  assert (Hd : apart (backup_dir example_manager)
                 (example_apps_dir ++ [txt "appA"]))
    by (apply apart_heads; discriminate).
  assert (Ht : lookup_path (fs (example_world []))
                 (example_apps_dir ++ [txt "appA"]) = Some (Dir []))
    by (vm_compute; reflexivity).
  assert (H : deploy_app example_manager (txt "appA")
                (example_apps_dir ++ [txt "appA"]) (txt "2.0.0") example_env
                (example_world []) = (Done true, snd example_deploy))
    by (vm_compute; reflexivity).
  split; [exact Hs|]. split; [exact Hd|]. split; [exact Ht|].
  split; [exact H|].
  exact (replaced_tree_is_kept example_manager (txt "appA") example_apps_dir
           (txt "2.0.0") example_env (example_world []) (snd example_deploy)
           true (Dir []) Hs Hd Ht H).
Defined.

(** ** A session that is not confirmed *)

(** X23.  When none of the lines typed reads y or yes, [main] leaves every
    file and every archive where it was, with the content it had, and adds
    none: the only change to the file system that can be made before the
    operator confirms is that directories are created (for the logs, the
    backups and the apps of Splunk).  (The log file of the session is not
    part of the tree: the entries of the logger are kept in a list.)
    This holds for every command line, accepted or not. *)
Theorem no_yes_changes_no_file (h : host) (command_line : option arguments)
    (envs : nat -> unit_env) (w : world) :
  no_yes (stdin w) = true ->
  same_files (fs w) (fs (snd (main h command_line envs w))).
Proof.
  intros Hno. unfold main.
  destruct command_line as [args|]; [|apply same_files_refl].
  destruct (arg_help args); [apply same_files_refl|].
  destruct ((m <- init_manager h args ;; run h m args envs) w)
    as [o w1] eqn:E.
  destruct (stays_quiet_session h args envs w o w1 E Hno) as [_ Hf].
  destruct o; exact Hf.
Qed.

Lemma no_yes_changes_no_file_witness :
  no_yes (stdin (example_world [Typed (txt "all"); Typed (txt "n")])) = true
  /\ same_files (fs (example_world [Typed (txt "all"); Typed (txt "n")]))
       (fs (snd (main example_host (Some example_arguments)
                   (fun _ => example_env)
                   (example_world [Typed (txt "all"); Typed (txt "n")])))).
Proof.
  assert (H : no_yes (stdin (example_world
                               [Typed (txt "all"); Typed (txt "n")])) = true)
    by (vm_compute; reflexivity).
  split; [exact H|].
  exact (no_yes_changes_no_file example_host (Some example_arguments)
           (fun _ => example_env)
           (example_world [Typed (txt "all"); Typed (txt "n")]) H).
Defined.

(** ** [deploy_app]: when it succeeds *)

(** X24.  [deploy_app] returns [True] whenever nothing stands in its way:
    no operation fails for a reason outside the tree, the version has the
    form MAJOR.MINOR.PATCH, the four required paths of the source exist,
    the descriptor is not a directory and is read without error into a
    configuration without a percent sign, the backup directory is a
    directory and nothing but a file can lie at the place of the archive,
    the apps directory is a directory, what lies at the target is a
    directory if anything, and the backup directory, the source of the app
    and its target lie apart. *)
Theorem deploy_app_succeeds (m : manager) (app : text) (dir : path)
    (version : text) (env : unit_env) (w : world) (cfg : config) :
  no_fault env ->
  Triple version ->
  apart (backup_dir m) (apps_source_dir m ++ [app]) ->
  apart (backup_dir m) (dir ++ [app]) ->
  apart (apps_source_dir m ++ [app]) (dir ++ [app]) ->
  (forall r, In r (required_dirs ++ required_files) ->
             path_exists (fs w) (apps_source_dir m ++ [app] ++ r) = true) ->
  is_dir (fs w) (apps_source_dir m ++ [app] ++ app_conf) = false ->
  read_config (fs w) (apps_source_dir m ++ [app] ++ app_conf)
    (read_unreadable env) = Some cfg ->
  no_percent cfg ->
  is_dir (fs w) (backup_dir m) = true ->
  is_dir (fs w) (archive_path m app env) = false ->
  is_dir (fs w) dir = true ->
  (path_exists (fs w) (dir ++ [app]) = true ->
   is_dir (fs w) (dir ++ [app]) = true) ->
  exists w', deploy_app m app (dir ++ [app]) version env w = (Done true, w').
Proof.
  intros NF TV A1 A2 A3 V DF RC NP BD AD DD TD. rewrite deploy_app_run.
  destruct (deploy_result_succeeds m app dir version env NF TV A1 A2 A3
              (fs w) cfg V DF RC NP BD AD DD TD) as [f3 [lg [ops ->]]].
  eexists. reflexivity.
Qed.

Lemma deploy_app_succeeds_witness :
  no_fault example_env
  /\ Triple (txt "2.0.0")
  /\ apart (backup_dir example_manager)
       (apps_source_dir example_manager ++ [txt "appA"])
  /\ apart (backup_dir example_manager) (example_apps_dir ++ [txt "appA"])
  /\ apart (apps_source_dir example_manager ++ [txt "appA"])
       (example_apps_dir ++ [txt "appA"])
  /\ (forall r, In r (required_dirs ++ required_files) ->
                path_exists (fs (example_world []))
                  (apps_source_dir example_manager ++ [txt "appA"] ++ r)
                = true)
  /\ is_dir (fs (example_world []))
       (apps_source_dir example_manager ++ [txt "appA"] ++ app_conf) = false
  /\ read_config (fs (example_world []))
       (apps_source_dir example_manager ++ [txt "appA"] ++ app_conf)
       (read_unreadable example_env) = Some example_config
  /\ no_percent example_config
  /\ is_dir (fs (example_world [])) (backup_dir example_manager) = true
  /\ is_dir (fs (example_world []))
       (archive_path example_manager (txt "appA") example_env) = false
  /\ is_dir (fs (example_world [])) example_apps_dir = true
  /\ (path_exists (fs (example_world []))
        (example_apps_dir ++ [txt "appA"]) = true ->
      is_dir (fs (example_world []))
        (example_apps_dir ++ [txt "appA"]) = true)
  /\ exists w',
       deploy_app example_manager (txt "appA")
         (example_apps_dir ++ [txt "appA"]) (txt "2.0.0") example_env
         (example_world []) = (Done true, w').
Proof.
  assert (NF : no_fault example_env) by (repeat split).
  assert (A1 : apart (backup_dir example_manager)
                 (apps_source_dir example_manager ++ [txt "appA"]))
    by (apply apart_heads; discriminate).
  assert (A2 : apart (backup_dir example_manager)
                 (example_apps_dir ++ [txt "appA"]))
    by (apply apart_heads; discriminate).
  assert (A3 : apart (apps_source_dir example_manager ++ [txt "appA"])
                 (example_apps_dir ++ [txt "appA"]))
    by (apply apart_heads; discriminate).
  assert (V : forall r, In r (required_dirs ++ required_files) ->
                path_exists (fs (example_world []))
                  (apps_source_dir example_manager ++ [txt "appA"] ++ r)
                = true).
  { intros r [<-|[<-|[<-|[<-|[]]]]]; vm_compute; reflexivity. }
  assert (DF : is_dir (fs (example_world []))
                 (apps_source_dir example_manager ++ [txt "appA"] ++ app_conf)
               = false) by (vm_compute; reflexivity).
  assert (RC : read_config (fs (example_world []))
                 (apps_source_dir example_manager ++ [txt "appA"] ++ app_conf)
                 (read_unreadable example_env) = Some example_config)
    by (vm_compute; reflexivity).
  assert (NP : no_percent example_config)
    by (vm_compute; repeat constructor).
  assert (BD : is_dir (fs (example_world [])) (backup_dir example_manager)
               = true) by (vm_compute; reflexivity).
  assert (AD : is_dir (fs (example_world []))
                 (archive_path example_manager (txt "appA") example_env)
               = false) by (vm_compute; reflexivity).
  assert (DD : is_dir (fs (example_world [])) example_apps_dir = true)
    by (vm_compute; reflexivity).
  assert (TD : path_exists (fs (example_world []))
                 (example_apps_dir ++ [txt "appA"]) = true ->
               is_dir (fs (example_world []))
                 (example_apps_dir ++ [txt "appA"]) = true)
    by (intros _; vm_compute; reflexivity).
  split; [exact NF|]. split; [exact Triple_2_0_0|]. split; [exact A1|].
  split; [exact A2|]. split; [exact A3|]. split; [exact V|].
  split; [exact DF|]. split; [exact RC|]. split; [exact NP|].
  split; [exact BD|]. split; [exact AD|]. split; [exact DD|].
  split; [exact TD|].
  exact (deploy_app_succeeds example_manager (txt "appA") example_apps_dir
           (txt "2.0.0") example_env (example_world []) example_config
           NF Triple_2_0_0 A1 A2 A3 V DF RC NP BD AD DD TD).
Defined.
